(** * SOMAS: conflict matrix, ref-node and contiguous preprocessing, cache load

    A shallow embedding of the parts of
    [mindspore/ccsrc/backend/common/somas/somas.cc] that build the registry
    of nodes and tensors from a kernel graph, build the reuse matrix, fold
    ref-node and contiguous constraints into it, propagate the solved
    offsets and load a cached layout.

    Conventions of the embedding.
    - A [SomasTensorPtr] is represented by the id of the tensor it points to.
      The registry creates exactly one object per id and stores it both in
      [tensors_list_] (at the index equal to the id) and in [tensors_map_]
      (under the id), see [InitSomasOutputAndWorkspaceTensors] and
      [InitSomasEventInfos]; the store of tensor objects is therefore the
      list [tensors_list_] itself, read and written by id.
    - Node ids, tensor ids and indices are [nat]; byte sizes and offsets are
      [size_t] values, kept in [N] with the 64-bit wrap-around written out.
    - Reads outside a vector are undefined in C++; the embedding returns a
      default there ([false] for a bit, [None] for an object) and the
      theorems say where in-range hypotheses are needed.

    The file has five parts: the functions of [somas.cc], the properties
    that the statements use, the example registries, the lemmas with the
    claims C1 to C10, and further properties of the planner (X1 to X30). *)

From stdpp Require Import base tactics option list numbers sorting relations strings.
From Stdlib Require Import NArith Lia Relations.

#[local] Open Scope N_scope.
#[local] Open Scope nat_scope.

(** ** Enumerations and constants *)

Inductive LifeLongType : Set :=
  | kLifeLongNone | kLifeLongGraphAll | kLifeLongGraphStart | kLifeLongGraphEnd.

Inductive NodeType : Set := kCommonNode | kCommunicationNode.

Inductive TensorType : Set :=
  | kCommon | kOutputOnly | kWorkspace | kGetNextOutput | kSummaryInput
  | kRefNodeInput | kRefNodeOutput | kEventVirtualOutput | kUnknown.

#[global] Instance LifeLongType_eq_dec : EqDecision LifeLongType.
Proof. solve_decision. Defined.
#[global] Instance NodeType_eq_dec : EqDecision NodeType.
Proof. solve_decision. Defined.
#[global] Instance TensorType_eq_dec : EqDecision TensorType.
Proof. solve_decision. Defined.

Definition kGapSize : N := 512%N.
Definition kRetryIntervalSeconds : N := 500%N.
Definition kRefNodeTensorNum : nat := 2.
Definition kOnlyOneDestinationNode : nat := 1.
Definition kOnlyTwoDestinationNode : nat := 2.
Definition kCachedResultThreshold : nat := 2000.

(** [size_t] arithmetic: addition wraps at 2^64. *)
Definition size_t_modulus : N := (2 ^ 64)%N.
Definition size_t_add (a b : N) : N := ((a + b) mod size_t_modulus)%N.

(** ** DynamicBitSet *)

(** Modelled from the spec: the class [DynamicBitSet] is declared in
    [somas_solver_pre.h], which is not part of the sources at hand.  The
    spec describes the reuse matrix as a boolean relation over ids and the
    dependency table as one bitset per node of size node-count; a bitset
    created for [count] bits is a vector of [count] booleans, all false. *)
Abbreviation DynamicBitSet := (list bool) (only parsing).

Definition NewDynamicBitSet (count : nat) : DynamicBitSet := replicate count false.
Definition SetBitTrue (index : nat) (b : DynamicBitSet) : DynamicBitSet := <[index := true]> b.
Definition SetBitFalse (index : nat) (b : DynamicBitSet) : DynamicBitSet := <[index := false]> b.
Definition IsBitTrue (b : DynamicBitSet) (index : nat) : bool := default false (b !! index).

(** [Union(a, b)]: [a |= b], over the width of [a]. *)
Definition Union (a b : DynamicBitSet) : DynamicBitSet :=
  imap (fun i x => x || IsBitTrue b i) a.

(** A vector of bitsets, one row per id: [nodes_dependency] and
    [reuse_matrix_]. *)
Abbreviation BitMatrix := (list (list bool)) (only parsing).

Definition NewBitMatrix (count : nat) : BitMatrix := replicate count (NewDynamicBitSet count).
Definition Row (m : BitMatrix) (i : nat) : DynamicBitSet := default [] (m !! i).
Definition Bit (m : BitMatrix) (i j : nat) : bool := IsBitTrue (Row m i) j.

(** [m[i].SetBitTrue(j)] and [m[i].SetBitFalse(j)]. *)
Definition MatSetTrue (i j : nat) (m : BitMatrix) : BitMatrix := <[i := SetBitTrue j (Row m i)]> m.
Definition MatSetFalse (i j : nat) (m : BitMatrix) : BitMatrix := <[i := SetBitFalse j (Row m i)]> m.

(** ** Registry objects *)

(** The members of [SomasTensor] that the modelled functions read or write
    (the class is declared in [somas_tensor.h]; the members are taken as
    [somas.cc] uses them). *)
Record SomasTensor : Type := mkTensor {
  id_ : nat;
  source_node_id_ : nat;
  source_stream_id_ : nat;
  original_size_ : N;
  aligned_size_ : N;
  lifelong_value_ : LifeLongType;
  type_ : TensorType;
  lifetime_start_ : nat;
  lifetime_end_ : nat;
  contiguous_ : bool;
  offset_ : N;
  destination_nodes_ : list nat;
  consumer_list_ : list nat
}.

(** Modelled from the spec: the inline predicates of [SomasTensor]
    ([somas_tensor.h] is not part of the sources at hand).  A lifelong tensor
    is GraphAll; GraphStart and GraphEnd are the semi-lifelong classes. *)
Definition IsLifelong (t : SomasTensor) : bool := bool_decide (lifelong_value_ t = kLifeLongGraphAll).
Definition IsSemiLifelongStart (t : SomasTensor) : bool :=
  bool_decide (lifelong_value_ t = kLifeLongGraphStart).
Definition IsSemiLifelongEnd (t : SomasTensor) : bool :=
  bool_decide (lifelong_value_ t = kLifeLongGraphEnd).

(** The members of [SomasNode] that the modelled functions read or write; a
    pointer to a tensor or to a node is the id of the object. *)
Record SomasNode : Type := mkNode {
  node_id_ : nat;
  stream_id_ : nat;
  node_type_ : NodeType;
  input_tensors_ : list nat;
  output_tensors_ : list nat;
  workspace_tensors_ : list nat;
  ancestor_nodes_ : list nat
}.

(** [TensorConflictInfo]: the source node and the consumers of a candidate
    tensor.  [l] and [r] are the two unions of the C++ struct: a node id when
    the tensor has one or two consumers, otherwise the bounds of its range in
    the shared destination list. *)
Record TensorConflictInfo : Type := mkInfo {
  tensor_id_ : nat;
  src_node_id_ : nat;
  destination_num : nat;
  l : nat;
  r : nat
}.

Definition NewTensorConflictInfo (tid src : nat) : TensorConflictInfo :=
  mkInfo tid src 0 0 0.

(** ** Conflict matrix builder *)

(** [Somas::BuildConflictInfo]. *)
Definition BuildConflictInfo (tensor : SomasTensor) (info : TensorConflictInfo)
    (destination_node_list : list nat) : TensorConflictInfo * list nat :=
  let consumer_list := consumer_list_ tensor in
  let num := length consumer_list in
  if decide (num = kOnlyOneDestinationNode) then
    (mkInfo (tensor_id_ info) (src_node_id_ info) num (default 0 (last consumer_list)) (r info),
     destination_node_list)
  else if decide (num = kOnlyTwoDestinationNode) then
    (mkInfo (tensor_id_ info) (src_node_id_ info) num
       (default 0 (consumer_list !! 0)) (default 0 (consumer_list !! 1)),
     destination_node_list)
  else
    let dl := destination_node_list ++ consumer_list in
    (mkInfo (tensor_id_ info) (src_node_id_ info) num (length destination_node_list) (length dl), dl).

(** One test of the loops of [CheckIsDependency]: the consumer [dst] is done
    before node [src] starts. *)
Definition consumer_done (nodes_dependency : BitMatrix) (src dst : nat) : bool :=
  Bit nodes_dependency src dst && negb (bool_decide (src = dst)).

(** [Somas::CheckIsDependency]. *)
Definition CheckIsDependency (info : TensorConflictInfo) (src_node_id : nat)
    (nodes_dependency : BitMatrix) (destination_node_list : list nat) : bool :=
  if decide (destination_num info = kOnlyOneDestinationNode) then
    if negb (Bit nodes_dependency src_node_id (l info)) || bool_decide (src_node_id = l info)
    then false else true
  else if decide (destination_num info = kOnlyTwoDestinationNode) then
    if negb (Bit nodes_dependency src_node_id (l info))
       || negb (Bit nodes_dependency src_node_id (r info))
       || bool_decide (src_node_id = l info) || bool_decide (src_node_id = r info)
    then false else true
  else
    forallb (fun i =>
               let dst_node_id := default 0 (destination_node_list !! i) in
               negb (negb (Bit nodes_dependency src_node_id dst_node_id)
                     || bool_decide (src_node_id = dst_node_id)))
            (seq (l info) (r info - l info)).

(** [Somas::ComputeOneTensorConflicts]. *)
Definition ComputeOneTensorConflicts (target_tensor : SomasTensor)
    (tensor_conflict_info_list : list TensorConflictInfo)
    (destination_node_list : list nat) (nodes_dependency : BitMatrix)
    (tensor_relation : BitMatrix) : BitMatrix :=
  let target_tensor_id := id_ target_tensor in
  let target_src_node_id := source_node_id_ target_tensor in
  let '(target_info, target_destination_node_list) :=
    BuildConflictInfo target_tensor
      (NewTensorConflictInfo (id_ target_tensor) (source_node_id_ target_tensor)) [] in
  foldl (fun rel info =>
           if bool_decide (tensor_id_ info = target_tensor_id)
              || bool_decide (src_node_id_ info = target_src_node_id)
           then rel
           else if CheckIsDependency info target_src_node_id nodes_dependency destination_node_list
                   || CheckIsDependency target_info (src_node_id_ info) nodes_dependency
                        target_destination_node_list
                then MatSetTrue target_tensor_id (tensor_id_ info) rel
                else rel)
        tensor_relation tensor_conflict_info_list.

(** [Somas::ComputeMultiTensorConflicts]. *)
Definition ComputeMultiTensorConflicts (target_tensors_list : list SomasTensor)
    (tensor_conflict_info_list : list TensorConflictInfo)
    (destination_node_list : list nat) (nodes_dependency : BitMatrix)
    (tensor_relation : BitMatrix) : BitMatrix :=
  foldl (fun rel target_tensor =>
           ComputeOneTensorConflicts target_tensor tensor_conflict_info_list
             destination_node_list nodes_dependency rel)
        tensor_relation target_tensors_list.

(** The candidate loop of [Somas::ComputeConflictPairs]: every tensor that is
    neither lifelong nor of aligned size 0 becomes a candidate, gets a
    conflict info, and has its consumers recorded. *)
Definition is_candidate (t : SomasTensor) : bool :=
  negb (IsLifelong t || bool_decide (aligned_size_ t = 0%N)).

Definition candidate_step
    (acc : list SomasTensor * list TensorConflictInfo * list nat) (calc_tensor : SomasTensor)
    : list SomasTensor * list TensorConflictInfo * list nat :=
  let '(candidate_tensor_list, tensor_conflict_info_list, destination_node_list) := acc in
  if IsLifelong calc_tensor || bool_decide (aligned_size_ calc_tensor = 0%N)
  then acc
  else
    let '(info, destination_node_list') :=
      BuildConflictInfo calc_tensor
        (NewTensorConflictInfo (id_ calc_tensor) (source_node_id_ calc_tensor))
        destination_node_list in
    (candidate_tensor_list ++ [calc_tensor],
     tensor_conflict_info_list ++ [info],
     destination_node_list').

Definition BuildCandidateLists (tensors_list : list SomasTensor)
    : list SomasTensor * list TensorConflictInfo * list nat :=
  foldl candidate_step ([], [], []) tensors_list.

(** [count = tensors_list_.back()->GetId() + 1] (the caller has returned
    before when the list is empty). *)
Definition TensorCount (tensors_list : list SomasTensor) : nat :=
  match last tensors_list with
  | Some t => id_ t + 1
  | None => 0
  end.

(** The all-pairs stage of [ComputeConflictPairs] (single-thread branch): the
    reuse matrix is created with all bits false and every candidate, taken in
    the order [target_tensors_list] that the shuffle produced, is compared
    with every candidate. *)
Definition ComputeAllPairs (tensors_list target_tensors_list : list SomasTensor)
    (nodes_dependency : BitMatrix) : BitMatrix :=
  let '(_, tensor_conflict_info_list, destination_node_list) :=
    BuildCandidateLists tensors_list in
  ComputeMultiTensorConflicts target_tensors_list tensor_conflict_info_list
    destination_node_list nodes_dependency (NewBitMatrix (TensorCount tensors_list)).

(** The body of the inner loop of [Somas::ProcessSemiLifeLongTensor].
    [calc_tensor == target_tensor] compares pointers, that is ids. *)
Definition semi_target_step (calc_tensor : SomasTensor) (reuse_matrix : list (list bool))
    (target_tensor : SomasTensor) : list (list bool) :=
  if bool_decide (id_ calc_tensor = id_ target_tensor) then reuse_matrix
  else if (IsSemiLifelongStart calc_tensor && bool_decide (id_ target_tensor < id_ calc_tensor))
          || (IsSemiLifelongEnd calc_tensor && bool_decide (id_ calc_tensor < id_ target_tensor))
       then MatSetFalse (id_ target_tensor) (id_ calc_tensor)
              (MatSetFalse (id_ calc_tensor) (id_ target_tensor) reuse_matrix)
       else reuse_matrix.

(** The body of its outer loop. *)
Definition semi_calc_step (tensors_list : list SomasTensor) (reuse_matrix : list (list bool))
    (calc_tensor : SomasTensor) : list (list bool) :=
  if negb (IsSemiLifelongStart calc_tensor) && negb (IsSemiLifelongEnd calc_tensor)
  then reuse_matrix
  else foldl (semi_target_step calc_tensor) reuse_matrix tensors_list.

(** [Somas::ProcessSemiLifeLongTensor]. *)
Definition ProcessSemiLifeLongTensor (tensors_list : list SomasTensor)
    (reuse_matrix : list (list bool)) : list (list bool) :=
  foldl (semi_calc_step tensors_list) reuse_matrix tensors_list.

(** ** The dependency table *)

(** One iteration of the inner loop of the path computation of
    [Somas::ComputeConflictPairs]:
    [nodes_dependency[node].SetBitTrue(ancestor);
     Union(&nodes_dependency[node], &nodes_dependency[ancestor])]. *)
Definition ancestor_step (node_id : nat) (nodes_dependency : list (list bool)) (ancestor : nat)
    : list (list bool) :=
  let nd1 := MatSetTrue node_id ancestor nodes_dependency in
  <[node_id := Union (Row nd1 node_id) (Row nd1 ancestor)]> nd1.

(** [count = nodes_list_.back()->GetId() + 1]. *)
Definition NodeCount (nodes_list : list SomasNode) : nat :=
  match last nodes_list with
  | Some node => node_id_ node + 1
  | None => 0
  end.

(** The path computation: one bitset per node, filled in the order of
    [nodes_list_] (sorted by id) from the direct ancestors of each node. *)
Definition ComputeNodesDependency (nodes_list : list SomasNode) : list (list bool) :=
  foldl (fun nd node => foldl (ancestor_step (node_id_ node)) nd (ancestor_nodes_ node))
        (NewBitMatrix (NodeCount nodes_list)) nodes_list.

(** ** Outcomes of fallible steps *)

(** A step of the planner returns, raises the fatal exception of
    [MS_LOG(EXCEPTION)], or runs into undefined behaviour (a null
    [SomasTensorPtr] obtained from [tensors_map_[id]] for an id that is not
    registered, [v[0]] on an empty vector). *)
Inductive Outcome (A : Type) : Type :=
  | Done (a : A)
  | Exception (what : string)
  | Undefined.
Arguments Done {A} a.
Arguments Exception {A} what.
Arguments Undefined {A}.

#[global] Instance Outcome_ret : MRet Outcome := fun A a => Done a.
#[global] Instance Outcome_bind : MBind Outcome := fun A B f m =>
  match m with
  | Done a => f a
  | Exception what => Exception what
  | Undefined => Undefined
  end.

(** [tensors_map_[tid]], dereferenced. *)
Definition get_tensor (tensors_list : list SomasTensor) (tid : nat) : Outcome SomasTensor :=
  match tensors_list !! tid with
  | Some t => Done t
  | None => Undefined
  end.

(** Field updates of a tensor object. *)
Definition with_aligned_size (v : N) (t : SomasTensor) : SomasTensor :=
  mkTensor (id_ t) (source_node_id_ t) (source_stream_id_ t) (original_size_ t) v
    (lifelong_value_ t) (type_ t) (lifetime_start_ t) (lifetime_end_ t) (contiguous_ t)
    (offset_ t) (destination_nodes_ t) (consumer_list_ t).

Definition with_offset (v : N) (t : SomasTensor) : SomasTensor :=
  mkTensor (id_ t) (source_node_id_ t) (source_stream_id_ t) (original_size_ t) (aligned_size_ t)
    (lifelong_value_ t) (type_ t) (lifetime_start_ t) (lifetime_end_ t) (contiguous_ t)
    v (destination_nodes_ t) (consumer_list_ t).

Definition with_contiguous (v : bool) (t : SomasTensor) : SomasTensor :=
  mkTensor (id_ t) (source_node_id_ t) (source_stream_id_ t) (original_size_ t) (aligned_size_ t)
    (lifelong_value_ t) (type_ t) (lifetime_start_ t) (lifetime_end_ t) v
    (offset_ t) (destination_nodes_ t) (consumer_list_ t).

(** [tensors_map_[tid]->field = ...]. *)
Definition update_tensor (tid : nat) (f : SomasTensor → SomasTensor)
    (tensors_list : list SomasTensor) : Outcome (list SomasTensor) :=
  t ← get_tensor tensors_list tid; Done (<[tid := f t]> tensors_list).

(** The offset stored for a tensor id, [0] when there is no such tensor. *)
Definition offset_of (tensors_list : list SomasTensor) (tid : nat) : N :=
  match tensors_list !! tid with
  | Some t => offset_ t
  | None => 0%N
  end.

Definition aligned_size_of (tensors_list : list SomasTensor) (tid : nat) : N :=
  match tensors_list !! tid with
  | Some t => aligned_size_ t
  | None => 0%N
  end.

(** ** Ref-node preprocessing and postprocessing *)

(** The innermost loop of [Somas::UpdateRefTensorsConflict]: the first member
    [tid] of the group that may not reuse tensor [z] clears the bit of the
    first tensor and its mirror, and ends the loop. *)
Fixpoint ref_member_loop (members : list nat) (tid_0 z : nat) (reuse_matrix : list (list bool))
    : list (list bool) :=
  match members with
  | [] => reuse_matrix
  | tid :: rest =>
      if negb (Bit reuse_matrix tid z)
      then MatSetFalse z tid_0 (MatSetFalse tid_0 z reuse_matrix)
      else ref_member_loop rest tid_0 z reuse_matrix
  end.

(** The body of its loop over [tensors_list_]; of the tensor it reads the
    id [z] only. *)
Definition ref_tensor_step (ref_node_list : list nat) (tid_0 : nat)
    (reuse_matrix : list (list bool)) (z : nat) : list (list bool) :=
  if negb (Bit reuse_matrix tid_0 z) then reuse_matrix
  else ref_member_loop ref_node_list tid_0 z reuse_matrix.

(** Its second loop: the members after the first get aligned size 0 unless
    they are contiguous. *)
Definition ref_zero_sizes (ref_node_list : list nat) (tensors_list : list SomasTensor)
    : Outcome (list SomasTensor) :=
  foldl (fun acc tid =>
           tl ← acc;
           t ← get_tensor tl tid;
           if negb (contiguous_ t) then Done (<[tid := with_aligned_size 0%N t]> tl) else Done tl)
        (Done tensors_list) (drop 1 ref_node_list).

(** One iteration of the loop over [ref_node_constraints_]. *)
Definition ref_group_step (acc : Outcome (list SomasTensor * list (list bool)))
    (ref_node_list : list nat) : Outcome (list SomasTensor * list (list bool)) :=
  '(tensors_list, reuse_matrix) ← acc;
  match ref_node_list with
  | [] => Undefined
  | tid_0 :: _ =>
      let reuse_matrix' :=
        foldl (ref_tensor_step ref_node_list tid_0) reuse_matrix (id_ <$> tensors_list) in
      tensors_list' ← ref_zero_sizes ref_node_list tensors_list;
      Done (tensors_list', reuse_matrix')
  end.

(** [Somas::UpdateRefTensorsConflict]. *)
Definition UpdateRefTensorsConflict (ref_node_constraints : list (list nat))
    (tensors_list : list SomasTensor) (reuse_matrix : list (list bool))
    : Outcome (list SomasTensor * list (list bool)) :=
  foldl ref_group_step (Done (tensors_list, reuse_matrix)) ref_node_constraints.

(** The matrix part of [UpdateRefTensorsConflict] alone, over the ids [zs]
    of the registered tensors: what one group does to the matrix, and what
    all groups do. *)
Definition ref_group_matrix (zs : list nat) (reuse_matrix : list (list bool))
    (ref_node_list : list nat) : list (list bool) :=
  foldl (ref_tensor_step ref_node_list (default 0 (head ref_node_list))) reuse_matrix zs.

Definition RefTensorsConflictMatrix (ref_node_constraints : list (list nat))
    (zs : list nat) (reuse_matrix : list (list bool)) : list (list bool) :=
  foldl (ref_group_matrix zs) reuse_matrix ref_node_constraints.

(** [Somas::UpdateRefTensorsOffset]: one group, then all groups. *)
Definition ref_offset_group (acc : Outcome (list SomasTensor)) (ref_node_list : list nat)
    : Outcome (list SomasTensor) :=
  foldl (fun acc tid =>
           tl ← acc;
           first ← get_tensor tl (default 0 (head ref_node_list));
           update_tensor tid (with_offset (offset_ first)) tl)
        acc (drop 1 ref_node_list).

Definition UpdateRefTensorsOffset (ref_node_constraints : list (list nat))
    (tensors_list : list SomasTensor) : Outcome (list SomasTensor) :=
  foldl ref_offset_group (Done tensors_list) ref_node_constraints.

(** [Somas::UpdateRefOverlapTensorsConflicts]. *)
Definition UpdateRefOverlapTensorsConflicts (ref_overlap_constraints : list (list nat))
    (reuse_matrix : list (list bool)) : list (list bool) :=
  foldl (fun m ref_overlap_list =>
           foldl (fun m tid_1 =>
                    foldl (fun m tid_2 => MatSetTrue tid_2 tid_1 (MatSetTrue tid_1 tid_2 m))
                          m ref_overlap_list)
                 m ref_overlap_list)
        reuse_matrix ref_overlap_constraints.

(** ** Contiguous lists *)

(** The tensor objects and the lists that [Somas::GenContiguousList] works
    on. *)
Record ContiguousState : Type := mkContiguousState {
  cs_tensors_list : list SomasTensor;
  cs_contiguous_tensors_list : list (list nat);
  cs_comm_total_size : N
}.

(** [tensor->aligned_size_ += kGapSize] when the size is not 0. *)
Definition add_gap_if_sized (t : SomasTensor) : SomasTensor :=
  if bool_decide (aligned_size_ t ≠ 0%N)
  then with_aligned_size (size_t_add (aligned_size_ t) kGapSize) t
  else t.

(** The loop over the tensors of one side of a communication node: the
    total size is accumulated and every tensor is marked contiguous. *)
Definition mark_contiguous (tensors : list nat) (tl : list SomasTensor) (total : N)
    : Outcome (list SomasTensor * N) :=
  foldl (fun acc tid =>
           '(tl, total) ← acc;
           t ← get_tensor tl tid;
           Done (<[tid := with_contiguous true t]> tl, size_t_add total (aligned_size_ t)))
        (Done (tl, total)) tensors.

(** One side (the inputs, or the outputs) of a communication node in
    [Somas::GenContiguousList].  [tensors] are the ids of
    [node->input_tensors_] (resp. [node->output_tensors_]). *)
Definition gen_contiguous_side (what : string) (tensors : list nat) (st : ContiguousState)
    : Outcome ContiguousState :=
  match tensors with
  | [] => Done st
  | first :: _ =>
      t0 ← get_tensor (cs_tensors_list st) first;
      if contiguous_ t0 then Done st
      else
        tl1 ← update_tensor first add_gap_if_sized (cs_tensors_list st);
        tl2 ← update_tensor (default first (last tensors)) add_gap_if_sized tl1;
        '(tl3, total) ← mark_contiguous tensors tl2 (cs_comm_total_size st);
        if bool_decide (length tensors ≠ length (remove_dups tensors))
        then Exception what
        else Done (mkContiguousState tl3 (cs_contiguous_tensors_list st ++ [tensors]) total)
  end.

(** [Somas::GenContiguousList].  The two totals [comm_input_total_size_] and
    [comm_output_total_size_] are kept apart by running each side on its own
    counter. *)
Definition gen_contiguous_node (acc : Outcome (ContiguousState * N)) (node : SomasNode)
    : Outcome (ContiguousState * N) :=
  '(st, comm_output_total) ← acc;
  if bool_decide (node_type_ node ≠ kCommunicationNode) then Done (st, comm_output_total)
  else
    st1 ← gen_contiguous_side "has same input tensors" (input_tensors_ node) st;
    st2 ← gen_contiguous_side "has same output tensor" (output_tensors_ node)
            (mkContiguousState (cs_tensors_list st1) (cs_contiguous_tensors_list st1)
               comm_output_total);
    Done (mkContiguousState (cs_tensors_list st2) (cs_contiguous_tensors_list st2)
            (cs_comm_total_size st1),
          cs_comm_total_size st2).

Definition GenContiguousList (nodes_list : list SomasNode) (st : ContiguousState)
    (comm_output_total : N) : Outcome (ContiguousState * N) :=
  foldl gen_contiguous_node (Done (st, comm_output_total)) nodes_list.

(** [std::map<size_t, size_t>] as an association list sorted by key. *)
Fixpoint smap_insert (k v : nat) (m : list (nat * nat)) : list (nat * nat) :=
  match m with
  | [] => [(k, v)]
  | (k', v') :: rest =>
      if k <? k' then (k, v) :: m
      else if k =? k' then (k, v) :: rest
      else (k', v') :: smap_insert k v rest
  end.

Definition smap_find (k : nat) (m : list (nat * nat)) : option nat :=
  snd <$> find (fun p => fst p =? k) m.

(** [Somas::GetRefTensorsInContiguousList]: the ref pairs both of whose
    tensors are contiguous (the other cases only warn). *)
Definition GetRefTensorsInContiguousList (ref_node_constraints : list (list nat))
    (tl : list SomasTensor) : Outcome (list (nat * nat)) :=
  foldl (fun acc ref_node_list =>
           m ← acc;
           flags ← foldl (fun acc tid =>
                            fs ← acc; t ← get_tensor tl tid; Done (fs ++ [contiguous_ t]))
                         (Done []) ref_node_list;
           let contiguous_in_ref_list := length (filter (fun b => b = true) flags) in
           match ref_node_list with
           | [a; b] =>
               if bool_decide (contiguous_in_ref_list = kRefNodeTensorNum)
               then Done (smap_insert a b m) else Done m
           | _ => Done m
           end)
        (Done []) ref_node_constraints.

(** The index of the first contiguous list that holds [tid], [0] when none
    does (the initial value of [index_first] and [index_second]). *)
Definition find_contiguous_list (contiguous_tensors_list : list (list nat)) (tid : nat) : nat :=
  match list_find (fun l => tid ∈ l) contiguous_tensors_list with
  | Some (index, _) => index
  | None => 0
  end.

(** [Somas::GetContiguousListContainRefTensor]: contiguous list of the ref
    input -> contiguous list of the ref output (the checks that only warn are
    left out). *)
Definition GetContiguousListContainRefTensor (ref_node_constraints : list (list nat))
    (contiguous_tensors_list : list (list nat)) (tl : list SomasTensor)
    : Outcome (list (nat * nat)) :=
  ref_tensors_in_contiguous_map ← GetRefTensorsInContiguousList ref_node_constraints tl;
  Done (foldl (fun m ref_pair =>
                 let index_first := find_contiguous_list contiguous_tensors_list (fst ref_pair) in
                 let index_second := find_contiguous_list contiguous_tensors_list (snd ref_pair) in
                 match smap_find index_first m with
                 | None => smap_insert index_first index_second m
                 | Some v => if v =? index_second then smap_insert index_first index_second m else m
                 end)
              [] ref_tensors_in_contiguous_map).

(** The first loop of [Somas::UpdateContiguousTensorsOffset]: the tensors of
    the list [index_second] take the offsets of the tensors of the list
    [index_first], position by position. *)
Definition contiguous_copy_step (contiguous_tensors_list : list (list nat))
    (acc : Outcome (list SomasTensor)) (ref_list_pair : nat * nat) : Outcome (list SomasTensor) :=
  tl ← acc;
  match contiguous_tensors_list !! fst ref_list_pair, contiguous_tensors_list !! snd ref_list_pair with
  | Some list_first, Some list_second =>
      foldl (fun acc x =>
               tl ← acc;
               match list_first !! x, list_second !! x with
               | Some a, Some b =>
                   src ← get_tensor tl a; update_tensor b (with_offset (offset_ src)) tl
               | _, _ => Undefined
               end)
            (Done tl) (seq 0 (length list_second))
  | _, _ => Undefined
  end.

(** Its second loop: the first tensor of every list moves up by the gap. *)
Definition contiguous_gap_step (acc : Outcome (list SomasTensor)) (contiguous_list : list nat)
    : Outcome (list SomasTensor) :=
  tl ← acc;
  match contiguous_list with
  | [] => Undefined
  | first :: _ =>
      t ← get_tensor tl first;
      Done (<[first := with_offset (size_t_add (offset_ t) kGapSize) t]> tl)
  end.

(** [Somas::UpdateContiguousTensorsOffset]. *)
Definition UpdateContiguousTensorsOffset (contiguous_ref_list_map : list (nat * nat))
    (contiguous_tensors_list : list (list nat)) (tl : list SomasTensor)
    : Outcome (list SomasTensor) :=
  foldl contiguous_gap_step
        (foldl (contiguous_copy_step contiguous_tensors_list) (Done tl) contiguous_ref_list_map)
        contiguous_tensors_list.

(** ** The planner state and [Assign] *)

(** [SomasStream]: its id and the ids of its nodes. *)
Record SomasStream : Type := mkStream {
  stream_id : nat;
  nodes_ : list nat
}.

(** The members of [class Somas] that the modelled functions read or
    write. *)
Record Somas : Type := mkSomas {
  tensors_list_ : list SomasTensor;
  nodes_list_ : list SomasNode;
  streams_list_ : list SomasStream;
  streams_groups_ : list (list nat);
  ref_node_constraints_ : list (list nat);
  ref_overlap_constraints_ : list (list nat);
  contiguous_tensors_list_ : list (list nat);
  reuse_matrix_ : list (list bool);
  mem_offset_ : N;
  hash_id_ : string
}.

Definition with_tensors (tl : list SomasTensor) (st : Somas) : Somas :=
  mkSomas tl (nodes_list_ st) (streams_list_ st) (streams_groups_ st) (ref_node_constraints_ st)
    (ref_overlap_constraints_ st) (contiguous_tensors_list_ st) (reuse_matrix_ st)
    (mem_offset_ st) (hash_id_ st).

Definition with_nodes (nl : list SomasNode) (st : Somas) : Somas :=
  mkSomas (tensors_list_ st) nl (streams_list_ st) (streams_groups_ st) (ref_node_constraints_ st)
    (ref_overlap_constraints_ st) (contiguous_tensors_list_ st) (reuse_matrix_ st)
    (mem_offset_ st) (hash_id_ st).

Definition with_reuse_matrix (m : list (list bool)) (st : Somas) : Somas :=
  mkSomas (tensors_list_ st) (nodes_list_ st) (streams_list_ st) (streams_groups_ st)
    (ref_node_constraints_ st) (ref_overlap_constraints_ st) (contiguous_tensors_list_ st) m
    (mem_offset_ st) (hash_id_ st).

Definition with_mem_offset (v : N) (st : Somas) : Somas :=
  mkSomas (tensors_list_ st) (nodes_list_ st) (streams_list_ st) (streams_groups_ st)
    (ref_node_constraints_ st) (ref_overlap_constraints_ st) (contiguous_tensors_list_ st)
    (reuse_matrix_ st) v (hash_id_ st).

Definition with_hash_id (v : string) (st : Somas) : Somas :=
  mkSomas (tensors_list_ st) (nodes_list_ st) (streams_list_ st) (streams_groups_ st)
    (ref_node_constraints_ st) (ref_overlap_constraints_ st) (contiguous_tensors_list_ st)
    (reuse_matrix_ st) (mem_offset_ st) v.

(** Modelled from the spec: the solver entry of a tensor
    ([SomasTensor::GetSolverTensorDesc] and [SomasSolverTensorDesc] are not
    part of the sources at hand).  Every tensor with non-zero aligned size
    becomes a solver entry with its id and size; a lifelong tensor is marked
    as such unless it is contiguous. *)
Record SomasSolverTensorDesc : Type := mkDesc {
  index_ : nat;
  size_ : N;
  lifelong_ : bool
}.

Definition GetSolverTensorDesc (t : SomasTensor) : option SomasSolverTensorDesc :=
  if bool_decide (aligned_size_ t = 0%N) then None
  else Some (mkDesc (id_ t) (aligned_size_ t)
               (if contiguous_ t then false else IsLifelong t)).

(** Modelled from the spec: [SomasTensor::SetOffset]; each surviving tensor
    (non-zero aligned size) receives the offset the solver computed for its
    id. *)
Definition SetOffset (solution : nat → N) (t : SomasTensor) : SomasTensor :=
  if bool_decide (aligned_size_ t = 0%N) then t else with_offset (solution (id_ t)) t.

(** The external solver, [SomasSolverPre::Solving] followed by
    [GetMaxOffset]: from the entries, the reuse matrix and the contiguous
    lists either a failure or an offset per entry and the total footprint. *)
Definition Solver : Type :=
  list SomasSolverTensorDesc → list (list bool) → list (list nat) → option ((nat → N) * N).

(** [std::find] and [erase] of one list. *)
Fixpoint remove_first (x : list nat) (xs : list (list nat)) : list (list nat) :=
  match xs with
  | [] => []
  | y :: rest => if decide (x = y) then rest else y :: remove_first x rest
  end.

(** The contiguous lists that [Assign] does not hand to the solver: the
    list of the ref output of every pair of lists tied by a ref node, and
    the lists all of whose tensors have aligned size 0. *)
Definition contiguous_lists_to_remove (contiguous_ref_list_map : list (nat * nat))
    (contiguous_tensors_list : list (list nat)) (tl : list SomasTensor)
    : Outcome (list (list nat)) :=
  by_ref ← foldl (fun acc ref_list_pair =>
                    ls ← acc;
                    match contiguous_tensors_list !! snd ref_list_pair with
                    | Some l => Done (ls ++ [l])
                    | None => Undefined
                    end)
                 (Done []) contiguous_ref_list_map;
  Done (remove_dups
          (by_ref ++ filter (fun l => forallb (fun tid => bool_decide (aligned_size_of tl tid = 0%N)) l
                                      = true)
                            contiguous_tensors_list)).

(** [Somas::Assign]. *)
Definition Assign (Solving : Solver) (st : Somas) : Outcome Somas :=
  if bool_decide (tensors_list_ st = []) then Done st
  else
    '(tl1, m1) ← UpdateRefTensorsConflict (ref_node_constraints_ st) (tensors_list_ st)
                   (reuse_matrix_ st);
    contiguous_list_with_ref_index_map ←
      GetContiguousListContainRefTensor (ref_node_constraints_ st)
        (contiguous_tensors_list_ st) tl1;
    to_remove ← contiguous_lists_to_remove contiguous_list_with_ref_index_map
                  (contiguous_tensors_list_ st) tl1;
    let contiguous_tensors_list_removed :=
      foldl (fun acc l => remove_first l acc) (contiguous_tensors_list_ st) to_remove in
    let m2 := UpdateRefOverlapTensorsConflicts (ref_overlap_constraints_ st) m1 in
    let st1 := with_reuse_matrix m2 (with_tensors tl1 st) in
    let solver_tensor_desc_map := omap GetSolverTensorDesc tl1 in
    if bool_decide (solver_tensor_desc_map = []) then Done st1
    else
      match Solving solver_tensor_desc_map m2 contiguous_tensors_list_removed with
      | None => Exception "SOMAS Solving Failed."
      | Some (solution, max_offset) =>
          let tl2 := SetOffset solution <$> tl1 in
          tl3 ← UpdateRefTensorsOffset (ref_node_constraints_ st) tl2;
          tl4 ← UpdateContiguousTensorsOffset contiguous_list_with_ref_index_map
                  (contiguous_tensors_list_ st) tl3;
          Done (with_mem_offset max_offset (with_tensors tl4 st1))
      end.

(** ** [ComputeConflictPairs] as a whole *)

Definition with_ancestor_nodes (v : list nat) (node : SomasNode) : SomasNode :=
  mkNode (node_id_ node) (stream_id_ node) (node_type_ node) (input_tensors_ node)
    (output_tensors_ node) (workspace_tensors_ node) v.

Definition with_destination_nodes (v : list nat) (t : SomasTensor) : SomasTensor :=
  mkTensor (id_ t) (source_node_id_ t) (source_stream_id_ t) (original_size_ t) (aligned_size_ t)
    (lifelong_value_ t) (type_ t) (lifetime_start_ t) (lifetime_end_ t) (contiguous_ t)
    (offset_ t) v (consumer_list_ t).

Definition with_consumer_list (v : list nat) (t : SomasTensor) : SomasTensor :=
  mkTensor (id_ t) (source_node_id_ t) (source_stream_id_ t) (original_size_ t) (aligned_size_ t)
    (lifelong_value_ t) (type_ t) (lifetime_start_ t) (lifetime_end_ t) (contiguous_ t)
    (offset_ t) (destination_nodes_ t) v.

(** [node->ancestor_nodes_.insert(ancestor)] on the node object with id
    [nid]; node pointers are node ids, as tensor pointers are tensor ids. *)
Definition insert_ancestor (nid ancestor : nat) (nodes : list SomasNode)
    : Outcome (list SomasNode) :=
  match nodes !! nid with
  | Some node =>
      if bool_decide (ancestor ∈ ancestor_nodes_ node) then Done nodes
      else Done (<[nid := with_ancestor_nodes (ancestor_nodes_ node ++ [ancestor]) node]> nodes)
  | None => Undefined
  end.

(** [Somas::GetSomasStream]. *)
Definition GetSomasStream (streams : list SomasStream) (sid : nat) : option SomasStream :=
  find (fun s => stream_id s =? sid) streams.

(** [Somas::NodeSort], as the order [std::sort] sorts by. *)
Definition sort_ids (ids : list nat) : list nat := merge_sort le ids.

#[global] Instance node_le_dec (a b : SomasNode) : Decision (node_id_ a ≤ node_id_ b).
Proof. apply _. Defined.

Definition sort_nodes (nodes : list SomasNode) : list SomasNode :=
  merge_sort (fun a b => node_id_ a ≤ node_id_ b) nodes.

(** The first loop of [Somas::UpdateTensorDestinations]: within each stream
    every node gets the node before it as an ancestor. *)
Definition stream_edges (streams : list SomasStream) (nodes : list SomasNode)
    : Outcome (list SomasNode) :=
  foldl (fun acc stream =>
           let sorted := sort_ids (nodes_ stream) in
           foldl (fun acc pair => nl ← acc; insert_ancestor (snd pair) (fst pair) nl)
                 acc (zip sorted (drop 1 sorted)))
        (Done nodes) streams.

(** Its second loop: the first node of a stream of a group gets the last
    node of the stream before it as an ancestor; a stream that is not found
    is passed over. *)
Definition group_edges (streams : list SomasStream) (streams_groups : list (list nat))
    (nodes : list SomasNode) : Outcome (list SomasNode) :=
  foldl (fun acc group =>
           foldl (fun acc pair =>
                    nl ← acc;
                    match GetSomasStream streams (fst pair) with
                    | None => Done nl
                    | Some previous_stream =>
                        match last (sort_ids (nodes_ previous_stream)) with
                        | None => Undefined
                        | Some last_node =>
                            match GetSomasStream streams (snd pair) with
                            | None => Done nl
                            | Some current_stream =>
                                match head (sort_ids (nodes_ current_stream)) with
                                | None => Undefined
                                | Some first_node => insert_ancestor first_node last_node nl
                                end
                            end
                        end
                    end)
                 acc (zip group (drop 1 group)))
        (Done nodes) streams_groups.

(** [stream_max_destination_node[stream]] as an association list in the
    order in which the streams are first seen. *)
Fixpoint stream_max_update (stream node_id : nat) (m : list (nat * nat)) : list (nat * nat) :=
  match m with
  | [] => [(stream, node_id)]
  | (s, v) :: rest =>
      if s =? stream then (s, if v <? node_id then node_id else v) :: rest
      else (s, v) :: stream_max_update stream node_id rest
  end.

(** The last two loops: a tensor without destination gets its own source
    node, and the consumer list gets the largest destination of every
    stream.  The code keeps the largest destinations in a
    [mindspore::HashMap] and appends them in the order of its iteration,
    which is not specified; the embedding appends them in the order in
    which the streams are first met, one of the orders that the code may
    take. *)
Definition tensor_destinations (nodes : list SomasNode) (t : SomasTensor) : Outcome SomasTensor :=
  let t1 :=
    if bool_decide (destination_nodes_ t = []) then with_destination_nodes [source_node_id_ t] t
    else t in
  stream_max ←
    foldl (fun acc node_id =>
             m ← acc;
             match nodes !! node_id with
             | None => Exception "node is null"
             | Some node => Done (stream_max_update (stream_id_ node) node_id m)
             end)
          (Done []) (destination_nodes_ t1);
  Done (with_consumer_list (consumer_list_ t1 ++ (snd <$> stream_max)) t1).

(** [Somas::UpdateTensorDestinations]. *)
Definition UpdateTensorDestinations (st : Somas) : Outcome Somas :=
  nl1 ← stream_edges (streams_list_ st) (nodes_list_ st);
  nl2 ← group_edges (streams_list_ st) (streams_groups_ st) nl1;
  tl ← foldl (fun acc t => tl ← acc; t' ← tensor_destinations nl2 t; Done (tl ++ [t']))
             (Done []) (tensors_list_ st);
  Done (with_tensors tl (with_nodes nl2 st)).

(** [Somas::ComputeConflictPairs].  [shuffle] is the permutation that
    [std::shuffle] draws.  The multi-thread branch runs
    [ComputeMultiTensorConflicts] on consecutive slices of the shuffled list,
    each task writing the rows of its own targets; it is modelled by the one
    call over the whole list. *)
Definition ComputeConflictPairs (shuffle : list SomasTensor → list SomasTensor) (st : Somas)
    : Outcome Somas :=
  if bool_decide (tensors_list_ st = []) then Done st
  else
    st1 ← UpdateTensorDestinations (with_nodes (sort_nodes (nodes_list_ st)) st);
    let nodes_dependency := ComputeNodesDependency (nodes_list_ st1) in
    let reuse_matrix := reuse_matrix_ st1 ++ NewBitMatrix (TensorCount (tensors_list_ st1)) in
    let '(candidate_tensor_list, tensor_conflict_info_list, destination_node_list) :=
      BuildCandidateLists (tensors_list_ st1) in
    let reuse_matrix' :=
      ComputeMultiTensorConflicts (shuffle candidate_tensor_list) tensor_conflict_info_list
        destination_node_list nodes_dependency reuse_matrix in
    Done (with_reuse_matrix (ProcessSemiLifeLongTensor (tensors_list_ st1) reuse_matrix') st1).

(** ** The cache layer *)

Inductive LogLevel : Set := DEBUG | INFO | WARNING | ERROR.

(** What a run does besides changing the planner: log lines, opening the
    cache file for reading, sleeping, and writing the cache file. *)
Inductive Event : Type :=
  | Log (level : LogLevel) (what : string)
  | OpenForRead
  | Sleep (milliseconds : N)
  | WriteCache.

(** The value of the enumeration as stored in the cache file. *)
Definition LifeLongType_value (v : LifeLongType) : nat :=
  match v with
  | kLifeLongNone => 0
  | kLifeLongGraphAll => 1
  | kLifeLongGraphStart => 2
  | kLifeLongGraphEnd => 3
  end.

(** One entry of the array [tensors] of the cache file, and the file.  A
    parsed file is taken to hold every key with a value of the type the
    loader reads it with. *)
Record TensorJson : Type := mkTensorJson {
  j_tensor_id : nat;
  j_size : N;
  j_ori_size : N;
  j_lifelong_value : nat;
  j_life_start : nat;
  j_life_end : nat;
  j_offset : N
}.

Record SomasJson : Type := mkSomasJson {
  j_graph_id : nat;
  j_hash_id : string;
  j_mem_offset : N;
  j_node_size : nat;
  j_tensor_size : nat;
  j_contiguous_size : nat;
  j_ref_node_size : nat;
  j_stream_size : nat;
  j_stream_group_size : nat;
  j_tensors : list TensorJson
}.

(** What an [std::ifstream] on the cache file gives: the file cannot be
    opened, its text is not JSON, or it parses. *)
Inductive FileRead : Type :=
  | OpenFailed
  | ParseFailed
  | Parsed (somas_json : SomasJson).

(** [Somas::VerifySomasResult]. *)
Definition VerifySomasResult (graph_id : nat) (st : Somas) (somas_json : SomasJson)
    : list Event * bool :=
  if bool_decide (j_graph_id somas_json ≠ graph_id)
  then ([Log WARNING "Mismatch graph id"], false)
  else if bool_decide (j_hash_id somas_json ≠ hash_id_ st)
  then ([Log WARNING "Mismatch hash id"], false)
  else if bool_decide (j_node_size somas_json ≠ length (nodes_list_ st))
  then ([Log WARNING "Mismatch node size"], false)
  else if bool_decide (j_tensor_size somas_json ≠ length (tensors_list_ st))
  then ([Log WARNING "Mismatch tensor size"], false)
  else if bool_decide (j_contiguous_size somas_json ≠ length (contiguous_tensors_list_ st))
  then ([Log WARNING "Mismatch contiguous size"], false)
  else if bool_decide (j_ref_node_size somas_json ≠ length (ref_node_constraints_ st))
  then ([Log WARNING "Mismatch ref node size"], false)
  else if bool_decide (j_stream_size somas_json ≠ length (streams_list_ st))
  then ([Log WARNING "Mismatch stream size"], false)
  else if bool_decide (j_stream_group_size somas_json ≠ length (streams_groups_ st))
  then ([Log WARNING "Mismatch stream group size"], false)
  else ([], true).

(** The checks of one entry in [Somas::UpdateTensorsOffset]: the warning of
    the first field that differs from the registered tensor. *)
Definition tensor_json_mismatch (tensor_json : TensorJson) (t : SomasTensor) : option string :=
  if bool_decide (j_size tensor_json ≠ aligned_size_ t) then Some "Mismatch size of tensor"
  else if bool_decide (j_ori_size tensor_json ≠ original_size_ t)
  then Some "Mismatch original size of tensor"
  else if bool_decide (j_lifelong_value tensor_json ≠ LifeLongType_value (lifelong_value_ t))
  then Some "Mismatch lifelong value of tensor"
  else if bool_decide (j_life_start tensor_json ≠ lifetime_start_ t)
  then Some "Mismatch life start of tensor"
  else if bool_decide (j_life_end tensor_json ≠ lifetime_end_ t)
  then Some "Mismatch life start of tensor"
  else None.

(** [Somas::UpdateTensorsOffset]: the entries are taken in order; the first
    one that names no tensor or differs from it ends the loop, the entries
    before it have had their offset stored. *)
Fixpoint UpdateTensorsOffset (tensors_json : list TensorJson) (tl : list SomasTensor)
    : list Event * (list SomasTensor * bool) :=
  match tensors_json with
  | [] => ([], (tl, true))
  | tensor_json :: rest =>
      match tl !! j_tensor_id tensor_json with
      | Some t =>
          match tensor_json_mismatch tensor_json t with
          | Some what => ([Log WARNING what], (tl, false))
          | None =>
              UpdateTensorsOffset rest
                (<[j_tensor_id tensor_json := with_offset (j_offset tensor_json) t]> tl)
          end
      | None => ([Log WARNING "Can't find tensor"], (tl, false))
      end
  end.

(** What the planner takes from outside during [Allocate]: the id of the
    graph, what the first and the second stream on the cache file give, the
    hash that [CalcSomasModelHash] computes from the registry and whether it
    could save the model text, the solver, and the permutation that
    [std::shuffle] applies to the candidates. *)
Record Environment : Type := mkEnvironment {
  graph_id : nat;
  first_read : FileRead;
  retry_read : FileRead;
  model_hash : Somas → string;
  info_file_saved : bool;
  Solving : Solver;
  shuffle : list SomasTensor → list SomasTensor
}.

(** The part of [Somas::LoadSomasResult] after the file has been parsed. *)
Definition adopt_somas_json (env : Environment) (st : Somas) (somas_json : SomasJson)
    : list Event * Outcome (Somas * bool) :=
  let '(log, ret) := VerifySomasResult (graph_id env) st somas_json in
  if negb ret then (log ++ [Log WARNING "Verify Somas Result Failed."], Done (st, false))
  else
    let '(log', (tl, ret')) := UpdateTensorsOffset (j_tensors somas_json) (tensors_list_ st) in
    (log ++ log', Done (with_tensors tl (with_mem_offset (j_mem_offset somas_json) st), ret')).

(** [Somas::LoadSomasResult].  A parse error of the first stream is caught;
    the second stream is read outside of any handler. *)
Definition LoadSomasResult (env : Environment) (st : Somas) : list Event * Outcome (Somas * bool) :=
  match first_read env with
  | OpenFailed =>
      ([OpenForRead; Log INFO "Open json file error, Somas Cache Missed."], Done (st, false))
  | Parsed somas_json =>
      let '(log, res) := adopt_somas_json env st somas_json in (OpenForRead :: log, res)
  | ParseFailed =>
      let before :=
        [OpenForRead; Log INFO "Parse json file error, sleep 500ms and retry again.";
         Sleep kRetryIntervalSeconds; OpenForRead] in
      match retry_read env with
      | OpenFailed =>
          (before ++ [Log INFO "Open json file error, please check kernel_meta."],
           Done (st, false))
      | ParseFailed => (before, Exception "parse error")
      | Parsed somas_json =>
          let '(log, res) := adopt_somas_json env st somas_json in (before ++ log, res)
      end
  end.

(** [Somas::CalcSomasModelHash] and [Somas::LoadSomasCache]. *)
Definition LoadSomasCache (env : Environment) (st : Somas) : list Event * Outcome (Somas * bool) :=
  if bool_decide (length (tensors_list_ st) < kCachedResultThreshold)
  then ([Log DEBUG "Tensors size less than the threshold, no need to load cached"],
        Done (st, false))
  else
    let st1 := with_hash_id (model_hash env st) st in
    if info_file_saved env then
      let '(log, res) := LoadSomasResult env st1 in
      match res with
      | Done (st2, true) => (log ++ [Log INFO "Load Somas Cache file Successfully."], res)
      | _ => (log, res)
      end
    else ([Log ERROR "Calculate somas's model hash id failed."], Done (st1, false)).

(** [Somas::SaveSomasResult]. *)
Definition SaveSomasResult (st : Somas) : list Event :=
  if bool_decide (length (tensors_list_ st) < kCachedResultThreshold)
  then [Log DEBUG "Tensors size less than the threshold, no need to save result"]
  else [WriteCache].

(** The steps of [Somas::Allocate] after a cache miss. *)
Definition fresh_plan (env : Environment) (st : Somas) : list Event * Outcome (Somas * bool) :=
  match ComputeConflictPairs (shuffle env) st with
  | Done st1 =>
      match Assign (Solving env) st1 with
      | Done st2 => (SaveSomasResult st2, Done (st2, true))
      | Exception what => ([], Exception what)
      | Undefined => ([], Undefined)
      end
  | Exception what => ([], Exception what)
  | Undefined => ([], Undefined)
  end.

(** [Somas::Allocate], from the state that [InitSomasTensors] has built.
    [GenGraphStatisticInfo] only fills statistics and is left out. *)
Definition Allocate (env : Environment) (st : Somas) : list Event * Outcome (Somas * bool) :=
  if bool_decide (tensors_list_ st = []) then ([Log INFO "No Tensor for Somas"], Done (st, true))
  else
    let '(log, res) := LoadSomasCache env st in
    match res with
    | Done (st1, true) => (log, Done (st1, true))
    | Done (st1, false) =>
        let '(log', res') := fresh_plan env st1 in (log ++ log', res')
    | Exception what => (log, Exception what)
    | Undefined => (log, Undefined)
    end.

(** ** The cache file that [SaveSomasResult] writes *)

(** The entry of the array [tensors] that [Somas::SaveSomasResult] builds
    for a tensor. *)
Definition tensor_json_of (tensor : SomasTensor) : TensorJson :=
  mkTensorJson (id_ tensor) (aligned_size_ tensor) (original_size_ tensor)
    (LifeLongType_value (lifelong_value_ tensor)) (lifetime_start_ tensor)
    (lifetime_end_ tensor) (offset_ tensor).

(** The object [somas_json] that [Somas::SaveSomasResult] dumps into the
    cache file when the registry has reached the threshold. *)
Definition SaveSomasResult_somas_json (graph_id : nat) (st : Somas) : SomasJson :=
  mkSomasJson graph_id (hash_id_ st) (mem_offset_ st) (length (nodes_list_ st))
    (length (tensors_list_ st)) (length (contiguous_tensors_list_ st))
    (length (ref_node_constraints_ st)) (length (streams_list_ st))
    (length (streams_groups_ st)) (tensor_json_of <$> tensors_list_ st).

(** ** Names *)

(** The character ['/'] that separates the scopes of a full name. *)
Definition slash : Ascii.ascii := Ascii.ascii_of_nat 47.

(** [std::string::rfind(c)]: the index of the last occurrence of [c];
    [None] is [npos]. *)
Fixpoint rfind (c : Ascii.ascii) (s : string) : option nat :=
  match s with
  | EmptyString => None
  | String a rest =>
      match rfind c rest with
      | Some index => Some (S index)
      | None => if Ascii.eqb a c then Some 0 else None
      end
  end.

(** [std::string::substr(pos)]: the characters from [pos] on; [None] when
    [pos] is beyond the size, where the C++ throws [std::out_of_range]. *)
Fixpoint substr (pos : nat) (s : string) : option string :=
  match pos, s with
  | 0, _ => Some s
  | S pos', String _ rest => substr pos' rest
  | S _, EmptyString => None
  end.

(** [Somas::GetSplitName].  [scope_name.size() - 1] is evaluated only after
    a slash was found, so the string is not empty and the subtraction does
    not wrap.  An exception of the standard library is an [Exception] that
    carries its name. *)
Definition GetSplitName (scope_name : string) : Outcome string :=
  match rfind slash scope_name with
  | None => Done scope_name
  | Some index =>
      if bool_decide (index < String.length scope_name - 1) then
        match substr (index + 1) scope_name with
        | Some split_name => Done split_name
        | None => Exception "out_of_range"
        end
      else Done scope_name
  end.

(** ** Graph statistics *)

(** [std::accumulate] is called with the initial value [0], so its
    accumulator is an [int]: the [size_t] that the lambda returns is narrowed
    to 32 bits (two's complement) after every step, and the accumulator is
    widened to [size_t] again when it is passed to the lambda and when it is
    stored in [max_node_id]. *)
Definition int_of_size_t (n : N) : Z :=
  let r := (Z.of_N n mod 2 ^ 32)%Z in
  if (r <? 2 ^ 31)%Z then r else (r - 2 ^ 32)%Z.

Definition size_t_of_int (z : Z) : N := Z.to_N (z mod 2 ^ 64)%Z.

(** The variable [max_node_id] of [Somas::CalcLowerBound]. *)
Definition CalcLowerBound_max_node_id (tensors_list : list SomasTensor) : nat :=
  N.to_nat (size_t_of_int
    (foldl (fun (max_id : Z) tensor =>
              int_of_size_t (N.max (size_t_of_int max_id) (N.of_nat (lifetime_end_ tensor))))
           0%Z tensors_list)).

(** [lifetime_lb[time] = v] on the [std::map<size_t, size_t>] of
    [CalcLowerBound].  The map is read and written through [operator[]]
    only, which yields 0 for a key that was not written: it is a function
    that is 0 by default. *)
Definition lifetime_lb_set (time : nat) (v : N) (lifetime_lb : nat → N) : nat → N :=
  fun key => if bool_decide (key = time) then v else lifetime_lb key.

(** [lifetime_lb[time] += size]. *)
Definition lifetime_lb_add (size : N) (lifetime_lb : nat → N) (time : nat) : nat → N :=
  lifetime_lb_set time (size_t_add (lifetime_lb time) size) lifetime_lb.

(** The tensor loop of [CalcLowerBound]: the counters of the node times
    [lower] to [upper] grow by the aligned size of the tensor. *)
Definition lifetime_lb_tensor (max_node_id : nat) (lifetime_lb : nat → N) (tensor : SomasTensor)
    : nat → N :=
  let lower :=
    if bool_decide (lifelong_value_ tensor = kLifeLongGraphAll) then 0
    else lifetime_start_ tensor in
  let upper :=
    if bool_decide (lifelong_value_ tensor = kLifeLongGraphAll) then max_node_id
    else lifetime_end_ tensor in
  foldl (lifetime_lb_add (aligned_size_ tensor)) lifetime_lb (seq lower (S upper - lower)).

(** [Somas::CalcLowerBound].  (For [max_node_id = SIZE_MAX] the condition
    [time <= max_node_id] of the C++ loops never fails; the node times of the
    embedding are unbounded.) *)
Definition CalcLowerBound (tensors_list : list SomasTensor) : N :=
  let max_node_id := CalcLowerBound_max_node_id tensors_list in
  let times := seq 0 (S max_node_id) in
  let lifetime_lb :=
    foldl (lifetime_lb_tensor max_node_id)
          (foldl (fun lb time => lifetime_lb_set time 0%N lb) (fun _ => 0%N) times)
          tensors_list in
  foldl (fun max_lifetime time =>
           if (max_lifetime <? lifetime_lb time)%N then lifetime_lb time else max_lifetime)
        0%N times.

(** The statistics members of [class Somas]. *)
Record Statistics : Type := mkStatistics {
  lower_bound_ : N;
  upper_bound_ : N;
  workspace_total_size_ : N;
  lifelong_all_total_size_ : N;
  lifelong_start_total_size_ : N;
  lifelong_end_total_size_ : N
}.

(** The body of the tensor loop of [Somas::GenGraphStatisticInfo]. *)
Definition statistic_step (s : Statistics) (tensor : SomasTensor) : Statistics :=
  let size := aligned_size_ tensor in
  mkStatistics (lower_bound_ s)
    (size_t_add (upper_bound_ s) size)
    (if bool_decide (type_ tensor = kWorkspace) then size_t_add (workspace_total_size_ s) size
     else workspace_total_size_ s)
    (if bool_decide (lifelong_value_ tensor = kLifeLongGraphAll)
     then size_t_add (lifelong_all_total_size_ s) size else lifelong_all_total_size_ s)
    (if bool_decide (lifelong_value_ tensor = kLifeLongGraphStart)
     then size_t_add (lifelong_start_total_size_ s) size else lifelong_start_total_size_ s)
    (if bool_decide (lifelong_value_ tensor = kLifeLongGraphEnd)
     then size_t_add (lifelong_end_total_size_ s) size else lifelong_end_total_size_ s).

(** [Somas::GenGraphStatisticInfo], without its two log lines: the lower
    bound is overwritten, the totals are added to what the members hold. *)
Definition GenGraphStatisticInfo (tensors_list : list SomasTensor) (s : Statistics) : Statistics :=
  foldl statistic_step
    (mkStatistics (CalcLowerBound tensors_list) (upper_bound_ s) (workspace_total_size_ s)
       (lifelong_all_total_size_ s) (lifelong_start_total_size_ s) (lifelong_end_total_size_ s))
    tensors_list.

(** ** The kernel graph *)

(** The size lists of a [KernelMod]. *)
Record KernelMod : Type := mkKernelMod {
  GetOutputSizeList : list N;
  GetWorkspaceSizeList : list N
}.

(** A kernel ([CNodePtr]) or another node of the graph is identified by its
    address, the key of [nodes_map_] and of [parameters_map_].  A node with
    an output index, as [VisitKernelWithReturnType] and the ref map of the
    graph yield it; [IsRealCNodeKernel] is the answer of
    [AnfUtils::IsRealCNodeKernel] for the node. *)
Record KernelWithIndex : Type := mkKernelWithIndex {
  kernel_of : nat;
  index_of : nat;
  IsRealCNodeKernel : bool
}.

(** What [VisitKernelWithReturnType] finds behind an input: a null node, a
    [MakeTuple] primitive, or a node with an output index. *)
Inductive VisitResult : Type :=
  | VisitNull
  | VisitMakeTuple
  | VisitNode (prenode_index : KernelWithIndex).

(** What the ref map of the graph holds for an output of a kernel. *)
Inductive RefOrigin : Type :=
  | NotInRefOutputMap
  | RefOriginNull
  | RefOriginNode (origin_pair : KernelWithIndex).

(** The pointer and the size of a [DeviceAddress]. *)
Record DeviceAddress : Type := mkDeviceAddress {
  GetPtr : N;
  GetSize : N
}.

(** The graph classes and the helpers of [AnfAlgo] are not part of the
    sources at hand: what the planner asks them about the graph and its
    kernels is taken as data.
    - [summary_nodes] are the node and the index that
      [VisitKernelWithReturnType] yields for the summary nodes, in the order
      of the map;
    - [VisitInput kernel i skip] is what [VisitKernelWithReturnType] yields
      for [kernel->input(i + 1)] with the flag [skip], [None] when that input
      is null;
    - [IsNoneInputOfDynamicRnn kernel i]: the kernel is a DynamicRNN or a
      DynamicGRUV2 and the inferred type of its input [i] is
      [kMetaTypeNone];
    - [AtomicCleanInput kernel i] is [kernel->input(i + 1)] cast to a
      [CNodePtr]: [None] when the input is null, [Some None] when the cast
      yields null;
    - [AtomicOutputIndexs] and [AtomicWorkspaceIndexs] are the two node
      attributes, [None] when the node does not have the attribute;
    - [get_stream_group], [get_event_map] (in the order of the map) and
      [GetEventId] come from [AscendStreamAssign] in a build with
      [ENABLE_D]; without it the two lists are empty. *)
Record KernelGraph : Type := mkKernelGraph {
  execution_order : list nat;
  mem_reuse_exec_order : list nat;
  subgraph_multi_call : bool;
  summary_node_exist : bool;
  summary_nodes : list (nat * nat);
  GetRefCorrespondOutput : nat → nat → RefOrigin;
  GetStreamId : nat → nat;
  IsCommunicationOp : nat → bool;
  GetKernelMod : nat → option KernelMod;
  OutputAddrExist : nat → nat → bool;
  WorkspaceAddrExist : nat → nat → bool;
  GetOutputAddr : nat → nat → option DeviceAddress;
  fullname_with_scope : nat → string;
  IsIndependentNode : nat → bool;
  IsNonTaskOp : nat → bool;
  IsGetNextOp : nat → bool;
  IsAtomicAddrCleanOp : nat → bool;
  IsAllNopNode : bool;
  GetInputTensorNum : nat → nat;
  VisitInput : nat → nat → bool → option VisitResult;
  IsNoneInputOfDynamicRnn : nat → nat → bool;
  AtomicCleanInput : nat → nat → option (option nat);
  AtomicOutputIndexs : nat → option (list nat);
  AtomicWorkspaceIndexs : nat → option (list nat);
  get_stream_group : list (list nat);
  get_event_map : list (nat * nat);
  GetEventId : nat → nat
}.

(** [nodes_map_]: the nodes made for a kernel, in the order of their
    creation, under the address of the kernel. *)
Definition NodesMap : Type := nat → option (list nat).

(** [nodes_map_[key].push_back(node)]. *)
Definition nodes_map_push (key node : nat) (nodes_map : NodesMap) : NodesMap :=
  fun k => if bool_decide (k = key) then Some (default [] (nodes_map key) ++ [node])
           else nodes_map k.

(** ** [InitSomasStreamAndNode] *)

(** The stream of id [sid], made and appended when [find_if] does not find
    it, gets the node. *)
Definition stream_push (sid node : nat) (streams_list : list SomasStream) : list SomasStream :=
  match list_find (fun s => stream_id s = sid) streams_list with
  | Some (i, stream) => <[i := mkStream (stream_id stream) (nodes_ stream ++ [node])]> streams_list
  | None => streams_list ++ [mkStream sid [node]]
  end.

(** The body of the kernel loop; the state is [streams_list_], [nodes_list_],
    [nodes_map_] and the counter [node_index].  A new [SomasNode] has no
    tensors and no ancestors. *)
Definition init_node_step (graph : KernelGraph)
    (acc : list SomasStream * list SomasNode * NodesMap * nat) (kernel : nat)
    : list SomasStream * list SomasNode * NodesMap * nat :=
  let '(streams_list, nodes_list, nodes_map, node_index) := acc in
  let stream_id := GetStreamId graph kernel in
  let type := if IsCommunicationOp graph kernel then kCommunicationNode else kCommonNode in
  let node := mkNode node_index stream_id type [] [] [] [] in
  (stream_push stream_id node_index streams_list, nodes_list ++ [node],
   nodes_map_push kernel node_index nodes_map, S node_index).

(** The body of the loop that fills [nodes_id_map_], whose keys are kept. *)
Definition nodes_id_map_step (acc : Outcome (list nat)) (node : SomasNode) : Outcome (list nat) :=
  keys ← acc;
  if bool_decide (node_id_ node ∈ keys) then Exception "Duplicate node id"
  else Done (keys ++ [node_id_ node]).

(** [Somas::InitSomasStreamAndNode] on a newly made planner, whose
    [nodes_map_] and [nodes_id_map_] are empty.  It returns [streams_list_],
    [nodes_list_], [nodes_map_] and the keys of [nodes_id_map_]. *)
Definition InitSomasStreamAndNode (graph : KernelGraph)
    : Outcome (list SomasStream * list SomasNode * NodesMap * list nat) :=
  let kernel_cnodes :=
    if subgraph_multi_call graph then mem_reuse_exec_order graph else execution_order graph in
  let '(streams_list, nodes_list, nodes_map, _) :=
    foldl (init_node_step graph) ([], [], fun _ => None, 0) kernel_cnodes in
  nodes_id_map ← foldl nodes_id_map_step (Done []) nodes_list;
  Done (streams_list, nodes_list, nodes_map, nodes_id_map).

(** ** [InitSomasOutputAndWorkspaceTensors] *)

(** Dereferencing a node pointer: node pointers are node ids, and the node
    with id [nid] is the one at index [nid] of [nodes_list_]. *)
Definition get_node (nodes_list : list SomasNode) (nid : nat) : Outcome SomasNode :=
  match nodes_list !! nid with
  | Some node => Done node
  | None => Undefined
  end.

Definition with_input_tensors (v : list nat) (node : SomasNode) : SomasNode :=
  mkNode (node_id_ node) (stream_id_ node) (node_type_ node) v
    (output_tensors_ node) (workspace_tensors_ node) (ancestor_nodes_ node).

Definition with_output_tensors (v : list nat) (node : SomasNode) : SomasNode :=
  mkNode (node_id_ node) (stream_id_ node) (node_type_ node) (input_tensors_ node)
    v (workspace_tensors_ node) (ancestor_nodes_ node).

Definition with_workspace_tensors (v : list nat) (node : SomasNode) : SomasNode :=
  mkNode (node_id_ node) (stream_id_ node) (node_type_ node) (input_tensors_ node)
    (output_tensors_ node) v (ancestor_nodes_ node).

Definition with_type (v : TensorType) (t : SomasTensor) : SomasTensor :=
  mkTensor (id_ t) (source_node_id_ t) (source_stream_id_ t) (original_size_ t) (aligned_size_ t)
    (lifelong_value_ t) v (lifetime_start_ t) (lifetime_end_ t) (contiguous_ t)
    (offset_ t) (destination_nodes_ t) (consumer_list_ t).

Definition with_lifelong_value (v : LifeLongType) (t : SomasTensor) : SomasTensor :=
  mkTensor (id_ t) (source_node_id_ t) (source_stream_id_ t) (original_size_ t) (aligned_size_ t)
    v (type_ t) (lifetime_start_ t) (lifetime_end_ t) (contiguous_ t)
    (offset_ t) (destination_nodes_ t) (consumer_list_ t).

Definition with_lifetime_end (v : nat) (t : SomasTensor) : SomasTensor :=
  mkTensor (id_ t) (source_node_id_ t) (source_stream_id_ t) (original_size_ t) (aligned_size_ t)
    (lifelong_value_ t) (type_ t) (lifetime_start_ t) v (contiguous_ t)
    (offset_ t) (destination_nodes_ t) (consumer_list_ t).

(** [std::for_each(nodes.begin(), nodes.end(), ...)]: the node objects of
    [nodes] are updated one after the other. *)
Definition update_nodes (f : SomasNode → SomasNode) (nodes : list nat)
    (nodes_list : list SomasNode) : Outcome (list SomasNode) :=
  foldl (fun acc nid => nl ← acc; node ← get_node nl nid; Done (<[nid := f node]> nl))
        (Done nodes_list) nodes.

(** Modelled from the spec: a tensor as the three initialisation functions
    leave it, with the members that they set themselves (the constructor
    gets [id], [source_node_id], [source_stream_id], [size] and
    [kLifeLongNone]; the type and the lifetime are assigned) and with what
    the constructor of [SomasTensor] leaves in the others: the aligned size
    is the size rounded up ([aligned]; the rounding is left open), the
    tensor is not contiguous and has no offset, no destination and no
    consumer yet. *)
Definition new_tensor (aligned : N → N) (id source_node_id source_stream_id : nat) (size : N)
    (type : TensorType) (lifetime_start lifetime_end : nat) : SomasTensor :=
  mkTensor id source_node_id source_stream_id size (aligned size) kLifeLongNone type
    lifetime_start lifetime_end false 0%N [] [].

(** The body of the output loop and of the workspace loop, which differ in
    the type of the tensor, in the address test ([OutputAddrExist] or
    [WorkspaceAddrExist]) and in the list of the node that receives the
    tensor.  The state is [nodes_list_], [tensors_list_], [tensor_index] and
    [index]; the member [tensors_] of a node, which is written here and read
    nowhere in [somas.cc], is not part of [SomasNode]. *)
Definition make_tensor_step (aligned : N → N) (nodes : list nat) (node : SomasNode)
    (type : TensorType) (addr_exist : nat → bool) (push : nat → SomasNode → SomasNode)
    (acc : Outcome (list SomasNode * list SomasTensor * nat * nat)) (size : N)
    : Outcome (list SomasNode * list SomasTensor * nat * nat) :=
  '(nodes_list, tensors_list, tensor_index, index) ← acc;
  lifetime_end ←
    (if bool_decide (1 < length nodes)
     then back ← get_node nodes_list (default 0 (last nodes)); Done (node_id_ back)
     else Done (node_id_ node));
  let tensor :=
    new_tensor aligned tensor_index (node_id_ node) (stream_id_ node) size type
      (node_id_ node) lifetime_end in
  let tensor := if addr_exist index then with_aligned_size 0%N tensor else tensor in
  nodes_list ← update_nodes (push tensor_index) nodes nodes_list;
  Done (nodes_list, tensors_list ++ [tensor], S tensor_index, S index).

Definition push_output (tid : nat) (node : SomasNode) : SomasNode :=
  with_output_tensors (output_tensors_ node ++ [tid]) node.

Definition push_workspace (tid : nat) (node : SomasNode) : SomasNode :=
  with_workspace_tensors (workspace_tensors_ node ++ [tid]) node.

(** The body of the kernel loop.  [nodes_map_[kernel.get()]] of a kernel
    that has no node is an empty vector, whose element 0 is read. *)
Definition init_kernel_tensors (aligned : N → N) (graph : KernelGraph) (nodes_map : NodesMap)
    (acc : Outcome (list SomasNode * list SomasTensor * nat)) (kernel : nat)
    : Outcome (list SomasNode * list SomasTensor * nat) :=
  '(nodes_list, tensors_list, tensor_index) ← acc;
  match nodes_map kernel with
  | Some (n0 :: rest) =>
      let nodes := n0 :: rest in
      node ← get_node nodes_list n0;
      match GetKernelMod graph kernel with
      | None => Exception "kernel_mod is null"
      | Some kernel_mod =>
          '(nodes_list, tensors_list, tensor_index, _) ←
            foldl (make_tensor_step aligned nodes node kOutputOnly
                     (OutputAddrExist graph kernel) push_output)
                  (Done (nodes_list, tensors_list, tensor_index, 0))
                  (GetOutputSizeList kernel_mod);
          '(nodes_list, tensors_list, tensor_index, _) ←
            foldl (make_tensor_step aligned nodes node kWorkspace
                     (WorkspaceAddrExist graph kernel) push_workspace)
                  (Done (nodes_list, tensors_list, tensor_index, 0))
                  (GetWorkspaceSizeList kernel_mod);
          Done (nodes_list, tensors_list, tensor_index)
      end
  | _ => Undefined
  end.

(** [Somas::InitSomasOutputAndWorkspaceTensors]: it leaves [nodes_list_]
    with the tensors pushed, and the new [tensors_list_]. *)
Definition InitSomasOutputAndWorkspaceTensors (aligned : N → N) (graph : KernelGraph)
    (nodes_map : NodesMap) (nodes_list : list SomasNode)
    : Outcome (list SomasNode * list SomasTensor) :=
  '(nodes_list, tensors_list, _) ←
    foldl (init_kernel_tensors aligned graph nodes_map) (Done (nodes_list, [], 0))
          (execution_order graph);
  Done (nodes_list, tensors_list).

(** ** Parameters *)

(** [SomasParameter], as [CreateSomasParameter] calls its constructor: the
    id, the name of the node, the output index, the address (null when there
    is none) and the size of the device address ([dev_size_], the name
    [size_] being that of a member of the solver entries). *)
Record SomasParameter : Type := mkParameter {
  param_id_ : nat;
  source_node_name_ : string;
  output_index_ : nat;
  addr_ : option N;
  dev_size_ : N
}.

(** [parameters_list_], [parameters_map_] and the members
    [input_parameters_map_] of the nodes (by node).  A pointer to a parameter
    is the id of the parameter, which is its index in [parameters_list_]. *)
Record Parameters : Type := mkParameters {
  parameters_list_ : list SomasParameter;
  parameters_map_ : nat → option (list nat);
  input_parameters_map_ : nat → nat → option nat
}.

(** [Somas::CreateSomasParameter]. *)
Definition CreateSomasParameter (graph : KernelGraph) (params : Parameters) (node index : nat)
    : Outcome (Parameters * nat) :=
  let id := length (parameters_list_ params) in
  addr_size ←
    (if OutputAddrExist graph node index then
       match GetOutputAddr graph node index with
       | None => Exception "has no device address before Somas."
       | Some device_addr => Done (Some (GetPtr device_addr), GetSize device_addr)
       end
     else Done (None, 0%N));
  let param := mkParameter id (fullname_with_scope graph node) index addr_size.1 addr_size.2 in
  Done (mkParameters (parameters_list_ params ++ [param]) (parameters_map_ params)
          (input_parameters_map_ params), id).

(** [Somas::GetSomasParameter]. *)
Definition GetSomasParameter (graph : KernelGraph) (params : Parameters) (node index : nat)
    : Outcome (Parameters * nat) :=
  let found :=
    match parameters_map_ params node with
    | Some ids =>
        find (fun id => bool_decide (output_index_ <$> parameters_list_ params !! id = Some index))
             ids
    | None => None
    end in
  match found with
  | Some id => Done (params, id)
  | None =>
      '(params, id) ← CreateSomasParameter graph params node index;
      Done (mkParameters (parameters_list_ params)
              (fun key => if bool_decide (key = node)
                          then Some (default [] (parameters_map_ params node) ++ [id])
                          else parameters_map_ params key)
              (input_parameters_map_ params), id)
  end.

(** ** [InitSomasInputTensors] *)

(** [set.insert(x)] on the [std::set<size_t>] of the destinations, an
    ascending list without duplicates. *)
Fixpoint set_insert (x : nat) (l : list nat) : list nat :=
  match l with
  | [] => [x]
  | y :: rest =>
      if x <? y then x :: l
      else if x =? y then l
      else y :: set_insert x rest
  end.

Definition push_input (tid : nat) (node : SomasNode) : SomasNode :=
  with_input_tensors (input_tensors_ node ++ [tid]) node.

(** The loop over the repeat nodes in [InitCommonNodeInputs]: every node of
    the kernel becomes a destination of the tensor and the lifetime of the
    tensor is stretched to it. *)
Definition add_destinations (nodes : list nat) (nodes_list : list SomasNode) (t : SomasTensor)
    : Outcome SomasTensor :=
  foldl (fun acc nid =>
           t ← acc;
           repeat_node ← get_node nodes_list nid;
           let id := node_id_ repeat_node in
           let t := with_destination_nodes (set_insert id (destination_nodes_ t)) t in
           Done (if bool_decide (lifetime_end_ t < id) then with_lifetime_end id t else t))
        (Done t) nodes.

(** The state of the input loops: [nodes_list_], [tensors_list_] and the
    parameters. *)
Definition InputState : Type := list SomasNode * list SomasTensor * Parameters.

(** The body of the input loop of [Somas::InitCommonNodeInputs] for the
    input [i] of [kernel], whose nodes are [n0 :: rest]; the counter
    [real_input_index] is carried along.  The member [between_streams_] of a
    tensor, which is written here and read nowhere in [somas.cc], is not
    part of [SomasTensor]. *)
Definition common_input_step (graph : KernelGraph) (nodes_map : NodesMap) (kernel n0 : nat)
    (rest : list nat) (acc : Outcome (InputState * nat)) (i : nat) : Outcome (InputState * nat) :=
  '(nodes_list, tensors_list, params, real_input_index) ← acc;
  match VisitInput graph kernel i (negb (IsAllNopNode graph)) with
  | None => Exception "input_node is null"
  | Some VisitMakeTuple => Exception "is MakeTuple"
  | Some VisitNull => Exception "prenode_index.first is null"
  | Some (VisitNode prenode_index) =>
      if negb (IsRealCNodeKernel prenode_index) then
        if IsNoneInputOfDynamicRnn graph kernel i
        then Done (nodes_list, tensors_list, params, real_input_index)
        else
          '(params, parameter) ←
            GetSomasParameter graph params (kernel_of prenode_index) (index_of prenode_index);
          let params :=
            mkParameters (parameters_list_ params) (parameters_map_ params)
              (fun node key =>
                 if bool_decide (node = n0 ∧ key = real_input_index) then Some parameter
                 else input_parameters_map_ params node key) in
          Done (nodes_list, tensors_list, params, S real_input_index)
      else
        match nodes_map (kernel_of prenode_index) with
        | None => Exception "is not init."
        | Some [] => Exception "out_of_range"
        | Some (p0 :: _) =>
            pre_somas_node ← get_node nodes_list p0;
            if bool_decide (length (output_tensors_ pre_somas_node) < index_of prenode_index)
            then Exception "exceed input node's outputs size"
            else
              match output_tensors_ pre_somas_node !! index_of prenode_index with
              | None => Undefined
              | Some input_somas_tensor =>
                  nodes_list ← update_nodes (push_input input_somas_tensor) (n0 :: rest)
                                 nodes_list;
                  t ← get_tensor tensors_list input_somas_tensor;
                  let t := if bool_decide (type_ t = kOutputOnly) then with_type kCommon t
                           else t in
                  t ← add_destinations (n0 :: rest) nodes_list t;
                  let tensors_list := <[input_somas_tensor := t]> tensors_list in
                  nodes_list ← (if bool_decide (n0 ≠ p0) then insert_ancestor n0 p0 nodes_list
                                else Done nodes_list);
                  Done (nodes_list, tensors_list, params, S real_input_index)
              end
        end
  end.

(** [Somas::InitCommonNodeInputs]. *)
Definition InitCommonNodeInputs (graph : KernelGraph) (nodes_map : NodesMap) (st : InputState)
    (kernel : nat) : Outcome InputState :=
  match nodes_map kernel with
  | Some (n0 :: rest) =>
      _ ← get_node st.1.1 n0;
      '(st, _) ← foldl (common_input_step graph nodes_map kernel n0 rest) (Done (st, 0))
                   (seq 0 (GetInputTensorNum graph kernel));
      Done st
  | _ => Undefined
  end.

(** The body of the two index loops of [Somas::InitAtomicCleanInputs]: the
    index is compared with [bound] and then used in [tensors], the output
    list or the workspace list of the node [p0]; the tensor becomes an input
    of the node [n0]. *)
Definition clean_index_step (enable_fusion_clear : bool) (n0 p0 : nat)
    (tensors : SomasNode → list nat) (what : string)
    (acc : Outcome (list SomasNode * list SomasTensor)) (index : nat)
    : Outcome (list SomasNode * list SomasTensor) :=
  '(nodes_list, tensors_list) ← acc;
  pre_somas_node ← get_node nodes_list p0;
  if bool_decide (length (output_tensors_ pre_somas_node) < index) then Exception what
  else
    match tensors pre_somas_node !! index with
    | None => Undefined
    | Some input_somas_tensor =>
        node ← get_node nodes_list n0;
        let nodes_list := <[n0 := push_input input_somas_tensor node]> nodes_list in
        if enable_fusion_clear then
          tensors_list ← update_tensor input_somas_tensor
                           (with_lifelong_value kLifeLongGraphAll) tensors_list;
          Done (nodes_list, tensors_list)
        else Done (nodes_list, tensors_list)
    end.

(** The body of the input loop of [Somas::InitAtomicCleanInputs]. *)
Definition clean_input_step (enable_fusion_clear : bool) (graph : KernelGraph)
    (nodes_map : NodesMap) (kernel n0 : nat)
    (acc : Outcome (list SomasNode * list SomasTensor)) (i : nat)
    : Outcome (list SomasNode * list SomasTensor) :=
  st ← acc;
  match AtomicCleanInput graph kernel i with
  | None => Exception "input is null"
  | Some None => Undefined
  | Some (Some pre_node) =>
      match nodes_map pre_node with
      | None => Exception "is not init."
      | Some [] => Exception "out_of_range"
      | Some (p0 :: _) =>
          st ← match AtomicOutputIndexs graph pre_node with
               | Some clean_output_indexs =>
                   foldl (clean_index_step enable_fusion_clear n0 p0 output_tensors_
                            "Output index exceed input node's outputs size")
                         (Done st) clean_output_indexs
               | None => Done st
               end;
          match AtomicWorkspaceIndexs graph pre_node with
          | Some clean_workspace_indexs =>
              foldl (clean_index_step enable_fusion_clear n0 p0 workspace_tensors_
                       "Workspace index exceed input node's Workspace size")
                    (Done st) clean_workspace_indexs
          | None => Done st
          end
      end
  end.

(** [Somas::InitAtomicCleanInputs]; [nodes_map_[kernel.get()].at(0)] throws
    when the kernel has no node. *)
Definition InitAtomicCleanInputs (enable_fusion_clear : bool) (graph : KernelGraph)
    (nodes_map : NodesMap) (st : InputState) (kernel : nat) : Outcome InputState :=
  match nodes_map kernel with
  | Some (n0 :: _) =>
      let '(nodes_list, tensors_list, params) := st in
      '(nodes_list, tensors_list) ←
        foldl (clean_input_step enable_fusion_clear graph nodes_map kernel n0)
              (Done (nodes_list, tensors_list)) (seq 0 (GetInputTensorNum graph kernel));
      Done (nodes_list, tensors_list, params)
  | _ => Exception "out_of_range"
  end.

(** [Somas::InitSomasInputTensors]; [enable_fusion_clear] is the answer of
    the environment variable [ENV_FUSION_CLEAR]. *)
Definition InitSomasInputTensors (enable_fusion_clear : bool) (graph : KernelGraph)
    (nodes_map : NodesMap) (st : InputState) : Outcome InputState :=
  foldl (fun acc kernel =>
           st ← acc;
           if negb (IsAtomicAddrCleanOp graph kernel)
           then InitCommonNodeInputs graph nodes_map st kernel
           else InitAtomicCleanInputs enable_fusion_clear graph nodes_map st kernel)
        (Done st) (execution_order graph).

(** ** [InitSomasEventInfos] *)

(** [event_map_[event_id] = pair] on the [std::map] of the events, an
    association list in ascending order of the event ids. *)
Fixpoint event_map_insert (event_id : nat) (send_recv : nat * nat)
    (m : list (nat * (nat * nat))) : list (nat * (nat * nat)) :=
  match m with
  | [] => [(event_id, send_recv)]
  | (k, v) :: rest =>
      if event_id <? k then (event_id, send_recv) :: m
      else if event_id =? k then (event_id, send_recv) :: rest
      else (k, v) :: event_map_insert event_id send_recv rest
  end.

(** [event_map_], as the first loop of [InitSomasEventInfos] fills it. *)
Definition event_map_of (graph : KernelGraph) : list (nat * (nat * nat)) :=
  foldl (fun m send_recv => event_map_insert (GetEventId graph send_recv.1) send_recv m)
        [] (get_event_map graph).

(** The body of the event loop; the state is [nodes_list_], [tensors_list_]
    and [tensor_index]. *)
Definition event_step (aligned : N → N) (nodes_map : NodesMap)
    (acc : Outcome (list SomasNode * list SomasTensor * nat)) (event : nat * (nat * nat))
    : Outcome (list SomasNode * list SomasTensor * nat) :=
  '(nodes_list, tensors_list, tensor_index) ← acc;
  match nodes_map event.2.1, nodes_map event.2.2 with
  | Some send_nodes, Some recv_nodes =>
      match send_nodes, recv_nodes with
      | s0 :: _, r0 :: _ =>
          somas_send ← get_node nodes_list s0;
          somas_recv ← get_node nodes_list r0;
          let tensor :=
            with_destination_nodes [node_id_ somas_recv]
              (new_tensor aligned tensor_index (node_id_ somas_send) (stream_id_ somas_send)
                 0%N kEventVirtualOutput (node_id_ somas_send) (node_id_ somas_recv)) in
          nodes_list ← update_nodes (push_output tensor_index) [s0] nodes_list;
          nodes_list ← update_nodes (push_input tensor_index) [r0] nodes_list;
          nodes_list ← insert_ancestor r0 s0 nodes_list;
          Done (nodes_list, tensors_list ++ [tensor], S tensor_index)
      | _, _ => Exception "out_of_range"
      end
  | _, _ => Done (nodes_list, tensors_list, tensor_index)
  end.

(** [Somas::InitSomasEventInfos]. *)
Definition InitSomasEventInfos (aligned : N → N) (graph : KernelGraph) (nodes_map : NodesMap)
    (nodes_list : list SomasNode) (tensors_list : list SomasTensor)
    : Outcome (list SomasNode * list SomasTensor) :=
  '(nodes_list, tensors_list, _) ←
    foldl (event_step aligned nodes_map) (Done (nodes_list, tensors_list, length tensors_list))
          (event_map_of graph);
  Done (nodes_list, tensors_list).

(** ** The special tensors *)

(** The loop that [GetNextOutputProcess] and [IndependentNodeOutputProcess]
    share: the outputs of the first node of every kernel that [selected]
    holds for are changed by [f]. *)
Definition mark_outputs (selected : nat → bool) (f : SomasTensor → SomasTensor)
    (graph : KernelGraph) (nodes_map : NodesMap) (nodes_list : list SomasNode)
    (tensors_list : list SomasTensor) : Outcome (list SomasTensor) :=
  foldl (fun acc kernel =>
           tl ← acc;
           if negb (selected kernel) then Done tl
           else
             match nodes_map kernel with
             | None => Done tl
             | Some [] => Exception "out_of_range"
             | Some (n0 :: _) =>
                 node ← get_node nodes_list n0;
                 foldl (fun acc tensor => tl ← acc; update_tensor tensor f tl) (Done tl)
                       (output_tensors_ node)
             end)
        (Done tensors_list) (execution_order graph).

(** [Somas::GetNextOutputProcess]. *)
Definition GetNextOutputProcess (graph : KernelGraph)
    : NodesMap → list SomasNode → list SomasTensor → Outcome (list SomasTensor) :=
  mark_outputs (IsGetNextOp graph)
    (fun tensor => with_type kGetNextOutput (with_lifelong_value kLifeLongGraphAll tensor)) graph.

(** [Somas::IndependentNodeOutputProcess]. *)
Definition IndependentNodeOutputProcess (graph : KernelGraph)
    : NodesMap → list SomasNode → list SomasTensor → Outcome (list SomasTensor) :=
  mark_outputs (IsIndependentNode graph) (with_lifelong_value kLifeLongGraphEnd) graph.

(** [Somas::SummaryInputProcess]: a summary input whose node is not known or
    whose index is beyond the outputs of the node only draws a warning. *)
Definition SummaryInputProcess (graph : KernelGraph) (nodes_map : NodesMap)
    (nodes_list : list SomasNode) (tensors_list : list SomasTensor)
    : Outcome (list SomasTensor) :=
  if negb (summary_node_exist graph) then Done tensors_list
  else
    foldl (fun acc item_with_index =>
             tl ← acc;
             match nodes_map item_with_index.1 with
             | None => Done tl
             | Some [] => Exception "out_of_range"
             | Some (n0 :: _) =>
                 input_node ← get_node nodes_list n0;
                 match output_tensors_ input_node !! item_with_index.2 with
                 | Some tensor =>
                     update_tensor tensor
                       (fun t => with_type kSummaryInput
                                   (with_lifelong_value kLifeLongGraphAll t)) tl
                 | None => Done tl
                 end
             end)
          (Done tensors_list) (summary_nodes graph).

(** The body of the output loop of [Somas::RefNodeProcess] for the output
    [out_index] of [kernel]; the state is [tensors_list_] and
    [ref_node_constraints_]. *)
Definition ref_output_step (graph : KernelGraph) (nodes_map : NodesMap)
    (nodes_list : list SomasNode) (kernel : nat)
    (acc : Outcome (list SomasTensor * list (list nat))) (out_index : nat)
    : Outcome (list SomasTensor * list (list nat)) :=
  '(tensors_list, ref_node_constraints) ← acc;
  match GetRefCorrespondOutput graph kernel out_index with
  | NotInRefOutputMap => Done (tensors_list, ref_node_constraints)
  | RefOriginNull => Exception "origin_pair.first is null"
  | RefOriginNode origin_pair =>
      match nodes_map kernel with
      | Some (n0 :: _) =>
          node ← get_node nodes_list n0;
          match output_tensors_ node !! out_index with
          | None => Undefined
          | Some output_tensor =>
              tensors_list ← update_tensor output_tensor (with_type kRefNodeOutput) tensors_list;
              if IsRealCNodeKernel origin_pair then
                match nodes_map (kernel_of origin_pair) with
                | None => Exception "The ori_node is not included in nodes_map_"
                | Some [] => Exception "out_of_range"
                | Some (r0 :: _) =>
                    repeat_node ← get_node nodes_list r0;
                    match output_tensors_ repeat_node !! index_of origin_pair with
                    | None => Undefined
                    | Some input_tensor =>
                        tensors_list ← update_tensor input_tensor (with_type kRefNodeInput)
                                         tensors_list;
                        input ← get_tensor tensors_list input_tensor;
                        output ← get_tensor tensors_list output_tensor;
                        Done (tensors_list, ref_node_constraints ++ [[id_ input; id_ output]])
                    end
                end
              else Done (tensors_list, ref_node_constraints)
          end
      | _ => Exception "out_of_range"
      end
  end.

(** [Somas::RefNodeProcess]: a kernel without kernel mod only draws a
    warning. *)
Definition RefNodeProcess (graph : KernelGraph) (nodes_map : NodesMap)
    (nodes_list : list SomasNode) (tensors_list : list SomasTensor)
    (ref_node_constraints : list (list nat)) : Outcome (list SomasTensor * list (list nat)) :=
  foldl (fun acc kernel =>
           match GetKernelMod graph kernel with
           | None => acc
           | Some kernel_mod =>
               foldl (ref_output_step graph nodes_map nodes_list kernel) acc
                     (seq 0 (length (GetOutputSizeList kernel_mod)))
           end)
        (Done (tensors_list, ref_node_constraints)) (execution_order graph).

(** [Somas::NonTaskSplitProcess]. *)
Definition NonTaskSplitProcess (graph : KernelGraph) (nodes_map : NodesMap)
    (nodes_list : list SomasNode) (tensors_list : list SomasTensor)
    (ref_node_constraints : list (list nat)) : Outcome (list SomasTensor * list (list nat)) :=
  foldl (fun acc kernel =>
           '(tensors_list, ref_node_constraints) ← acc;
           if negb (IsNonTaskOp graph kernel) then Done (tensors_list, ref_node_constraints)
           else
             match nodes_map kernel with
             | Some (n0 :: _) =>
                 node ← get_node nodes_list n0;
                 match input_tensors_ node with
                 | [] => Exception "has no input tensor, can not do split non_task process."
                 | input_tensor :: _ =>
                     tensors_list ← update_tensor input_tensor (with_type kRefNodeInput)
                                      tensors_list;
                     input ← get_tensor tensors_list input_tensor;
                     '(tensors_list, refnode_input_output) ←
                       foldl (fun acc output_tensor =>
                                '(tl, group) ← acc;
                                tl ← update_tensor output_tensor (with_type kRefNodeOutput) tl;
                                output ← get_tensor tl output_tensor;
                                Done (tl, group ++ [id_ output]))
                             (Done (tensors_list, [id_ input])) (output_tensors_ node);
                     Done (tensors_list, ref_node_constraints ++ [refnode_input_output])
                 end
             | _ => Exception "out_of_range"
             end)
        (Done (tensors_list, ref_node_constraints)) (execution_order graph).

(** ** [InitBasicInfo] and [InitSomasTensors] *)

(** What the initialisation leaves: the planner, [nodes_map_], the keys of
    [nodes_id_map_] and the parameters. *)
Record Initialised : Type := mkInitialised {
  planner : Somas;
  nodes_map_ : NodesMap;
  nodes_id_map_ : list nat;
  parameters_ : Parameters
}.

(** [Somas::InitBasicInfo] on a newly made planner, in a build without
    [ENABLE_DUMP_IR] and with [save_graphs_] off, so that nothing is
    dumped. *)
Definition InitBasicInfo (enable_fusion_clear : bool) (aligned : N → N) (graph : KernelGraph)
    : Outcome Initialised :=
  '(streams_list, nodes_list, nodes_map, nodes_id_map) ← InitSomasStreamAndNode graph;
  '(nodes_list, tensors_list) ←
    InitSomasOutputAndWorkspaceTensors aligned graph nodes_map nodes_list;
  '(nodes_list, tensors_list, params) ←
    InitSomasInputTensors enable_fusion_clear graph nodes_map
      (nodes_list, tensors_list, mkParameters [] (fun _ => None) (fun _ _ => None));
  '(nodes_list, tensors_list) ←
    InitSomasEventInfos aligned graph nodes_map nodes_list tensors_list;
  Done (mkInitialised
          (mkSomas tensors_list nodes_list streams_list (get_stream_group graph) [] [] [] []
             0%N EmptyString)
          nodes_map nodes_id_map params).

(** [Somas::InitSomasTensors], under the same conditions and in a build
    without [ENABLE_SECURITY].  [UnReuseNodeProcess] returns at once, its
    list of names being empty. *)
Definition InitSomasTensors (enable_fusion_clear : bool) (aligned : N → N) (graph : KernelGraph)
    : Outcome Initialised :=
  init ← InitBasicInfo enable_fusion_clear aligned graph;
  let st := planner init in
  let nodes_map := nodes_map_ init in
  tl ← IndependentNodeOutputProcess graph nodes_map (nodes_list_ st) (tensors_list_ st);
  tl ← SummaryInputProcess graph nodes_map (nodes_list_ st) tl;
  '(tl, refs) ← RefNodeProcess graph nodes_map (nodes_list_ st) tl (ref_node_constraints_ st);
  '(tl, refs) ← NonTaskSplitProcess graph nodes_map (nodes_list_ st) tl refs;
  '(cs, _) ← GenContiguousList (nodes_list_ st)
               (mkContiguousState tl (contiguous_tensors_list_ st) 0%N) 0%N;
  tl ← GetNextOutputProcess graph nodes_map (nodes_list_ st) (cs_tensors_list cs);
  Done (mkInitialised
          (mkSomas tl (nodes_list_ st) (streams_list_ st) (streams_groups_ st) refs
             (ref_overlap_constraints_ st) (cs_contiguous_tensors_list cs) (reuse_matrix_ st)
             (mem_offset_ st) (hash_id_ st))
          nodes_map (nodes_id_map_ init) (parameters_ init)).

(** ** The addresses of the tensors of a node *)

(** The body that [GetNodeOutputPtr] and [GetNodeWorkSpacePtr] share once
    the node is found: [tensors] is the output list or the workspace list.
    Addresses are numbers, and [mem_base_addr_ + offset_] is their sum. *)
Definition node_tensor_ptr (tensors : SomasNode → list nat) (what : string)
    (nodes_list : list SomasNode) (tensors_list : list SomasTensor) (mem_base_addr : N)
    (nodes : list nat) (index : nat) : Outcome N :=
  match nodes with
  | [] => Exception "out_of_range"
  | n0 :: _ =>
      somas_node ← get_node nodes_list n0;
      if bool_decide (length (tensors somas_node) ≤ index) then Exception what
      else
        match tensors somas_node !! index with
        | None => Undefined
        | Some tid =>
            tensor ← get_tensor tensors_list tid;
            Done (mem_base_addr + offset_ tensor)%N
        end
  end.

(** [Somas::GetNodeOutputPtr]: a node that is not in [nodes_map_] raises. *)
Definition GetNodeOutputPtr (nodes_map : NodesMap) (nodes_list : list SomasNode)
    (tensors_list : list SomasTensor) (mem_base_addr : N) (node index : nat) : Outcome N :=
  match nodes_map node with
  | Some nodes =>
      node_tensor_ptr output_tensors_ "is larger than it's output size" nodes_list
        tensors_list mem_base_addr nodes index
  | None => Exception "don't exist in nodes_map"
  end.

(** [Somas::GetNodeWorkSpacePtr]: for a node that is not in [nodes_map_] the
    null pointer, the address 0, is returned. *)
Definition GetNodeWorkSpacePtr (nodes_map : NodesMap) (nodes_list : list SomasNode)
    (tensors_list : list SomasTensor) (mem_base_addr : N) (node index : nat) : Outcome N :=
  match nodes_map node with
  | Some nodes =>
      node_tensor_ptr workspace_tensors_ "is larger than it's workspace size" nodes_list
        tensors_list mem_base_addr nodes index
  | None => Done 0%N
  end.

(** * Properties used in the statements *)

(** The registry invariant on tensor ids: the tensor stored at index [i] of
    [tensors_list_] has id [i]. *)
Definition dense_ids (tensors_list : list SomasTensor) : Prop :=
  id_ <$> tensors_list = seq 0 (length tensors_list).

(** The reading of "every consumer of [t] is an ancestor of node [src] and is
    not [src] itself" on the dependency table. *)
Definition all_consumers_done (nodes_dependency : BitMatrix) (t : SomasTensor) (src : nat) : bool :=
  forallb (consumer_done nodes_dependency src) (consumer_list_ t).

(** A matrix with [n] rows of [n] bits. *)
Definition square (n : nat) (m : BitMatrix) : Prop :=
  length m = n ∧ Forall (fun row => length row = n) m.

(** [info] describes tensor [t] with respect to the destination list
    [dnl] and all its extensions. *)
Definition info_for (dnl : list nat) (t : SomasTensor) (info : TensorConflictInfo) : Prop :=
  tensor_id_ info = id_ t ∧ src_node_id_ info = source_node_id_ t ∧
  ∀ nd src suf, CheckIsDependency info src nd (dnl ++ suf) = all_consumers_done nd t src.

(** The decision taken for the target tensor [t] against the info of a
    calc tensor: the pair is looked at and one of the two dependency tests
    succeeds. *)
Definition one_pair (t : SomasTensor) (dnl : list nat) (nd : list (list bool))
    (info : TensorConflictInfo) : bool :=
  negb (bool_decide (tensor_id_ info = id_ t)
        || bool_decide (src_node_id_ info = source_node_id_ t))
  && (CheckIsDependency info (source_node_id_ t) nd dnl
      || all_consumers_done nd t (src_node_id_ info)).

(** The pair ([X], [Y]) is looked at (different tensors, different source
    nodes) and one of the two orders is proved by the dependency table. *)
Definition pair_reusable (nd : list (list bool)) (X Y : SomasTensor) : bool :=
  negb (bool_decide (id_ Y = id_ X) || bool_decide (source_node_id_ Y = source_node_id_ X))
  && (all_consumers_done nd Y (source_node_id_ X) || all_consumers_done nd X (source_node_id_ Y)).

(** [a] is a direct ancestor of the node with id [i]. *)
Definition direct_ancestor (nodes_list : list SomasNode) (i a : nat) : Prop :=
  ∃ node, node ∈ nodes_list ∧ node_id_ node = i ∧ a ∈ ancestor_nodes_ node.

(** [a] is a transitive ancestor of the node with id [i]. *)
Definition transitive_ancestor (nodes_list : list SomasNode) : nat → nat → Prop :=
  tc (direct_ancestor nodes_list).

(** The registry invariants on nodes: the node at index [i] has id [i], and
    execution order is a topological order of the ancestor edges. *)
Definition dense_node_ids (nodes_list : list SomasNode) : Prop :=
  node_id_ <$> nodes_list = seq 0 (length nodes_list).

Definition topological (nodes_list : list SomasNode) : Prop :=
  Forall (fun node => Forall (fun a => a < node_id_ node) (ancestor_nodes_ node)) nodes_list.

(** The table while the loop is at node [k], with the direct ancestors
    [merged] of [k] already folded in. *)
Definition table_at (nodes_list : list SomasNode) (k : nat) (merged : list nat)
    (nd : list (list bool)) : Prop :=
  square (length nodes_list) nd ∧
  ∀ i j, Bit nd i j = true
         ↔ (i < k ∧ transitive_ancestor nodes_list i j)
           ∨ (i = k ∧ ∃ a, a ∈ merged ∧ (j = a ∨ transitive_ancestor nodes_list a j)).

(** A pass that only clears bits. *)
Definition clears_only (f : list (list bool) → list (list bool)) : Prop :=
  ∀ m p q, Bit (f m) p q = true → Bit m p q = true.

(** [S] restricts [T]: [S] is GraphStart and [T] has a smaller id, or [S] is
    GraphEnd and [T] has a larger id. *)
Definition restricts (S T : SomasTensor) : Prop :=
  (lifelong_value_ S = kLifeLongGraphStart ∧ id_ T < id_ S)
  ∨ (lifelong_value_ S = kLifeLongGraphEnd ∧ id_ S < id_ T).

(** The registry links a tensor to its consumers: a consumer other than the
    source node has the source node among its transitive ancestors (the
    producer of an input is inserted into the ancestors of the consuming
    node by [InitCommonNodeInputs]). *)
Definition produced_before_consumed (nodes_list : list SomasNode) (t : SomasTensor) : Prop :=
  ∀ c, c ∈ consumer_list_ t →
       c = source_node_id_ t ∨ transitive_ancestor nodes_list c (source_node_id_ t).

(** A group member fails for [z] while the first tensor [f] may still reuse
    [z]: the condition under which the step for [z] clears two bits. *)
Definition ref_clears (g : list nat) (f : nat) (m : list (list bool)) (z : nat) : bool :=
  Bit m f z && negb (forallb (fun tid => Bit m tid z) g).

(** Whenever a pass that only clears bits in mirrored pairs has cleared a
    bit, it has cleared the mirrored bit. *)
Definition mirrored (before after : list (list bool)) : Prop :=
  ∀ p q, Bit before p q = true → Bit after p q = false → Bit after q p = false.

(** What the size loops do to the tensor stored under [k], for the set
    [tids] of non-first members seen so far. *)
Definition zero_if (tids : list nat) (k : nat) (t : SomasTensor) : SomasTensor :=
  if bool_decide (k ∈ tids) && negb (contiguous_ t) then with_aligned_size 0%N t else t.

(** The members of the groups after the first of each. *)
Definition non_first_members (groups : list (list nat)) : list nat :=
  concat (drop 1 <$> groups).

(** Two tensor stores that differ in offsets only. *)
Definition same_but_offsets (tl tl' : list SomasTensor) : Prop :=
  ∀ k, tl' !! k = (fun t => with_offset (offset_of tl' k) t) <$> tl !! k.

(** The first tensors of the contiguous lists. *)
Definition first_tensors (ctl : list (list nat)) : list nat := omap head ctl.

(** The aligned size after [aligned_size_ += kGapSize], applied when the
    size is not 0. *)
Definition gap_size (s : N) : N :=
  if bool_decide (s ≠ 0%N) then size_t_add s kGapSize else s.

(** What one side of a communication node does to the tensor stored under
    [k]: the gap at the first and at the last position, and the contiguous
    flag for every member. *)
Definition side_effect (first lst : nat) (tensors : list nat) (k : nat) (t : SomasTensor)
    : SomasTensor :=
  let s1 := if bool_decide (k = first) then gap_size (aligned_size_ t) else aligned_size_ t in
  let s2 := if bool_decide (k = lst) then gap_size s1 else s1 in
  let t' := with_aligned_size s2 t in
  if bool_decide (k ∈ tensors) then with_contiguous true t' else t'.






(** The kinds of events of a trace. *)
Definition is_log (e : Event) : bool :=
  match e with Log _ _ => true | _ => false end.

Definition is_sleep (e : Event) : bool :=
  match e with Sleep _ => true | _ => false end.

Definition is_open (e : Event) : bool :=
  match e with OpenForRead => true | _ => false end.

(** How often the run slept, and how often it opened the cache file. *)
Definition sleeps (trace : list Event) : nat := length (List.filter is_sleep trace).
Definition opens (trace : list Event) : nat := length (List.filter is_open trace).

(** The run has logged a warning. *)
Definition has_warning (trace : list Event) : Prop := ∃ what, Log WARNING what ∈ trace.

(** The same environment with another first read of the cache file. *)
Definition with_first_read (r : FileRead) (env : Environment) : Environment :=
  mkEnvironment (graph_id env) r (retry_read env) (model_hash env) (info_file_saved env)
    (Solving env) (shuffle env).

(** The eight structural counts of the file against the registry. *)
Definition counts_agree (gid : nat) (st : Somas) (j : SomasJson) : Prop :=
  j_graph_id j = gid
  ∧ j_hash_id j = hash_id_ st
  ∧ j_node_size j = length (nodes_list_ st)
  ∧ j_tensor_size j = length (tensors_list_ st)
  ∧ j_contiguous_size j = length (contiguous_tensors_list_ st)
  ∧ j_ref_node_size j = length (ref_node_constraints_ st)
  ∧ j_stream_size j = length (streams_list_ st)
  ∧ j_stream_group_size j = length (streams_groups_ st).

(** The recorded fields of one entry against the registered tensor. *)
Definition fields_agree (entry : TensorJson) (t : SomasTensor) : Prop :=
  j_size entry = aligned_size_ t
  ∧ j_ori_size entry = original_size_ t
  ∧ j_lifelong_value entry = LifeLongType_value (lifelong_value_ t)
  ∧ j_life_start entry = lifetime_start_ t
  ∧ j_life_end entry = lifetime_end_ t.

(** The plan of a finished run. *)
Definition planned (run : list Event * Outcome (Somas * bool)) : option Somas :=
  match run.2 with
  | Done (st, true) => Some st
  | _ => None
  end.

(** A matrix that reads the same in both directions. *)
Definition symmetric (m : list (list bool)) : Prop := ∀ p q, Bit m p q = Bit m q p.

(** The stream of the node with id [c] in the node list, if there is one. *)
Definition stream_of (nodes : list SomasNode) (c : nat) : option nat :=
  stream_id_ <$> nodes !! c.

(** [consumers] are the latest destinations, one per stream: every consumer
    is a destination, every destination has a consumer of its own stream
    that is not earlier, and no two consumers share a stream. *)
Definition latest_per_stream (nodes : list SomasNode) (destinations consumers : list nat)
    : Prop :=
  (∀ c, c ∈ consumers → c ∈ destinations)
  ∧ (∀ d, d ∈ destinations →
       ∃ c, c ∈ consumers ∧ stream_of nodes c = stream_of nodes d ∧ d ≤ c)
  ∧ NoDup (stream_of nodes <$> consumers).

(** Two node lists that differ in the ancestor sets only, the second
    holding at least the ancestors of the first. *)
Definition ancestors_grown (nodes nodes' : list SomasNode) : Prop :=
  ∀ k, ∃ extra,
    nodes' !! k = (fun node => with_ancestor_nodes (ancestor_nodes_ node ++ extra) node)
                    <$> nodes !! k.

(** The node with id [b] holds [a] among its direct ancestors. *)
Definition has_ancestor (nodes : list SomasNode) (b a : nat) : Prop :=
  ∃ node, nodes !! b = Some node ∧ a ∈ ancestor_nodes_ node.

(** The lists built so far by [GenContiguousList]: no list is empty, every
    member is a registered tensor marked contiguous, and the first tensor of
    a list is in no list built before it. *)
Definition contiguous_lists_well_formed (st : ContiguousState) : Prop :=
  Forall (fun ls => ls ≠ []) (cs_contiguous_tensors_list st)
  ∧ (∀ ls k, ls ∈ cs_contiguous_tensors_list st → k ∈ ls →
       ∃ t, cs_tensors_list st !! k = Some t ∧ contiguous_ t = true)
  ∧ (∀ i j li lj f,
       i < j → cs_contiguous_tensors_list st !! i = Some li →
       cs_contiguous_tensors_list st !! j = Some lj → head lj = Some f → f ∉ li).

(** Two tensor stores that differ in aligned sizes and contiguous flags
    only. *)
Definition same_but_sizes_and_flags (tl tl' : list SomasTensor) : Prop :=
  ∀ k, tl' !! k
       = (fun t => with_contiguous (default false (contiguous_ <$> tl' !! k))
                     (with_aligned_size (aligned_size_of tl' k) t)) <$> tl !! k.

(** The planner [fresh] describes the model that [saved] was solved for:
    the same hash and counts, and the same tensors up to offsets. *)
Definition same_model (fresh saved : Somas) : Prop :=
  hash_id_ fresh = hash_id_ saved
  ∧ length (nodes_list_ fresh) = length (nodes_list_ saved)
  ∧ length (contiguous_tensors_list_ fresh) = length (contiguous_tensors_list_ saved)
  ∧ length (ref_node_constraints_ fresh) = length (ref_node_constraints_ saved)
  ∧ length (streams_list_ fresh) = length (streams_list_ saved)
  ∧ length (streams_groups_ fresh) = length (streams_groups_ saved)
  ∧ same_but_offsets (tensors_list_ fresh) (tensors_list_ saved).

(** [c] does not occur in [s]. *)
Fixpoint without_char (c : Ascii.ascii) (s : string) : Prop :=
  match s with
  | EmptyString => True
  | String a rest => a ≠ c ∧ without_char c rest
  end.

(** The tensor occupies memory at node time [time]: it is lifelong, or
    [time] is in its lifetime. *)
Definition live_at (time : nat) (t : SomasTensor) : bool :=
  bool_decide (lifelong_value_ t = kLifeLongGraphAll)
  || bool_decide (lifetime_start_ t ≤ time ≤ lifetime_end_ t).

(** The sum of the aligned sizes, without wrap-around. *)
Definition total_aligned_size (tl : list SomasTensor) : N :=
  foldr N.add 0%N (aligned_size_ <$> tl).

(** The memory that the tensors live at [time] occupy together. *)
Definition live_size (tl : list SomasTensor) (time : nat) : N :=
  total_aligned_size (filter (fun t => live_at time t = true) tl).

(** The largest lifetime end. *)
Definition last_node_time (tl : list SomasTensor) : nat := max_list (lifetime_end_ <$> tl).

Definition zero_statistics : Statistics := mkStatistics 0 0 0 0 0 0.

(** The sum of the aligned sizes of the tensors that satisfy [p]. *)
Definition class_size (p : SomasTensor → bool) (tl : list SomasTensor) : N :=
  total_aligned_size (filter (fun t => p t = true) tl).

Definition has_type (ty : TensorType) (t : SomasTensor) : bool := bool_decide (type_ t = ty).
Definition has_lifelong (v : LifeLongType) (t : SomasTensor) : bool :=
  bool_decide (lifelong_value_ t = v).

(** The kernels from which [InitSomasStreamAndNode] makes the nodes. *)
Definition node_kernels (graph : KernelGraph) : list nat :=
  if subgraph_multi_call graph then mem_reuse_exec_order graph else execution_order graph.

(** The positions of [kernel] in [kernels], ascending. *)
Definition occurrences (kernel : nat) (kernels : list nat) : list nat :=
  filter (fun i => kernels !! i = Some kernel) (seq 0 (length kernels)).

(** The positions of the kernels of stream [sid], ascending. *)
Definition stream_positions (graph : KernelGraph) (sid : nat) (kernels : list nat) : list nat :=
  filter (fun i => GetStreamId graph <$> kernels !! i = Some sid) (seq 0 (length kernels)).

(** The node that [InitSomasStreamAndNode] makes for the kernel at position
    [i]. *)
Definition fresh_node (graph : KernelGraph) (i kernel : nat) : SomasNode :=
  mkNode i (GetStreamId graph kernel)
    (if IsCommunicationOp graph kernel then kCommunicationNode else kCommonNode) [] [] [] [].

(** [n0] is the first of the nodes of the kernel to which the node [i]
    belongs. *)
Definition first_node_of (nodes_map : NodesMap) (i n0 : nat) : Prop :=
  ∃ kernel nodes, nodes_map kernel = Some nodes ∧ i ∈ nodes ∧ head nodes = Some n0.

(** [tid] is the id of a registered tensor of type [ty] whose source is the
    first node of the kernel of node [i]. *)
Definition tensor_listed (nodes_map : NodesMap) (tl : list SomasTensor) (ty : TensorType)
    (i tid : nat) : Prop :=
  ∃ t, tl !! tid = Some t ∧ type_ t = ty ∧ first_node_of nodes_map i (source_node_id_ t).

(** [node'] is [node] with tensors of its kernel appended to its output list
    and to its workspace list. *)
Definition node_grown (nodes_map : NodesMap) (tl : list SomasTensor) (node node' : SomasNode)
    : Prop :=
  node_id_ node' = node_id_ node ∧ stream_id_ node' = stream_id_ node
  ∧ node_type_ node' = node_type_ node ∧ input_tensors_ node' = input_tensors_ node
  ∧ ancestor_nodes_ node' = ancestor_nodes_ node
  ∧ (∃ outs, output_tensors_ node' = output_tensors_ node ++ outs
             ∧ Forall (tensor_listed nodes_map tl kOutputOnly (node_id_ node)) outs)
  ∧ (∃ ws, workspace_tensors_ node' = workspace_tensors_ node ++ ws
           ∧ Forall (tensor_listed nodes_map tl kWorkspace (node_id_ node)) ws).

(** What the constructor and the assignments leave in a tensor that
    [InitSomasOutputAndWorkspaceTensors] has made. *)
Definition fresh_tensor (aligned : N → N) (t : SomasTensor) : Prop :=
  lifelong_value_ t = kLifeLongNone
  ∧ (type_ t = kOutputOnly ∨ type_ t = kWorkspace)
  ∧ lifetime_start_ t = source_node_id_ t
  ∧ (aligned_size_ t = 0%N ∨ aligned_size_ t = aligned (original_size_ t))
  ∧ contiguous_ t = false ∧ offset_ t = 0%N
  ∧ destination_nodes_ t = [] ∧ consumer_list_ t = [].

(** The tensor belongs to a kernel of the execution order: its source is the
    first node of the kernel, whose stream it has, and its lifetime ends at
    the last node of the kernel. *)
Definition made_for (graph : KernelGraph) (nodes_map : NodesMap) (nodes_list : list SomasNode)
    (t : SomasTensor) : Prop :=
  ∃ kernel nodes node,
    kernel ∈ execution_order graph ∧ nodes_map kernel = Some nodes
    ∧ head nodes = Some (source_node_id_ t) ∧ last nodes = Some (lifetime_end_ t)
    ∧ nodes_list !! source_node_id_ t = Some node ∧ source_stream_id_ t = stream_id_ node.

(** Every tensor is in the output list or in the workspace list, as its type
    says, of its source node. *)
Definition listed_by_source (nl : list SomasNode) (tl : list SomasTensor) : Prop :=
  ∀ tid t, tl !! tid = Some t →
    ∃ node, nl !! source_node_id_ t = Some node
            ∧ (type_ t = kOutputOnly → tid ∈ output_tensors_ node)
            ∧ (type_ t = kWorkspace → tid ∈ workspace_tensors_ node).

(** The number of size entries of the kernel mod of a kernel. *)
Definition tensor_count (graph : KernelGraph) (kernel : nat) : nat :=
  match GetKernelMod graph kernel with
  | Some kernel_mod =>
      length (GetOutputSizeList kernel_mod) + length (GetWorkspaceSizeList kernel_mod)
  | None => 0
  end.

(** The node lists the tensor [tid] as its type [ty] says. *)
Definition lists_tensor (ty : TensorType) (tid : nat) (node : SomasNode) : Prop :=
  (ty = kOutputOnly → tid ∈ output_tensors_ node)
  ∧ (ty = kWorkspace → tid ∈ workspace_tensors_ node).

(** The registry that [InitSomasOutputAndWorkspaceTensors] builds on the
    nodes [nl0]: dense tensor ids, every tensor fresh and made for a kernel,
    the nodes grown by registered tensors, every tensor listed by its
    source. *)
Definition tensors_made (aligned : N → N) (graph : KernelGraph) (nodes_map : NodesMap)
    (nl0 nl : list SomasNode) (tl : list SomasTensor) : Prop :=
  dense_ids tl
  ∧ Forall (fun t => fresh_tensor aligned t ∧ made_for graph nodes_map nl0 t) tl
  ∧ Forall2 (node_grown nodes_map tl) nl0 nl
  ∧ listed_by_source nl tl.

(** [nodes_map_] lists registered nodes, none of its lists is empty, and no
    node belongs to two kernels. *)
Definition nodes_map_ok (nodes_map : NodesMap) (nl : list SomasNode) : Prop :=
  (∀ kernel nodes, nodes_map kernel = Some nodes →
     nodes ≠ [] ∧ ∀ n, n ∈ nodes → n < length nl)
  ∧ (∀ k1 k2 nodes1 nodes2 n,
       nodes_map k1 = Some nodes1 → nodes_map k2 = Some nodes2 →
       n ∈ nodes1 → n ∈ nodes2 → k1 = k2).

(** The destination [d] of the tensor [t] with id [tid] is sound: the
    lifetime of the tensor reaches it, the node [d] has the tensor among its
    inputs, and the first node of the kernel of [d] is the source of the
    tensor or has it among its direct ancestors. *)
Definition consumed_at (nodes_map : NodesMap) (nl : list SomasNode) (tid : nat)
    (t : SomasTensor) (d : nat) : Prop :=
  d ≤ lifetime_end_ t
  ∧ (∃ node, nl !! d = Some node ∧ tid ∈ input_tensors_ node)
  ∧ ∃ n0 node0, first_node_of nodes_map d n0 ∧ nl !! n0 = Some node0
                ∧ (n0 = source_node_id_ t ∨ source_node_id_ t ∈ ancestor_nodes_ node0).

(** The registry is linked up: node ids and tensor ids are dense, the nodes
    list registered tensors only, the source of an output of a node is the
    first node of the kernel of that node, and every destination is
    sound. *)
Definition registry_ok (nodes_map : NodesMap) (nl : list SomasNode) (tl : list SomasTensor)
    : Prop :=
  dense_node_ids nl ∧ dense_ids tl
  ∧ (∀ i node tid, nl !! i = Some node →
       tid ∈ input_tensors_ node ∨ tid ∈ output_tensors_ node ∨ tid ∈ workspace_tensors_ node →
       tid < length tl)
  ∧ (∀ i node tid t, nl !! i = Some node → tid ∈ output_tensors_ node → tl !! tid = Some t →
       first_node_of nodes_map i (source_node_id_ t))
  ∧ (∀ tid t d, tl !! tid = Some t → d ∈ destination_nodes_ t →
       consumed_at nodes_map nl tid t d).

(** [node'] is [node] with more tensors behind its inputs and its outputs,
    all of them below [bound], and with more ancestors. *)
Definition node_linked (bound : nat) (node node' : SomasNode) : Prop :=
  node_id_ node' = node_id_ node ∧ stream_id_ node' = stream_id_ node
  ∧ node_type_ node' = node_type_ node
  ∧ workspace_tensors_ node' = workspace_tensors_ node
  ∧ (∃ outs, output_tensors_ node' = output_tensors_ node ++ outs
             ∧ Forall (fun tid => tid < bound) outs)
  ∧ (∃ ins, input_tensors_ node' = input_tensors_ node ++ ins
            ∧ Forall (fun tid => tid < bound) ins)
  ∧ (∀ a, a ∈ ancestor_nodes_ node → a ∈ ancestor_nodes_ node').

(** The same, with the outputs unchanged. *)
Definition node_inputs_grown (bound : nat) (node node' : SomasNode) : Prop :=
  node_linked bound node node' ∧ output_tensors_ node' = output_tensors_ node.

(** [t'] is [t] with more destinations and a lifetime that ends no earlier;
    the type and the lifelong value are free, everything else is kept. *)
Definition tensor_linked (t t' : SomasTensor) : Prop :=
  id_ t' = id_ t ∧ source_node_id_ t' = source_node_id_ t
  ∧ source_stream_id_ t' = source_stream_id_ t ∧ original_size_ t' = original_size_ t
  ∧ aligned_size_ t' = aligned_size_ t ∧ lifetime_start_ t' = lifetime_start_ t
  ∧ contiguous_ t' = contiguous_ t ∧ offset_ t' = offset_ t
  ∧ consumer_list_ t' = consumer_list_ t
  ∧ lifetime_end_ t ≤ lifetime_end_ t'
  ∧ (∀ d, d ∈ destination_nodes_ t → d ∈ destination_nodes_ t').

(** What the input functions may change in a tensor: destinations and the
    end of the lifetime grow, an OutputOnly tensor may become Common, and
    the tensor may become lifelong. *)
Definition input_frame (t t' : SomasTensor) : Prop :=
  tensor_linked t t'
  ∧ (type_ t' = type_ t ∨ (type_ t = kOutputOnly ∧ type_ t' = kCommon))
  ∧ (lifelong_value_ t' = lifelong_value_ t ∨ lifelong_value_ t' = kLifeLongGraphAll).

(** The registry [nl], [tl] is linked up and comes from [nl0], [tl0] by
    linking inputs: the nodes have more inputs and ancestors, the tensors
    more destinations. *)
Definition inputs_linked_from (nodes_map : NodesMap) (nl0 : list SomasNode)
    (tl0 : list SomasTensor) (nl : list SomasNode) (tl : list SomasTensor) : Prop :=
  registry_ok nodes_map nl tl
  ∧ Forall2 (node_inputs_grown (length tl0)) nl0 nl
  ∧ Forall2 input_frame tl0 tl.

(** The nodes hold no tensor and no ancestor yet. *)
Definition fresh_nodes (nl : list SomasNode) : Prop :=
  Forall (fun node => input_tensors_ node = [] ∧ output_tensors_ node = []
                      ∧ workspace_tensors_ node = [] ∧ ancestor_nodes_ node = []) nl.

(** [t'] is [t] up to the members that do not link the registry: the id, the
    source, the end of the lifetime and the destinations are the same. *)
Definition same_links (t t' : SomasTensor) : Prop :=
  id_ t' = id_ t ∧ source_node_id_ t' = source_node_id_ t
  ∧ lifetime_end_ t' = lifetime_end_ t ∧ destination_nodes_ t' = destination_nodes_ t.

(** The tensors of [tl] are those of [tl0] followed by event tensors:
    virtual outputs without size that are not lifelong, with one destination
    and no consumer yet. *)
Definition events_added (aligned : N → N) (tl0 tl : list SomasTensor) : Prop :=
  ∃ events,
    tl = tl0 ++ events
    ∧ Forall (fun t => type_ t = kEventVirtualOutput ∧ original_size_ t = 0%N
                       ∧ aligned_size_ t = aligned 0%N
                       ∧ lifelong_value_ t = kLifeLongNone
                       ∧ lifetime_start_ t = source_node_id_ t
                       ∧ destination_nodes_ t = [lifetime_end_ t]
                       ∧ consumer_list_ t = []) events.

(** [tid] is an output of the first node of a kernel of the execution order
    that [selected] holds for. *)
Definition output_of_selected (selected : nat → bool) (graph : KernelGraph)
    (nodes_map : NodesMap) (nl : list SomasNode) (tid : nat) : Prop :=
  ∃ kernel n0 rest node,
    kernel ∈ execution_order graph ∧ selected kernel = true
    ∧ nodes_map kernel = Some (n0 :: rest) ∧ nl !! n0 = Some node
    ∧ tid ∈ output_tensors_ node.

(** [tid] is the output that a summary node reads. *)
Definition summary_input (graph : KernelGraph) (nodes_map : NodesMap) (nl : list SomasNode)
    (tid : nat) : Prop :=
  summary_node_exist graph = true
  ∧ ∃ item n0 rest node,
      item ∈ summary_nodes graph ∧ nodes_map item.1 = Some (n0 :: rest)
      ∧ nl !! n0 = Some node ∧ output_tensors_ node !! item.2 = Some tid.

(** The two changes that the special tensors undergo. *)
Definition as_getnext_output (t : SomasTensor) : SomasTensor :=
  with_type kGetNextOutput (with_lifelong_value kLifeLongGraphAll t).

Definition as_summary_input (t : SomasTensor) : SomasTensor :=
  with_type kSummaryInput (with_lifelong_value kLifeLongGraphAll t).

(** [tl'] is [tl] with [f] applied to the tensors that satisfy [marked],
    and to no other. *)
Definition changed_where (marked : nat → Prop) (f : SomasTensor → SomasTensor)
    (tl tl' : list SomasTensor) : Prop :=
  ∀ tid, (marked tid ∧ tl' !! tid = f <$> tl !! tid)
         ∨ (¬ marked tid ∧ tl' !! tid = tl !! tid).

(** [t'] is [t] up to the type. *)
Definition same_but_type (t t' : SomasTensor) : Prop := t' = with_type (type_ t') t.

(** [group] is the input and the output of a ref output: the output is the
    output [out_index] of the first node of a kernel of the execution order
    that has a kernel mod, the input is the output of the first node of the
    origin that the ref map of the graph gives for it, a real kernel. *)
Definition ref_pair (graph : KernelGraph) (nodes_map : NodesMap) (nl : list SomasNode)
    (group : list nat) : Prop :=
  ∃ kernel kernel_mod out_index origin_pair n0 rest node r0 rs repeat_node input output,
    kernel ∈ execution_order graph ∧ GetKernelMod graph kernel = Some kernel_mod
    ∧ out_index < length (GetOutputSizeList kernel_mod)
    ∧ GetRefCorrespondOutput graph kernel out_index = RefOriginNode origin_pair
    ∧ IsRealCNodeKernel origin_pair = true
    ∧ nodes_map kernel = Some (n0 :: rest) ∧ nl !! n0 = Some node
    ∧ output_tensors_ node !! out_index = Some output
    ∧ nodes_map (kernel_of origin_pair) = Some (r0 :: rs) ∧ nl !! r0 = Some repeat_node
    ∧ output_tensors_ repeat_node !! index_of origin_pair = Some input
    ∧ group = [input; output].

(** [group] is the first input of the first node of a non-task kernel,
    followed by the outputs of that node. *)
Definition non_task_group (graph : KernelGraph) (nodes_map : NodesMap) (nl : list SomasNode)
    (group : list nat) : Prop :=
  ∃ kernel n0 rest node input inputs,
    kernel ∈ execution_order graph ∧ IsNonTaskOp graph kernel = true
    ∧ nodes_map kernel = Some (n0 :: rest) ∧ nl !! n0 = Some node
    ∧ input_tensors_ node = input :: inputs
    ∧ group = input :: output_tensors_ node.

(** [t'] is [t] up to the members that the passes of [InitSomasTensors]
    after [InitBasicInfo] set: the lifelong value, the type, the aligned
    size and the contiguous flag. *)
Definition same_but_marks (t t' : SomasTensor) : Prop :=
  t' = with_contiguous (contiguous_ t')
         (with_aligned_size (aligned_size_ t')
            (with_type (type_ t') (with_lifelong_value (lifelong_value_ t') t))).

(** A group of the ref-node constraints as [InitSomasTensors] makes them. *)
Definition ref_group (graph : KernelGraph) (nodes_map : NodesMap) (nl : list SomasNode)
    (group : list nat) : Prop :=
  ref_pair graph nodes_map nl group ∨ non_task_group graph nodes_map nl group.

(** The tensor [tid] is linked as an input of the nodes [nodes]: it is
    registered and no longer OutputOnly, and every one of the nodes is a
    destination of the tensor within its lifetime and holds the tensor among
    its inputs. *)
Definition input_linked (nl : list SomasNode) (tl : list SomasTensor) (nodes : list nat)
    (tid : nat) : Prop :=
  ∃ t, tl !! tid = Some t ∧ type_ t ≠ kOutputOnly
       ∧ ∀ n, n ∈ nodes →
           n ∈ destination_nodes_ t ∧ n ≤ lifetime_end_ t
           ∧ ∃ node, nl !! n = Some node ∧ tid ∈ input_tensors_ node.

(** The input [i] of [kernel] is neither null nor a MakeTuple, and when it
    comes from a real kernel, that kernel has nodes and a tensor at the
    output index of its first node (the index is below the number of
    outputs), and this tensor is linked as an input of the nodes of
    [kernel]. *)
Definition real_input_linked (graph : KernelGraph) (nodes_map : NodesMap)
    (nl : list SomasNode) (tl : list SomasTensor) (kernel i : nat) : Prop :=
  ∃ prenode_index,
    VisitInput graph kernel i (negb (IsAllNopNode graph)) = Some (VisitNode prenode_index)
    ∧ (IsRealCNodeKernel prenode_index = true →
       ∃ nodes p0 ps producer tid,
         nodes_map kernel = Some nodes
         ∧ nodes_map (kernel_of prenode_index) = Some (p0 :: ps)
         ∧ nl !! p0 = Some producer
         ∧ output_tensors_ producer !! index_of prenode_index = Some tid
         ∧ index_of prenode_index < length (output_tensors_ producer)
         ∧ input_linked nl tl nodes tid).

(** The tensor [tid] is linked as an input of the atomic clean node [n0]:
    the node holds it among its inputs, and it is registered and, with
    fusion clear, lifelong. *)
Definition clean_input_linked (enable_fusion_clear : bool) (nl : list SomasNode)
    (tl : list SomasTensor) (n0 tid : nat) : Prop :=
  (∃ node, nl !! n0 = Some node ∧ tid ∈ input_tensors_ node)
  ∧ ∃ t, tl !! tid = Some t
         ∧ (enable_fusion_clear = true → lifelong_value_ t = kLifeLongGraphAll).

(** The input [i] of the atomic clean [kernel] is a kernel that has nodes,
    and the outputs and the workspaces of its first node that its two index
    attributes name are linked as inputs of the first node of [kernel].  A
    workspace index is not above the number of outputs. *)
Definition atomic_clean_linked (enable_fusion_clear : bool) (graph : KernelGraph)
    (nodes_map : NodesMap) (nl : list SomasNode) (tl : list SomasTensor) (kernel i : nat)
    : Prop :=
  ∃ pre_node n0 rest p0 ps producer,
    AtomicCleanInput graph kernel i = Some (Some pre_node)
    ∧ nodes_map kernel = Some (n0 :: rest) ∧ nodes_map pre_node = Some (p0 :: ps)
    ∧ nl !! p0 = Some producer
    ∧ (∀ indexs index,
         AtomicOutputIndexs graph pre_node = Some indexs → index ∈ indexs →
         ∃ tid, output_tensors_ producer !! index = Some tid
                ∧ clean_input_linked enable_fusion_clear nl tl n0 tid)
    ∧ (∀ indexs index,
         AtomicWorkspaceIndexs graph pre_node = Some indexs → index ∈ indexs →
         index ≤ length (output_tensors_ producer)
         ∧ ∃ tid, workspace_tensors_ producer !! index = Some tid
                  ∧ clean_input_linked enable_fusion_clear nl tl n0 tid).

(** * Example registries *)

(** ** Example registry: a chain of three nodes *)

(** Node 0 produces tensors 0 and 3, node 1 consumes them and produces
    tensor 1, node 2 consumes tensor 1 and produces tensor 2, which nobody
    consumes (its consumer list defaults to its own source node). *)
Definition chain_nodes : list SomasNode :=
  [ mkNode 0 0 kCommonNode [] [0; 3] [] [];
    mkNode 1 0 kCommonNode [0; 3] [1] [] [0];
    mkNode 2 0 kCommonNode [1] [2] [] [1] ].

Definition chain_tensor (tid src : nat) (consumers : list nat) : SomasTensor :=
  mkTensor tid src 0 64%N 512%N kLifeLongNone kCommon src (default src (last consumers))
    false 0%N consumers consumers.

Definition chain_tensors : list SomasTensor :=
  [ chain_tensor 0 0 [1]; chain_tensor 1 1 [2]; chain_tensor 2 2 [2]; chain_tensor 3 0 [1] ].

(** The planner for the chain as [InitSomasTensors] leaves it: one stream,
    the destinations registered, no consumer list yet; tensor 2 has no
    destination. *)
Definition chain_state : Somas :=
  mkSomas
    [ with_consumer_list [] (chain_tensor 0 0 [1]); with_consumer_list [] (chain_tensor 1 1 [2]);
      with_consumer_list [] (chain_tensor 2 2 []); with_consumer_list [] (chain_tensor 3 0 [1]) ]
    chain_nodes [ mkStream 0 [0; 1; 2] ] [] [] [] [] [] 0%N "".

(** Three tensors, the middle one GraphEnd, and a matrix with every bit set. *)
Definition semi_tensors : list SomasTensor :=
  [ chain_tensor 0 0 [1];
    mkTensor 1 1 0 64%N 512%N kLifeLongGraphEnd kCommon 1 1 false 0%N [1] [1];
    chain_tensor 2 2 [2] ].

(** ** Example registry: two ref-node groups *)

(** Four tensors of four nodes; tensor 0 may reuse tensors 2 and 3 (and
    back), nothing else is reusable.  The groups are [0;1] and [2;3]. *)
Definition ref_tensors : list SomasTensor :=
  [ chain_tensor 0 0 [1]; chain_tensor 1 1 [2]; chain_tensor 2 2 [3]; chain_tensor 3 3 [3] ].

Definition ref_matrix : list (list bool) :=
  [ [false; false; true; true];
    [false; false; false; false];
    [true; false; false; false];
    [true; false; false; false] ].

Definition ref_groups : list (list nat) := [ [0; 1]; [2; 3] ].



(** A ref-node pair whose output (tensor 1) is the first tensor of the
    contiguous list [1;2] of a communication node; its input (tensor 0) is
    not contiguous. *)
Definition mixed_tensors : list SomasTensor :=
  [ chain_tensor 0 0 [1];
    with_contiguous true (with_aligned_size 1024%N (chain_tensor 1 1 [2]));
    with_contiguous true (with_aligned_size 1024%N (chain_tensor 2 1 [2])) ].

Definition mixed_state : Somas :=
  mkSomas mixed_tensors [] [] [] [[0; 1]] [] [[1; 2]] (replicate 3 (replicate 3 false)) 0%N "".

(** A solver that packs the three tensors of [mixed_state]: the contiguous
    tensors 1 and 2 at 0 and 1024, tensor 0 after them at 2048. *)
Definition packed_solver : Solver :=
  fun _ _ _ =>
    Some (fun i => match i with 0 => 2048%N | 1 => 0%N | _ => 1024%N end, 2560%N).

(** A solver that puts the entry of id [i] at offset [4096 * i]. *)
Definition spread_solver : Solver :=
  fun _ _ _ => Some (fun i => (4096 * N.of_nat i)%N, 16384%N).





(** ** Example: two communication nodes sharing their first input *)

(** Node 0 reads tensor 0 and writes tensor 2; node 1 reads tensors 0, 1 and
    1 again and writes tensor 3. *)
Definition shared_input_nodes : list SomasNode :=
  [ mkNode 0 0 kCommunicationNode [0] [2] [] [];
    mkNode 1 0 kCommunicationNode [0; 1; 1] [3] [] [0] ].

Definition shared_input_state : ContiguousState :=
  mkContiguousState
    [ chain_tensor 0 0 [0]; chain_tensor 1 0 [1]; chain_tensor 2 0 [0]; chain_tensor 3 1 [1] ]
    [] 0%N.





(** ** Example: a communication node whose first input has aligned size 0 *)



(** ** Example: two communication nodes with a tensor in common *)





(** ** Example registry: 2000 externally backed tensors, and cache files *)

(** A registry of 2000 tensors of one node, all of them backed by an
    external address (aligned size 0). *)
Definition backed_tensor (i : nat) : SomasTensor :=
  mkTensor i 0 0 64%N 0%N kLifeLongNone kOutputOnly 0 0 false 0%N [] [].

Definition backed_state : Somas :=
  mkSomas (backed_tensor <$> seq 0 2000) [ mkNode 0 0 kCommonNode [] (seq 0 2000) [] [] ]
    [ mkStream 0 [0] ] [] [] [] [] [] 0%N "".

(** No cache file. *)
Definition cache_missing : Environment :=
  mkEnvironment 0 OpenFailed OpenFailed (fun _ => "model") true spread_solver (fun l => l).

(** A cache file that is being written: not JSON at first, gone at the
    second look. *)
Definition cache_half_written : Environment :=
  mkEnvironment 0 ParseFailed OpenFailed (fun _ => "model") true spread_solver (fun l => l).

(** A cache file of another graph: the tensor count is not that of the
    registry. *)
Definition foreign_json : SomasJson :=
  mkSomasJson 0 "model" 8192%N 1 2500 0 0 1 0 [ mkTensorJson 0 0%N 64%N 0 0 0 4096%N ].

Definition cache_foreign : Environment :=
  mkEnvironment 0 (Parsed foreign_json) OpenFailed (fun _ => "model") true spread_solver
    (fun l => l).

(** A cache file whose counts fit; its first entry fits tensor 0, its second
    entry records another size than tensor 1 has. *)
Definition stale_json : SomasJson :=
  mkSomasJson 0 "model" 8192%N 1 2000 0 0 1 0
    [ mkTensorJson 0 0%N 64%N 0 0 0 4096%N; mkTensorJson 1 512%N 64%N 0 0 0 0%N ].

Definition cache_stale : Environment :=
  mkEnvironment 0 (Parsed stale_json) OpenFailed (fun _ => "model") true spread_solver (fun l => l).

(** The chain after [UpdateTensorDestinations]. *)
Definition chain_updated : Somas :=
  Eval vm_compute in
    match UpdateTensorDestinations chain_state with
    | Done st1 => st1
    | _ => chain_state
    end.

(** The chain after [ComputeConflictPairs], the candidates left in place. *)
Definition chain_conflicts : Somas :=
  Eval vm_compute in
    match ComputeConflictPairs (fun l => l) chain_state with
    | Done st1 => st1
    | _ => chain_state
    end.

(** [shared_input_state] after [GenContiguousList] over [shared_input_nodes]. *)
Definition shared_input_built : ContiguousState * N :=
  Eval vm_compute in
    match GenContiguousList shared_input_nodes shared_input_state 0%N with
    | Done r => r
    | _ => (shared_input_state, 0%N)
    end.

(** [mixed_state] after [Assign] with [packed_solver]. *)
Definition mixed_assigned : Somas :=
  Eval vm_compute in
    match Assign packed_solver mixed_state with
    | Done st1 => st1
    | _ => mixed_state
    end.

(** A planner of the model of [mixed_assigned] that has not been solved, the
    cache file written for [mixed_assigned], and the planner after loading
    that file. *)
Definition mixed_reset : Somas := with_tensors (tensors_list_ mixed_state) mixed_assigned.

Definition cache_of_mixed : Environment :=
  mkEnvironment 7 (Parsed (SaveSomasResult_somas_json 7 mixed_assigned)) OpenFailed
    (fun _ => "model") true packed_solver (fun l => l).

Definition mixed_loaded : Somas :=
  Eval vm_compute in
    match (LoadSomasResult cache_of_mixed mixed_reset).2 with
    | Done (st1, _) => st1
    | _ => mixed_reset
    end.

(** A rounding to multiples of 512, for the example graphs. *)
Definition round_up_512 (size : N) : N := ((size + 511) / 512 * 512)%N.

(** A graph of kernels that have no inputs, no attributes and no events. *)
Definition plain_graph (execution_order : list nat) (GetStreamId : nat → nat)
    (IsCommunicationOp : nat → bool) (GetKernelMod : nat → option KernelMod)
    (OutputAddrExist : nat → nat → bool) : KernelGraph :=
  mkKernelGraph execution_order [] false false [] (fun _ _ => NotInRefOutputMap)
    GetStreamId IsCommunicationOp GetKernelMod OutputAddrExist (fun _ _ => false)
    (fun _ _ => None) (fun _ => EmptyString) (fun _ => false) (fun _ => false) (fun _ => false)
    (fun _ => false) false (fun _ => 0) (fun _ _ _ => None) (fun _ _ => false)
    (fun _ _ => None) (fun _ => None) (fun _ => None) [] [] (fun _ => 0).

(** Two kernels on one stream: kernel 10 has two outputs, the second of which
    has a device address already, kernel 11 has an output and a workspace. *)
Definition two_kernel_graph : KernelGraph :=
  plain_graph [10; 11] (fun _ => 0) (fun _ => false)
    (fun kernel =>
       if kernel =? 10 then Some (mkKernelMod [100%N; 200%N] [])
       else if kernel =? 11 then Some (mkKernelMod [64%N] [32%N]) else None)
    (fun kernel index => (kernel =? 10) && (index =? 1)).

Definition two_kernel_nodes_map : NodesMap :=
  fun kernel => if kernel =? 10 then Some [0] else if kernel =? 11 then Some [1] else None.

(** A graph of four kernels on two streams.  Kernel 10 is a GetNext with one
    output.  Kernel 11 reads that output and a parameter, has an output that
    is a ref of its input and a workspace, is independent and is read by a
    summary node.  Kernel 12 is a non-task kernel that splits the output of
    kernel 11 in two.  Kernel 13, a communication kernel on stream 1, reads
    both parts and has two outputs; an event leads from kernel 12 to it. *)
Definition pipeline_graph : KernelGraph :=
  mkKernelGraph [10; 11; 12; 13] [] false true [(11, 0)]
    (fun kernel index =>
       if (kernel =? 11) && (index =? 0) then RefOriginNode (mkKernelWithIndex 10 0 true)
       else NotInRefOutputMap)
    (fun kernel => if kernel =? 13 then 1 else 0)
    (fun kernel => kernel =? 13)
    (fun kernel =>
       if kernel =? 10 then Some (mkKernelMod [100%N] [])
       else if kernel =? 11 then Some (mkKernelMod [200%N] [32%N])
       else if kernel =? 12 then Some (mkKernelMod [64%N; 64%N] [])
       else if kernel =? 13 then Some (mkKernelMod [64%N; 64%N] [])
       else None)
    (fun _ _ => false) (fun _ _ => false) (fun _ _ => None) (fun _ => EmptyString)
    (fun kernel => kernel =? 11) (fun kernel => kernel =? 12) (fun kernel => kernel =? 10)
    (fun _ => false) false
    (fun kernel => if kernel =? 10 then 0 else if kernel =? 12 then 1 else 2)
    (fun kernel i _ =>
       if kernel =? 11
       then Some (VisitNode (if i =? 0 then mkKernelWithIndex 10 0 true
                             else mkKernelWithIndex 99 0 false))
       else if kernel =? 12 then Some (VisitNode (mkKernelWithIndex 11 0 true))
       else Some (VisitNode (mkKernelWithIndex 12 i true)))
    (fun _ _ => false) (fun _ _ => None) (fun _ => None) (fun _ => None)
    [] [(12, 13)] (fun _ => 0).

(** [nodes_map_] of the graph: every kernel has the node of its position. *)
Definition pipeline_nodes_map : NodesMap :=
  fun kernel =>
    if bool_decide (kernel ∈ node_kernels pipeline_graph)
    then Some (occurrences kernel (node_kernels pipeline_graph)) else None.

(** The nodes of the graph as [InitSomasStreamAndNode] makes them. *)
Definition pipeline_nodes : list SomasNode :=
  imap (fresh_node pipeline_graph) (node_kernels pipeline_graph).

(** The registry of the graph after [InitSomasOutputAndWorkspaceTensors]. *)
Definition pipeline_made : list SomasNode * list SomasTensor :=
  Eval vm_compute in
    match InitSomasOutputAndWorkspaceTensors round_up_512 pipeline_graph pipeline_nodes_map
            pipeline_nodes with
    | Done r => r
    | _ => ([], [])
    end.

(** No parameters yet. *)
Definition no_parameters : Parameters := mkParameters [] (fun _ => None) (fun _ _ => None).

(** The registry of the graph after [InitSomasInputTensors]. *)
Definition pipeline_linked : list SomasNode * list SomasTensor :=
  Eval vm_compute in
    match InitSomasInputTensors false pipeline_graph pipeline_nodes_map
            (pipeline_made.1, pipeline_made.2, no_parameters) with
    | Done r => r.1
    | _ => ([], [])
    end.

(** The registry of the graph after [InitSomasEventInfos]. *)
Definition pipeline_initial : list SomasNode * list SomasTensor :=
  Eval vm_compute in
    match InitSomasEventInfos round_up_512 pipeline_graph pipeline_nodes_map
            pipeline_linked.1 pipeline_linked.2 with
    | Done r => r
    | _ => ([], [])
    end.

(** The tensors and the ref-node constraints of the graph after
    [RefNodeProcess], and after [NonTaskSplitProcess]. *)
Definition pipeline_refs : list SomasTensor * list (list nat) :=
  Eval vm_compute in
    match RefNodeProcess pipeline_graph pipeline_nodes_map pipeline_initial.1
            pipeline_initial.2 [] with
    | Done r => r
    | _ => ([], [])
    end.

Definition pipeline_groups : list SomasTensor * list (list nat) :=
  Eval vm_compute in
    match NonTaskSplitProcess pipeline_graph pipeline_nodes_map pipeline_initial.1
            pipeline_refs.1 pipeline_refs.2 with
    | Done r => r
    | _ => ([], [])
    end.

(** The planner of the graph after [InitSomasTensors]. *)
Definition pipeline_planner : Somas :=
  Eval vm_compute in
    match InitSomasTensors false round_up_512 pipeline_graph with
    | Done init => planner init
    | _ => mkSomas [] [] [] [] [] [] [] [] 0%N EmptyString
    end.

(** The planner of the graph after [UpdateTensorDestinations]. *)
Definition pipeline_destinations : Somas :=
  Eval vm_compute in
    match UpdateTensorDestinations pipeline_planner with
    | Done st => st
    | _ => pipeline_planner
    end.

(** An atomic clean and the kernel that it cleans: kernel 30 is the atomic
    clean, with kernel 31 as its input; kernel 31 has two outputs and a
    workspace, and its attributes name the output 1 and the workspace 0. *)
Definition clean_graph : KernelGraph :=
  mkKernelGraph [30; 31] [] false false [] (fun _ _ => NotInRefOutputMap)
    (fun _ => 0) (fun _ => false)
    (fun kernel =>
       if kernel =? 30 then Some (mkKernelMod [] [])
       else if kernel =? 31 then Some (mkKernelMod [100%N; 200%N] [32%N])
       else None)
    (fun _ _ => false) (fun _ _ => false) (fun _ _ => None) (fun _ => EmptyString)
    (fun _ => false) (fun _ => false) (fun _ => false)
    (fun kernel => kernel =? 30) false
    (fun kernel => if kernel =? 30 then 1 else 0)
    (fun _ _ _ => None) (fun _ _ => false)
    (fun kernel i => if (kernel =? 30) && (i =? 0) then Some (Some 31) else None)
    (fun kernel => if kernel =? 31 then Some [1] else None)
    (fun kernel => if kernel =? 31 then Some [0] else None)
    [] [] (fun _ => 0).

Definition clean_nodes_map : NodesMap :=
  fun kernel =>
    if bool_decide (kernel ∈ node_kernels clean_graph)
    then Some (occurrences kernel (node_kernels clean_graph)) else None.

(** The registry of the graph after [InitSomasOutputAndWorkspaceTensors],
    and after [InitSomasInputTensors] with fusion clear. *)
Definition clean_made : list SomasNode * list SomasTensor :=
  Eval vm_compute in
    match InitSomasOutputAndWorkspaceTensors round_up_512 clean_graph clean_nodes_map
            (imap (fresh_node clean_graph) (node_kernels clean_graph)) with
    | Done r => r
    | _ => ([], [])
    end.

Definition clean_linked : list SomasNode * list SomasTensor :=
  Eval vm_compute in
    match InitSomasInputTensors true clean_graph clean_nodes_map
            (clean_made.1, clean_made.2, no_parameters) with
    | Done r => r.1
    | _ => ([], [])
    end.

(** * Lemmas and claims *)

(** ** Bitsets and matrices: basic facts *)

Section bitsets.
Implicit Types (b : DynamicBitSet) (m : BitMatrix).

Lemma IsBitTrue_new count i : IsBitTrue (NewDynamicBitSet count) i = false.
Proof.
  unfold IsBitTrue, NewDynamicBitSet.
  destruct (replicate count false !! i) as [x|] eqn:E; [|done].
  apply lookup_replicate in E as [-> _]. done.
Qed.

Lemma IsBitTrue_ge b i : length b ≤ i → IsBitTrue b i = false.
Proof. intros H. unfold IsBitTrue. by rewrite lookup_ge_None_2. Qed.

Lemma IsBitTrue_SetBitTrue b i j :
  IsBitTrue (SetBitTrue i b) j = bool_decide (i = j ∧ i < length b) || IsBitTrue b j.
Proof.
  unfold IsBitTrue, SetBitTrue.
  destruct (decide (i = j)) as [->|Hne].
  - destruct (decide (j < length b)) as [Hlt|Hge].
    + rewrite list_lookup_insert_eq by done.
      rewrite bool_decide_eq_true_2; [done | split; done].
    + rewrite list_insert_ge by lia.
      rewrite bool_decide_eq_false_2; [done | intros [_ ?]; done].
  - rewrite list_lookup_insert_ne by done.
    rewrite bool_decide_eq_false_2; [done | intros [? _]; done].
Qed.

Lemma IsBitTrue_SetBitFalse b i j :
  IsBitTrue (SetBitFalse i b) j = negb (bool_decide (i = j)) && IsBitTrue b j.
Proof.
  unfold IsBitTrue, SetBitFalse.
  destruct (decide (i = j)) as [->|Hne].
  - rewrite bool_decide_eq_true_2 by done. simpl.
    destruct (decide (j < length b)) as [Hlt|Hge].
    + by rewrite list_lookup_insert_eq.
    + rewrite list_insert_ge by lia. by rewrite lookup_ge_None_2 by lia.
  - rewrite list_lookup_insert_ne by done.
    rewrite bool_decide_eq_false_2; done.
Qed.

Lemma length_SetBitTrue b i : length (SetBitTrue i b) = length b.
Proof. apply length_insert. Qed.

Lemma length_SetBitFalse b i : length (SetBitFalse i b) = length b.
Proof. apply length_insert. Qed.

Lemma length_Union a b : length (Union a b) = length a.
Proof. apply length_imap. Qed.

Lemma IsBitTrue_Union a b i :
  IsBitTrue (Union a b) i = IsBitTrue a i || (bool_decide (i < length a) && IsBitTrue b i).
Proof.
  unfold IsBitTrue at 1 2, Union. rewrite list_lookup_imap.
  destruct (a !! i) as [x|] eqn:E; simpl.
  - apply lookup_lt_Some in E. rewrite bool_decide_eq_true_2; done.
  - apply lookup_ge_None in E. rewrite bool_decide_eq_false_2; [done | lia].
Qed.

Lemma Row_insert m i row k :
  Row (<[i := row]> m) k = if decide (i = k ∧ i < length m) then row else Row m k.
Proof.
  unfold Row. destruct (decide (i = k)) as [->|Hne].
  - destruct (decide (k < length m)) as [Hlt|Hge].
    + rewrite list_lookup_insert_eq by done. rewrite decide_True; done.
    + rewrite list_insert_ge by lia. rewrite decide_False; [done | intros [_ ?]; done].
  - rewrite list_lookup_insert_ne by done. rewrite decide_False; [done | intros [? _]; done].
Qed.

Lemma Bit_new count i j : Bit (NewBitMatrix count) i j = false.
Proof.
  unfold Bit, Row, NewBitMatrix.
  destruct (replicate count (NewDynamicBitSet count) !! i) as [x|] eqn:E; simpl.
  - apply lookup_replicate in E as [-> _]. apply IsBitTrue_new.
  - done.
Qed.

Lemma square_new count : square count (NewBitMatrix count).
Proof.
  split; [apply length_replicate|].
  apply Forall_forall. intros row Hrow.
  apply elem_of_replicate in Hrow as [-> _]. apply length_replicate.
Qed.

Lemma square_Row n m i : square n m → i < n → length (Row m i) = n.
Proof.
  intros [Hlen Hrows] Hi. unfold Row.
  destruct (m !! i) as [row|] eqn:E; simpl.
  - eapply (proj1 (Forall_forall _ _) Hrows). eapply list_elem_of_lookup_2; eauto.
  - apply lookup_ge_None in E. lia.
Qed.

Lemma square_insert n m i row : square n m → length row = n → square n (<[i := row]> m).
Proof.
  intros [Hlen Hrows] Hrow. split; [by rewrite length_insert|].
  destruct (decide (i < length m)) as [Hlt|Hge].
  - apply Forall_insert; done.
  - rewrite list_insert_ge by lia. done.
Qed.

Lemma square_MatSetTrue n m i j : square n m → square n (MatSetTrue i j m).
Proof.
  intros Hsq. unfold MatSetTrue.
  destruct (decide (i < n)) as [Hlt|Hge].
  - apply square_insert; [done|]. rewrite length_SetBitTrue. by apply square_Row.
  - destruct Hsq as [Hlen Hrows]. rewrite list_insert_ge by lia. done.
Qed.

Lemma square_MatSetFalse n m i j : square n m → square n (MatSetFalse i j m).
Proof.
  intros Hsq. unfold MatSetFalse.
  destruct (decide (i < n)) as [Hlt|Hge].
  - apply square_insert; [done|]. rewrite length_SetBitFalse. by apply square_Row.
  - destruct Hsq as [Hlen Hrows]. rewrite list_insert_ge by lia. done.
Qed.

(** Setting a bit of a square matrix: only that cell changes. *)
Lemma Bit_MatSetTrue n m i j p q :
  square n m → i < n → j < n →
  Bit (MatSetTrue i j m) p q = bool_decide (p = i ∧ q = j) || Bit m p q.
Proof.
  intros Hsq Hi Hj. unfold Bit, MatSetTrue. rewrite Row_insert.
  pose proof Hsq as [Hlen Hrows].
  destruct (decide (i = p)) as [->|Hne].
  - rewrite decide_True by (split; [done | lia]).
    rewrite IsBitTrue_SetBitTrue.
    rewrite (square_Row n) by done.
    f_equal. apply bool_decide_ext. intuition lia.
  - rewrite decide_False by (intros [? _]; done).
    rewrite bool_decide_eq_false_2; [done | intros [? _]; done].
Qed.

(** Clearing a bit never sets one, and clears the addressed cell whether
    or not it lies inside the matrix. *)
Lemma Bit_MatSetFalse m i j p q :
  Bit (MatSetFalse i j m) p q = negb (bool_decide (p = i ∧ q = j)) && Bit m p q.
Proof.
  unfold Bit, MatSetFalse. rewrite Row_insert.
  destruct (decide (i = p ∧ i < length m)) as [[-> Hlt]|Hn].
  - rewrite IsBitTrue_SetBitFalse.
    destruct (decide (j = q)) as [->|Hne].
    + rewrite !bool_decide_eq_true_2; done.
    + rewrite !bool_decide_eq_false_2; [done | intros [_ ?]; done | done].
  - destruct (decide (p = i ∧ q = j)) as [[-> ->]|Hn'].
    + rewrite bool_decide_eq_true_2 by done. simpl.
      assert (length m ≤ i) as Hge by (destruct (decide (i < length m)); [tauto | lia]).
      unfold Row. rewrite lookup_ge_None_2 by done. done.
    + rewrite bool_decide_eq_false_2; done.
Qed.
End bitsets.

(** ** The dependency test on the conflict info of a tensor *)

Section conflict_info.
Implicit Types (t : SomasTensor) (info : TensorConflictInfo) (nd : list (list bool)).

Lemma forallb_pointwise {A} (f g : A → bool) (xs : list A) :
  (∀ x, f x = g x) → forallb f xs = forallb g xs.
Proof. intros Hfg. induction xs as [|x xs IH]; simpl; [done|]. by rewrite Hfg, IH. Qed.

Lemma forallb_range (f : nat → bool) (pre cl suf : list nat) :
  forallb (fun i => f (default 0 ((pre ++ cl ++ suf) !! i))) (seq (length pre) (length cl))
  = forallb f cl.
Proof.
  revert pre. induction cl as [|c cl IH]; intros pre; [done|].
  simpl. rewrite list_lookup_middle by done. simpl. f_equal.
  specialize (IH (pre ++ [c])).
  rewrite length_app in IH. simpl in IH.
  replace (length pre + 1) with (S (length pre)) in IH by lia.
  rewrite <- IH. by rewrite <- (assoc_L (++) pre [c]).
Qed.

(** Whatever the number of consumers, the test on the info built by
    [BuildConflictInfo] ranges over exactly the consumer list of the tensor.
    The shared destination list may grow afterwards ([suf]). *)
Lemma CheckIsDependency_built t info0 pre suf nd src :
  CheckIsDependency (BuildConflictInfo t info0 pre).1 src nd
    ((BuildConflictInfo t info0 pre).2 ++ suf)
  = all_consumers_done nd t src.
Proof.
  unfold BuildConflictInfo, all_consumers_done, CheckIsDependency, consumer_done,
    kOnlyOneDestinationNode, kOnlyTwoDestinationNode.
  destruct (consumer_list_ t) as [|c1 [|c2 [|c3 cl]]] eqn:E; simpl.
  - replace (length (pre ++ []) - length pre) with 0 by (rewrite length_app; simpl; lia).
    done.
  - destruct (Bit nd src c1), (bool_decide (src = c1)); done.
  - destruct (Bit nd src c1), (Bit nd src c2), (bool_decide (src = c1)),
      (bool_decide (src = c2)); done.
  - replace (length (pre ++ c1 :: c2 :: c3 :: cl) - length pre)
      with (length (c1 :: c2 :: c3 :: cl)) by (rewrite length_app; simpl; lia).
    rewrite <- (assoc_L (++) pre).
    etrans;
      [exact (forallb_range
                (fun d => negb (negb (Bit nd src d) || bool_decide (src = d)))
                pre (c1 :: c2 :: c3 :: cl) suf)|].
    change (forallb (fun d => negb (negb (Bit nd src d) || bool_decide (src = d)))
              (c1 :: c2 :: c3 :: cl)
            = forallb (fun d => Bit nd src d && negb (bool_decide (src = d)))
                (c1 :: c2 :: c3 :: cl)).
    apply forallb_pointwise. intros d.
    destruct (Bit nd src d), (bool_decide (src = d)); done.
Qed.

Lemma info_for_app dnl ext t info : info_for dnl t info → info_for (dnl ++ ext) t info.
Proof.
  intros (Hid & Hsrc & Hchk). repeat split; [done..|].
  intros nd src suf. rewrite <- (assoc_L (++)). apply Hchk.
Qed.

Lemma BuildConflictInfo_extends t info0 pre :
  ∃ ext, (BuildConflictInfo t info0 pre).2 = pre ++ ext.
Proof.
  unfold BuildConflictInfo. repeat case_decide; simpl.
  - exists []. by rewrite (right_id_L [] (++)).
  - exists []. by rewrite (right_id_L [] (++)).
  - by eexists.
Qed.

Lemma BuildConflictInfo_info_for t pre :
  info_for (BuildConflictInfo t (NewTensorConflictInfo (id_ t) (source_node_id_ t)) pre).2 t
    (BuildConflictInfo t (NewTensorConflictInfo (id_ t) (source_node_id_ t)) pre).1.
Proof.
  repeat split.
  - unfold BuildConflictInfo. repeat case_decide; done.
  - unfold BuildConflictInfo. repeat case_decide; done.
  - intros nd src suf. apply CheckIsDependency_built.
Qed.

Lemma candidate_step_skip acc t : is_candidate t = false → candidate_step acc t = acc.
Proof.
  unfold is_candidate, candidate_step. intros H. destruct acc as [[c i] d].
  apply negb_false_iff in H. by rewrite H.
Qed.

Lemma candidate_step_take c i d t :
  is_candidate t = true →
  candidate_step (c, i, d) t
  = (c ++ [t],
     i ++ [(BuildConflictInfo t (NewTensorConflictInfo (id_ t) (source_node_id_ t)) d).1],
     (BuildConflictInfo t (NewTensorConflictInfo (id_ t) (source_node_id_ t)) d).2).
Proof.
  unfold is_candidate, candidate_step. intros H.
  apply negb_true_iff in H. rewrite H.
  by destruct (BuildConflictInfo _ _ _).
Qed.

Lemma BuildCandidateLists_acc (tl c0 : list SomasTensor) (i0 : list TensorConflictInfo)
    (d0 : list nat) :
  Forall2 (info_for d0) c0 i0 →
  (foldl candidate_step (c0, i0, d0) tl).1.1 = c0 ++ filter is_candidate tl ∧
  Forall2 (info_for (foldl candidate_step (c0, i0, d0) tl).2)
    (foldl candidate_step (c0, i0, d0) tl).1.1 (foldl candidate_step (c0, i0, d0) tl).1.2.
Proof.
  revert c0 i0 d0. induction tl as [|t tl IH]; intros c0 i0 d0 H0; cbn [foldl].
  - rewrite filter_nil, app_nil_r. done.
  - destruct (is_candidate t) eqn:Ec.
    + rewrite candidate_step_take by done.
      rewrite filter_cons_True by (by rewrite Ec).
      pose proof (BuildConflictInfo_info_for t d0) as Hnew.
      destruct (BuildConflictInfo_extends t
                  (NewTensorConflictInfo (id_ t) (source_node_id_ t)) d0) as [ext Hext].
      destruct (BuildConflictInfo t (NewTensorConflictInfo (id_ t) (source_node_id_ t)) d0)
        as [info d1] eqn:EB.
      simpl in Hnew, Hext. subst d1. simpl.
      specialize (IH (c0 ++ [t]) (i0 ++ [info]) (d0 ++ ext)).
      destruct IH as [IH1 IH2].
      { apply Forall2_app; [|by constructor].
        eapply Forall2_impl; [exact H0|]. intros ? ? ?. by apply info_for_app. }
      split; [|done]. rewrite IH1. by rewrite <- (assoc_L (++)).
    + rewrite candidate_step_skip by done.
      rewrite filter_cons_False by (rewrite Ec; simpl; tauto).
      by apply IH.
Qed.

(** The candidate list is the sublist of candidates in registry order and
    the infos describe them one by one. *)
Lemma BuildCandidateLists_spec (tl : list SomasTensor) :
  (BuildCandidateLists tl).1.1 = filter is_candidate tl ∧
  Forall2 (info_for (BuildCandidateLists tl).2)
    (BuildCandidateLists tl).1.1 (BuildCandidateLists tl).1.2.
Proof. apply (BuildCandidateLists_acc tl [] [] []). constructor. Qed.
End conflict_info.

(** ** The all-pairs stage, cell by cell *)

Section all_pairs.
Implicit Types (t : SomasTensor) (info : TensorConflictInfo) (nd rel : list (list bool)).

Lemma foldl_MatSetTrue {A} n (f : list (list bool) → A → list (list bool))
    (test : A → bool) (key : A → nat) i (xs : list A) rel :
  (∀ rel x, f rel x = if test x then MatSetTrue i (key x) rel else rel) →
  square n rel → i < n → Forall (fun x => key x < n) xs →
  square n (foldl f rel xs) ∧
  ∀ p q, Bit (foldl f rel xs) p q
         = Bit rel p q
           || (bool_decide (p = i) && existsb (fun x => bool_decide (key x = q) && test x) xs).
Proof.
  intros Hf. revert rel. induction xs as [|x xs IH]; intros rel Hsq Hi Hkeys; cbn [foldl].
  - split; [done|]. intros p q. simpl. by rewrite andb_false_r, orb_false_r.
  - apply Forall_cons in Hkeys as [Hx Hxs].
    rewrite Hf. destruct (test x) eqn:Et.
    + destruct (IH (MatSetTrue i (key x) rel)) as [IH1 IH2];
        [by apply square_MatSetTrue | done | done |].
      split; [done|]. intros p q. rewrite IH2.
      rewrite (Bit_MatSetTrue n) by done. simpl. rewrite Et.
      destruct (decide (p = i)) as [->|Hp].
      * rewrite !(bool_decide_eq_true_2 (i = i)) by done.
        destruct (decide (key x = q)) as [->|Hq].
        -- rewrite !bool_decide_eq_true_2 by done.
           destruct (Bit rel i _), (existsb _ xs); done.
        -- rewrite (bool_decide_eq_false_2 (key x = q)) by done.
           rewrite (bool_decide_eq_false_2 (i = i ∧ q = key x)) by (intros [_ ?]; done).
           destruct (Bit rel i q), (existsb _ xs); done.
      * rewrite (bool_decide_eq_false_2 (p = i)) by done.
        rewrite (bool_decide_eq_false_2 (p = i ∧ q = key x)) by (intros [? _]; done).
        destruct (Bit rel p q); done.
    + destruct (IH rel) as [IH1 IH2]; [done..|].
      split; [done|]. intros p q. rewrite IH2. simpl. rewrite Et.
      by rewrite andb_false_r.
Qed.

Lemma ComputeOneTensorConflicts_Bit n t infos dnl nd rel :
  square n rel → id_ t < n → Forall (fun info => tensor_id_ info < n) infos →
  square n (ComputeOneTensorConflicts t infos dnl nd rel) ∧
  ∀ p q, Bit (ComputeOneTensorConflicts t infos dnl nd rel) p q
         = Bit rel p q
           || (bool_decide (p = id_ t)
               && existsb (fun info => bool_decide (tensor_id_ info = q) && one_pair t dnl nd info)
                    infos).
Proof.
  intros Hsq Hid Hinfos. unfold ComputeOneTensorConflicts.
  pose proof (fun nd src => CheckIsDependency_built t
                (NewTensorConflictInfo (id_ t) (source_node_id_ t)) [] [] nd src) as Htarget.
  destruct (BuildConflictInfo t (NewTensorConflictInfo (id_ t) (source_node_id_ t)) [])
    as [target_info target_dnl].
  simpl in Htarget. setoid_rewrite app_nil_r in Htarget.
  apply (foldl_MatSetTrue n _ (one_pair t dnl nd) tensor_id_); [|done..].
  intros rel' info. unfold one_pair. rewrite <- Htarget.
  destruct (bool_decide (tensor_id_ info = id_ t)
            || bool_decide (src_node_id_ info = source_node_id_ t)); done.
Qed.

Lemma ComputeMultiTensorConflicts_Bit n targets infos dnl nd rel :
  square n rel → Forall (fun t => id_ t < n) targets →
  Forall (fun info => tensor_id_ info < n) infos →
  square n (ComputeMultiTensorConflicts targets infos dnl nd rel) ∧
  ∀ p q, Bit (ComputeMultiTensorConflicts targets infos dnl nd rel) p q
         = Bit rel p q
           || existsb (fun t =>
                         bool_decide (p = id_ t)
                         && existsb (fun info => bool_decide (tensor_id_ info = q)
                                                 && one_pair t dnl nd info) infos)
                targets.
Proof.
  intros Hsq Htargets Hinfos. unfold ComputeMultiTensorConflicts.
  revert rel Hsq. induction targets as [|t targets IH]; intros rel Hsq; cbn [foldl].
  - split; [done|]. intros p q. simpl. by rewrite orb_false_r.
  - apply Forall_cons in Htargets as [Ht Hts].
    destruct (ComputeOneTensorConflicts_Bit n t infos dnl nd rel) as [H1 H2]; [done..|].
    destruct (IH Hts _ H1) as [IH1 IH2].
    split; [done|]. intros p q. rewrite IH2, H2. simpl. by rewrite orb_assoc.
Qed.
End all_pairs.

(** ** Dense ids *)

Section dense.
Implicit Types (t : SomasTensor) (tl : list SomasTensor).

Lemma dense_ids_lookup tl i t : dense_ids tl → tl !! i = Some t → id_ t = i.
Proof.
  unfold dense_ids. intros Hd Hi.
  assert ((id_ <$> tl) !! i = Some (id_ t)) as H by (by rewrite list_lookup_fmap, Hi).
  rewrite Hd in H. apply lookup_seq in H as [H _]. simpl in H. done.
Qed.

Lemma dense_ids_lt tl t : dense_ids tl → t ∈ tl → id_ t < length tl.
Proof.
  intros Hd Ht. apply list_elem_of_lookup in Ht as [i Hi].
  rewrite (dense_ids_lookup tl i t) by done. by eapply lookup_lt_Some.
Qed.

Lemma dense_ids_inj tl t1 t2 : dense_ids tl → t1 ∈ tl → t2 ∈ tl → id_ t1 = id_ t2 → t1 = t2.
Proof.
  intros Hd H1 H2 Heq.
  apply list_elem_of_lookup in H1 as [i Hi]. apply list_elem_of_lookup in H2 as [j Hj].
  pose proof (dense_ids_lookup tl i t1 Hd Hi). pose proof (dense_ids_lookup tl j t2 Hd Hj).
  assert (i = j) as -> by lia. congruence.
Qed.

Lemma dense_ids_by_id tl t : dense_ids tl → t ∈ tl → tl !! id_ t = Some t.
Proof.
  intros Hd Ht. apply list_elem_of_lookup in Ht as [i Hi].
  by rewrite (dense_ids_lookup tl i t).
Qed.

Lemma dense_ids_count tl : dense_ids tl → TensorCount tl = length tl.
Proof.
  intros Hd. unfold TensorCount. destruct (last tl) as [t|] eqn:E.
  - rewrite last_lookup in E.
    pose proof (dense_ids_lookup tl _ t Hd E) as ->.
    apply lookup_lt_Some in E. lia.
  - apply last_None in E. by subst.
Qed.
End dense.

(** ** The reuse matrix after the all-pairs stage *)

Section reuse_matrix.
Implicit Types (X Y t : SomasTensor) (tl targets : list SomasTensor) (nd : list (list bool)).

Lemma one_pair_info_for dnl nd X Y info :
  info_for dnl Y info → one_pair X dnl nd info = pair_reusable nd X Y.
Proof.
  intros (Hid & Hsrc & Hchk). unfold one_pair, pair_reusable.
  specialize (Hchk nd (source_node_id_ X) []). rewrite app_nil_r in Hchk.
  by rewrite Hid, Hsrc, Hchk.
Qed.

Lemma existsb_infos dnl nd X (cands : list SomasTensor) (infos : list TensorConflictInfo) q :
  Forall2 (info_for dnl) cands infos →
  existsb (fun info => bool_decide (tensor_id_ info = q) && one_pair X dnl nd info) infos = true
  ↔ ∃ Y, Y ∈ cands ∧ id_ Y = q ∧ pair_reusable nd X Y = true.
Proof.
  intros HF. rewrite existsb_exists. split.
  - intros (info & Hin & Hb). apply andb_true_iff in Hb as [Hq Hp].
    apply bool_decide_eq_true in Hq. apply list_elem_of_In in Hin.
    apply list_elem_of_lookup in Hin as [k Hk].
    destruct (Forall2_lookup_r _ _ _ _ _ HF Hk) as (Y & HY & Hfor).
    exists Y. split; [by eapply list_elem_of_lookup_2|].
    split; [destruct Hfor as (<- & _); done|].
    by rewrite <- (one_pair_info_for dnl nd X Y info).
  - intros (Y & HY & Hq & Hp). apply list_elem_of_lookup in HY as [k Hk].
    destruct (Forall2_lookup_l _ _ _ _ _ HF Hk) as (info & Hinfo & Hfor).
    exists info. split; [apply list_elem_of_In; by eapply list_elem_of_lookup_2|].
    apply andb_true_iff. split.
    + apply bool_decide_eq_true. destruct Hfor as (-> & _); done.
    + by rewrite (one_pair_info_for dnl nd X Y info).
Qed.

(** A bit of the matrix is set exactly for the ordered pairs of candidates
    that pass the test; the order in which the targets are visited does
    not matter. *)
Lemma ComputeAllPairs_Bit tl targets nd p q :
  dense_ids tl → targets ≡ₚ filter is_candidate tl →
  Bit (ComputeAllPairs tl targets nd) p q = true
  ↔ ∃ X Y, X ∈ tl ∧ Y ∈ tl ∧ is_candidate X = true ∧ is_candidate Y = true
           ∧ id_ X = p ∧ id_ Y = q ∧ pair_reusable nd X Y = true.
Proof.
  intros Hd Hperm. unfold ComputeAllPairs.
  destruct (BuildCandidateLists_spec tl) as [Hc HF].
  destruct (BuildCandidateLists tl) as [[cands infos] dnl]. simpl in Hc, HF. subst cands.
  assert (∀ t, t ∈ filter is_candidate tl ↔ is_candidate t = true ∧ t ∈ tl) as Hfilter.
  { intros t. rewrite list_elem_of_filter. by rewrite Is_true_true. }
  destruct (ComputeMultiTensorConflicts_Bit (TensorCount tl) targets infos dnl nd
              (NewBitMatrix (TensorCount tl))) as [_ HB].
  - apply square_new.
  - apply Forall_forall. intros t Ht. rewrite Hperm in Ht. apply Hfilter in Ht as [_ Ht].
    rewrite dense_ids_count by done. by apply dense_ids_lt.
  - apply Forall_forall. intros info Hinfo.
    apply list_elem_of_lookup in Hinfo as [k Hk].
    destruct (Forall2_lookup_r _ _ _ _ _ HF Hk) as (Y & HY & (-> & _)).
    apply list_elem_of_lookup_2 in HY. apply Hfilter in HY as [_ HY].
    rewrite dense_ids_count by done. by apply dense_ids_lt.
  - rewrite HB, Bit_new. simpl. rewrite existsb_exists. split.
    + intros (X & HX & Hb). apply andb_true_iff in Hb as [Hp Hex].
      apply bool_decide_eq_true in Hp.
      apply (existsb_infos dnl nd X _ _ q HF) in Hex as (Y & HY & Hq & Hpair).
      apply list_elem_of_In in HX. rewrite Hperm in HX.
      apply Hfilter in HX as [HXc HX]. apply Hfilter in HY as [HYc HY].
      exists X, Y. done.
    + intros (X & Y & HX & HY & HXc & HYc & Hp & Hq & Hpair).
      exists X. split.
      * apply list_elem_of_In. rewrite Hperm. by apply Hfilter.
      * apply andb_true_iff. split; [by apply bool_decide_eq_true|].
        apply (existsb_infos dnl nd X _ _ q HF). exists Y.
        split; [by apply Hfilter | done].
Qed.

Lemma pair_reusable_sym nd X Y : pair_reusable nd Y X = pair_reusable nd X Y.
Proof.
  unfold pair_reusable.
  rewrite (orb_comm (all_consumers_done nd X _)).
  f_equal. f_equal. f_equal; apply bool_decide_ext; split; congruence.
Qed.

(** The cell of two tensors of the registry. *)
Lemma ComputeAllPairs_cell tl targets nd X Y :
  dense_ids tl → targets ≡ₚ filter is_candidate tl → X ∈ tl → Y ∈ tl →
  Bit (ComputeAllPairs tl targets nd) (id_ X) (id_ Y)
  = is_candidate X && is_candidate Y && pair_reusable nd X Y.
Proof.
  intros Hd Hperm HX HY. apply eq_true_iff_eq.
  rewrite (ComputeAllPairs_Bit tl targets nd) by done.
  rewrite !andb_true_iff. split.
  - intros (X' & Y' & HX' & HY' & HXc & HYc & Hp & Hq & Hpair).
    apply (dense_ids_inj tl) in Hp; [|done..]. apply (dense_ids_inj tl) in Hq; [|done..].
    by subst.
  - intros [[HXc HYc] Hpair]. exists X, Y. done.
Qed.
End reuse_matrix.

(** ** The dependency table is the transitive closure *)

Section dependency_table.
Variable nodes_list : list SomasNode.
Hypothesis Hdense : dense_node_ids nodes_list.
Hypothesis Htopo : topological nodes_list.

Let n := length nodes_list.

Lemma node_lookup_id k node : nodes_list !! k = Some node → node_id_ node = k.
Proof.
  intros Hk.
  assert ((node_id_ <$> nodes_list) !! k = Some (node_id_ node)) as H
    by (by rewrite list_lookup_fmap, Hk).
  rewrite Hdense in H. apply lookup_seq in H as [H _]. done.
Qed.

Lemma NodeCount_dense : NodeCount nodes_list = n.
Proof.
  unfold NodeCount, n. destruct (last nodes_list) as [node|] eqn:E.
  - rewrite last_lookup in E. rewrite (node_lookup_id _ _ E).
    apply lookup_lt_Some in E. lia.
  - apply last_None in E. by rewrite E.
Qed.

Lemma direct_ancestor_lookup k node a :
  nodes_list !! k = Some node → direct_ancestor nodes_list k a ↔ a ∈ ancestor_nodes_ node.
Proof.
  intros Hk. split.
  - intros (node' & Hin & Hid & Ha).
    apply list_elem_of_lookup in Hin as [k' Hk'].
    rewrite (node_lookup_id _ _ Hk') in Hid. subst k'. congruence.
  - intros Ha. exists node. split; [by eapply list_elem_of_lookup_2|].
    split; [by apply node_lookup_id | done].
Qed.

Lemma direct_ancestor_lt i a : direct_ancestor nodes_list i a → a < i ∧ i < n.
Proof.
  intros (node & Hin & Hid & Ha). split.
  - unfold topological in Htopo. rewrite Forall_forall in Htopo.
    specialize (Htopo node Hin). rewrite Forall_forall in Htopo.
    rewrite <- Hid. by apply Htopo.
  - apply list_elem_of_lookup in Hin as [k Hk].
    rewrite (node_lookup_id _ _ Hk) in Hid. subst k. by eapply lookup_lt_Some.
Qed.

Lemma transitive_ancestor_lt i a : transitive_ancestor nodes_list i a → a < i ∧ i < n.
Proof.
  induction 1 as [i a H|i b a H _ IH].
  - by apply direct_ancestor_lt.
  - apply direct_ancestor_lt in H. lia.
Qed.

(** A transitive ancestor is a direct ancestor or a transitive ancestor of
    one. *)
Lemma transitive_ancestor_unfold i j :
  transitive_ancestor nodes_list i j
  ↔ ∃ a, direct_ancestor nodes_list i a ∧ (j = a ∨ transitive_ancestor nodes_list a j).
Proof.
  split.
  - destruct 1 as [i j H|i a j H Htc]; [exists j | exists a]; auto.
  - intros (a & Hd & [->|Htc]); [by apply tc_once | by eapply tc_l].
Qed.

Lemma Bit_ancestor_step k a nd i j :
  square n nd → k < n → a < n → a ≠ k →
  Bit (ancestor_step k nd a) i j
  = if decide (i = k) then bool_decide (j = a) || Bit nd k j || (bool_decide (j < n) && Bit nd a j)
    else Bit nd i j.
Proof.
  intros Hsq Hk Ha Hne. unfold ancestor_step.
  assert (square n (MatSetTrue k a nd)) as Hsq1 by (by apply square_MatSetTrue).
  unfold Bit at 1. rewrite Row_insert.
  destruct Hsq1 as [Hlen1 Hrows1].
  destruct (decide (i = k)) as [->|Hik].
  - rewrite decide_True by (split; [done | lia]).
    rewrite IsBitTrue_Union.
    rewrite (square_Row n) by (done || by split).
    change (IsBitTrue (Row (MatSetTrue k a nd) k) j) with (Bit (MatSetTrue k a nd) k j).
    change (IsBitTrue (Row (MatSetTrue k a nd) a) j) with (Bit (MatSetTrue k a nd) a j).
    rewrite !(Bit_MatSetTrue n) by done.
    rewrite (bool_decide_eq_false_2 (a = k ∧ j = a)) by (intros [? _]; done).
    simpl. f_equal. f_equal. apply bool_decide_ext. intuition.
  - rewrite decide_False by (intros [? _]; done).
    change (IsBitTrue (Row (MatSetTrue k a nd) i) j) with (Bit (MatSetTrue k a nd) i j).
    rewrite (Bit_MatSetTrue n) by done.
    rewrite bool_decide_eq_false_2; [done | intros [? _]; done].
Qed.

Lemma square_ancestor_step k a nd : square n nd → k < n → square n (ancestor_step k nd a).
Proof.
  intros Hsq Hk. unfold ancestor_step.
  assert (square n (MatSetTrue k a nd)) as Hsq1 by (by apply square_MatSetTrue).
  apply square_insert; [done|]. rewrite length_Union. by apply square_Row.
Qed.

Lemma table_at_ancestors k (ancs merged : list nat) nd :
  k < n → Forall (fun a => a < k) ancs →
  table_at nodes_list k merged nd →
  table_at nodes_list k (merged ++ ancs) (foldl (ancestor_step k) nd ancs).
Proof.
  intros Hk. revert merged nd.
  induction ancs as [|a ancs IH]; intros merged nd Hancs Htab; cbn [foldl].
  - by rewrite app_nil_r.
  - apply Forall_cons in Hancs as [Ha Hancs].
    replace (merged ++ a :: ancs) with ((merged ++ [a]) ++ ancs) by (by rewrite <- (assoc_L (++))).
    apply IH; [done|].
    destruct Htab as [Hsq Htab]. split; [by apply square_ancestor_step|].
    intros i j. rewrite Bit_ancestor_step by (done || lia).
    destruct (decide (i = k)) as [->|Hik].
    + rewrite !orb_true_iff, andb_true_iff, !bool_decide_eq_true, !Htab.
      split.
      * intros [[->|[[? _]|(_ & a' & Ha' & Hj)]]|[Hjn [[_ Htc]|[? _]]]];
          try lia; right; (split; [done|]).
        -- exists a. split; [apply elem_of_app; right; by apply list_elem_of_singleton | by left].
        -- exists a'. split; [apply elem_of_app; by left | done].
        -- exists a. split; [apply elem_of_app; right; by apply list_elem_of_singleton | by right].
      * intros [[? _]|(_ & a' & Ha' & Hj)]; [lia|].
        apply elem_of_app in Ha' as [Ha'|Ha'].
        -- left. right. right. split; [done|]. by exists a'.
        -- apply list_elem_of_singleton in Ha'. subst a'.
           destruct Hj as [->|Htc]; [by left; left|].
           right. split; [|left; by split].
           apply transitive_ancestor_lt in Htc. lia.
    + rewrite Htab. split; (intros [?|[? _]]; [by left | done]).
Qed.

Lemma table_at_node k node nd :
  nodes_list !! k = Some node →
  table_at nodes_list k [] nd →
  table_at nodes_list (S k) [] (foldl (ancestor_step k) nd (ancestor_nodes_ node)).
Proof.
  intros Hk Htab. pose proof (lookup_lt_Some _ _ _ Hk) as Hkn. fold n in Hkn.
  pose proof (table_at_ancestors k (ancestor_nodes_ node) [] nd Hkn) as H.
  destruct H as [Hsq Hbits]; [|done|].
  { unfold topological in Htopo. rewrite Forall_forall in Htopo.
    rewrite <- (node_lookup_id k node Hk). apply Htopo. by eapply list_elem_of_lookup_2. }
  split; [done|]. intros i j. rewrite Hbits. simpl. split.
  - intros [[Hi Htc]|(-> & a & Ha & Hj)]; left; (split; [lia|]); [done|].
    apply transitive_ancestor_unfold. exists a. split; [|done].
    by apply (direct_ancestor_lookup k node).
  - intros [[Hi Htc]|[_ (a & Ha & _)]]; [|set_solver].
    destruct (decide (i = k)) as [->|Hik]; [|left; split; [lia | done]].
    right. split; [done|].
    apply transitive_ancestor_unfold in Htc as (a & Hd & Hj).
    exists a. split; [|done]. by apply (direct_ancestor_lookup k node).
Qed.

Lemma table_at_prefix k :
  k ≤ n →
  table_at nodes_list k []
    (foldl (fun nd node => foldl (ancestor_step (node_id_ node)) nd (ancestor_nodes_ node))
           (NewBitMatrix n) (take k nodes_list)).
Proof.
  induction k as [|k IH]; intros Hk.
  - rewrite take_0. cbn [foldl]. split; [apply square_new|].
    intros i j. rewrite Bit_new. split; [done|]. intros [[? _]|[_ (a & Ha & _)]]; [lia|set_solver].
  - destruct (lookup_lt_is_Some_2 nodes_list k) as [node Hnode]; [fold n; lia|].
    rewrite (take_S_r _ _ _ Hnode), foldl_app. cbn [foldl].
    rewrite (node_lookup_id k node Hnode).
    apply table_at_node; [done|]. apply IH. lia.
Qed.

(** The table computed by the loop is the transitive closure of the direct
    ancestor edges. *)
Lemma ComputeNodesDependency_closure i j :
  Bit (ComputeNodesDependency nodes_list) i j = true ↔ transitive_ancestor nodes_list i j.
Proof.
  unfold ComputeNodesDependency. rewrite NodeCount_dense.
  pose proof (table_at_prefix n (le_n n)) as [_ H].
  change (take n nodes_list) with (take (length nodes_list) nodes_list) in H.
  rewrite firstn_all in H. rewrite H. split.
  - intros [[_ ?]|[_ (a & Ha & _)]]; [done | set_solver].
  - intros Htc. pose proof (transitive_ancestor_lt _ _ Htc) as [_ Hin]. left. done.
Qed.
End dependency_table.

(** ** The semi-lifelong pass *)

Section semi_lifelong.
Implicit Types (t S T : SomasTensor) (tl : list SomasTensor) (m : list (list bool)).

Lemma clears_only_foldl {A} (step : list (list bool) → A → list (list bool)) (xs : list A) :
  (∀ x, clears_only (fun m => step m x)) → clears_only (fun m => foldl step m xs).
Proof.
  intros Hstep. induction xs as [|x xs IH]; intros m p q; cbn [foldl]; [done|].
  intros H. apply IH in H. by apply Hstep in H.
Qed.

Lemma clears_only_MatSetFalse i j : clears_only (MatSetFalse i j).
Proof.
  intros m p q. rewrite Bit_MatSetFalse. intros H. by apply andb_true_iff in H as [_ H].
Qed.

Lemma clears_only_semi_target_step calc t : clears_only (fun m => semi_target_step calc m t).
Proof.
  intros m p q. unfold semi_target_step.
  repeat case_match; try done.
  intros Hb. by do 2 apply clears_only_MatSetFalse in Hb.
Qed.

Lemma clears_only_semi_calc_step tl calc : clears_only (fun m => semi_calc_step tl m calc).
Proof.
  intros m p q. unfold semi_calc_step. case_match; [done|].
  apply (clears_only_foldl (semi_target_step calc)).
  intros t. apply clears_only_semi_target_step.
Qed.

Lemma clears_only_ProcessSemiLifeLongTensor tl : clears_only (ProcessSemiLifeLongTensor tl).
Proof.
  unfold ProcessSemiLifeLongTensor. apply clears_only_foldl.
  intros calc. apply clears_only_semi_calc_step.
Qed.

Lemma semi_target_step_clears S T m :
  restricts S T →
  Bit (semi_target_step S m T) (id_ S) (id_ T) = false ∧
  Bit (semi_target_step S m T) (id_ T) (id_ S) = false.
Proof.
  intros Hr. unfold semi_target_step.
  rewrite bool_decide_eq_false_2 by (destruct Hr as [[_ ?]|[_ ?]]; lia).
  assert ((IsSemiLifelongStart S && bool_decide (id_ T < id_ S))
          || (IsSemiLifelongEnd S && bool_decide (id_ S < id_ T)) = true) as ->.
  { unfold IsSemiLifelongStart, IsSemiLifelongEnd.
    destruct Hr as [[Hl Hlt]|[Hl Hlt]]; rewrite Hl.
    - by rewrite (bool_decide_eq_true_2 (id_ T < id_ S)).
    - rewrite (bool_decide_eq_true_2 (id_ S < id_ T)) by done.
      apply orb_true_iff. by right. }
  rewrite !Bit_MatSetFalse.
  split.
  - rewrite (bool_decide_eq_true_2 (id_ S = id_ S ∧ id_ T = id_ T)) by done.
    by rewrite andb_false_r.
  - by rewrite (bool_decide_eq_true_2 (id_ T = id_ T ∧ id_ S = id_ S)).
Qed.

Lemma semi_calc_step_clears tl S T m :
  T ∈ tl → restricts S T →
  Bit (semi_calc_step tl m S) (id_ S) (id_ T) = false ∧
  Bit (semi_calc_step tl m S) (id_ T) (id_ S) = false.
Proof.
  intros HT Hr. unfold semi_calc_step.
  assert (negb (IsSemiLifelongStart S) && negb (IsSemiLifelongEnd S) = false) as ->.
  { unfold IsSemiLifelongStart, IsSemiLifelongEnd.
    destruct Hr as [[Hl _]|[Hl _]]; rewrite Hl; done. }
  apply list_elem_of_split in HT as (l1 & l2 & ->).
  rewrite foldl_app. cbn [foldl].
  destruct (semi_target_step_clears S T (foldl (semi_target_step S) m l1) Hr) as [H1 H2].
  pose proof (clears_only_foldl (semi_target_step S) l2
                (fun t => clears_only_semi_target_step S t)) as Hmono.
  split; apply not_true_is_false; intros H; apply Hmono in H; congruence.
Qed.

Lemma semi_outer_clears tl calcs S T m :
  S ∈ calcs → T ∈ tl → restricts S T →
  Bit (foldl (semi_calc_step tl) m calcs) (id_ S) (id_ T) = false ∧
  Bit (foldl (semi_calc_step tl) m calcs) (id_ T) (id_ S) = false.
Proof.
  intros HS HT Hr.
  apply list_elem_of_split in HS as (l1 & l2 & ->).
  rewrite foldl_app. cbn [foldl].
  destruct (semi_calc_step_clears tl S T (foldl (semi_calc_step tl) m l1) HT Hr) as [H1 H2].
  pose proof (clears_only_foldl (semi_calc_step tl) l2
                (fun t => clears_only_semi_calc_step tl t)) as Hmono.
  split; apply not_true_is_false; intros H; apply Hmono in H; congruence.
Qed.

Lemma ProcessSemiLifeLongTensor_clears tl S T m :
  S ∈ tl → T ∈ tl → restricts S T →
  Bit (ProcessSemiLifeLongTensor tl m) (id_ S) (id_ T) = false ∧
  Bit (ProcessSemiLifeLongTensor tl m) (id_ T) (id_ S) = false.
Proof. apply semi_outer_clears. Qed.
End semi_lifelong.

(** ** Claims on the conflict matrix *)

Lemma all_consumers_done_forall nd t src :
  all_consumers_done nd t src = true
  ↔ ∀ c, c ∈ consumer_list_ t → Bit nd src c = true ∧ c ≠ src.
Proof.
  unfold all_consumers_done, consumer_done. rewrite forallb_forall. split.
  - intros H c Hc. apply list_elem_of_In in Hc. apply H in Hc.
    apply andb_true_iff in Hc as [Hb Hne]. split; [done|].
    apply negb_true_iff, bool_decide_eq_false in Hne. congruence.
  - intros H c Hc. apply list_elem_of_In in Hc. destruct (H c Hc) as [Hb Hne].
    rewrite Hb. simpl. apply negb_true_iff, bool_decide_eq_false. congruence.
Qed.

(** C1. For two candidates [X] and [Y] (neither lifelong, aligned size not 0)
    with different source nodes, the all-pairs stage sets the bit ([X],[Y]) iff
    every consumer of [X] is a transitive ancestor of the source node of [Y]
    and is not that node, or every consumer of [Y] is a transitive ancestor of
    the source node of [X] and is not that node; the bit ([Y],[X]) has the
    same value, so both cells are set together.  The targets may be visited
    in any order (the shuffle). *)
Theorem C1_pair_reusable_iff_consumers_done
    (nodes_list : list SomasNode) (tensors_list targets : list SomasTensor) (X Y : SomasTensor) :
  dense_node_ids nodes_list → topological nodes_list →
  dense_ids tensors_list → targets ≡ₚ filter is_candidate tensors_list →
  X ∈ tensors_list → Y ∈ tensors_list →
  is_candidate X = true → is_candidate Y = true →
  source_node_id_ X ≠ source_node_id_ Y →
  (Bit (ComputeAllPairs tensors_list targets (ComputeNodesDependency nodes_list)) (id_ X) (id_ Y)
   = true
   ↔ (∀ c, c ∈ consumer_list_ X →
           transitive_ancestor nodes_list (source_node_id_ Y) c ∧ c ≠ source_node_id_ Y)
     ∨ (∀ c, c ∈ consumer_list_ Y →
             transitive_ancestor nodes_list (source_node_id_ X) c ∧ c ≠ source_node_id_ X))
  ∧ Bit (ComputeAllPairs tensors_list targets (ComputeNodesDependency nodes_list)) (id_ Y) (id_ X)
    = Bit (ComputeAllPairs tensors_list targets (ComputeNodesDependency nodes_list)) (id_ X) (id_ Y).
Proof.
  intros Hnd Htopo Hd Hperm HX HY HXc HYc Hsrc.
  rewrite !(ComputeAllPairs_cell tensors_list targets) by done.
  rewrite HXc, HYc. simpl. split; [|apply pair_reusable_sym].
  unfold pair_reusable.
  rewrite (bool_decide_eq_false_2 (source_node_id_ Y = source_node_id_ X)) by congruence.
  rewrite (bool_decide_eq_false_2 (id_ Y = id_ X)).
  2: { intros Heq. apply (dense_ids_inj tensors_list) in Heq; [|done..]. congruence. }
  simpl. rewrite orb_true_iff, !all_consumers_done_forall.
  setoid_rewrite (ComputeNodesDependency_closure nodes_list Hnd Htopo).
  tauto.
Qed.

Lemma C1_witness :
  Bit (ComputeAllPairs chain_tensors (reverse chain_tensors) (ComputeNodesDependency chain_nodes))
      0 2 = true
  ↔ (∀ c, c ∈ [1] → transitive_ancestor chain_nodes 2 c ∧ c ≠ 2)
    ∨ (∀ c, c ∈ [2] → transitive_ancestor chain_nodes 0 c ∧ c ≠ 0).
Proof.
  apply (C1_pair_reusable_iff_consumers_done chain_nodes chain_tensors (reverse chain_tensors)
           (chain_tensor 0 0 [1]) (chain_tensor 2 2 [2])).
  - reflexivity.
  - repeat constructor.
  - reflexivity.
  - apply reverse_Permutation.
  - repeat constructor.
  - repeat constructor.
  - reflexivity.
  - reflexivity.
  - simpl. lia.
Defined.

(** C9. Two tensors of the registry with the same source node (or the same
    id) are never compared by the all-pairs stage, whichever of them is the
    target: both of their cells stay false. *)
Theorem C9_same_source_never_reusable
    (tensors_list targets : list SomasTensor) (nodes_dependency : list (list bool))
    (X Y : SomasTensor) :
  dense_ids tensors_list → targets ≡ₚ filter is_candidate tensors_list →
  X ∈ tensors_list → Y ∈ tensors_list →
  source_node_id_ X = source_node_id_ Y ∨ id_ X = id_ Y →
  Bit (ComputeAllPairs tensors_list targets nodes_dependency) (id_ X) (id_ Y) = false
  ∧ Bit (ComputeAllPairs tensors_list targets nodes_dependency) (id_ Y) (id_ X) = false.
Proof.
  intros Hd Hperm HX HY Hsame.
  rewrite !(ComputeAllPairs_cell tensors_list targets) by done.
  rewrite (pair_reusable_sym nodes_dependency X Y).
  assert (pair_reusable nodes_dependency X Y = false) as ->; [|by rewrite !andb_false_r].
  unfold pair_reusable. apply andb_false_iff. left. apply negb_false_iff, orb_true_iff.
  destruct Hsame as [Hs|Hi]; [right | left]; by apply bool_decide_eq_true.
Qed.

Lemma C9_witness :
  Bit (ComputeAllPairs chain_tensors (reverse chain_tensors) (ComputeNodesDependency chain_nodes))
      0 3 = false
  ∧ Bit (ComputeAllPairs chain_tensors (reverse chain_tensors) (ComputeNodesDependency chain_nodes))
      3 0 = false.
Proof.
  apply (C9_same_source_never_reusable chain_tensors (reverse chain_tensors)
           (ComputeNodesDependency chain_nodes) (chain_tensor 0 0 [1]) (chain_tensor 3 0 [1])).
  - reflexivity.
  - apply reverse_Permutation.
  - repeat constructor.
  - repeat constructor.
  - left. reflexivity.
Defined.

(** C4. When node [B] is the only consumer of [T1] and is the source node of
    [T2], the dependency test of [T1] against [B] fails because the consumer
    equals the source node, the reverse test fails because the consumers of
    [T2] come after the producer of [T1], and the matrix leaves both cells of
    the pair false. *)
Theorem C4_consumer_is_source_not_reusable
    (nodes_list : list SomasNode) (tensors_list targets : list SomasTensor)
    (T1 T2 : SomasTensor) (B : nat) :
  dense_node_ids nodes_list → topological nodes_list →
  dense_ids tensors_list → targets ≡ₚ filter is_candidate tensors_list →
  T1 ∈ tensors_list → T2 ∈ tensors_list →
  consumer_list_ T1 = [B] → source_node_id_ T2 = B →
  consumer_list_ T2 ≠ [] →
  produced_before_consumed nodes_list T1 → produced_before_consumed nodes_list T2 →
  all_consumers_done (ComputeNodesDependency nodes_list) T1 B = false
  ∧ Bit (ComputeAllPairs tensors_list targets (ComputeNodesDependency nodes_list)) (id_ T1) (id_ T2)
    = false
  ∧ Bit (ComputeAllPairs tensors_list targets (ComputeNodesDependency nodes_list)) (id_ T2) (id_ T1)
    = false.
Proof.
  intros Hnd Htopo Hd Hperm H1 H2 Hcons HB Hne Hp1 Hp2.
  assert (all_consumers_done (ComputeNodesDependency nodes_list) T1 B = false) as Hfwd.
  { unfold all_consumers_done, consumer_done. rewrite Hcons. simpl.
    rewrite (bool_decide_eq_true_2 (B = B)) by done. by rewrite andb_false_r. }
  split; [done|].
  rewrite !(ComputeAllPairs_cell tensors_list targets) by done.
  rewrite (pair_reusable_sym _ T1 T2).
  assert (pair_reusable (ComputeNodesDependency nodes_list) T1 T2 = false) as ->;
    [|by rewrite !andb_false_r].
  unfold pair_reusable. rewrite HB.
  destruct (decide (source_node_id_ T1 = B)) as [HA|HA].
  { rewrite (bool_decide_eq_true_2 (B = source_node_id_ T1)) by done.
    by rewrite orb_true_r. }
  apply andb_false_iff. right. rewrite Hfwd, orb_false_r.
  apply not_true_is_false. rewrite all_consumers_done_forall. intros Hall.
  destruct (consumer_list_ T2) as [|c cl] eqn:Ec; [done|].
  destruct (Hall c) as [Hbit _]; [left|].
  apply (ComputeNodesDependency_closure nodes_list Hnd Htopo) in Hbit.
  apply (transitive_ancestor_lt nodes_list Hnd Htopo) in Hbit as [Hlt1 _].
  assert (source_node_id_ T1 < B) as Hlt2.
  { destruct (Hp1 B) as [?|Htc]; [rewrite Hcons; left | congruence |].
    by apply (transitive_ancestor_lt nodes_list Hnd Htopo) in Htc as [? _]. }
  assert (B ≤ c) as Hlt3.
  { destruct (Hp2 c) as [?|Htc]; [rewrite Ec; left | lia |].
    apply (transitive_ancestor_lt nodes_list Hnd Htopo) in Htc as [? _]. lia. }
  lia.
Qed.

Lemma C4_witness :
  all_consumers_done (ComputeNodesDependency chain_nodes) (chain_tensor 0 0 [1]) 1 = false
  ∧ Bit (ComputeAllPairs chain_tensors (reverse chain_tensors) (ComputeNodesDependency chain_nodes))
      0 1 = false
  ∧ Bit (ComputeAllPairs chain_tensors (reverse chain_tensors) (ComputeNodesDependency chain_nodes))
      1 0 = false.
Proof.
  apply (C4_consumer_is_source_not_reusable chain_nodes chain_tensors (reverse chain_tensors)
           (chain_tensor 0 0 [1]) (chain_tensor 1 1 [2]) 1).
  - reflexivity.
  - repeat constructor.
  - reflexivity.
  - apply reverse_Permutation.
  - repeat constructor.
  - repeat constructor.
  - reflexivity.
  - reflexivity.
  - discriminate.
  - intros c Hc. apply list_elem_of_singleton in Hc. subst c. right.
    apply tc_once. exists (mkNode 1 0 kCommonNode [0; 3] [1] [] [0]).
    repeat constructor.
  - intros c Hc. apply list_elem_of_singleton in Hc. subst c. right.
    apply tc_once. exists (mkNode 2 0 kCommonNode [1] [2] [] [1]).
    repeat constructor.
Defined.

(** C5. After the semi-lifelong pass, a GraphStart tensor [S] and any tensor
    [T] of the registry with a smaller id have both of their cells false,
    and so have a GraphEnd tensor [S] and any tensor [T] with a larger id,
    whatever the matrix held before. *)
Theorem C5_semi_lifelong_restriction
    (tensors_list : list SomasTensor) (reuse_matrix : list (list bool)) (S T : SomasTensor) :
  S ∈ tensors_list → T ∈ tensors_list →
  (lifelong_value_ S = kLifeLongGraphStart ∧ id_ T < id_ S)
  ∨ (lifelong_value_ S = kLifeLongGraphEnd ∧ id_ S < id_ T) →
  Bit (ProcessSemiLifeLongTensor tensors_list reuse_matrix) (id_ S) (id_ T) = false
  ∧ Bit (ProcessSemiLifeLongTensor tensors_list reuse_matrix) (id_ T) (id_ S) = false.
Proof. intros HS HT Hr. by apply ProcessSemiLifeLongTensor_clears. Qed.

Lemma C5_witness :
  Bit (ProcessSemiLifeLongTensor semi_tensors (replicate 3 (replicate 3 true))) 1 2 = false
  ∧ Bit (ProcessSemiLifeLongTensor semi_tensors (replicate 3 (replicate 3 true))) 2 1 = false.
Proof.
  apply (C5_semi_lifelong_restriction semi_tensors (replicate 3 (replicate 3 true))
           (mkTensor 1 1 0 64%N 512%N kLifeLongGraphEnd kCommon 1 1 false 0%N [1] [1])
           (chain_tensor 2 2 [2])).
  - repeat constructor.
  - repeat constructor.
  - right. split; [reflexivity | simpl; lia].
Defined.

(** ** Outcomes: folds that stop at the first failure *)

Section outcomes.
Context {A B : Type}.

Lemma foldl_Exception (step : Outcome A → B → Outcome A) (what : string) (xs : list B) :
  (∀ x, step (Exception what) x = Exception what) →
  foldl step (Exception what) xs = Exception what.
Proof. intros H. induction xs as [|x xs IH]; cbn [foldl]; [done|]. by rewrite H. Qed.

Lemma foldl_Undefined (step : Outcome A → B → Outcome A) (xs : list B) :
  (∀ x, step Undefined x = Undefined) →
  foldl step Undefined xs = Undefined.
Proof. intros H. induction xs as [|x xs IH]; cbn [foldl]; [done|]. by rewrite H. Qed.

(** A fold that passes failures on and ends [Done] went through [Done]
    states only; [P] is carried along. *)
Lemma foldl_Done_ind (step : Outcome A → B → Outcome A) (P : list B → A → Prop)
    (xs : list B) (a0 a : A) :
  (∀ x what, step (Exception what) x = Exception what) →
  (∀ x, step Undefined x = Undefined) →
  P [] a0 →
  (∀ pre x a1 a2, P pre a1 → step (Done a1) x = Done a2 → P (pre ++ [x]) a2) →
  foldl step (Done a0) xs = Done a → P xs a.
Proof.
  intros Hexc Hund H0 Hstep.
  assert (∀ ys pre a1, P pre a1 → foldl step (Done a1) ys = Done a → P (pre ++ ys) a) as Hgen.
  { induction ys as [|y ys IH]; intros pre a1 HP; cbn [foldl].
    - intros [= ->]. by rewrite app_nil_r.
    - destruct (step (Done a1) y) as [a2|what|] eqn:E.
      + intros Hf. replace (pre ++ y :: ys) with ((pre ++ [y]) ++ ys)
          by (by rewrite <- (assoc_L (++))).
        eapply IH; [|done]. by eapply Hstep.
      + rewrite foldl_Exception by (intros; apply Hexc). done.
      + rewrite foldl_Undefined by done. done. }
  intros Hf. by apply (Hgen xs [] a0).
Qed.
End outcomes.

(** ** Ref-node preprocessing: the matrix *)

Section ref_conflict.
Implicit Types (m : list (list bool)) (g zs : list nat).

Lemma ref_member_loop_eq members f z m :
  ref_member_loop members f z m
  = if forallb (fun tid => Bit m tid z) members then m
    else MatSetFalse z f (MatSetFalse f z m).
Proof.
  induction members as [|tid rest IH]; simpl; [done|].
  destruct (Bit m tid z); simpl; [apply IH | done].
Qed.

Lemma Bit_ref_tensor_step g f m z p q :
  Bit (ref_tensor_step g f m z) p q
  = Bit m p q
    && negb (ref_clears g f m z && (bool_decide (p = f ∧ q = z) || bool_decide (p = z ∧ q = f))).
Proof.
  unfold ref_tensor_step, ref_clears. rewrite ref_member_loop_eq.
  destruct (Bit m f z); simpl; [|by rewrite andb_true_r].
  destruct (forallb _ g); simpl; [by rewrite andb_true_r|].
  rewrite !Bit_MatSetFalse.
  destruct (bool_decide (p = f ∧ q = z)), (bool_decide (p = z ∧ q = f)), (Bit m p q); done.
Qed.

Lemma clears_only_ref_tensor_step g f z : clears_only (fun m => ref_tensor_step g f m z).
Proof.
  intros m p q. rewrite Bit_ref_tensor_step. intros H. by apply andb_true_iff in H as [H _].
Qed.

Lemma clears_only_ref_group_matrix zs g : clears_only (fun m => ref_group_matrix zs m g).
Proof.
  unfold ref_group_matrix. apply clears_only_foldl. intros z. apply clears_only_ref_tensor_step.
Qed.

Lemma clears_only_RefTensorsConflictMatrix groups zs :
  clears_only (RefTensorsConflictMatrix groups zs).
Proof.
  unfold RefTensorsConflictMatrix. apply clears_only_foldl.
  intros g. apply clears_only_ref_group_matrix.
Qed.

(** The steps for the ids [zs] leave a cell alone that is neither ([f],[z])
    nor ([z],[f]) for any [z] of [zs]. *)
Lemma ref_steps_frame g f zs m p q :
  (∀ z, z ∈ zs → ¬ (p = f ∧ q = z) ∧ ¬ (p = z ∧ q = f)) →
  Bit (foldl (ref_tensor_step g f) m zs) p q = Bit m p q.
Proof.
  revert m. induction zs as [|z zs IH]; intros m Hz; cbn [foldl]; [done|].
  rewrite IH by (intros z' Hz'; apply Hz; by right).
  rewrite Bit_ref_tensor_step.
  destruct (Hz z) as [H1 H2]; [by left|].
  rewrite (bool_decide_eq_false_2 (p = f ∧ q = z)) by done.
  rewrite (bool_decide_eq_false_2 (p = z ∧ q = f)) by done.
  by rewrite !andb_false_r, andb_true_r.
Qed.

(** If the first tensor may still reuse [z] after its group was processed,
    every member could reuse [z] before. *)
Lemma ref_steps_only_if g f zs m z :
  z ∈ zs →
  Bit (foldl (ref_tensor_step g f) m zs) f z = true →
  ∀ tid, tid ∈ g → Bit m tid z = true.
Proof.
  intros Hz Hbit tid Htid.
  apply list_elem_of_split in Hz as (l1 & l2 & ->).
  rewrite foldl_app in Hbit. cbn [foldl] in Hbit.
  apply (clears_only_foldl (ref_tensor_step g f) l2) in Hbit;
    [|intros z'; apply clears_only_ref_tensor_step].
  rewrite Bit_ref_tensor_step in Hbit.
  apply andb_true_iff in Hbit as [Hfz Hnc].
  rewrite (bool_decide_eq_true_2 (f = f ∧ z = z)) in Hnc by done.
  unfold ref_clears in Hnc. rewrite Hfz in Hnc. simpl in Hnc.
  rewrite andb_true_r in Hnc. apply negb_true_iff, negb_false_iff in Hnc.
  rewrite forallb_forall in Hnc. apply list_elem_of_In in Htid.
  specialize (Hnc tid Htid).
  by apply (clears_only_foldl (ref_tensor_step g f) l1) in Hnc;
    [|intros z'; apply clears_only_ref_tensor_step].
Qed.

(** Conversely, when the ids are distinct and the first tensor is not marked
    reusable with itself, the bit survives if every member could reuse [z]. *)
Lemma ref_steps_if g f zs m z :
  NoDup zs → z ∈ zs → f ∈ g → Bit m f f = false →
  (∀ tid, tid ∈ g → Bit m tid z = true) →
  Bit (foldl (ref_tensor_step g f) m zs) f z = true.
Proof.
  intros Hnd Hz Hf Hdiag Hall.
  assert (z ≠ f) as Hzf.
  { intros ->. specialize (Hall f Hf). congruence. }
  apply list_elem_of_split in Hz as (l1 & l2 & ->).
  apply NoDup_app in Hnd as (_ & Hl1 & Hnd2). apply NoDup_cons in Hnd2 as [Hl2 _].
  rewrite foldl_app. cbn [foldl].
  rewrite ref_steps_frame.
  2: { intros z' Hz'. split; intros [? ?]; [subst z'; done | congruence]. }
  rewrite Bit_ref_tensor_step.
  assert (∀ tid, Bit (foldl (ref_tensor_step g f) m l1) tid z = Bit m tid z) as Hsame.
  { intros tid. apply ref_steps_frame. intros z' Hz'. split; intros [? ?]; [|congruence].
    subst z'. by apply (Hl1 z); [|left]. }
  unfold ref_clears. rewrite Hsame, (Hall f Hf). simpl.
  assert (forallb (fun tid => Bit (foldl (ref_tensor_step g f) m l1) tid z) g = true) as ->; [|done].
  apply forallb_forall. intros tid Htid. rewrite Hsame. apply Hall. by apply list_elem_of_In.
Qed.

Lemma mirrored_refl m : mirrored m m.
Proof. intros p q H1 H2. congruence. Qed.

Lemma mirrored_ref_tensor_step g f z m0 m :
  mirrored m0 m → mirrored m0 (ref_tensor_step g f m z).
Proof.
  intros Hm p q H0 H1. rewrite Bit_ref_tensor_step in *.
  destruct (Bit m p q) eqn:Epq.
  - simpl in H1. apply negb_false_iff, andb_true_iff in H1 as [Hc Hcell].
    rewrite Hc. simpl.
    assert (bool_decide (q = f ∧ p = z) || bool_decide (q = z ∧ p = f) = true) as ->;
      [|by rewrite andb_false_r].
    apply orb_true_iff in Hcell as [H|H]; apply bool_decide_eq_true in H as [-> ->];
      apply orb_true_iff; [right | left]; by apply bool_decide_eq_true.
  - by rewrite (Hm p q H0 Epq).
Qed.

Lemma mirrored_ref_steps g f zs m0 m :
  mirrored m0 m → mirrored m0 (foldl (ref_tensor_step g f) m zs).
Proof.
  revert m. induction zs as [|z zs IH]; intros m Hm; cbn [foldl]; [done|].
  apply IH. by apply mirrored_ref_tensor_step.
Qed.

Lemma mirrored_RefTensorsConflictMatrix groups zs m0 m :
  mirrored m0 m → mirrored m0 (RefTensorsConflictMatrix groups zs m).
Proof.
  unfold RefTensorsConflictMatrix. revert m.
  induction groups as [|g groups IH]; intros m Hm; cbn [foldl]; [done|].
  apply IH. unfold ref_group_matrix. by apply mirrored_ref_steps.
Qed.

(** After the whole pass: the first tensor of a group being reusable with
    [z] implies that every member was reusable with [z] before the pass. *)
Lemma RefTensorsConflictMatrix_only_if groups zs m g f z :
  g ∈ groups → head g = Some f → z ∈ zs →
  Bit (RefTensorsConflictMatrix groups zs m) f z = true →
  ∀ tid, tid ∈ g → Bit m tid z = true.
Proof.
  intros Hg Hf Hz Hbit tid Htid. unfold RefTensorsConflictMatrix in Hbit.
  apply list_elem_of_split in Hg as (G1 & G2 & ->).
  rewrite foldl_app in Hbit. cbn [foldl] in Hbit.
  apply (clears_only_foldl (ref_group_matrix zs) G2) in Hbit;
    [|intros g'; apply clears_only_ref_group_matrix].
  unfold ref_group_matrix at 1 in Hbit. rewrite Hf in Hbit. simpl in Hbit.
  pose proof (ref_steps_only_if g f zs _ z Hz Hbit tid Htid) as H1.
  by apply (clears_only_foldl (ref_group_matrix zs) G1) in H1;
    [|intros g'; apply clears_only_ref_group_matrix].
Qed.
End ref_conflict.

(** ** Ref-node preprocessing: the sizes, and the two parts together *)

Section ref_sizes.
Implicit Types (t : SomasTensor) (tl : list SomasTensor) (g tids : list nat).

Lemma get_tensor_Done tl tid t : get_tensor tl tid = Done t ↔ tl !! tid = Some t.
Proof. unfold get_tensor. destruct (tl !! tid); split; congruence. Qed.

Lemma zero_if_contiguous tids k t : contiguous_ (zero_if tids k t) = contiguous_ t.
Proof. unfold zero_if. by case_match. Qed.

Lemma zero_if_id tids k t : id_ (zero_if tids k t) = id_ t.
Proof. unfold zero_if. by case_match. Qed.

Lemma zero_if_offset tids k t : offset_ (zero_if tids k t) = offset_ t.
Proof. unfold zero_if. by case_match. Qed.

Lemma zero_if_app tids1 tids2 k t :
  zero_if tids2 k (zero_if tids1 k t) = zero_if (tids1 ++ tids2) k t.
Proof.
  unfold zero_if.
  destruct (decide (k ∈ tids1)) as [H1|H1], (decide (k ∈ tids2)) as [H2|H2];
    rewrite ?(bool_decide_eq_true_2 (k ∈ tids1)), ?(bool_decide_eq_false_2 (k ∈ tids1)),
      ?(bool_decide_eq_true_2 (k ∈ tids2)), ?(bool_decide_eq_false_2 (k ∈ tids2)) by done;
    [rewrite (bool_decide_eq_true_2 (k ∈ tids1 ++ tids2)) by (apply elem_of_app; tauto)..
    |rewrite (bool_decide_eq_false_2 (k ∈ tids1 ++ tids2)) by (rewrite elem_of_app; tauto)];
    destruct (contiguous_ t) eqn:E; simpl; rewrite ?E; done.
Qed.

Lemma zero_if_nil k t : zero_if [] k t = t.
Proof. unfold zero_if. rewrite bool_decide_eq_false_2; [done | apply not_elem_of_nil]. Qed.

Lemma ref_zero_sizes_spec g tl tl' :
  ref_zero_sizes g tl = Done tl' →
  (∀ k, tl' !! k = zero_if (drop 1 g) k <$> tl !! k)
  ∧ Forall (fun tid => tid < length tl) (drop 1 g).
Proof.
  unfold ref_zero_sizes.
  apply (foldl_Done_ind _
           (fun pre tl1 => (∀ k, tl1 !! k = zero_if pre k <$> tl !! k)
                           ∧ Forall (fun tid => tid < length tl) pre)); [done | done | |].
  - split; [|constructor]. intros k. destruct (tl !! k); simpl; [|done].
    by rewrite zero_if_nil.
  - intros pre tid tl1 tl2 [Hl Hr] Hstep. simpl in Hstep.
    destruct (get_tensor tl1 tid) as [t| |] eqn:Et; simpl in Hstep; try done.
    apply get_tensor_Done in Et.
    pose proof Et as Et0. rewrite Hl in Et0.
    destruct (tl !! tid) as [t0|] eqn:E0; simpl in Et0; [|done].
    injection Et0 as <-.
    split.
    2: { apply Forall_app. split; [done|]. constructor; [|constructor].
         by eapply lookup_lt_Some. }
    intros k. destruct (decide (k = tid)) as [->|Hk].
    + rewrite E0. simpl. rewrite <- (zero_if_app pre [tid]).
      assert (zero_if [tid] tid (zero_if pre tid t0)
              = if negb (contiguous_ (zero_if pre tid t0))
                then with_aligned_size 0%N (zero_if pre tid t0) else zero_if pre tid t0) as ->.
      { unfold zero_if at 1. rewrite bool_decide_eq_true_2; [done | by left]. }
      destruct (negb (contiguous_ (zero_if pre tid t0))); injection Hstep as <-; [|done].
      apply list_lookup_insert_eq. by eapply lookup_lt_Some.
    + assert (tl2 !! k = tl1 !! k) as ->.
      { destruct (negb (contiguous_ (zero_if pre tid t0))); injection Hstep as <-; [|done].
        by apply list_lookup_insert_ne. }
      rewrite Hl. destruct (tl !! k) as [tk|]; simpl; [|done].
      f_equal. symmetry. rewrite <- (zero_if_app pre [tid]).
      unfold zero_if at 1. rewrite bool_decide_eq_false_2; [done|].
      intros H. apply list_elem_of_singleton in H. done.
Qed.

Lemma lookup_fmap_ids tl tl' (f : nat → SomasTensor → SomasTensor) :
  (∀ k t, id_ (f k t) = id_ t) →
  (∀ k, tl' !! k = f k <$> tl !! k) → id_ <$> tl' = id_ <$> tl.
Proof.
  intros Hid Hl. apply list_eq. intros k. rewrite !list_lookup_fmap, Hl.
  destruct (tl !! k); simpl; [|done]. by rewrite Hid.
Qed.

(** [UpdateRefTensorsConflict], when it returns: the matrix is the one of
    the matrix part, and the tensors differ from the ones before only in
    the aligned size of the non-first members that are not contiguous. *)
Lemma UpdateRefTensorsConflict_spec groups tl m tl' m' :
  UpdateRefTensorsConflict groups tl m = Done (tl', m') →
  m' = RefTensorsConflictMatrix groups (id_ <$> tl) m
  ∧ (∀ k, tl' !! k = zero_if (non_first_members groups) k <$> tl !! k)
  ∧ Forall (fun tid => tid < length tl) (non_first_members groups)
  ∧ Forall (fun g => g ≠ []) groups.
Proof.
  unfold UpdateRefTensorsConflict.
  apply (foldl_Done_ind _
           (fun pre (a : list SomasTensor * list (list bool)) =>
              a.2 = RefTensorsConflictMatrix pre (id_ <$> tl) m
              ∧ (∀ k, a.1 !! k = zero_if (non_first_members pre) k <$> tl !! k)
              ∧ Forall (fun tid => tid < length tl) (non_first_members pre)
              ∧ Forall (fun g => g ≠ []) pre) groups (tl, m) (tl', m')); [done | done | |].
  - repeat split; try constructor. intros k. simpl.
    destruct (tl !! k); simpl; [|done]. by rewrite zero_if_nil.
  - intros pre g [tl1 m1] [tl2 m2] (Hm & Hl & Hr & Hne) Hstep. simpl in *.
    destruct g as [|f rest]; [done|].
    destruct (ref_zero_sizes (f :: rest) tl1) as [tl2'| |] eqn:Ez; simpl in Hstep; try done.
    injection Hstep as <- <-.
    apply ref_zero_sizes_spec in Ez as [Hz1 Hz2]. simpl in Hz1, Hz2.
    assert (id_ <$> tl1 = id_ <$> tl) as Hids.
    { eapply lookup_fmap_ids; [|exact Hl]. intros. apply zero_if_id. }
    assert (length tl1 = length tl) as Hlen.
    { rewrite <- (length_fmap id_ tl1), Hids. apply length_fmap. }
    unfold non_first_members. rewrite fmap_app, concat_app. simpl. rewrite app_nil_r.
    repeat split.
    + unfold RefTensorsConflictMatrix. rewrite foldl_app. cbn [foldl].
      unfold ref_group_matrix at 1. simpl. rewrite Hids. by rewrite Hm.
    + intros k. rewrite Hz1, Hl. destruct (tl !! k); simpl; [|done].
      by rewrite zero_if_app.
    + apply Forall_app. split; [done|]. by rewrite <- Hlen.
    + apply Forall_app. split; [done|]. by constructor.
Qed.
End ref_sizes.

(** ** Claims on ref-node preprocessing *)

(** C6, as amended.  When [UpdateRefTensorsConflict] returns:
    - if the first tensor [f] of a group is marked reusable with the tensor
      [z] afterwards, every member of the group was marked reusable with [z]
      before preprocessing;
    - group by group the rows are intersected: right after the group [g] has
      been processed, [f] is marked reusable with [z] iff every member of
      [g] was marked reusable with [z] in the matrix as the earlier groups
      left it (tensor ids distinct, [f] not marked reusable with itself);
    - whenever a bit has been cleared, the mirrored bit is clear too. *)
Theorem C6_ref_rows_intersected_group_by_group
    (ref_node_constraints : list (list nat)) (tensors_list tensors_list' : list SomasTensor)
    (reuse_matrix reuse_matrix' : list (list bool)) :
  UpdateRefTensorsConflict ref_node_constraints tensors_list reuse_matrix
  = Done (tensors_list', reuse_matrix') →
  (∀ g f z, g ∈ ref_node_constraints → head g = Some f → z ∈ id_ <$> tensors_list →
            Bit reuse_matrix' f z = true → ∀ tid, tid ∈ g → Bit reuse_matrix tid z = true)
  ∧ (∀ G1 g G2 f z,
       ref_node_constraints = G1 ++ g :: G2 → head g = Some f →
       NoDup (id_ <$> tensors_list) → z ∈ id_ <$> tensors_list →
       Bit (RefTensorsConflictMatrix G1 (id_ <$> tensors_list) reuse_matrix) f f = false →
       reuse_matrix'
       = RefTensorsConflictMatrix G2 (id_ <$> tensors_list)
           (ref_group_matrix (id_ <$> tensors_list)
              (RefTensorsConflictMatrix G1 (id_ <$> tensors_list) reuse_matrix) g)
       ∧ (Bit (ref_group_matrix (id_ <$> tensors_list)
                 (RefTensorsConflictMatrix G1 (id_ <$> tensors_list) reuse_matrix) g) f z = true
          ↔ ∀ tid, tid ∈ g →
                   Bit (RefTensorsConflictMatrix G1 (id_ <$> tensors_list) reuse_matrix) tid z
                   = true))
  ∧ (∀ p q, Bit reuse_matrix p q = true → Bit reuse_matrix' p q = false →
            Bit reuse_matrix' q p = false).
Proof.
  intros Hrun. apply UpdateRefTensorsConflict_spec in Hrun as (-> & _ & _ & _).
  split; [|split].
  - intros g f z Hg Hf Hz Hbit. by eapply RefTensorsConflictMatrix_only_if.
  - intros G1 g G2 f z -> Hf Hnd Hz Hdiag. split.
    + unfold RefTensorsConflictMatrix. rewrite foldl_app. done.
    + unfold ref_group_matrix at 1. rewrite Hf. simpl. split.
      * by apply ref_steps_only_if.
      * apply ref_steps_if; try done.
        destruct g as [|f' rest]; [done|]. injection Hf as ->. by left.
  - apply mirrored_RefTensorsConflictMatrix, mirrored_refl.
Qed.

Lemma C6_witness : Bit (replicate 4 (replicate 4 false)) 2 0 = false.
Proof.
  apply (proj2 (proj2 (C6_ref_rows_intersected_group_by_group ref_groups ref_tensors
           [ chain_tensor 0 0 [1]; with_aligned_size 0%N (chain_tensor 1 1 [2]);
             chain_tensor 2 2 [3]; with_aligned_size 0%N (chain_tensor 3 3 [3]) ]
           ref_matrix (replicate 4 (replicate 4 false)) eq_refl)) 0 2);
    reflexivity.
Defined.

(** C6 as stated fails when there are several groups: every member of the
    group [2;3] is marked reusable with tensor 0 before preprocessing, and
    the first tensor 2 is not marked reusable with 0 afterwards, because the
    bit was cleared as the mirror of a bit of the group [0;1]. *)
Lemma C6_counterexample :
  ∃ tl' m',
    UpdateRefTensorsConflict ref_groups ref_tensors ref_matrix = Done (tl', m')
    ∧ [2; 3] ∈ ref_groups
    ∧ (∀ tid, tid ∈ [2; 3] → Bit ref_matrix tid 0 = true)
    ∧ Bit m' 2 0 = false.
Proof.
  eexists _, _. split; [reflexivity|]. split; [|split].
  - right. left.
  - intros tid Htid. apply list_elem_of_In in Htid. simpl in Htid.
    destruct Htid as [<-|[<-|[]]]; reflexivity.
  - reflexivity.
Qed.

(** ** Offset propagation *)

Section offsets.
Implicit Types (t : SomasTensor) (tl : list SomasTensor) (g : list nat).


Lemma offset_of_lookup tl k t : tl !! k = Some t → offset_of tl k = offset_ t.
Proof. unfold offset_of. by intros ->. Qed.

Lemma update_tensor_Done tid f tl tl' :
  update_tensor tid f tl = Done tl' →
  ∃ t, tl !! tid = Some t ∧ tl' = <[tid := f t]> tl.
Proof.
  unfold update_tensor. destruct (get_tensor tl tid) as [t| |] eqn:E; simpl; try done.
  intros [= <-]. apply get_tensor_Done in E. by exists t.
Qed.

Lemma with_offset_same t : with_offset (offset_ t) t = t.
Proof. by destruct t. Qed.

Lemma with_offset_with_offset a b t : with_offset a (with_offset b t) = with_offset a t.
Proof. done. Qed.

Lemma same_but_offsets_refl tl : same_but_offsets tl tl.
Proof.
  intros k. unfold offset_of. destruct (tl !! k) as [t|]; simpl; [|done].
  by rewrite with_offset_same.
Qed.

Lemma same_but_offsets_insert tl tl1 tid t v :
  same_but_offsets tl tl1 → tl1 !! tid = Some t →
  same_but_offsets tl (<[tid := with_offset v t]> tl1).
Proof.
  intros Hs Ht k. pose proof (lookup_lt_Some _ _ _ Ht) as Hlt.
  destruct (decide (k = tid)) as [->|Hk].
  - unfold offset_of. rewrite list_lookup_insert_eq by done.
    specialize (Hs tid). rewrite Ht in Hs.
    destruct (tl !! tid) as [t0|]; simpl in *; [|done].
    injection Hs as ->. done.
  - unfold offset_of. rewrite list_lookup_insert_ne by done. apply Hs.
Qed.

Lemma same_but_offsets_trans tl tl1 tl2 :
  same_but_offsets tl tl1 → same_but_offsets tl1 tl2 → same_but_offsets tl tl2.
Proof.
  intros H1 H2 k. rewrite (H2 k), (H1 k). by destruct (tl !! k).
Qed.

Lemma same_but_offsets_length tl tl' : same_but_offsets tl tl' → length tl' = length tl.
Proof.
  intros Hs. destruct (decide (length tl' = length tl)) as [|Hne]; [done|].
  exfalso. destruct (decide (length tl' < length tl)) as [Hlt|Hge].
  - specialize (Hs (length tl')). rewrite lookup_ge_None_2 in Hs by lia.
    destruct (lookup_lt_is_Some_2 tl (length tl') Hlt) as [t Ht]. by rewrite Ht in Hs.
  - specialize (Hs (length tl)). rewrite (lookup_ge_None_2 tl) in Hs by lia.
    destruct (lookup_lt_is_Some_2 tl' (length tl)) as [t Ht]; [lia|]. by rewrite Ht in Hs.
Qed.

Lemma same_but_offsets_aligned_size tl tl' k :
  same_but_offsets tl tl' → aligned_size_of tl' k = aligned_size_of tl k.
Proof.
  intros Hs. unfold aligned_size_of. rewrite (Hs k). by destruct (tl !! k).
Qed.

(** The loop of one group in [UpdateRefTensorsOffset], started in [tl]:
    tensors outside the non-first members are untouched, the offset of the
    first member stays, and every non-first member gets it. *)
Lemma ref_offset_group_spec g tl tl' :
  ref_offset_group (Done tl) g = Done tl' →
  same_but_offsets tl tl'
  ∧ (∀ k, k ∉ drop 1 g → tl' !! k = tl !! k)
  ∧ (∀ tid, tid ∈ g → offset_of tl' tid = offset_of tl' (default 0 (head g))).
Proof.
  unfold ref_offset_group. intros Hrun.
  set (f := default 0 (head g)) in *.
  assert (same_but_offsets tl tl'
          ∧ (∀ k, k ∉ drop 1 g → tl' !! k = tl !! k)
          ∧ offset_of tl' f = offset_of tl f
          ∧ (∀ tid, tid ∈ drop 1 g → offset_of tl' tid = offset_of tl f)) as (H1 & H2 & H3 & H4).
  { revert Hrun.
    apply (foldl_Done_ind _
             (fun pre tl1 => same_but_offsets tl tl1
                             ∧ (∀ k, k ∉ pre → tl1 !! k = tl !! k)
                             ∧ offset_of tl1 f = offset_of tl f
                             ∧ (∀ tid, tid ∈ pre → offset_of tl1 tid = offset_of tl f)));
      [done | done | |].
    - split; [apply same_but_offsets_refl|]. split; [done|]. split; [done|].
      intros tid Htid. by apply not_elem_of_nil in Htid.
    - intros pre tid tl1 tl2 (Hs & Hframe & Hf & Hpre) Hstep. simpl in Hstep.
      destruct (get_tensor tl1 f) as [first| |] eqn:Ef; simpl in Hstep; try done.
      apply get_tensor_Done in Ef.
      apply update_tensor_Done in Hstep as (t & Ht & ->).
      pose proof (lookup_lt_Some _ _ _ Ht) as Hlt.
      assert (offset_ first = offset_of tl f) as Hfo
        by (by rewrite <- Hf, (offset_of_lookup tl1 f first)).
      rewrite Hfo.
      assert (∀ k, offset_of (<[tid := with_offset (offset_of tl f) t]> tl1) k
                   = if decide (k = tid) then offset_of tl f else offset_of tl1 k) as Hoff.
      { intros k. unfold offset_of. destruct (decide (k = tid)) as [->|Hk].
        - by rewrite list_lookup_insert_eq.
        - by rewrite list_lookup_insert_ne. }
      repeat split.
      + by apply same_but_offsets_insert.
      + intros k Hk. rewrite list_lookup_insert_ne.
        * apply Hframe. intros H. apply Hk. apply elem_of_app. by left.
        * intros ->. apply Hk. apply elem_of_app. right. by left.
      + rewrite Hoff. by case_decide.
      + intros k Hk. rewrite Hoff. case_decide; [done|].
        apply Hpre. apply elem_of_app in Hk as [Hk|Hk]; [done|].
        apply list_elem_of_singleton in Hk. done. }
  repeat split; [done..|].
  intros tid Htid. destruct g as [|f' rest]; [by apply not_elem_of_nil in Htid|].
  simpl in *. subst f. apply elem_of_cons in Htid as [->|Htid]; [done|].
  rewrite H3. by apply H4.
Qed.

Lemma ref_offset_group_Exception what g : ref_offset_group (Exception what) g = Exception what.
Proof. unfold ref_offset_group. by apply foldl_Exception. Qed.

Lemma ref_offset_group_Undefined g : ref_offset_group Undefined g = Undefined.
Proof. unfold ref_offset_group. by apply foldl_Undefined. Qed.

(** All groups: tensors outside the non-first members are untouched. *)
Lemma UpdateRefTensorsOffset_frame groups tl tl' :
  UpdateRefTensorsOffset groups tl = Done tl' →
  same_but_offsets tl tl'
  ∧ ∀ k, k ∉ non_first_members groups → tl' !! k = tl !! k.
Proof.
  unfold UpdateRefTensorsOffset.
  apply (foldl_Done_ind _
           (fun pre tl1 => same_but_offsets tl tl1
                           ∧ ∀ k, k ∉ non_first_members pre → tl1 !! k = tl !! k)).
  - intros. apply ref_offset_group_Exception.
  - intros. apply ref_offset_group_Undefined.
  - split; [apply same_but_offsets_refl | done].
  - intros pre g tl1 tl2 [Hs Hframe] Hstep.
    apply ref_offset_group_spec in Hstep as (Hs2 & Hframe2 & _).
    assert (∀ k, k ∉ non_first_members (pre ++ [g])
                 ↔ (k ∉ non_first_members pre) ∧ (k ∉ drop 1 g)) as Hsplit.
    { intros k. unfold non_first_members. rewrite fmap_app, concat_app. simpl.
      rewrite app_nil_r, elem_of_app. tauto. }
    split.
    + by eapply same_but_offsets_trans.
    + intros k Hk. apply Hsplit in Hk as [Hk1 Hk2]. by rewrite Hframe2, Hframe.
Qed.

End offsets.

(** ** Contiguous offsets *)

Section contiguous_offsets.
Implicit Types (t : SomasTensor) (tl : list SomasTensor) (ctl : list (list nat)).

Lemma contiguous_copy_step_Exception ctl what p :
  contiguous_copy_step ctl (Exception what) p = Exception what.
Proof. done. Qed.

Lemma contiguous_copy_step_Undefined ctl p : contiguous_copy_step ctl Undefined p = Undefined.
Proof. done. Qed.

Lemma contiguous_copy_step_spec ctl tl tl' p :
  contiguous_copy_step ctl (Done tl) p = Done tl' →
  same_but_offsets tl tl' ∧ ∀ k, (∀ ls, ls ∈ ctl → k ∉ ls) → tl' !! k = tl !! k.
Proof.
  unfold contiguous_copy_step. simpl.
  destruct (ctl !! p.1) as [list_first|] eqn:E1; [|done].
  destruct (ctl !! p.2) as [list_second|] eqn:E2; [|done].
  apply (foldl_Done_ind _
           (fun (pre : list nat) tl1 =>
              same_but_offsets tl tl1 ∧ ∀ k, (∀ ls, ls ∈ ctl → k ∉ ls) → tl1 !! k = tl !! k));
    [done | done | |].
  - split; [apply same_but_offsets_refl | done].
  - intros pre x tl1 tl2 [Hs Hframe] Hstep. simpl in Hstep.
    destruct (list_first !! x) as [a|] eqn:Ea; [|done].
    destruct (list_second !! x) as [b|] eqn:Eb; [|done].
    destruct (get_tensor tl1 a) as [src| |] eqn:Es; simpl in Hstep; try done.
    apply update_tensor_Done in Hstep as (t & Ht & ->).
    split; [by apply same_but_offsets_insert|].
    intros k Hk. rewrite list_lookup_insert_ne; [by apply Hframe|].
    intros ->. apply (Hk list_second).
    + by eapply list_elem_of_lookup_2.
    + by eapply list_elem_of_lookup_2.
Qed.

Lemma contiguous_copy_spec ctl tl tl' (contiguous_ref_list_map : list (nat * nat)) :
  foldl (contiguous_copy_step ctl) (Done tl) contiguous_ref_list_map = Done tl' →
  same_but_offsets tl tl' ∧ ∀ k, (∀ ls, ls ∈ ctl → k ∉ ls) → tl' !! k = tl !! k.
Proof.
  apply (foldl_Done_ind _
           (fun (pre : list (nat * nat)) tl1 =>
              same_but_offsets tl tl1 ∧ ∀ k, (∀ ls, ls ∈ ctl → k ∉ ls) → tl1 !! k = tl !! k));
    [done | done | |].
  - split; [apply same_but_offsets_refl | done].
  - intros pre p tl1 tl2 [Hs Hframe] Hstep.
    apply contiguous_copy_step_spec in Hstep as [Hs2 Hframe2].
    split; [by eapply same_but_offsets_trans|].
    intros k Hk. by rewrite Hframe2, Hframe.
Qed.

Lemma first_tensors_snoc ctl l :
  first_tensors (ctl ++ [l]) = first_tensors ctl ++ match head l with Some f => [f] | None => [] end.
Proof. unfold first_tensors. rewrite omap_app. simpl. by destruct (head l). Qed.

(** The gap loop: only first tensors move, and when no tensor is the first
    of two lists each moves by exactly the gap (modulo 2^64). *)
Lemma contiguous_gap_spec ctl tl tl' :
  foldl contiguous_gap_step (Done tl) ctl = Done tl' →
  same_but_offsets tl tl'
  ∧ (∀ k, k ∉ first_tensors ctl → tl' !! k = tl !! k)
  ∧ (NoDup (first_tensors ctl) →
     ∀ f, f ∈ first_tensors ctl → offset_of tl' f = size_t_add (offset_of tl f) kGapSize).
Proof.
  apply (foldl_Done_ind _
           (fun pre tl1 =>
              same_but_offsets tl tl1
              ∧ (∀ k, k ∉ first_tensors pre → tl1 !! k = tl !! k)
              ∧ (NoDup (first_tensors pre) →
                 ∀ f, f ∈ first_tensors pre
                      → offset_of tl1 f = size_t_add (offset_of tl f) kGapSize)));
    [done | done | |].
  - split; [apply same_but_offsets_refl|]. split; [done|].
    intros _ f Hf. by apply not_elem_of_nil in Hf.
  - intros pre l tl1 tl2 (Hs & Hframe & Hgap) Hstep. simpl in Hstep.
    destruct l as [|first rest]; [done|].
    destruct (get_tensor tl1 first) as [t| |] eqn:Et; simpl in Hstep; try done.
    injection Hstep as <-. apply get_tensor_Done in Et.
    pose proof (lookup_lt_Some _ _ _ Et) as Hlt.
    rewrite first_tensors_snoc. simpl.
    split; [by apply same_but_offsets_insert|]. split.
    + intros k Hk. rewrite list_lookup_insert_ne.
      * apply Hframe. intros H. apply Hk. apply elem_of_app. by left.
      * intros ->. apply Hk. apply elem_of_app. right. by left.
    + intros Hnd f Hf. apply NoDup_app in Hnd as (Hnd1 & Hdisj & _).
      unfold offset_of at 1. destruct (decide (f = first)) as [->|Hne].
      * rewrite list_lookup_insert_eq by done. simpl.
        assert (first ∉ first_tensors pre) as Hnew.
        { intros H. apply (Hdisj first H). by left. }
        f_equal. rewrite <- (offset_of_lookup tl1 first t Et).
        unfold offset_of. by rewrite Hframe.
      * rewrite list_lookup_insert_ne by done.
        apply elem_of_app in Hf as [Hf|Hf].
        -- by apply Hgap.
        -- apply list_elem_of_singleton in Hf. done.
Qed.

(** [UpdateContiguousTensorsOffset] moves offsets only, and only those of
    tensors of contiguous lists. *)
Lemma UpdateContiguousTensorsOffset_frame contiguous_ref_list_map ctl tl tl' :
  UpdateContiguousTensorsOffset contiguous_ref_list_map ctl tl = Done tl' →
  same_but_offsets tl tl' ∧ ∀ k, (∀ ls, ls ∈ ctl → k ∉ ls) → tl' !! k = tl !! k.
Proof.
  unfold UpdateContiguousTensorsOffset. intros Hrun.
  destruct (foldl (contiguous_copy_step ctl) (Done tl) contiguous_ref_list_map)
    as [tlc|what|] eqn:Ec.
  2: { rewrite foldl_Exception in Hrun by done. done. }
  2: { rewrite foldl_Undefined in Hrun by done. done. }
  apply contiguous_copy_spec in Ec as [Hs1 Hf1].
  apply contiguous_gap_spec in Hrun as (Hs2 & Hf2 & _).
  split; [by eapply same_but_offsets_trans|].
  intros k Hk. rewrite Hf2, Hf1; [done | done |].
  unfold first_tensors. rewrite list_elem_of_omap. intros (l & Hl & Hhead).
  apply (Hk l Hl). destruct l as [|f rest]; [done|]. injection Hhead as ->. by left.
Qed.
End contiguous_offsets.

Section contiguous_groups.
Implicit Types (t : SomasTensor) (tl : list SomasTensor) (ctl : list (list nat)).




End contiguous_groups.

(** ** Claims on ref-node sizes and offsets *)





(** ** Building the contiguous lists *)

Section gen_contiguous.
Implicit Types (t : SomasTensor) (tl : list SomasTensor) (tensors : list nat)
  (st : ContiguousState).

Lemma length_remove_dups_le (l : list nat) : length (remove_dups l) ≤ length l.
Proof.
  induction l as [|x l IH]; simpl; [done|]. case_decide; simpl; lia.
Qed.

Lemma length_remove_dups_NoDup (l : list nat) : length (remove_dups l) = length l ↔ NoDup l.
Proof.
  induction l as [|x l IH]; simpl.
  - split; [constructor | done].
  - rewrite NoDup_cons. pose proof (length_remove_dups_le l).
    case_decide; simpl; [split; [lia | tauto]|].
    split; [intros [= Heq]; split; [done | by apply IH] | intros [_ Hnd]; f_equal; by apply IH].
Qed.

Lemma with_aligned_size_same t : with_aligned_size (aligned_size_ t) t = t.
Proof. by destruct t. Qed.

Lemma add_gap_if_sized_eq t : add_gap_if_sized t = with_aligned_size (gap_size (aligned_size_ t)) t.
Proof.
  unfold add_gap_if_sized, gap_size. case_bool_decide; [done|]. by rewrite with_aligned_size_same.
Qed.

Lemma mark_contiguous_spec tensors tl total tl' total' :
  mark_contiguous tensors tl total = Done (tl', total') →
  ∀ k, tl' !! k
       = (fun t => if bool_decide (k ∈ tensors) then with_contiguous true t else t) <$> tl !! k.
Proof.
  unfold mark_contiguous.
  apply (foldl_Done_ind _
           (fun pre (a : list SomasTensor * N) =>
              ∀ k, a.1 !! k
                   = (fun t => if bool_decide (k ∈ pre) then with_contiguous true t else t)
                       <$> tl !! k) tensors (tl, total) (tl', total')); [done | done | |].
  - intros k. simpl. by destruct (tl !! k).
  - intros pre tid [tl1 n1] [tl2 n2] Hl Hstep. simpl in *.
    destruct (get_tensor tl1 tid) as [t| |] eqn:Et; simpl in Hstep; try done.
    injection Hstep as <- <-. apply get_tensor_Done in Et.
    pose proof (lookup_lt_Some _ _ _ Et) as Hlt.
    intros k. destruct (decide (k = tid)) as [->|Hk].
    + rewrite list_lookup_insert_eq by done. rewrite Hl in Et.
      destruct (tl !! tid) as [t0|]; simpl in *; [|done]. injection Et as <-.
      rewrite (bool_decide_eq_true_2 (tid ∈ pre ++ [tid]))
        by (apply elem_of_app; right; by left).
      by case_bool_decide.
    + rewrite list_lookup_insert_ne by done. rewrite Hl.
      destruct (tl !! k); simpl; [|done]. f_equal.
      apply (f_equal (fun b : bool => if b then _ else _)).
      apply bool_decide_ext. rewrite elem_of_app, list_elem_of_singleton. tauto.
Qed.

Lemma mark_contiguous_Done tensors tl total :
  Forall (fun tid => tid < length tl) tensors →
  ∃ tl' total', mark_contiguous tensors tl total = Done (tl', total') ∧ length tl' = length tl.
Proof.
  unfold mark_contiguous. revert tl total.
  induction tensors as [|tid tensors IH]; intros tl total Hr; cbn [foldl].
  - by exists tl, total.
  - apply Forall_cons in Hr as [Hlt Hr].
    destruct (lookup_lt_is_Some_2 tl tid Hlt) as [t Ht].
    simpl. unfold get_tensor. rewrite Ht. simpl.
    destruct (IH (<[tid := with_contiguous true t]> tl) (size_t_add total (aligned_size_ t)))
      as (tl' & total' & Hrun & Hlen).
    { by rewrite length_insert. }
    exists tl', total'. split; [done|]. by rewrite Hlen, length_insert.
Qed.

(** One side whose first tensor is already contiguous is skipped, whatever
    the list holds. *)
Lemma gen_contiguous_side_skipped what tensors st first t0 :
  head tensors = Some first → cs_tensors_list st !! first = Some t0 → contiguous_ t0 = true →
  gen_contiguous_side what tensors st = Done st.
Proof.
  intros Hh Ht Hc. destruct tensors as [|f rest]; [done|]. injection Hh as ->.
  unfold gen_contiguous_side, get_tensor. rewrite Ht. simpl. by rewrite Hc.
Qed.

(** One side that is processed and holds a tensor twice raises the
    exception. *)
Lemma gen_contiguous_side_duplicate what tensors st first t0 :
  head tensors = Some first → cs_tensors_list st !! first = Some t0 → contiguous_ t0 = false →
  Forall (fun tid => tid < length (cs_tensors_list st)) tensors →
  ¬ NoDup tensors →
  gen_contiguous_side what tensors st = Exception what.
Proof.
  intros Hh Ht Hc Hr Hdup. destruct tensors as [|f rest]; [done|]. injection Hh as ->.
  unfold gen_contiguous_side, get_tensor. rewrite Ht. simpl. rewrite Hc. simpl.
  unfold update_tensor at 2, get_tensor. rewrite Ht. simpl.
  assert (default first (last (first :: rest)) < length (cs_tensors_list st)) as Hlast.
  { destruct (last (first :: rest)) as [x|] eqn:El; simpl.
    - rewrite Forall_forall in Hr. apply Hr. rewrite last_lookup in El.
      by eapply list_elem_of_lookup_2.
    - by eapply lookup_lt_Some. }
  destruct (lookup_lt_is_Some_2 (<[first := add_gap_if_sized t0]> (cs_tensors_list st))
              (default first (last (first :: rest)))) as [tlast Htl];
    [by rewrite length_insert|].
  unfold update_tensor, get_tensor. rewrite Htl. simpl.
  destruct (mark_contiguous_Done (first :: rest)
              (<[default first (last (first :: rest)) := add_gap_if_sized tlast]>
                 (<[first := add_gap_if_sized t0]> (cs_tensors_list st)))
              (cs_comm_total_size st)) as (tl3 & total & -> & _).
  { by rewrite !length_insert. }
  simpl. rewrite bool_decide_eq_true_2; [done|].
  intros Heq. apply Hdup. apply length_remove_dups_NoDup. done.
Qed.

(** One side that is processed and returns: the list has no duplicates and
    is appended, and the tensors change as [side_effect] says. *)
Lemma gen_contiguous_side_processed what tensors st st' first t0 :
  head tensors = Some first → cs_tensors_list st !! first = Some t0 → contiguous_ t0 = false →
  gen_contiguous_side what tensors st = Done st' →
  NoDup tensors
  ∧ cs_contiguous_tensors_list st' = cs_contiguous_tensors_list st ++ [tensors]
  ∧ ∀ k, cs_tensors_list st' !! k
         = side_effect first (default first (last tensors)) tensors k <$> cs_tensors_list st !! k.
Proof.
  intros Hh Ht Hc. destruct tensors as [|f rest]; [done|]. injection Hh as ->.
  unfold gen_contiguous_side at 1, get_tensor. rewrite Ht. simpl. rewrite Hc. simpl.
  destruct (update_tensor first add_gap_if_sized (cs_tensors_list st)) as [tl1| |] eqn:E1;
    simpl; try done.
  apply update_tensor_Done in E1 as (t0' & Ht0' & ->).
  assert (t0' = t0) as -> by congruence.
  destruct (update_tensor (default first (last (first :: rest))) add_gap_if_sized
              (<[first := add_gap_if_sized t0]> (cs_tensors_list st))) as [tl2| |] eqn:E2;
    simpl; try done.
  apply update_tensor_Done in E2 as (tlast & Htlast & ->).
  destruct (mark_contiguous (first :: rest) _ (cs_comm_total_size st)) as [[tl3 total]| |] eqn:E3;
    simpl; try done.
  case_bool_decide as Hlen; [done|]. intros [= <-]. simpl.
  split; [apply length_remove_dups_NoDup; symmetry; exact Hlen|]. split; [done|].
  intros k. rewrite (mark_contiguous_spec _ _ _ _ _ E3 k).
  pose proof (lookup_lt_Some _ _ _ Ht) as Hlt.
  pose proof (lookup_lt_Some _ _ _ Htlast) as Hlt2.
  set (lst := default first (last (first :: rest))) in *.
  destruct (cs_tensors_list st !! k) as [tk|] eqn:Ek.
  2: { apply lookup_ge_None in Ek. rewrite lookup_ge_None_2; [done|].
       rewrite !length_insert. done. }
  unfold side_effect. simpl.
  destruct (decide (k = lst)) as [->|Hkl].
  - rewrite list_lookup_insert_eq by done. simpl.
    rewrite (bool_decide_eq_true_2 (lst = lst)) by done.
    destruct (decide (lst = first)) as [Heq|Hne].
    + rewrite Heq in *. rewrite list_lookup_insert_eq in Htlast by done.
      injection Htlast as <-. assert (tk = t0) as -> by congruence.
      rewrite (bool_decide_eq_true_2 (first = first)) by done.
      rewrite !add_gap_if_sized_eq. done.
    + rewrite list_lookup_insert_ne in Htlast by done.
      assert (tk = tlast) as -> by congruence.
      rewrite (bool_decide_eq_false_2 (lst = first)) by done.
      rewrite add_gap_if_sized_eq. done.
  - rewrite list_lookup_insert_ne by done.
    rewrite (bool_decide_eq_false_2 (k = lst)) by done.
    destruct (decide (k = first)) as [->|Hkf].
    + rewrite list_lookup_insert_eq by done. simpl. assert (tk = t0) as -> by congruence.
      rewrite (bool_decide_eq_true_2 (first = first)) by done.
      rewrite add_gap_if_sized_eq. done.
    + rewrite list_lookup_insert_ne by done. rewrite Ek. simpl.
      rewrite (bool_decide_eq_false_2 (k = first)) by done.
      by rewrite with_aligned_size_same.
Qed.
End gen_contiguous.

Section gen_contiguous_list.
Implicit Types (st : ContiguousState) (node : SomasNode).

Lemma gen_contiguous_side_cases what tensors st st' :
  gen_contiguous_side what tensors st = Done st' →
  st' = st
  ∨ (NoDup tensors
     ∧ cs_contiguous_tensors_list st' = cs_contiguous_tensors_list st ++ [tensors]).
Proof.
  intros Hrun. destruct tensors as [|first rest] eqn:Et; [left; by injection Hrun|].
  destruct (cs_tensors_list st !! first) as [t0|] eqn:E0.
  2: { unfold gen_contiguous_side, get_tensor in Hrun. by rewrite E0 in Hrun. }
  destruct (contiguous_ t0) eqn:Ec.
  - rewrite (gen_contiguous_side_skipped what (first :: rest) st first t0) in Hrun by done.
    left. by injection Hrun.
  - right.
    by destruct (gen_contiguous_side_processed what (first :: rest) st st' first t0)
      as (? & ? & _).
Qed.

Lemma gen_contiguous_side_NoDup what tensors st st' :
  gen_contiguous_side what tensors st = Done st' →
  Forall NoDup (cs_contiguous_tensors_list st) → Forall NoDup (cs_contiguous_tensors_list st').
Proof.
  intros Hrun Hnd. apply gen_contiguous_side_cases in Hrun as [->|[Hl ->]]; [done|].
  apply Forall_app. split; [done|]. by constructor.
Qed.

Lemma gen_contiguous_node_Exception what node :
  gen_contiguous_node (Exception what) node = Exception what.
Proof. done. Qed.

Lemma gen_contiguous_node_Undefined node : gen_contiguous_node Undefined node = Undefined.
Proof. done. Qed.

Lemma gen_contiguous_node_NoDup st o node st' o' :
  gen_contiguous_node (Done (st, o)) node = Done (st', o') →
  Forall NoDup (cs_contiguous_tensors_list st) → Forall NoDup (cs_contiguous_tensors_list st').
Proof.
  unfold gen_contiguous_node. simpl. case_bool_decide; [by intros [= <- <-]|].
  destruct (gen_contiguous_side _ (input_tensors_ node) st) as [st1| |] eqn:E1; simpl; try done.
  destruct (gen_contiguous_side _ (output_tensors_ node) _) as [st2| |] eqn:E2; simpl; try done.
  intros [= <- <-] Hnd. simpl.
  apply gen_contiguous_side_NoDup in E1; [|done].
  by apply gen_contiguous_side_NoDup in E2.
Qed.

(** No contiguous list with a tensor twice is ever produced. *)
Lemma GenContiguousList_NoDup nodes_list st o st' o' :
  GenContiguousList nodes_list st o = Done (st', o') →
  Forall NoDup (cs_contiguous_tensors_list st) → Forall NoDup (cs_contiguous_tensors_list st').
Proof.
  unfold GenContiguousList. intros Hrun Hnd. revert Hrun.
  apply (foldl_Done_ind gen_contiguous_node
           (fun _ (a : ContiguousState * N) => Forall NoDup (cs_contiguous_tensors_list a.1))
           nodes_list (st, o) (st', o')); [done | done | done |].
  intros pre node [st1 o1] [st2 o2] Hnd1 Hstep. simpl in *.
  by eapply gen_contiguous_node_NoDup.
Qed.

(** The loop stops at the node that raises. *)
Lemma GenContiguousList_raises N1 node N2 st o st1 o1 what :
  GenContiguousList N1 st o = Done (st1, o1) →
  gen_contiguous_node (Done (st1, o1)) node = Exception what →
  GenContiguousList (N1 ++ node :: N2) st o = Exception what.
Proof.
  unfold GenContiguousList. intros H1 H2. rewrite foldl_app, H1. cbn [foldl]. rewrite H2.
  by apply foldl_Exception.
Qed.
End gen_contiguous_list.

(** ** Building the contiguous lists: no tensor opens two lists *)

Section contiguous_firsts.
Implicit Types (st : ContiguousState) (node : SomasNode) (tensors : list nat).

Lemma mark_contiguous_in_range tensors (tl : list SomasTensor) total tl' total' :
  mark_contiguous tensors tl total = Done (tl', total') →
  Forall (fun tid => tid < length tl) tensors.
Proof.
  unfold mark_contiguous. intros Hrun.
  apply (foldl_Done_ind _
           (fun pre (a : list SomasTensor * N) =>
              length a.1 = length tl ∧ Forall (fun tid => tid < length tl) pre)
           tensors (tl, total) (tl', total')) in Hrun; [by destruct Hrun | done | done | |].
  - by split.
  - intros pre tid [tl1 n1] [tl2 n2] [Hlen Hpre] Hstep. simpl in *.
    destruct (get_tensor tl1 tid) as [t| |] eqn:Et; simpl in Hstep; try done.
    injection Hstep as <- <-. apply get_tensor_Done, lookup_lt_Some in Et.
    split; [by rewrite length_insert|]. apply Forall_app. split; [done|].
    constructor; [lia | constructor].
Qed.

Lemma gen_contiguous_side_in_range what tensors st st' first t0 :
  head tensors = Some first → cs_tensors_list st !! first = Some t0 → contiguous_ t0 = false →
  gen_contiguous_side what tensors st = Done st' →
  Forall (fun tid => tid < length (cs_tensors_list st)) tensors.
Proof.
  intros Hh Ht Hc. destruct tensors as [|f rest]; [done|]. injection Hh as ->.
  unfold gen_contiguous_side at 1, get_tensor. rewrite Ht. simpl. rewrite Hc. simpl.
  destruct (update_tensor first add_gap_if_sized (cs_tensors_list st)) as [tl1| |] eqn:E1;
    simpl; try done.
  apply update_tensor_Done in E1 as (t0' & Ht0' & ->).
  destruct (update_tensor (default first (last (first :: rest))) add_gap_if_sized
              (<[first := add_gap_if_sized t0']> (cs_tensors_list st))) as [tl2| |] eqn:E2;
    simpl; try done.
  apply update_tensor_Done in E2 as (tlast & Htlast & ->).
  destruct (mark_contiguous (first :: rest) _ (cs_comm_total_size st)) as [[tl3 total]| |] eqn:E3;
    simpl; try done.
  intros _. apply mark_contiguous_in_range in E3. by rewrite !length_insert in E3.
Qed.

Lemma side_effect_contiguous first lst tensors k (t : SomasTensor) :
  contiguous_ (side_effect first lst tensors k t) = bool_decide (k ∈ tensors) || contiguous_ t.
Proof. unfold side_effect. by repeat case_bool_decide. Qed.




End contiguous_firsts.

(** ** Claims on contiguous-list construction *)

(** C10, as amended.  For a communication node reached in state [st1]:
    - an input list that holds a tensor twice and whose first tensor is not
      yet contiguous makes [GenContiguousList] raise the fatal exception;
    - so does such an output list, once the input side has returned;
    - a side whose first tensor is already contiguous is skipped without a
      check;
    - and when [GenContiguousList] returns, no contiguous list holds a
      tensor twice. *)
Theorem C10_duplicates_raise_unless_side_skipped
    (nodes_list : list SomasNode) (st : ContiguousState) (comm_output_total : N) :
  (∀ N1 node N2 st1 o1 first t0,
     nodes_list = N1 ++ node :: N2 →
     GenContiguousList N1 st comm_output_total = Done (st1, o1) →
     node_type_ node = kCommunicationNode →
     head (input_tensors_ node) = Some first →
     cs_tensors_list st1 !! first = Some t0 → contiguous_ t0 = false →
     Forall (fun tid => tid < length (cs_tensors_list st1)) (input_tensors_ node) →
     ¬ NoDup (input_tensors_ node) →
     GenContiguousList nodes_list st comm_output_total = Exception "has same input tensors")
  ∧ (∀ N1 node N2 st1 o1 st2 first t0,
       nodes_list = N1 ++ node :: N2 →
       GenContiguousList N1 st comm_output_total = Done (st1, o1) →
       node_type_ node = kCommunicationNode →
       gen_contiguous_side "has same input tensors" (input_tensors_ node) st1 = Done st2 →
       head (output_tensors_ node) = Some first →
       cs_tensors_list st2 !! first = Some t0 → contiguous_ t0 = false →
       Forall (fun tid => tid < length (cs_tensors_list st2)) (output_tensors_ node) →
       ¬ NoDup (output_tensors_ node) →
       GenContiguousList nodes_list st comm_output_total = Exception "has same output tensor")
  ∧ (∀ what tensors st1 first t0,
       head tensors = Some first → cs_tensors_list st1 !! first = Some t0 →
       contiguous_ t0 = true →
       gen_contiguous_side what tensors st1 = Done st1)
  ∧ (∀ st' o',
       GenContiguousList nodes_list st comm_output_total = Done (st', o') →
       Forall NoDup (cs_contiguous_tensors_list st) →
       Forall NoDup (cs_contiguous_tensors_list st')).
Proof.
  split; [|split; [|split]].
  - intros N1 node N2 st1 o1 first t0 -> HN1 Hcomm Hh Ht Hc Hr Hdup.
    eapply GenContiguousList_raises; [done|].
    unfold gen_contiguous_node. simpl. rewrite bool_decide_eq_false_2 by (by intros ?).
    by rewrite (gen_contiguous_side_duplicate _ _ st1 first t0).
  - intros N1 node N2 st1 o1 st2 first t0 -> HN1 Hcomm Hin Hh Ht Hc Hr Hdup.
    eapply GenContiguousList_raises; [done|].
    unfold gen_contiguous_node. simpl. rewrite bool_decide_eq_false_2 by (by intros ?).
    rewrite Hin. simpl.
    by rewrite (gen_contiguous_side_duplicate _ _ _ first t0).
  - intros what tensors st1 first t0. apply gen_contiguous_side_skipped.
  - intros st' o'. apply GenContiguousList_NoDup.
Qed.

(** The first conjunct at work: a communication node that reads tensor 1
    twice, its first input not yet contiguous. *)
Lemma C10_witness :
  GenContiguousList [ mkNode 0 0 kCommunicationNode [1; 0; 1] [2] [] [] ] shared_input_state 0%N
  = Exception "has same input tensors".
Proof.
  apply (proj1 (C10_duplicates_raise_unless_side_skipped
                  [ mkNode 0 0 kCommunicationNode [1; 0; 1] [2] [] [] ] shared_input_state 0%N)
           [] (mkNode 0 0 kCommunicationNode [1; 0; 1] [2] [] []) [] shared_input_state 0%N
           1 (chain_tensor 1 0 [1]) eq_refl eq_refl eq_refl eq_refl eq_refl eq_refl).
  - repeat constructor.
  - intros Hnd. apply NoDup_cons in Hnd as [Hnotin _]. apply Hnotin. right. left.
Defined.

(** C10 as stated fails: node 1 reads tensor 1 twice, yet no exception is
    raised, because its first input (tensor 0) was made contiguous by node 0
    and the whole input side of node 1 is skipped. *)
Lemma C10_counterexample :
  ∃ node st' o',
    node ∈ shared_input_nodes
    ∧ node_type_ node = kCommunicationNode
    ∧ ¬ NoDup (input_tensors_ node)
    ∧ GenContiguousList shared_input_nodes shared_input_state 0%N = Done (st', o')
    ∧ cs_contiguous_tensors_list st' = [[0]; [2]; [3]].
Proof.
  exists (mkNode 1 0 kCommunicationNode [0; 1; 1] [3] [] [0]). eexists _, _.
  split; [right; left|]. split; [reflexivity|]. split; [|split; reflexivity].
  simpl. intros Hnd. apply NoDup_cons in Hnd as [_ Hnd].
  apply NoDup_cons in Hnd as [Hnotin _]. apply Hnotin. left.
Qed.

(** ** Claims on contiguous sizes and offsets *)

Lemma size_t_add_small (a b : N) : (a + b < size_t_modulus)%N → size_t_add a b = (a + b)%N.
Proof. intros H. unfold size_t_add. by apply N.mod_small. Qed.

Lemma aligned_size_of_lookup (tl : list SomasTensor) k t :
  tl !! k = Some t → aligned_size_of tl k = aligned_size_ t.
Proof. unfold aligned_size_of. by intros ->. Qed.


(** ** [GenContiguousList] as a whole: the lists, the flags and the sizes *)

Section contiguous_sides.
Implicit Types (st : ContiguousState) (node : SomasNode) (tensors : list nat)
  (tl : list SomasTensor) (ctl : list (list nat)).












End contiguous_sides.




(** ** [ComputeConflictPairs]: the stages of the whole function *)

Section conflict_pairs.
Implicit Types (st : Somas) (t : SomasTensor) (nodes : list SomasNode).

Lemma stream_max_update_not_nil stream node_id (m : list (nat * nat)) :
  stream_max_update stream node_id m ≠ [].
Proof. destruct m as [|[s v] rest]; simpl; [done|]. by case_match. Qed.

(** After [UpdateTensorDestinations] no consumer list is empty: a tensor
    without destination has got its own source node. *)
Lemma tensor_destinations_consumers nodes t t' :
  tensor_destinations nodes t = Done t' → consumer_list_ t' ≠ [].
Proof.
  unfold tensor_destinations.
  set (t1 := if bool_decide (destination_nodes_ t = []) then _ else t).
  assert (destination_nodes_ t1 ≠ []) as Hne.
  { unfold t1. case_bool_decide; [done | done]. }
  destruct (foldl _ (Done []) (destination_nodes_ t1)) as [stream_max| |] eqn:E; simpl; try done.
  intros [= <-]. simpl.
  assert (destination_nodes_ t1 ≠ [] → stream_max ≠ []) as Hmax.
  { revert E.
    apply (foldl_Done_ind _ (fun (pre : list nat) (m : list (nat * nat)) => pre ≠ [] → m ≠ [])
             (destination_nodes_ t1) [] stream_max); [done | done | done |].
    intros pre node_id m1 m2 _ Hstep _. simpl in Hstep.
    destruct (nodes !! node_id); [|done]. injection Hstep as <-.
    apply stream_max_update_not_nil. }
  intros Happ. apply app_eq_nil in Happ as [_ Hnil].
  apply fmap_nil_inv in Hnil. by apply Hmax.
Qed.

Lemma UpdateTensorDestinations_spec st st1 :
  UpdateTensorDestinations st = Done st1 →
  Forall (fun t => consumer_list_ t ≠ []) (tensors_list_ st1)
  ∧ reuse_matrix_ st1 = reuse_matrix_ st.
Proof.
  unfold UpdateTensorDestinations.
  destruct (stream_edges _ _) as [nl1| |]; simpl; try done.
  destruct (group_edges _ _ nl1) as [nl2| |]; simpl; try done.
  destruct (foldl _ (Done []) (tensors_list_ st)) as [tl| |] eqn:E; simpl; try done.
  intros [= <-]. simpl. split; [|done]. revert E.
  apply (foldl_Done_ind _
           (fun (_ : list SomasTensor) (tl : list SomasTensor) =>
              Forall (fun t => consumer_list_ t ≠ []) tl)
           (tensors_list_ st) [] tl); [done | done | done |].
  intros pre t tl1 tl2 Hall Hstep. simpl in Hstep.
  destruct (tensor_destinations nl2 t) as [t'| |] eqn:Et; simpl in Hstep; try done.
  injection Hstep as <-. apply Forall_app. split; [done|].
  constructor; [|done]. by eapply tensor_destinations_consumers.
Qed.

(** On a planner whose reuse matrix is still empty, [ComputeConflictPairs]
    is the all-pairs stage over the candidates in the order of the shuffle,
    followed by the semi-lifelong pass, both on the registry that
    [UpdateTensorDestinations] leaves. *)
Lemma ComputeConflictPairs_stages (shuffle : list SomasTensor → list SomasTensor) st st1 :
  tensors_list_ st ≠ [] → reuse_matrix_ st = [] →
  UpdateTensorDestinations (with_nodes (sort_nodes (nodes_list_ st)) st) = Done st1 →
  ComputeConflictPairs shuffle st
  = Done (with_reuse_matrix
            (ProcessSemiLifeLongTensor (tensors_list_ st1)
               (ComputeAllPairs (tensors_list_ st1)
                  (shuffle (filter is_candidate (tensors_list_ st1)))
                  (ComputeNodesDependency (nodes_list_ st1))))
            st1).
Proof.
  intros Hne Hm Hupd. unfold ComputeConflictPairs, ComputeAllPairs.
  rewrite bool_decide_eq_false_2 by done. rewrite Hupd. simpl.
  destruct (UpdateTensorDestinations_spec _ _ Hupd) as [_ ->]. simpl. rewrite Hm. simpl.
  destruct (BuildCandidateLists_spec (tensors_list_ st1)) as [Hc _].
  destruct (BuildCandidateLists (tensors_list_ st1)) as [[cands infos] dnl]. simpl in Hc.
  by rewrite Hc.
Qed.

(** The whole function on the chain: [UpdateTensorDestinations] rebuilds the
    consumer lists of [chain_tensors], and the tensors 0 and 3 of node 0 may
    reuse tensor 2 of node 2 and nothing else. *)
Lemma ComputeConflictPairs_chain :
  ∃ st1, ComputeConflictPairs (fun l => l) chain_state = Done st1
    ∧ consumer_list_ <$> tensors_list_ st1 = consumer_list_ <$> chain_tensors
    ∧ reuse_matrix_ st1
      = [ [false; false; true; false];
          [false; false; false; false];
          [true; false; false; true];
          [false; false; true; false] ].
Proof. eexists. split; [reflexivity|]. split; reflexivity. Qed.
End conflict_pairs.

(** ** Cache load: what the trace holds *)

Section cache_trace.
Implicit Types (env : Environment) (st : Somas) (trace : list Event).

Lemma sleeps_app trace1 trace2 : sleeps (trace1 ++ trace2) = sleeps trace1 + sleeps trace2.
Proof. unfold sleeps. by rewrite List.filter_app, length_app. Qed.

Lemma opens_app trace1 trace2 : opens (trace1 ++ trace2) = opens trace1 + opens trace2.
Proof. unfold opens. by rewrite List.filter_app, length_app. Qed.

Lemma only_logs_sleeps trace : forallb is_log trace = true → sleeps trace = 0.
Proof.
  unfold sleeps. induction trace as [|e trace IH]; simpl; [done|].
  intros H. apply andb_true_iff in H as [He Ht]. destruct e; simpl in *; try done; by apply IH.
Qed.

Lemma only_logs_opens trace : forallb is_log trace = true → opens trace = 0.
Proof.
  unfold opens. induction trace as [|e trace IH]; simpl; [done|].
  intros H. apply andb_true_iff in H as [He Ht]. destruct e; simpl in *; try done; by apply IH.
Qed.

Lemma VerifySomasResult_only_logs gid st j : forallb is_log (VerifySomasResult gid st j).1 = true.
Proof. unfold VerifySomasResult. repeat case_bool_decide; done. Qed.

Lemma UpdateTensorsOffset_only_logs js tl : forallb is_log (UpdateTensorsOffset js tl).1 = true.
Proof.
  revert tl. induction js as [|entry js IH]; intros tl; simpl; [done|].
  destruct (tl !! j_tensor_id entry) as [t|]; [|done].
  destruct (tensor_json_mismatch entry t); [done|]. apply IH.
Qed.

Lemma adopt_somas_json_only_logs env st j : forallb is_log (adopt_somas_json env st j).1 = true.
Proof.
  unfold adopt_somas_json.
  pose proof (VerifySomasResult_only_logs (graph_id env) st j) as Hv.
  destruct (VerifySomasResult (graph_id env) st j) as [log ret]. simpl in Hv.
  destruct ret; simpl.
  - pose proof (UpdateTensorsOffset_only_logs (j_tensors j) (tensors_list_ st)) as Hu.
    destruct (UpdateTensorsOffset (j_tensors j) (tensors_list_ st)) as [log' [tl ret']].
    simpl in *. rewrite forallb_app. by rewrite Hv, Hu.
  - rewrite forallb_app. by rewrite Hv.
Qed.

(** Whatever the file holds once it has been parsed, the outcome is a
    return value: no exception, no undefined behaviour. *)
Lemma adopt_somas_json_returns env st j :
  ∃ st' ret, (adopt_somas_json env st j).2 = Done (st', ret).
Proof.
  unfold adopt_somas_json.
  destruct (VerifySomasResult (graph_id env) st j) as [log ret]. destruct ret; simpl.
  - destruct (UpdateTensorsOffset (j_tensors j) (tensors_list_ st)) as [log' [tl ret']].
    by eexists _, _.
  - by eexists _, _.
Qed.
End cache_trace.

(** ** Claims on the cache-file retry *)

(** C8, as amended.
    - When the first open of the cache file fails, the loader returns
      failure at once: it does not sleep and does not open the file again.
    - When the first parse fails, the loader sleeps the fixed interval once
      and opens the file exactly once more, whatever the second read gives.
    - When that second open fails, the loader returns failure.
    - In both cases of a returned failure the registry is unchanged, and
      [Allocate] goes on with the fresh computation. *)
Theorem C8_one_retry_after_parse_failure (env : Environment) (st : Somas) :
  (first_read env = OpenFailed →
     (LoadSomasResult env st).2 = Done (st, false)
     ∧ sleeps (LoadSomasResult env st).1 = 0 ∧ opens (LoadSomasResult env st).1 = 1)
  ∧ (first_read env = ParseFailed →
       sleeps (LoadSomasResult env st).1 = 1 ∧ opens (LoadSomasResult env st).1 = 2
       ∧ Sleep kRetryIntervalSeconds ∈ (LoadSomasResult env st).1)
  ∧ (first_read env = ParseFailed → retry_read env = OpenFailed →
       (LoadSomasResult env st).2 = Done (st, false))
  ∧ (∀ st1, (LoadSomasCache env st).2 = Done (st1, false) → tensors_list_ st ≠ [] →
       (Allocate env st).2 = (fresh_plan env st1).2).
Proof.
  split; [|split; [|split]].
  - intros Hf. unfold LoadSomasResult. rewrite Hf. done.
  - intros Hf. unfold LoadSomasResult. rewrite Hf.
    destruct (retry_read env) as [| |j].
    + split; [done|]. split; [done|]. simpl. rewrite !elem_of_cons. auto.
    + split; [done|]. split; [done|]. simpl. rewrite !elem_of_cons. auto.
    + pose proof (adopt_somas_json_only_logs env st j) as Hlogs.
      destruct (adopt_somas_json env st j) as [log res]. cbn [fst snd] in *.
      change (OpenForRead :: ?a :: ?b :: ?c :: log) with ([OpenForRead; a; b; c] ++ log).
      rewrite sleeps_app, opens_app.
      rewrite (only_logs_sleeps log), (only_logs_opens log) by done.
      split; [done|]. split; [done|]. rewrite elem_of_app, !elem_of_cons. auto.
  - intros Hf Hr. unfold LoadSomasResult. by rewrite Hf, Hr.
  - intros st1 Hload Hne. unfold Allocate.
    rewrite bool_decide_eq_false_2 by done.
    destruct (LoadSomasCache env st) as [log res]. simpl in Hload. subst res.
    by destruct (fresh_plan env st1).
Qed.

Lemma C8_witness :
  (LoadSomasResult cache_half_written backed_state).2 = Done (backed_state, false).
Proof.
  apply (proj1 (proj2 (proj2 (C8_one_retry_after_parse_failure cache_half_written backed_state))));
    reflexivity.
Defined.

(** C8 as stated fails for a file that cannot be opened: the loader returns
    failure after the one open, without delay and without retry. *)
Lemma C8_counterexample :
  first_read cache_missing = OpenFailed
  ∧ (LoadSomasResult cache_missing backed_state).2 = Done (backed_state, false)
  ∧ opens (LoadSomasResult cache_missing backed_state).1 = 1
  ∧ sleeps (LoadSomasResult cache_missing backed_state).1 = 0.
Proof. repeat split. Qed.

(** The second parse of the cache file is outside of the handler: when it
    fails too, the exception leaves [LoadSomasResult]. *)
Lemma LoadSomasResult_second_parse_error env st :
  first_read env = ParseFailed → retry_read env = ParseFailed →
  (LoadSomasResult env st).2 = Exception "parse error".
Proof. intros Hf Hr. unfold LoadSomasResult. by rewrite Hf, Hr. Qed.

(** ** Cache verification *)

Section cache_verification.
Implicit Types (env : Environment) (st : Somas) (j : SomasJson) (tl : list SomasTensor).

Lemma VerifySomasResult_true_iff gid st j :
  (VerifySomasResult gid st j).2 = true ↔ counts_agree gid st j.
Proof.
  unfold VerifySomasResult, counts_agree.
  repeat case_bool_decide; simpl; split; try done; tauto.
Qed.

Lemma VerifySomasResult_false_iff gid st j :
  (VerifySomasResult gid st j).2 = false ↔ ¬ counts_agree gid st j.
Proof.
  rewrite <- VerifySomasResult_true_iff. by destruct (VerifySomasResult gid st j).2.
Qed.

Lemma tensor_json_mismatch_None_iff entry t :
  tensor_json_mismatch entry t = None ↔ fields_agree entry t.
Proof.
  unfold tensor_json_mismatch, fields_agree.
  repeat case_bool_decide; simpl; split; try done; tauto.
Qed.

Lemma UpdateTensorsOffset_spec js tl :
  same_but_offsets tl (UpdateTensorsOffset js tl).2.1
  ∧ ((UpdateTensorsOffset js tl).2.2 = true →
       ∀ entry, entry ∈ js → ∃ t, tl !! j_tensor_id entry = Some t ∧ fields_agree entry t)
  ∧ ((UpdateTensorsOffset js tl).2.2 = false → has_warning (UpdateTensorsOffset js tl).1).
Proof.
  revert tl. induction js as [|entry js IH]; intros tl; simpl.
  - split; [apply same_but_offsets_refl|]. split; [|done].
    intros _ e He. by apply elem_of_nil in He.
  - destruct (tl !! j_tensor_id entry) as [t|] eqn:Et; simpl.
    + destruct (tensor_json_mismatch entry t) as [what|] eqn:Em; simpl.
      * split; [apply same_but_offsets_refl|]. split; [done|].
        intros _. exists what. apply list_elem_of_here.
      * destruct (IH (<[j_tensor_id entry := with_offset (j_offset entry) t]> tl))
          as (Hsame & Htrue & Hfalse).
        assert (same_but_offsets tl (<[j_tensor_id entry := with_offset (j_offset entry) t]> tl))
          as Hstep by (apply same_but_offsets_insert; [apply same_but_offsets_refl | done]).
        split; [by eapply same_but_offsets_trans|]. split; [|done].
        intros Hret e He. apply elem_of_cons in He as [->|He].
        { exists t. split; [done|]. by apply tensor_json_mismatch_None_iff. }
        destruct (Htrue Hret e He) as (t' & Ht' & Hagree).
        rewrite (Hstep (j_tensor_id e)) in Ht'.
        destruct (tl !! j_tensor_id e) as [t0|]; [|done].
        exists t0. split; [done|]. simpl in Ht'. by simplify_eq.
    + split; [apply same_but_offsets_refl|]. split; [done|].
      intros _. eexists. apply list_elem_of_here.
Qed.

(** The registry after a parsed file has been looked at, by the two checks. *)
Lemma adopt_somas_json_counts_disagree env st j :
  ¬ counts_agree (graph_id env) st j →
  (adopt_somas_json env st j).2 = Done (st, false) ∧ has_warning (adopt_somas_json env st j).1.
Proof.
  intros Hc. apply VerifySomasResult_false_iff in Hc. unfold adopt_somas_json.
  destruct (VerifySomasResult (graph_id env) st j) as [log ret]. simpl in Hc. subst ret. simpl.
  split; [done|]. eexists. apply elem_of_app. right. apply list_elem_of_here.
Qed.

Lemma adopt_somas_json_fields_disagree env st j entry t :
  counts_agree (graph_id env) st j →
  entry ∈ j_tensors j → tensors_list_ st !! j_tensor_id entry = Some t → ¬ fields_agree entry t →
  ∃ tl', (adopt_somas_json env st j).2
         = Done (with_tensors tl' (with_mem_offset (j_mem_offset j) st), false)
    ∧ same_but_offsets (tensors_list_ st) tl'
    ∧ has_warning (adopt_somas_json env st j).1.
Proof.
  intros Hc He Ht Hdis. apply VerifySomasResult_true_iff in Hc. unfold adopt_somas_json.
  destruct (VerifySomasResult (graph_id env) st j) as [log ret]. simpl in Hc. subst ret. simpl.
  destruct (UpdateTensorsOffset_spec (j_tensors j) (tensors_list_ st)) as (Hsame & Htrue & Hfalse).
  destruct (UpdateTensorsOffset (j_tensors j) (tensors_list_ st)) as [log' [tl' ret']].
  simpl in *. destruct ret'.
  - destruct (Htrue eq_refl entry He) as (t' & Ht' & Hagree). by simplify_eq.
  - exists tl'. split; [done|]. split; [done|].
    destruct (Hfalse eq_refl) as [what Hw]. exists what. apply elem_of_app. by right.
Qed.
End cache_verification.

(** ** Claims on a cache file that does not fit the graph *)

(** What [LoadSomasResult] leaves when the counts of a parsed file agree and
    a recorded field of an entry disagrees with its tensor: failure with a
    warning, never an exception, and a registry that holds the recorded
    footprint in [mem_offset_] and differs from the one before the load in
    that and in offsets of tensors only. *)
Lemma LoadSomasResult_fields_disagree (env : Environment) (st : Somas) (j : SomasJson) :
  first_read env = Parsed j →
  counts_agree (graph_id env) st j →
  (∃ entry t, entry ∈ j_tensors j ∧ tensors_list_ st !! j_tensor_id entry = Some t
              ∧ ¬ fields_agree entry t) →
  ∃ tl', (LoadSomasResult env st).2
         = Done (with_tensors tl' (with_mem_offset (j_mem_offset j) st), false)
    ∧ same_but_offsets (tensors_list_ st) tl'
    ∧ has_warning (LoadSomasResult env st).1.
Proof.
  intros Hf Hc (entry & t & He & Ht & Hdis). unfold LoadSomasResult. rewrite Hf.
  destruct (adopt_somas_json_fields_disagree env st j entry t Hc He Ht Hdis)
    as (tl' & Hres & Hsame & [what Hw]).
  destruct (adopt_somas_json env st j) as [log res]. simpl in *.
  exists tl'. split; [done|]. split; [done|]. exists what. by apply elem_of_cons; right.
Qed.

(** C3.  The code at the cache file [cache_stale] for the 2000 tensors of
    [backed_state].  The file parses, its counts agree with the registry and
    its entry for tensor 0 fits, so [UpdateTensorsOffset] stores the
    recorded offset 4096 for tensor 0; its entry for tensor 1 records the
    size 512 where the tensor has 0, so the load fails with a warning.
    [LoadSomasResult] has stored the recorded footprint 8192 before that and
    nothing takes either value back: the plan that [Allocate] ends with has
    the footprint 8192 and tensor 0 at 4096, where the plan without a cache
    file has 0 and 0. *)
Theorem C3_stale_file_changes_the_plan :
  first_read cache_stale = Parsed stale_json
  ∧ counts_agree (graph_id cache_stale)
      (with_hash_id (model_hash cache_stale backed_state) backed_state) stale_json
  ∧ (∃ entry t, entry ∈ j_tensors stale_json
       ∧ tensors_list_ backed_state !! j_tensor_id entry = Some t
       ∧ j_size entry ≠ aligned_size_ t)
  ∧ has_warning (Allocate cache_stale backed_state).1
  ∧ mem_offset_ <$> planned (Allocate cache_stale backed_state) = Some 8192%N
  ∧ mem_offset_ <$> planned (Allocate cache_missing backed_state) = Some 0%N
  ∧ (fun st => offset_of (tensors_list_ st) 0) <$> planned (Allocate cache_stale backed_state)
    = Some 4096%N
  ∧ (fun st => offset_of (tensors_list_ st) 0) <$> planned (Allocate cache_missing backed_state)
    = Some 0%N.
Proof.
  split; [reflexivity|]. split; [by repeat split|]. split.
  { exists (mkTensorJson 1 512%N 64%N 0 0 0 0%N), (backed_tensor 1).
    split; [apply elem_of_cons; right; apply list_elem_of_here|]. split; [reflexivity|]. done. }
  split.
  { exists "Mismatch size of tensor". apply list_elem_of_In. lazy. auto. }
  repeat split; lazy; reflexivity.
Qed.

(** * Further properties of the planner *)

(** ** The dependency table and the conflict infos *)

(** X1.  When node ids follow execution order (the node at index [i] has id
    [i], every ancestor has a smaller id), the path computation of
    [ComputeConflictPairs] fills the table with the transitive closure of
    the ancestor edges: bit ([i],[j]) is set iff [j] is a transitive ancestor
    of [i].  A set bit has [j < i]: no node depends on itself or on a later
    node. *)
Theorem X1_dependency_table_closure (nodes_list : list SomasNode) (i j : nat) :
  dense_node_ids nodes_list → topological nodes_list →
  (Bit (ComputeNodesDependency nodes_list) i j = true ↔ transitive_ancestor nodes_list i j)
  ∧ (Bit (ComputeNodesDependency nodes_list) i j = true → j < i ∧ i < length nodes_list).
Proof.
  intros Hd Ht. split; [by apply ComputeNodesDependency_closure|].
  intros Hbit. apply (ComputeNodesDependency_closure nodes_list Hd Ht) in Hbit.
  by apply (transitive_ancestor_lt nodes_list Hd Ht).
Qed.

Lemma X1_witness :
  Bit (ComputeNodesDependency chain_nodes) 2 0 = true ↔ transitive_ancestor chain_nodes 2 0.
Proof.
  apply (X1_dependency_table_closure chain_nodes 2 0); [reflexivity | repeat constructor].
Defined.

(** X2.  The conflict info that [BuildConflictInfo] fills for a tensor
    decides, through [CheckIsDependency], exactly whether every consumer of
    the tensor is in the dependency row of the given node and differs from
    it, whichever of the three layouts holds the consumers (one id, two ids,
    a range of the shared destination list); the shared list only grows at
    its end, so the answer stays the same after later tensors have appended
    their consumers. *)
Theorem X2_conflict_info_decides_consumers (t : SomasTensor) (dnl suf : list nat)
    (nd : list (list bool)) (src : nat) :
  (∃ ext, (BuildConflictInfo t (NewTensorConflictInfo (id_ t) (source_node_id_ t)) dnl).2
          = dnl ++ ext)
  ∧ (CheckIsDependency
       (BuildConflictInfo t (NewTensorConflictInfo (id_ t) (source_node_id_ t)) dnl).1 src nd
       ((BuildConflictInfo t (NewTensorConflictInfo (id_ t) (source_node_id_ t)) dnl).2 ++ suf)
     = true
     ↔ ∀ c, c ∈ consumer_list_ t → Bit nd src c = true ∧ c ≠ src).
Proof.
  split; [apply BuildConflictInfo_extends|].
  rewrite CheckIsDependency_built. apply all_consumers_done_forall.
Qed.

(** ** The semi-lifelong pass: what it leaves alone *)

Section semi_frame.
Implicit Types (S T : SomasTensor) (tl : list SomasTensor) (m : list (list bool)).

Lemma semi_target_step_Bit S T m p q :
  Bit (semi_target_step S m T) p q = true
  ↔ Bit m p q = true
    ∧ ¬ (restricts S T ∧ ((id_ S = p ∧ id_ T = q) ∨ (id_ S = q ∧ id_ T = p))).
Proof.
  unfold semi_target_step, restricts, IsSemiLifelongStart, IsSemiLifelongEnd.
  case_bool_decide as Hid.
  { split; [|tauto]. intros Hb. split; [done|]. intros [[[_ Hlt]|[_ Hlt]] _]; lia. }
  destruct (_ || _) eqn:Ec.
  - rewrite !Bit_MatSetFalse, !andb_true_iff, !negb_true_iff, !bool_decide_eq_false.
    apply orb_true_iff in Ec.
    assert ((lifelong_value_ S = kLifeLongGraphStart ∧ id_ T < id_ S)
            ∨ (lifelong_value_ S = kLifeLongGraphEnd ∧ id_ S < id_ T)) as Hr.
    { destruct Ec as [Ec|Ec]; apply andb_true_iff in Ec as [E1 E2];
        apply bool_decide_eq_true in E1, E2; tauto. }
    clear Ec. split.
    + intros (H1 & H2 & Hb). split; [done|]. intros [_ [[<- <-]|[<- <-]]]; tauto.
    + intros [Hb Hn]. split; [|split; [|done]]; intros [-> ->]; apply Hn; tauto.
  - split; [|tauto]. intros Hb. split; [done|]. intros [Hr _].
    apply orb_false_iff in Ec as [E1 E2].
    apply andb_false_iff in E1, E2.
    rewrite !bool_decide_eq_false in E1, E2. tauto.
Qed.

Lemma semi_inner_Bit S (targets : list SomasTensor) m p q :
  Bit (foldl (semi_target_step S) m targets) p q = true
  ↔ Bit m p q = true
    ∧ ¬ ∃ T, T ∈ targets ∧ restricts S T
             ∧ ((id_ S = p ∧ id_ T = q) ∨ (id_ S = q ∧ id_ T = p)).
Proof.
  revert m. induction targets as [|T targets IH]; intros m; cbn [foldl].
  - split; [|tauto]. intros Hb. split; [done|]. intros (T & HT & _). by apply elem_of_nil in HT.
  - rewrite IH, semi_target_step_Bit. split.
    + intros [[Hb Hn] Hrest]. split; [done|]. intros (T' & HT' & Hr & Hids).
      apply elem_of_cons in HT' as [->|HT']; [tauto|]. apply Hrest. by exists T'.
    + intros [Hb Hn]. split; [split; [done|]|].
      * intros [Hr Hids]. apply Hn. exists T. split; [left|done].
      * intros (T' & HT' & Hr). apply Hn. exists T'. split; [by right|done].
Qed.

Lemma semi_calc_step_Bit tl S m p q :
  Bit (semi_calc_step tl m S) p q = true
  ↔ Bit m p q = true
    ∧ ¬ ∃ T, T ∈ tl ∧ restricts S T ∧ ((id_ S = p ∧ id_ T = q) ∨ (id_ S = q ∧ id_ T = p)).
Proof.
  unfold semi_calc_step. destruct (_ && _) eqn:Ec; [|apply semi_inner_Bit].
  split; [|tauto]. intros Hb. split; [done|]. intros (T & _ & Hr & _).
  apply andb_true_iff in Ec as [E1 E2]. apply negb_true_iff in E1, E2.
  unfold IsSemiLifelongStart, IsSemiLifelongEnd in *.
  apply bool_decide_eq_false in E1, E2. destruct Hr as [[? _]|[? _]]; tauto.
Qed.

Lemma semi_outer_Bit tl (calcs : list SomasTensor) m p q :
  Bit (foldl (semi_calc_step tl) m calcs) p q = true
  ↔ Bit m p q = true
    ∧ ¬ ∃ S T, S ∈ calcs ∧ T ∈ tl ∧ restricts S T
               ∧ ((id_ S = p ∧ id_ T = q) ∨ (id_ S = q ∧ id_ T = p)).
Proof.
  revert m. induction calcs as [|S calcs IH]; intros m; cbn [foldl].
  - split; [|tauto]. intros Hb. split; [done|]. intros (S & T & HS & _).
    by apply elem_of_nil in HS.
  - rewrite IH, semi_calc_step_Bit. split.
    + intros [[Hb Hn] Hrest]. split; [done|]. intros (S' & T & HS' & HT & Hr).
      apply elem_of_cons in HS' as [->|HS'].
      * apply Hn. by exists T.
      * apply Hrest. by exists S', T.
    + intros [Hb Hn]. split; [split; [done|]|].
      * intros (T & HT & Hr). apply Hn. exists S, T. split; [left|done].
      * intros (S' & T & HS' & Hr). apply Hn. exists S', T. split; [by right|done].
Qed.
End semi_frame.

(** X3.  [ProcessSemiLifeLongTensor] never sets a bit, and it clears the
    bit ([p],[q]) exactly when [p] and [q] are the ids, in either order, of a
    GraphStart tensor and a tensor of smaller id, or of a GraphEnd tensor and
    a tensor of larger id; every other bit is left as it was. *)
Theorem X3_semi_lifelong_pass_exact (tensors_list : list SomasTensor)
    (reuse_matrix : list (list bool)) (p q : nat) :
  Bit (ProcessSemiLifeLongTensor tensors_list reuse_matrix) p q = true
  ↔ Bit reuse_matrix p q = true
    ∧ ¬ ∃ S T, S ∈ tensors_list ∧ T ∈ tensors_list ∧ restricts S T
               ∧ ((id_ S = p ∧ id_ T = q) ∨ (id_ S = q ∧ id_ T = p)).
Proof. apply semi_outer_Bit. Qed.

(** ** [UpdateTensorDestinations]: edges and consumer lists *)

Section destinations.
Implicit Types (st : Somas) (t : SomasTensor) (nodes : list SomasNode) (m : list (nat * nat)).

Lemma with_ancestor_nodes_same (node : SomasNode) :
  with_ancestor_nodes (ancestor_nodes_ node) node = node.
Proof. by destruct node. Qed.

Lemma ancestors_grown_refl nodes : ancestors_grown nodes nodes.
Proof.
  intros k. exists []. destruct (nodes !! k) as [node|]; simpl; [|done].
  by rewrite app_nil_r, with_ancestor_nodes_same.
Qed.

Lemma ancestors_grown_trans nodes1 nodes2 nodes3 :
  ancestors_grown nodes1 nodes2 → ancestors_grown nodes2 nodes3 → ancestors_grown nodes1 nodes3.
Proof.
  intros H12 H23 k. destruct (H12 k) as [e1 H1]. destruct (H23 k) as [e2 H2].
  exists (e1 ++ e2). rewrite H2, H1. destruct (nodes1 !! k) as [node|]; simpl; [|done].
  by rewrite app_assoc.
Qed.

Lemma ancestors_grown_stream_of nodes nodes' c :
  ancestors_grown nodes nodes' → stream_of nodes' c = stream_of nodes c.
Proof.
  intros H. unfold stream_of. destruct (H c) as [extra ->]. by destruct (nodes !! c).
Qed.

Lemma ancestors_grown_length nodes nodes' :
  ancestors_grown nodes nodes' → length nodes' = length nodes.
Proof.
  intros H. destruct (decide (length nodes' = length nodes)) as [|Hne]; [done|]. exfalso.
  destruct (decide (length nodes' < length nodes)).
  - destruct (H (length nodes')) as [extra Hk].
    rewrite (lookup_ge_None_2 nodes') in Hk by lia.
    destruct (lookup_lt_is_Some_2 nodes (length nodes')) as [node Hnode]; [lia|].
    by rewrite Hnode in Hk.
  - destruct (H (length nodes)) as [extra Hk].
    rewrite (lookup_ge_None_2 nodes (length nodes)) in Hk by lia.
    destruct (lookup_lt_is_Some_2 nodes' (length nodes)) as [node Hnode]; [lia|].
    by rewrite Hnode in Hk.
Qed.

Lemma insert_ancestor_spec nid a nodes nodes' :
  insert_ancestor nid a nodes = Done nodes' →
  ancestors_grown nodes nodes'
  ∧ ∃ node, nodes' !! nid = Some node ∧ a ∈ ancestor_nodes_ node.
Proof.
  unfold insert_ancestor. destruct (nodes !! nid) as [node|] eqn:En; [|done].
  case_bool_decide as Hin; intros [= <-].
  - split; [apply ancestors_grown_refl|]. by exists node.
  - split.
    + intros k. destruct (decide (k = nid)) as [->|Hk].
      * exists [a]. rewrite list_lookup_insert_eq by (by eapply lookup_lt_Some).
        by rewrite En.
      * exists []. rewrite list_lookup_insert_ne by done.
        destruct (nodes !! k) as [nk|]; simpl; [|done].
        by rewrite app_nil_r, with_ancestor_nodes_same.
    + eexists. rewrite list_lookup_insert_eq by (by eapply lookup_lt_Some).
      split; [done|]. simpl. apply elem_of_app. right. by left.
Qed.

Lemma stream_max_update_keys stream node_id m :
  fst <$> stream_max_update stream node_id m
  = if bool_decide (stream ∈ fst <$> m) then fst <$> m else (fst <$> m) ++ [stream].
Proof.
  induction m as [|[s v] m IH]; csimpl; [done|].
  destruct (s =? stream) eqn:E.
  - apply Nat.eqb_eq in E as ->. csimpl.
    by rewrite bool_decide_eq_true_2 by (by left).
  - apply Nat.eqb_neq in E. csimpl. rewrite IH.
    case_bool_decide as H1; case_bool_decide as H2; try done.
    + exfalso. apply H2. by right.
    + exfalso. apply elem_of_cons in H2 as [?|?]; [congruence | done].
Qed.

Lemma elem_of_stream_max_update stream node_id m s' v' :
  NoDup (fst <$> m) →
  (s', v') ∈ stream_max_update stream node_id m
  ↔ (s' ≠ stream ∧ (s', v') ∈ m)
    ∨ (s' = stream
       ∧ (((stream ∉ fst <$> m) ∧ v' = node_id)
          ∨ ∃ v, (stream, v) ∈ m ∧ v' = (if v <? node_id then node_id else v))).
Proof.
  induction m as [|[s v] m IH]; csimpl.
  - intros _. rewrite list_elem_of_singleton. split.
    + intros [= -> ->]. right. split; [done|]. left. split; [apply not_elem_of_nil | done].
    + intros [[_ H]|[-> [[_ ->]|(v & H & _)]]]; [by apply elem_of_nil in H | done |].
      by apply elem_of_nil in H.
  - intros Hnd. apply NoDup_cons in Hnd as [Hs Hnd]. specialize (IH Hnd).
    assert (∀ v0, (s, v0) ∉ m) as Hs'.
    { intros v0 Hin. apply Hs. apply list_elem_of_fmap. by exists (s, v0). }
    destruct (s =? stream) eqn:E.
    + apply Nat.eqb_eq in E as ->. rewrite !elem_of_cons. setoid_rewrite elem_of_cons.
      split.
      * intros [Heq|Hin].
        -- injection Heq as -> ->. right. split; [done|]. right. exists v. split; [by left|done].
        -- left. split; [|by right]. intros ->. by apply (Hs' v').
      * intros [[Hne [Heq|Hin]]|[-> [[Hnotin _]|(v0 & [Heq|Hin] & ->)]]].
        -- injection Heq as -> ->. done.
        -- by right.
        -- exfalso. apply Hnotin. by left.
        -- injection Heq as ->. by left.
        -- exfalso. by apply (Hs' v0).
    + apply Nat.eqb_neq in E. rewrite !elem_of_cons, IH. setoid_rewrite elem_of_cons.
      split.
      * intros [Heq|[[Hne Hin]|[-> [[Hnotin ->]|(v0 & Hin & ->)]]]].
        -- injection Heq as -> ->. left. split; [done | by left].
        -- left. split; [done | by right].
        -- right. split; [done|]. left. split; [|done]. intros [?|?]; [congruence | done].
        -- right. split; [done|]. right. exists v0. split; [by right | done].
      * intros [[Hne [Heq|Hin]]|[-> [[Hnotin ->]|(v0 & [Heq|Hin] & ->)]]].
        -- by left.
        -- right. left. done.
        -- right. right. split; [done|]. left. split; [|done].
           intros Hin. apply Hnotin. by right.
        -- injection Heq as -> ->. done.
        -- right. right. split; [done|]. right. by exists v0.
Qed.

(** The loop that computes the latest destination of every stream. *)
Lemma stream_max_fold nodes (destinations : list nat) m :
  foldl (fun acc node_id =>
           m ← acc;
           match nodes !! node_id with
           | None => Exception "node is null"
           | Some node => Done (stream_max_update (stream_id_ node) node_id m)
           end)
        (Done []) destinations = Done m →
  NoDup (fst <$> m)
  ∧ (∀ s v, (s, v) ∈ m → v ∈ destinations ∧ stream_of nodes v = Some s)
  ∧ (∀ d, d ∈ destinations → ∃ s v, (s, v) ∈ m ∧ stream_of nodes d = Some s ∧ d ≤ v).
Proof.
  apply (foldl_Done_ind _
           (fun (pre : list nat) (m : list (nat * nat)) =>
              NoDup (fst <$> m)
              ∧ (∀ s v, (s, v) ∈ m → v ∈ pre ∧ stream_of nodes v = Some s)
              ∧ (∀ d, d ∈ pre → ∃ s v, (s, v) ∈ m ∧ stream_of nodes d = Some s ∧ d ≤ v))
           destinations [] m); [done | done | |].
  - split; [constructor|]. split.
    + intros s v H. by apply elem_of_nil in H.
    + intros d H. by apply elem_of_nil in H.
  - intros pre node_id m1 m2 (Hnd & Hin & Hall) Hstep. simpl in Hstep.
    destruct (nodes !! node_id) as [node|] eqn:En; [|done]. injection Hstep as <-.
    assert (stream_of nodes node_id = Some (stream_id_ node)) as Hs
      by (unfold stream_of; by rewrite En).
    split; [|split].
    + rewrite stream_max_update_keys. case_bool_decide as Hk; [done|].
      apply NoDup_app. split; [done|]. split; [|apply NoDup_singleton].
      intros x Hx Hx'. apply list_elem_of_singleton in Hx'. by subst x.
    + intros s v Hv. apply elem_of_stream_max_update in Hv; [|done].
      destruct Hv as [[Hne Hv]|[-> [[_ ->]|(v0 & Hv0 & ->)]]].
      * destruct (Hin s v Hv) as [? ?]. split; [|done]. apply elem_of_app. by left.
      * split; [|done]. apply elem_of_app. right. by left.
      * destruct (Hin _ _ Hv0) as [? ?]. destruct (v0 <? node_id).
        -- split; [|done]. apply elem_of_app. right. by left.
        -- split; [|done]. apply elem_of_app. by left.
    + intros d Hd. apply elem_of_app in Hd as [Hd|Hd].
      * destruct (Hall d Hd) as (s & v & Hv & Hsd & Hle).
        destruct (decide (s = stream_id_ node)) as [->|Hne].
        -- exists (stream_id_ node), (if v <? node_id then node_id else v).
           split; [|split; [done|]].
           ++ apply elem_of_stream_max_update; [done|]. right. split; [done|]. right.
              by exists v.
           ++ destruct (v <? node_id) eqn:E; [apply Nat.ltb_lt in E; lia | done].
        -- exists s, v. split; [|done]. apply elem_of_stream_max_update; [done|]. by left.
      * apply list_elem_of_singleton in Hd. subst d.
        destruct (decide (stream_id_ node ∈ fst <$> m1)) as [Hk|Hk].
        -- apply list_elem_of_fmap in Hk as ([s v] & Hsv & Hv). simpl in Hsv. subst s.
           exists (stream_id_ node), (if v <? node_id then node_id else v).
           split; [|split; [done|]].
           ++ apply elem_of_stream_max_update; [done|]. right. split; [done|]. right.
              by exists v.
           ++ destruct (v <? node_id) eqn:E; [done | apply Nat.ltb_ge in E; lia].
        -- exists (stream_id_ node), node_id. split; [|done].
           apply elem_of_stream_max_update; [done|]. right. split; [done|]. by left.
Qed.

Lemma tensor_destinations_spec nodes t t' :
  tensor_destinations nodes t = Done t' →
  ∃ consumers,
    t' = with_consumer_list (consumer_list_ t ++ consumers)
           (with_destination_nodes
              (if bool_decide (destination_nodes_ t = []) then [source_node_id_ t]
               else destination_nodes_ t) t)
    ∧ consumers ≠ []
    ∧ latest_per_stream nodes (destination_nodes_ t') consumers.
Proof.
  unfold tensor_destinations.
  set (t1 := if bool_decide (destination_nodes_ t = []) then _ else t).
  assert (destination_nodes_ t1
          = if bool_decide (destination_nodes_ t = []) then [source_node_id_ t]
            else destination_nodes_ t) as Hd1 by (unfold t1; by case_bool_decide).
  assert (t1 = with_destination_nodes (destination_nodes_ t1) t) as Ht1.
  { unfold t1. case_bool_decide; [done|]. by destruct t. }
  assert (consumer_list_ t1 = consumer_list_ t) as Hc1 by (unfold t1; by case_bool_decide).
  destruct (foldl _ (Done []) (destination_nodes_ t1)) as [m| |] eqn:E; simpl; try done.
  intros [= <-]. apply stream_max_fold in E as (Hnd & Hin & Hall).
  exists (snd <$> m). rewrite Hc1, <- Hd1, <- Ht1. split; [done|]. simpl. split.
  - assert (destination_nodes_ t1 ≠ []) as Hne by (rewrite Hd1; by case_bool_decide).
    destruct (destination_nodes_ t1) as [|d ds] eqn:Ed; [done|].
    destruct (Hall d) as (s & v & Hv & _); [by left|].
    intros Hnil. apply fmap_nil_inv in Hnil. subst m. by apply elem_of_nil in Hv.
  - split; [|split].
    + intros c Hc. apply list_elem_of_fmap in Hc as ([s v] & -> & Hv). by apply (Hin s v).
    + intros d Hd. destruct (Hall d Hd) as (s & v & Hv & Hsd & Hle).
      exists v. split; [apply list_elem_of_fmap; by exists (s, v)|].
      split; [|done]. rewrite Hsd. by apply (Hin s v).
    + assert (stream_of nodes <$> (snd <$> m) = Some <$> (fst <$> m)) as ->.
      { rewrite <- !list_fmap_compose. apply list_fmap_ext. intros i [s v] Hi. simpl.
        apply (Hin s v). by eapply list_elem_of_lookup_2. }
      by apply (NoDup_fmap_2 Some).
Qed.

Lemma tensor_destinations_fields nodes t t' :
  tensor_destinations nodes t = Done t' →
  id_ t' = id_ t ∧ source_node_id_ t' = source_node_id_ t ∧ is_candidate t' = is_candidate t
  ∧ lifelong_value_ t' = lifelong_value_ t.
Proof.
  intros H. apply tensor_destinations_spec in H as (consumers & -> & _). done.
Qed.

Lemma UpdateTensorDestinations_unfold st st1 :
  UpdateTensorDestinations st = Done st1 →
  ∃ nl1,
    stream_edges (streams_list_ st) (nodes_list_ st) = Done nl1
    ∧ group_edges (streams_list_ st) (streams_groups_ st) nl1 = Done (nodes_list_ st1)
    ∧ Forall2 (fun t t' => tensor_destinations (nodes_list_ st1) t = Done t')
        (tensors_list_ st) (tensors_list_ st1)
    ∧ st1 = with_tensors (tensors_list_ st1) (with_nodes (nodes_list_ st1) st).
Proof.
  unfold UpdateTensorDestinations.
  destruct (stream_edges _ _) as [nl1| |] eqn:E1; simpl; try done.
  destruct (group_edges _ _ nl1) as [nl2| |] eqn:E2; simpl; try done.
  destruct (foldl _ (Done []) (tensors_list_ st)) as [tl| |] eqn:E; simpl; try done.
  intros [= <-]. simpl. exists nl1. split; [done|]. split; [done|]. split; [|done].
  revert E.
  apply (foldl_Done_ind _
           (fun (pre : list SomasTensor) (tl : list SomasTensor) =>
              Forall2 (fun t t' => tensor_destinations nl2 t = Done t') pre tl)
           (tensors_list_ st) [] tl); [done | done | constructor |].
  intros pre t tl1 tl2 Hall Hstep. simpl in Hstep.
  destruct (tensor_destinations nl2 t) as [t'| |] eqn:Et; simpl in Hstep; try done.
  injection Hstep as <-. apply Forall2_app; [done|]. by constructor.
Qed.

Lemma has_ancestor_grown nodes nodes' b a :
  ancestors_grown nodes nodes' → has_ancestor nodes b a → has_ancestor nodes' b a.
Proof.
  intros Hg (node & Hb & Ha). destruct (Hg b) as [extra Hb']. rewrite Hb in Hb'.
  eexists. split; [exact Hb'|]. simpl. apply elem_of_app. by left.
Qed.

Lemma elem_of_zip_drop (l : list nat) i a b :
  l !! i = Some a → l !! S i = Some b → (a, b) ∈ zip l (drop 1 l).
Proof.
  intros Ha Hb. apply list_elem_of_lookup. exists i.
  apply lookup_zip_with_Some. exists a, b. split; [done|]. split; [done|].
  by rewrite lookup_drop.
Qed.

Lemma edges_fold (pairs : list (nat * nat)) nodes nl :
  foldl (fun acc pair => nl ← acc; insert_ancestor (snd pair) (fst pair) nl) (Done nodes) pairs
  = Done nl →
  ancestors_grown nodes nl ∧ ∀ a b, (a, b) ∈ pairs → has_ancestor nl b a.
Proof.
  apply (foldl_Done_ind _
           (fun (pre : list (nat * nat)) (nl : list SomasNode) =>
              ancestors_grown nodes nl ∧ ∀ a b, (a, b) ∈ pre → has_ancestor nl b a)
           pairs nodes nl); [done | done | |].
  - split; [apply ancestors_grown_refl|]. intros a b H. by apply elem_of_nil in H.
  - intros pre [a0 b0] nl1 nl2 [Hg Hedges] Hstep. simpl in Hstep.
    apply insert_ancestor_spec in Hstep as [Hg' Hnew].
    split; [by eapply ancestors_grown_trans|].
    intros a b Hab. apply elem_of_app in Hab as [Hab|Hab].
    + eapply has_ancestor_grown; [done|]. by apply Hedges.
    + apply list_elem_of_singleton in Hab. injection Hab as -> ->. exact Hnew.
Qed.

Lemma edges_fold_Exception (pairs : list (nat * nat)) what :
  foldl (fun acc pair => nl ← acc; insert_ancestor (snd pair) (fst pair) nl)
        (Exception what) pairs = Exception what.
Proof. by apply foldl_Exception. Qed.

Lemma edges_fold_Undefined (pairs : list (nat * nat)) :
  foldl (fun acc pair => nl ← acc; insert_ancestor (snd pair) (fst pair) nl) Undefined pairs
  = Undefined.
Proof. by apply foldl_Undefined. Qed.

Lemma stream_edges_spec (streams : list SomasStream) nodes nl :
  stream_edges streams nodes = Done nl →
  ancestors_grown nodes nl
  ∧ ∀ stream i a b,
      stream ∈ streams →
      sort_ids (nodes_ stream) !! i = Some a → sort_ids (nodes_ stream) !! S i = Some b →
      has_ancestor nl b a.
Proof.
  unfold stream_edges.
  apply (foldl_Done_ind _
           (fun (pre : list SomasStream) (nl : list SomasNode) =>
              ancestors_grown nodes nl
              ∧ ∀ stream i a b,
                  stream ∈ pre →
                  sort_ids (nodes_ stream) !! i = Some a →
                  sort_ids (nodes_ stream) !! S i = Some b →
                  has_ancestor nl b a)
           streams nodes nl).
  - intros stream what. apply edges_fold_Exception.
  - intros stream. apply edges_fold_Undefined.
  - split; [apply ancestors_grown_refl|]. intros stream i a b H. by apply elem_of_nil in H.
  - intros pre stream nl1 nl2 [Hg Hedges] Hstep. apply edges_fold in Hstep as [Hg' Hnew].
    split; [by eapply ancestors_grown_trans|].
    intros stream' i a b Hin Ha Hb. apply elem_of_app in Hin as [Hin|Hin].
    + eapply has_ancestor_grown; [done|]. by eapply Hedges.
    + apply list_elem_of_singleton in Hin. subst stream'. apply Hnew.
      by eapply elem_of_zip_drop.
Qed.

Lemma group_edges_spec (streams : list SomasStream) (groups : list (list nat)) nodes nl :
  group_edges streams groups nodes = Done nl →
  ancestors_grown nodes nl
  ∧ ∀ group i p c previous_stream current_stream last_node first_node,
      group ∈ groups → group !! i = Some p → group !! S i = Some c →
      GetSomasStream streams p = Some previous_stream →
      GetSomasStream streams c = Some current_stream →
      last (sort_ids (nodes_ previous_stream)) = Some last_node →
      head (sort_ids (nodes_ current_stream)) = Some first_node →
      has_ancestor nl first_node last_node.
Proof.
  unfold group_edges.
  set (step := fun (acc : Outcome (list SomasNode)) (pair : nat * nat) => _).
  set (edge := fun (nl : list SomasNode) (p c : nat) =>
         ∀ previous_stream current_stream last_node first_node,
           GetSomasStream streams p = Some previous_stream →
           GetSomasStream streams c = Some current_stream →
           last (sort_ids (nodes_ previous_stream)) = Some last_node →
           head (sort_ids (nodes_ current_stream)) = Some first_node →
           has_ancestor nl first_node last_node).
  assert (∀ pairs nl0 nl1, foldl step (Done nl0) pairs = Done nl1 →
            ancestors_grown nl0 nl1 ∧ ∀ p c, (p, c) ∈ pairs → edge nl1 p c) as Hinner.
  { intros pairs nl0 nl1.
    apply (foldl_Done_ind step
             (fun (pre : list (nat * nat)) (nl : list SomasNode) =>
                ancestors_grown nl0 nl ∧ ∀ p c, (p, c) ∈ pre → edge nl p c)
             pairs nl0 nl1); [done | done | |].
    - split; [apply ancestors_grown_refl|]. intros p c H. by apply elem_of_nil in H.
    - intros pre [p0 c0] nla nlb [Hg Hedges] Hstep.
      assert (ancestors_grown nla nlb ∧ edge nlb p0 c0) as [Hg' Hnew].
      { unfold step in Hstep. simpl in Hstep. unfold edge.
        destruct (GetSomasStream streams p0) as [ps|] eqn:Ep.
        2: { injection Hstep as <-. split; [apply ancestors_grown_refl | by intros]. }
        destruct (last (sort_ids (nodes_ ps))) as [l|] eqn:El; [|done].
        destruct (GetSomasStream streams c0) as [cs|] eqn:Ecs.
        2: { injection Hstep as <-. split; [apply ancestors_grown_refl | by intros]. }
        destruct (head (sort_ids (nodes_ cs))) as [f|] eqn:Ef; [|done].
        apply insert_ancestor_spec in Hstep as [Hg' Hnew]. split; [done|].
        intros ps' cs' l' f' [= <-] [= <-] Hl Hf.
        rewrite El in Hl. rewrite Ef in Hf. by simplify_eq. }
      split; [by eapply ancestors_grown_trans|].
      intros p c Hpc. apply elem_of_app in Hpc as [Hpc|Hpc].
      + intros ps cs l f H1 H2 H3 H4. eapply has_ancestor_grown; [done|].
        by eapply (Hedges p c).
      + apply list_elem_of_singleton in Hpc. by injection Hpc as -> ->. }
  intros Hrun.
  assert (ancestors_grown nodes nl
          ∧ ∀ group i p c, group ∈ groups → group !! i = Some p → group !! S i = Some c →
                           edge nl p c) as [Hgrown Hall].
  2: { split; [done|]. intros group i p c ps cs l f Hin Hp Hc. by apply (Hall group i p c). }
  revert Hrun.
  apply (foldl_Done_ind _
           (fun (pre : list (list nat)) (nl : list SomasNode) =>
              ancestors_grown nodes nl
              ∧ ∀ group i p c, group ∈ pre → group !! i = Some p → group !! S i = Some c →
                               edge nl p c)
           groups nodes nl).
  - intros group what. by apply foldl_Exception.
  - intros group. by apply foldl_Undefined.
  - split; [apply ancestors_grown_refl|]. intros group i p c H. by apply elem_of_nil in H.
  - intros pre group nl1 nl2 [Hg Hedges] Hstep. apply Hinner in Hstep as [Hg' Hnew].
    split; [by eapply ancestors_grown_trans|].
    intros group' i p c Hin Hp Hc. apply elem_of_app in Hin as [Hin|Hin].
    + intros ps cs l f H1 H2 H3 H4. eapply has_ancestor_grown; [done|].
      by eapply (Hedges group' i p c).
    + apply list_elem_of_singleton in Hin. subst group'. apply Hnew.
      by eapply elem_of_zip_drop.
Qed.
End destinations.

(** X4.  [UpdateTensorDestinations] only adds ancestors: every node keeps
    its id, stream, type, tensor lists and the ancestors it had.  Afterwards
    every node of a stream has the node before it in the stream (by id)
    among its ancestors, and the first node of a stream of a stream group has
    the last node of the stream before it in the group among its ancestors,
    when both streams are registered. *)
Theorem X4_stream_and_group_edges (st st1 : Somas) :
  UpdateTensorDestinations st = Done st1 →
  ancestors_grown (nodes_list_ st) (nodes_list_ st1)
  ∧ (∀ stream i a b,
       stream ∈ streams_list_ st →
       sort_ids (nodes_ stream) !! i = Some a → sort_ids (nodes_ stream) !! S i = Some b →
       has_ancestor (nodes_list_ st1) b a)
  ∧ (∀ group i p c previous_stream current_stream last_node first_node,
       group ∈ streams_groups_ st → group !! i = Some p → group !! S i = Some c →
       GetSomasStream (streams_list_ st) p = Some previous_stream →
       GetSomasStream (streams_list_ st) c = Some current_stream →
       last (sort_ids (nodes_ previous_stream)) = Some last_node →
       head (sort_ids (nodes_ current_stream)) = Some first_node →
       has_ancestor (nodes_list_ st1) first_node last_node).
Proof.
  intros Hrun. apply UpdateTensorDestinations_unfold in Hrun as (nl1 & E1 & E2 & _ & _).
  apply stream_edges_spec in E1 as [Hg1 Hs]. apply group_edges_spec in E2 as [Hg2 Hgr].
  split; [by eapply ancestors_grown_trans|]. split; [|done].
  intros stream i a b Hin Ha Hb. eapply has_ancestor_grown; [done|]. by eapply Hs.
Qed.

Lemma X4_witness : has_ancestor (nodes_list_ chain_updated) 2 1.
Proof.
  apply (proj1 (proj2 (X4_stream_and_group_edges chain_state chain_updated eq_refl))
           (mkStream 0 [0; 1; 2]) 1 1 2); [left | reflexivity | reflexivity].
Defined.

(** X5.  [UpdateTensorDestinations] gives a tensor without destination its own
    source node as destination, and appends to every consumer list the
    latest destination of each stream that holds one: every appended
    consumer is a destination, every destination has an appended consumer of
    its own stream that is not earlier, no two appended consumers are of one
    stream, and at least one consumer is appended.  Nothing else of the
    tensor changes. *)
Theorem X5_consumers_are_latest_per_stream (st st1 : Somas) :
  UpdateTensorDestinations st = Done st1 →
  Forall2 (fun t t' =>
             ∃ consumers,
               t' = with_consumer_list (consumer_list_ t ++ consumers)
                      (with_destination_nodes
                         (if bool_decide (destination_nodes_ t = []) then [source_node_id_ t]
                          else destination_nodes_ t) t)
               ∧ consumers ≠ []
               ∧ latest_per_stream (nodes_list_ st1) (destination_nodes_ t') consumers)
    (tensors_list_ st) (tensors_list_ st1).
Proof.
  intros Hrun. apply UpdateTensorDestinations_unfold in Hrun as (nl1 & _ & _ & Hall & _).
  eapply Forall2_impl; [exact Hall|]. intros t t'. apply tensor_destinations_spec.
Qed.

Lemma X5_witness :
  Forall2 (fun t t' =>
             ∃ consumers,
               t' = with_consumer_list (consumer_list_ t ++ consumers)
                      (with_destination_nodes
                         (if bool_decide (destination_nodes_ t = []) then [source_node_id_ t]
                          else destination_nodes_ t) t)
               ∧ consumers ≠ []
               ∧ latest_per_stream (nodes_list_ chain_updated) (destination_nodes_ t') consumers)
    (tensors_list_ chain_state) (tensors_list_ chain_updated).
Proof. apply (X5_consumers_are_latest_per_stream chain_state chain_updated eq_refl). Defined.

(** ** The reuse matrix that [ComputeConflictPairs] leaves *)

Section conflict_matrix.
Implicit Types (st : Somas) (tl : list SomasTensor) (nd m : list (list bool)).

Lemma tensor_destinations_dense st st1 :
  UpdateTensorDestinations st = Done st1 →
  dense_ids (tensors_list_ st) → dense_ids (tensors_list_ st1).
Proof.
  intros Hrun Hd. apply UpdateTensorDestinations_unfold in Hrun as (nl1 & _ & _ & Hall & _).
  unfold dense_ids in *. rewrite <- (Forall2_length _ _ _ Hall), <- Hd. symmetry.
  clear Hd. induction Hall as [|t t' tl tl' Ht _ IH]; [done|]. csimpl.
  apply tensor_destinations_fields in Ht as [Hid _]. by rewrite Hid, IH.
Qed.

Lemma ComputeAllPairs_symmetric tl targets nd :
  dense_ids tl → targets ≡ₚ filter is_candidate tl →
  symmetric (ComputeAllPairs tl targets nd).
Proof.
  intros Hd Hp p q. apply eq_true_iff_eq. rewrite !(ComputeAllPairs_Bit tl targets nd) by done.
  split; intros (X & Y & HX & HY & HXc & HYc & Hi & Hj & Hr); exists Y, X;
    by rewrite pair_reusable_sym.
Qed.

Lemma ComputeAllPairs_diagonal tl targets nd p :
  dense_ids tl → targets ≡ₚ filter is_candidate tl →
  Bit (ComputeAllPairs tl targets nd) p p = false.
Proof.
  intros Hd Hp. apply not_true_is_false. rewrite (ComputeAllPairs_Bit tl targets nd) by done.
  intros (X & Y & HX & HY & _ & _ & Hi & Hj & Hr).
  assert (X = Y) as -> by (apply (dense_ids_inj tl); [done..|congruence]).
  unfold pair_reusable in Hr. by rewrite (bool_decide_eq_true_2 (id_ Y = id_ Y)) in Hr.
Qed.

Lemma ProcessSemiLifeLongTensor_symmetric tl m :
  symmetric m → symmetric (ProcessSemiLifeLongTensor tl m).
Proof.
  intros Hm p q. apply eq_true_iff_eq. unfold ProcessSemiLifeLongTensor.
  rewrite !semi_outer_Bit, (Hm p q). split; intros [Hb Hn]; (split; [done|]);
    intros (S & T & HS & HT & Hr & Hids); apply Hn; exists S, T; tauto.
Qed.
End conflict_matrix.

(** X6.  On a planner with non-empty tensor list, dense tensor ids and an
    empty reuse matrix, the matrix that [ComputeConflictPairs] leaves is
    symmetric, no tensor is marked reusable with itself, and a tensor that
    is lifelong (GraphAll) or has aligned size 0 is marked reusable with no
    tensor, whichever permutation the shuffle draws. *)
Theorem X6_reuse_matrix_symmetric (shuffle : list SomasTensor → list SomasTensor)
    (st st' : Somas) :
  tensors_list_ st ≠ [] → reuse_matrix_ st = [] → dense_ids (tensors_list_ st) →
  (∀ l, shuffle l ≡ₚ l) →
  ComputeConflictPairs shuffle st = Done st' →
  symmetric (reuse_matrix_ st')
  ∧ (∀ p, Bit (reuse_matrix_ st') p p = false)
  ∧ (∀ X q, X ∈ tensors_list_ st' → is_candidate X = false →
       Bit (reuse_matrix_ st') (id_ X) q = false ∧ Bit (reuse_matrix_ st') q (id_ X) = false).
Proof.
  intros Hne Hm Hd Hsh Hrun.
  destruct (UpdateTensorDestinations (with_nodes (sort_nodes (nodes_list_ st)) st))
    as [st1| |] eqn:Hupd.
  2,3: unfold ComputeConflictPairs in Hrun; rewrite bool_decide_eq_false_2 in Hrun by done;
    by rewrite Hupd in Hrun.
  rewrite (ComputeConflictPairs_stages shuffle st st1 Hne Hm Hupd) in Hrun.
  injection Hrun as <-. simpl.
  assert (dense_ids (tensors_list_ st1)) as Hd1 by (by eapply tensor_destinations_dense).
  pose proof (Hsh (filter is_candidate (tensors_list_ st1))) as Hp.
  split; [|split].
  - by apply ProcessSemiLifeLongTensor_symmetric, ComputeAllPairs_symmetric.
  - intros p. apply not_true_is_false. intros Hb.
    apply clears_only_ProcessSemiLifeLongTensor in Hb.
    by rewrite ComputeAllPairs_diagonal in Hb.
  - intros X q HX Hc.
    assert (∀ a b, (a = id_ X ∨ b = id_ X) →
              Bit (ComputeAllPairs (tensors_list_ st1)
                     (shuffle (filter is_candidate (tensors_list_ st1)))
                     (ComputeNodesDependency (nodes_list_ st1))) a b ≠ true) as Hnone.
    { intros a b Hab. rewrite (ComputeAllPairs_Bit (tensors_list_ st1)) by done.
      intros (A & B & HA & HB & HAc & HBc & Hi & Hj & _).
      destruct Hab as [-> | ->].
      - assert (A = X) as -> by (by apply (dense_ids_inj (tensors_list_ st1))). congruence.
      - assert (B = X) as -> by (by apply (dense_ids_inj (tensors_list_ st1))). congruence. }
    split; apply not_true_is_false; intros Hb;
      apply clears_only_ProcessSemiLifeLongTensor in Hb; (eapply Hnone; [|exact Hb]); tauto.
Qed.

Lemma X6_witness : symmetric (reuse_matrix_ chain_conflicts).
Proof.
  apply (X6_reuse_matrix_symmetric (fun l => l) chain_state chain_conflicts);
    [discriminate | reflexivity | reflexivity | done | reflexivity].
Defined.

(** ** Ref-overlap lists *)

Section ref_overlap.
Implicit Types (m : list (list bool)) (l : list nat).

Lemma overlap_inner n t1 l m p q :
  square n m → t1 < n → Forall (fun t => t < n) l →
  square n (foldl (fun m tid_2 => MatSetTrue tid_2 t1 (MatSetTrue t1 tid_2 m)) m l)
  ∧ (Bit (foldl (fun m tid_2 => MatSetTrue tid_2 t1 (MatSetTrue t1 tid_2 m)) m l) p q = true
     ↔ Bit m p q = true ∨ ∃ t2, t2 ∈ l ∧ ((p = t1 ∧ q = t2) ∨ (p = t2 ∧ q = t1))).
Proof.
  intros Hsq H1 Hl. revert m Hsq. induction Hl as [|t2 l H2 Hl IH]; intros m Hsq; cbn [foldl].
  - split; [done|]. split; [by left|]. intros [?|(t2 & H & _)]; [done|].
    by apply elem_of_nil in H.
  - destruct (IH (MatSetTrue t2 t1 (MatSetTrue t1 t2 m))) as [Hsq' Hbit].
    { by do 2 apply square_MatSetTrue. }
    split; [done|]. rewrite Hbit.
    rewrite (Bit_MatSetTrue n), (Bit_MatSetTrue n) by (done || by apply square_MatSetTrue).
    rewrite !orb_true_iff, !bool_decide_eq_true. split.
    + intros [[?|[?|?]]|(t & Ht & Hpq)].
      * right. exists t2. split; [by left | tauto].
      * right. exists t2. split; [by left | tauto].
      * by left.
      * right. exists t. split; [by right | done].
    + intros [?|(t & Ht & Hpq)]; [tauto|].
      apply elem_of_cons in Ht as [->|Ht]; [tauto|]. right. by exists t.
Qed.

Lemma overlap_middle n (l1 l : list nat) m p q :
  square n m → Forall (fun t => t < n) l1 → Forall (fun t => t < n) l →
  square n (foldl (fun m tid_1 =>
                     foldl (fun m tid_2 => MatSetTrue tid_2 tid_1 (MatSetTrue tid_1 tid_2 m))
                           m l) m l1)
  ∧ (Bit (foldl (fun m tid_1 =>
                   foldl (fun m tid_2 => MatSetTrue tid_2 tid_1 (MatSetTrue tid_1 tid_2 m))
                         m l) m l1) p q = true
     ↔ Bit m p q = true
       ∨ ∃ t1 t2, t1 ∈ l1 ∧ t2 ∈ l ∧ ((p = t1 ∧ q = t2) ∨ (p = t2 ∧ q = t1))).
Proof.
  intros Hsq Hl1 Hl. revert m Hsq. induction Hl1 as [|t1 l1 H1 Hl1 IH]; intros m Hsq;
    cbn [foldl].
  - split; [done|]. split; [by left|]. intros [?|(t1 & t2 & H & _)]; [done|].
    by apply elem_of_nil in H.
  - destruct (overlap_inner n t1 l m p q Hsq H1 Hl) as [Hsq1 Hbit1].
    destruct (IH _ Hsq1) as [Hsq' Hbit]. split; [done|]. rewrite Hbit, Hbit1. split.
    + intros [[?|(t2 & Ht2 & Hpq)]|(t1' & t2 & Ht1 & Ht2 & Hpq)].
      * by left.
      * right. exists t1, t2. split; [by left | done].
      * right. exists t1', t2. split; [by right | done].
    + intros [?|(t1' & t2 & Ht1 & Ht2 & Hpq)]; [tauto|].
      apply elem_of_cons in Ht1 as [->|Ht1].
      * left. right. by exists t2.
      * right. by exists t1', t2.
Qed.
End ref_overlap.

(** X7.  On a square matrix that has a row for every listed tensor,
    [UpdateRefOverlapTensorsConflicts] sets the bit of every ordered pair of
    tensors of one ref-overlap list, a tensor with itself included, and
    changes no other bit: afterwards bit ([p],[q]) is set iff it was set
    before or [p] and [q] are in one list. *)
Theorem X7_ref_overlap_sets_whole_lists (n : nat) (ref_overlap_constraints : list (list nat))
    (reuse_matrix : list (list bool)) (p q : nat) :
  square n reuse_matrix →
  Forall (Forall (fun t => t < n)) ref_overlap_constraints →
  Bit (UpdateRefOverlapTensorsConflicts ref_overlap_constraints reuse_matrix) p q = true
  ↔ Bit reuse_matrix p q = true ∨ ∃ l, l ∈ ref_overlap_constraints ∧ p ∈ l ∧ q ∈ l.
Proof.
  intros Hsq Hall. unfold UpdateRefOverlapTensorsConflicts.
  revert reuse_matrix Hsq. induction Hall as [|l ls Hl Hall IH]; intros m Hsq; cbn [foldl].
  - split; [by left|]. intros [?|(l & H & _)]; [done|]. by apply elem_of_nil in H.
  - destruct (overlap_middle n l l m p q Hsq Hl Hl) as [Hsq1 Hbit1].
    rewrite (IH _ Hsq1), Hbit1. split.
    + intros [[?|(t1 & t2 & H1 & H2 & Hpq)]|(l' & Hl' & Hp & Hq)].
      * by left.
      * right. exists l. split; [by left|].
        destruct Hpq as [[-> ->]|[-> ->]]; done.
      * right. exists l'. split; [by right | done].
    + intros [?|(l' & Hl' & Hp & Hq)]; [tauto|].
      apply elem_of_cons in Hl' as [->|Hl'].
      * left. right. exists p, q. tauto.
      * right. by exists l'.
Qed.

Lemma X7_witness :
  Bit (UpdateRefOverlapTensorsConflicts [[0; 2]] (replicate 3 (replicate 3 false))) 2 0 = true
  ↔ Bit (replicate 3 (replicate 3 false)) 2 0 = true ∨ ∃ l, l ∈ [[0; 2]] ∧ 2 ∈ l ∧ 0 ∈ l.
Proof.
  apply (X7_ref_overlap_sets_whole_lists 3 [[0; 2]] (replicate 3 (replicate 3 false)) 2 0).
  - split; [reflexivity | repeat constructor].
  - repeat constructor.
Defined.

(** ** [GenContiguousList]: the lists it leaves *)

Section contiguous_well_formed.
Implicit Types (st : ContiguousState) (node : SomasNode) (tensors : list nat)
  (tl : list SomasTensor).

Lemma with_contiguous_same (t : SomasTensor) : with_contiguous (contiguous_ t) t = t.
Proof. by destruct t. Qed.

Lemma same_but_sizes_and_flags_refl tl : same_but_sizes_and_flags tl tl.
Proof.
  intros k. unfold aligned_size_of. destruct (tl !! k) as [t|]; simpl; [|done].
  by rewrite with_aligned_size_same, with_contiguous_same.
Qed.

Lemma same_but_sizes_and_flags_trans tl1 tl2 tl3 :
  same_but_sizes_and_flags tl1 tl2 → same_but_sizes_and_flags tl2 tl3 →
  same_but_sizes_and_flags tl1 tl3.
Proof.
  intros H12 H23 k. rewrite (H23 k) at 1. rewrite (H12 k).
  by destruct (tl1 !! k) as [t|].
Qed.

Lemma same_but_sizes_and_flags_side first lst tensors tl tl' :
  (∀ k, tl' !! k = side_effect first lst tensors k <$> tl !! k) →
  same_but_sizes_and_flags tl tl'.
Proof.
  intros Hl k. unfold aligned_size_of. rewrite (Hl k).
  destruct (tl !! k) as [t|]; simpl; [|done]. f_equal.
  unfold side_effect. by case_bool_decide.
Qed.

Lemma side_effect_outside first lst tensors k (t : SomasTensor) :
  first ∈ tensors → lst ∈ tensors → k ∉ tensors → side_effect first lst tensors k t = t.
Proof.
  intros Hf Hl Hk. unfold side_effect.
  rewrite (bool_decide_eq_false_2 (k = first)) by (by intros ->).
  rewrite (bool_decide_eq_false_2 (k = lst)) by (by intros ->).
  rewrite (bool_decide_eq_false_2 (k ∈ tensors)) by done.
  apply with_aligned_size_same.
Qed.

Lemma gen_contiguous_side_well_formed what tensors st st' :
  gen_contiguous_side what tensors st = Done st' →
  contiguous_lists_well_formed st →
  contiguous_lists_well_formed st'
  ∧ same_but_sizes_and_flags (cs_tensors_list st) (cs_tensors_list st')
  ∧ (∀ k, (∀ ls, ls ∈ cs_contiguous_tensors_list st' → k ∉ ls) →
          cs_tensors_list st' !! k = cs_tensors_list st !! k).
Proof.
  intros Hrun (Hne & Hmark & Hord).
  assert (st' = st → contiguous_lists_well_formed st'
                     ∧ same_but_sizes_and_flags (cs_tensors_list st) (cs_tensors_list st')
                     ∧ (∀ k, (∀ ls, ls ∈ cs_contiguous_tensors_list st' → k ∉ ls) →
                             cs_tensors_list st' !! k = cs_tensors_list st !! k)) as Hsame.
  { intros ->. split; [done|]. split; [apply same_but_sizes_and_flags_refl | done]. }
  destruct tensors as [|first rest] eqn:Et; [apply Hsame; by injection Hrun as <-|].
  destruct (cs_tensors_list st !! first) as [t0|] eqn:E0.
  2: { unfold gen_contiguous_side, get_tensor in Hrun. by rewrite E0 in Hrun. }
  destruct (contiguous_ t0) eqn:Ec.
  { rewrite (gen_contiguous_side_skipped what (first :: rest) st first t0) in Hrun by done.
    apply Hsame. by injection Hrun as <-. }
  clear Hsame.
  pose proof (gen_contiguous_side_in_range what (first :: rest) st st' first t0 eq_refl E0 Ec
                Hrun) as Hrange.
  destruct (gen_contiguous_side_processed what (first :: rest) st st' first t0 eq_refl E0 Ec
              Hrun) as (_ & Hctl & Hl).
  assert (default first (last (first :: rest)) ∈ first :: rest) as Hlast.
  { destruct (last (first :: rest)) as [lst|] eqn:El; simpl; [|by left].
    rewrite last_lookup in El. by eapply list_elem_of_lookup_2. }
  split; [split; [|split]|split].
  - rewrite Hctl. apply Forall_app. split; [done|]. by constructor.
  - intros ls k Hls Hk. rewrite Hctl in Hls. rewrite Hl.
    apply elem_of_app in Hls as [Hls|Hls].
    + destruct (Hmark ls k Hls Hk) as (t & -> & Hct). eexists. split; [done|].
      by rewrite side_effect_contiguous, Hct, orb_true_r.
    + apply list_elem_of_singleton in Hls. subst ls.
      rewrite Forall_forall in Hrange.
      destruct (lookup_lt_is_Some_2 _ _ (Hrange k Hk)) as [t ->]. eexists. split; [done|].
      by rewrite side_effect_contiguous, bool_decide_eq_true_2.
  - intros i j li lj f Hij Hi Hj Hf. rewrite Hctl in Hi, Hj.
    pose proof (lookup_lt_Some _ _ _ Hj) as Hjl. rewrite length_app in Hjl. simpl in Hjl.
    destruct (decide (j < length (cs_contiguous_tensors_list st))) as [Hlt|Hge].
    + rewrite lookup_app_l in Hi, Hj by lia. by eapply (Hord i j).
    + rewrite lookup_app_l in Hi by lia. rewrite lookup_app_r in Hj by lia.
      apply list_lookup_singleton_Some in Hj as [_ <-]. injection Hf as <-.
      intros Hin. destruct (Hmark li first) as (t & Ht & Hct);
        [by eapply list_elem_of_lookup_2 | done | congruence].
  - by eapply same_but_sizes_and_flags_side.
  - intros k Hk. rewrite Hl. destruct (cs_tensors_list st !! k) as [t|]; simpl; [|done].
    f_equal. apply side_effect_outside; [by left | done |].
    apply Hk. rewrite Hctl. apply elem_of_app. right. by left.
Qed.

Lemma gen_contiguous_node_well_formed st o node st' o' :
  gen_contiguous_node (Done (st, o)) node = Done (st', o') →
  contiguous_lists_well_formed st →
  contiguous_lists_well_formed st'
  ∧ same_but_sizes_and_flags (cs_tensors_list st) (cs_tensors_list st')
  ∧ (∀ k, (∀ ls, ls ∈ cs_contiguous_tensors_list st' → k ∉ ls) →
          cs_tensors_list st' !! k = cs_tensors_list st !! k).
Proof.
  unfold gen_contiguous_node. simpl. case_bool_decide.
  { intros [= <- <-] Hw. split; [done|]. split; [apply same_but_sizes_and_flags_refl | done]. }
  destruct (gen_contiguous_side _ (input_tensors_ node) st) as [st1| |] eqn:E1; simpl; try done.
  destruct (gen_contiguous_side _ (output_tensors_ node) _) as [st2| |] eqn:E2; simpl; try done.
  intros [= <- <-] Hw. simpl.
  pose proof (gen_contiguous_side_cases _ _ _ _ E2) as Hcases.
  apply gen_contiguous_side_well_formed in E1 as (Hw1 & Hs1 & Hf1); [|done].
  apply gen_contiguous_side_well_formed in E2 as (Hw2 & Hs2 & Hf2); [|done].
  simpl in *. split; [done|]. split; [by eapply same_but_sizes_and_flags_trans|].
  intros k Hk. rewrite Hf2 by done. apply Hf1. intros ls Hls.
  destruct Hcases as [->|[_ Hctl]]; [by apply Hk|].
  apply Hk. rewrite Hctl. simpl. apply elem_of_app. by left.
Qed.
End contiguous_well_formed.

(** What [GenContiguousList] leaves when it starts without contiguous lists. *)
Lemma GenContiguousList_well_formed (nodes_list : list SomasNode)
    (tensors_list : list SomasTensor) (total_in total_out total_out' : N)
    (st' : ContiguousState) :
  GenContiguousList nodes_list (mkContiguousState tensors_list [] total_in) total_out
  = Done (st', total_out') →
  contiguous_lists_well_formed st'
  ∧ same_but_sizes_and_flags tensors_list (cs_tensors_list st')
  ∧ (∀ k, (∀ ls, ls ∈ cs_contiguous_tensors_list st' → k ∉ ls) →
          cs_tensors_list st' !! k = tensors_list !! k).
Proof.
  unfold GenContiguousList. intros Hrun.
  assert (∀ st0 o0 st1 o1 (nodes : list SomasNode),
            foldl gen_contiguous_node (Done (st0, o0)) nodes = Done (st1, o1) →
            (∀ ls, ls ∈ cs_contiguous_tensors_list st0 → ls ∈ cs_contiguous_tensors_list st1))
    as Hgrow.
  { intros st0 o0 st1 o1 nodes.
    apply (foldl_Done_ind gen_contiguous_node
             (fun _ (a : ContiguousState * N) =>
                ∀ ls, ls ∈ cs_contiguous_tensors_list st0 → ls ∈ cs_contiguous_tensors_list a.1)
             nodes (st0, o0) (st1, o1)); [done | done | done |].
    intros pre node [sa oa] [sb ob] Hin Hstep ls Hls. simpl in *.
    unfold gen_contiguous_node in Hstep. simpl in Hstep.
    case_bool_decide; [injection Hstep as <- <-; by apply Hin|].
    destruct (gen_contiguous_side _ (input_tensors_ node) sa) as [s1| |] eqn:E1;
      simpl in Hstep; try done.
    destruct (gen_contiguous_side _ (output_tensors_ node) _) as [s2| |] eqn:E2;
      simpl in Hstep; try done.
    injection Hstep as <- <-. simpl.
    assert (ls ∈ cs_contiguous_tensors_list s1) as H1.
    { destruct (gen_contiguous_side_cases _ _ _ _ E1) as [->|[_ ->]]; [by apply Hin|].
      apply elem_of_app. left. by apply Hin. }
    destruct (gen_contiguous_side_cases _ _ _ _ E2) as [->|[_ ->]]; [done|].
    apply elem_of_app. by left. }
  assert (∀ (nodes : list SomasNode) st0 o0 st1 o1,
            foldl gen_contiguous_node (Done (st0, o0)) nodes = Done (st1, o1) →
            contiguous_lists_well_formed st0 →
            contiguous_lists_well_formed st1
            ∧ same_but_sizes_and_flags (cs_tensors_list st0) (cs_tensors_list st1)
            ∧ (∀ k, (∀ ls, ls ∈ cs_contiguous_tensors_list st1 → k ∉ ls) →
                    cs_tensors_list st1 !! k = cs_tensors_list st0 !! k)) as Hgen.
  { induction nodes as [|node nodes IH]; intros st0 o0 st1 o1; cbn [foldl].
    - intros [= <- <-] Hw. split; [done|].
      split; [apply same_but_sizes_and_flags_refl | done].
    - destruct (gen_contiguous_node (Done (st0, o0)) node) as [[sa oa]| |] eqn:Estep.
      2: { rewrite foldl_Exception; [done|]. intros x. apply gen_contiguous_node_Exception. }
      2: { rewrite foldl_Undefined; [done|]. intros x. apply gen_contiguous_node_Undefined. }
      intros Hrest Hw.
      apply gen_contiguous_node_well_formed in Estep as (Hwa & Hsa & Hfa); [|done].
      destruct (IH sa oa st1 o1 Hrest Hwa) as (Hw1 & Hs1 & Hf1).
      split; [done|]. split; [by eapply same_but_sizes_and_flags_trans|].
      intros k Hk. rewrite Hf1 by done. apply Hfa. intros ls Hls. apply Hk.
      by eapply Hgrow. }
  apply (Hgen nodes_list _ _ _ _ Hrun).
  split; [constructor|]. split.
  - intros ls k Hls. by apply elem_of_nil in Hls.
  - intros i j li lj f _ Hi. done.
Qed.

(** X8.  Started without contiguous lists, [GenContiguousList] leaves lists
    none of which is empty, whose members are registered tensors marked
    contiguous, and the first tensor of a list is in no list built before it
    (a later list may still share its other tensors with an earlier one).
    Tensors change in aligned size and contiguous flag only, and a tensor
    that is in no list does not change at all. *)
Theorem X8_contiguous_lists_well_formed (nodes_list : list SomasNode)
    (tensors_list : list SomasTensor) (total_in total_out total_out' : N)
    (st' : ContiguousState) :
  GenContiguousList nodes_list (mkContiguousState tensors_list [] total_in) total_out
  = Done (st', total_out') →
  contiguous_lists_well_formed st'
  ∧ same_but_sizes_and_flags tensors_list (cs_tensors_list st')
  ∧ (∀ k, (∀ ls, ls ∈ cs_contiguous_tensors_list st' → k ∉ ls) →
          cs_tensors_list st' !! k = tensors_list !! k).
Proof. apply GenContiguousList_well_formed. Qed.

Lemma X8_witness : contiguous_lists_well_formed shared_input_built.1.
Proof.
  apply (X8_contiguous_lists_well_formed shared_input_nodes
           (cs_tensors_list shared_input_state) 0%N 0%N shared_input_built.2
           shared_input_built.1 eq_refl).
Defined.

(** ** [Assign]: what reaches the registry *)

Section assign.
Implicit Types (st : Somas) (t : SomasTensor) (tl : list SomasTensor).

Lemma omap_GetSolverTensorDesc_not_nil tl k t :
  tl !! k = Some t → aligned_size_ t ≠ 0%N → omap GetSolverTensorDesc tl ≠ [].
Proof.
  intros Hk Hsz Hnil.
  assert (GetSolverTensorDesc t = None) as Hnone.
  { destruct (GetSolverTensorDesc t) as [d|] eqn:Ed; [|done]. exfalso.
    assert (d ∈ omap GetSolverTensorDesc tl) as Hin.
    { apply list_elem_of_omap. exists t. split; [by eapply list_elem_of_lookup_2 | done]. }
    rewrite Hnil in Hin. by apply elem_of_nil in Hin. }
  unfold GetSolverTensorDesc in Hnone. by rewrite bool_decide_eq_false_2 in Hnone.
Qed.
End assign.

(** X9.  When [Assign] returns, it has changed nothing of the planner but
    tensors, reuse matrix and [mem_offset_].  If the registry holds a tensor
    of non-zero aligned size that is neither a non-first member of a ref-node
    group nor a member of a contiguous list, then the solver was called and
    succeeded, [mem_offset_] is the footprint it returned, and every such
    tensor is the tensor it was, with the offset that the solver computed
    for its id. *)
Theorem X9_Assign_stores_solver_offsets (Solving : Solver) (st st' : Somas) :
  Assign Solving st = Done st' →
  (nodes_list_ st' = nodes_list_ st ∧ streams_list_ st' = streams_list_ st
   ∧ streams_groups_ st' = streams_groups_ st
   ∧ ref_node_constraints_ st' = ref_node_constraints_ st
   ∧ ref_overlap_constraints_ st' = ref_overlap_constraints_ st
   ∧ contiguous_tensors_list_ st' = contiguous_tensors_list_ st
   ∧ hash_id_ st' = hash_id_ st)
  ∧ (∀ k t,
       tensors_list_ st !! k = Some t → aligned_size_ t ≠ 0%N →
       k ∉ non_first_members (ref_node_constraints_ st) →
       (∀ ls, ls ∈ contiguous_tensors_list_ st → k ∉ ls) →
       ∃ descs m lists solution max_offset,
         Solving descs m lists = Some (solution, max_offset)
         ∧ mem_offset_ st' = max_offset
         ∧ ∀ k' t',
             tensors_list_ st !! k' = Some t' → aligned_size_ t' ≠ 0%N →
             k' ∉ non_first_members (ref_node_constraints_ st) →
             (∀ ls, ls ∈ contiguous_tensors_list_ st → k' ∉ ls) →
             tensors_list_ st' !! k' = Some (with_offset (solution (id_ t')) t')).
Proof.
  unfold Assign. case_bool_decide as Hempty.
  { intros [= <-]. split; [done|]. intros k t Hk. by rewrite Hempty in Hk. }
  destruct (UpdateRefTensorsConflict _ _ _) as [[tl1 m1]| |] eqn:E1; simpl; try done.
  destruct (GetContiguousListContainRefTensor _ _ tl1) as [map| |] eqn:E2; simpl; try done.
  destruct (contiguous_lists_to_remove map _ tl1) as [to_remove| |] eqn:E3; simpl; try done.
  apply UpdateRefTensorsConflict_spec in E1 as (_ & Hl1 & _ & _).
  assert (∀ k t, tensors_list_ st !! k = Some t →
            k ∉ non_first_members (ref_node_constraints_ st) → tl1 !! k = Some t) as Hkeep.
  { intros k t Hk Hn. rewrite Hl1, Hk. simpl. unfold zero_if.
    by rewrite bool_decide_eq_false_2. }
  case_bool_decide as Hdescs.
  { intros [= <-]. split; [done|]. intros k t Hk Hsz Hn _. exfalso.
    by eapply (omap_GetSolverTensorDesc_not_nil tl1 k t); [apply Hkeep|..]. }
  destruct (Solving _ _ _) as [[solution max_offset]|] eqn:Esolve; [|done]. simpl.
  destruct (UpdateRefTensorsOffset _ _) as [tl3| |] eqn:E4; simpl; try done.
  destruct (UpdateContiguousTensorsOffset map _ tl3) as [tl4| |] eqn:E5; simpl; try done.
  intros [= <-]. split; [done|]. intros k t Hk Hsz Hn Hc.
  eexists _, _, _, solution, max_offset. split; [exact Esolve|]. split; [done|].
  intros k' t' Hk' Hsz' Hn' Hc'. simpl.
  apply UpdateRefTensorsOffset_frame in E4 as [_ Hf4].
  apply UpdateContiguousTensorsOffset_frame in E5 as [_ Hf5].
  rewrite Hf5 by done. rewrite Hf4 by done.
  rewrite list_lookup_fmap, (Hkeep k' t' Hk' Hn'). simpl. f_equal.
  unfold SetOffset. by rewrite bool_decide_eq_false_2.
Qed.

Lemma X9_witness :
  ∃ descs m lists solution max_offset,
    packed_solver descs m lists = Some (solution, max_offset)
    ∧ mem_offset_ mixed_assigned = max_offset
    ∧ ∀ k' t',
        tensors_list_ mixed_state !! k' = Some t' → aligned_size_ t' ≠ 0%N →
        k' ∉ non_first_members (ref_node_constraints_ mixed_state) →
        (∀ ls, ls ∈ contiguous_tensors_list_ mixed_state → k' ∉ ls) →
        tensors_list_ mixed_assigned !! k' = Some (with_offset (solution (id_ t')) t').
Proof.
  apply (proj2 (X9_Assign_stores_solver_offsets packed_solver mixed_state mixed_assigned
                  eq_refl) 0 (chain_tensor 0 0 [1])).
  - reflexivity.
  - done.
  - unfold non_first_members. simpl. intros H. apply list_elem_of_singleton in H. done.
  - intros ls Hls. apply list_elem_of_singleton in Hls. subst ls.
    intros H. apply elem_of_cons in H as [?|H]; [done|].
    apply list_elem_of_singleton in H. done.
Defined.

(** ** The cache file: written, then loaded *)

Section cache_round_trip.
Implicit Types (st fresh saved : Somas) (tl : list SomasTensor).

Lemma tensor_json_of_matches (t : SomasTensor) (v : N) :
  tensor_json_mismatch (tensor_json_of (with_offset v t)) t = None.
Proof. apply tensor_json_mismatch_None_iff. by repeat split. Qed.

Lemma UpdateTensorsOffset_saved_suffix (fresh_tl saved_tl merged rest : list SomasTensor) :
  dense_ids saved_tl → same_but_offsets fresh_tl saved_tl →
  saved_tl = merged ++ rest →
  UpdateTensorsOffset (tensor_json_of <$> rest) (merged ++ drop (length merged) fresh_tl)
  = ([], (saved_tl, true)).
Proof.
  intros Hd Hsame. revert merged. induction rest as [|x rest IH]; intros merged Hsplit; csimpl.
  - rewrite app_nil_r in Hsplit. subst merged.
    rewrite (same_but_offsets_length _ _ Hsame), drop_all. by rewrite app_nil_r.
  - assert (saved_tl !! length merged = Some x) as Hx.
    { rewrite Hsplit, lookup_app_r by lia. by rewrite Nat.sub_diag. }
    pose proof (dense_ids_lookup _ _ _ Hd Hx) as Hid.
    pose proof (Hsame (length merged)) as Hk. rewrite Hx in Hk.
    destruct (fresh_tl !! length merged) as [f|] eqn:Ef; [|done]. simpl in Hk.
    injection Hk as Hxf.
    assert (offset_of saved_tl (length merged) = offset_ x) as Hoff
      by (by apply offset_of_lookup).
    rewrite Hoff in Hxf.
    rewrite (drop_S _ _ _ Ef). rewrite Hid.
    rewrite lookup_app_r by lia. rewrite Nat.sub_diag. simpl.
    rewrite Hxf at 1. rewrite tensor_json_of_matches. rewrite <- Hxf.
    rewrite insert_app_r_alt by lia. rewrite Nat.sub_diag. simpl.
    specialize (IH (merged ++ [x])). rewrite length_app in IH. simpl in IH.
    rewrite Nat.add_1_r in IH. rewrite <- !app_assoc in IH. simpl in IH.
    by apply IH.
Qed.

Lemma UpdateTensorsOffset_saved fresh_tl saved_tl :
  dense_ids saved_tl → same_but_offsets fresh_tl saved_tl →
  UpdateTensorsOffset (tensor_json_of <$> saved_tl) fresh_tl = ([], (saved_tl, true)).
Proof.
  intros Hd Hsame.
  by apply (UpdateTensorsOffset_saved_suffix fresh_tl saved_tl [] saved_tl).
Qed.
End cache_round_trip.

(** X10.  The file that [SaveSomasResult] writes for a solved planner loads
    back: on a planner of the same graph with the same hash, counts and
    tensors (up to offsets, ids dense), [LoadSomasResult] opens the file
    once, logs no warning, returns success, and leaves exactly the saved
    tensors, offsets included, and the saved [mem_offset_]. *)
Theorem X10_saved_layout_loads_back (env : Environment) (fresh saved : Somas) :
  dense_ids (tensors_list_ saved) → same_model fresh saved →
  first_read env = Parsed (SaveSomasResult_somas_json (graph_id env) saved) →
  LoadSomasResult env fresh
  = ([OpenForRead],
     Done (with_tensors (tensors_list_ saved) (with_mem_offset (mem_offset_ saved) fresh), true)).
Proof.
  intros Hd (Hh & Hn & Hc & Hr & Hs & Hg & Hsame) Hf.
  unfold LoadSomasResult. rewrite Hf. unfold adopt_somas_json.
  assert (VerifySomasResult (graph_id env) fresh
            (SaveSomasResult_somas_json (graph_id env) saved) = ([], true)) as ->.
  { unfold VerifySomasResult, SaveSomasResult_somas_json. simpl.
    rewrite (same_but_offsets_length _ _ Hsame).
    rewrite !bool_decide_eq_false_2; [done|intros H; apply H; congruence..]. }
  simpl. by rewrite UpdateTensorsOffset_saved.
Qed.

Lemma X10_witness :
  LoadSomasResult cache_of_mixed mixed_reset
  = ([OpenForRead],
     Done (with_tensors (tensors_list_ mixed_assigned)
             (with_mem_offset (mem_offset_ mixed_assigned) mixed_reset), true)).
Proof.
  apply (X10_saved_layout_loads_back cache_of_mixed mixed_reset mixed_assigned).
  - reflexivity.
  - repeat split; try reflexivity. intros k. by destruct k as [|[|[|k]]].
  - reflexivity.
Defined.

Section cache_hit.
Implicit Types (st : Somas) (tl : list SomasTensor) (js : list TensorJson).

Lemma UpdateTensorsOffset_success js tl tl' log :
  UpdateTensorsOffset js tl = (log, (tl', true)) →
  log = []
  ∧ (∀ k, k ∉ j_tensor_id <$> js → tl' !! k = tl !! k)
  ∧ (NoDup (j_tensor_id <$> js) →
     ∀ entry, entry ∈ js → offset_of tl' (j_tensor_id entry) = j_offset entry).
Proof.
  revert tl. induction js as [|e js IH]; intros tl; csimpl.
  - intros [= <- <-]. split; [done|]. split; [done|]. intros _ entry H.
    by apply elem_of_nil in H.
  - destruct (tl !! j_tensor_id e) as [t|] eqn:Et; [|done].
    destruct (tensor_json_mismatch e t); [done|]. intros Hrun.
    apply IH in Hrun as (-> & Hframe & Hoff). split; [done|]. split.
    + intros k Hk. rewrite Hframe by (intros Hin; apply Hk; by right).
      apply list_lookup_insert_ne. intros <-. apply Hk. by left.
    + intros Hnd entry Hin. apply NoDup_cons in Hnd as [Hfirst Hnd].
      apply elem_of_cons in Hin as [->|Hin]; [|by apply Hoff].
      unfold offset_of. rewrite Hframe by done.
      by rewrite list_lookup_insert_eq by (by eapply lookup_lt_Some).
Qed.

Lemma adopt_somas_json_success env st j st' :
  (adopt_somas_json env st j).2 = Done (st', true) →
  counts_agree (graph_id env) st j
  ∧ (∀ entry, entry ∈ j_tensors j →
       ∃ t, tensors_list_ st !! j_tensor_id entry = Some t ∧ fields_agree entry t)
  ∧ st' = with_tensors (tensors_list_ st') (with_mem_offset (j_mem_offset j) st)
  ∧ same_but_offsets (tensors_list_ st) (tensors_list_ st')
  ∧ (∀ k, k ∉ j_tensor_id <$> j_tensors j → tensors_list_ st' !! k = tensors_list_ st !! k)
  ∧ (NoDup (j_tensor_id <$> j_tensors j) →
     ∀ entry, entry ∈ j_tensors j →
       offset_of (tensors_list_ st') (j_tensor_id entry) = j_offset entry).
Proof.
  unfold adopt_somas_json.
  pose proof (VerifySomasResult_true_iff (graph_id env) st j) as Hv.
  destruct (VerifySomasResult (graph_id env) st j) as [log ret]. simpl in Hv.
  destruct ret; simpl; [|done].
  pose proof (UpdateTensorsOffset_spec (j_tensors j) (tensors_list_ st)) as (Hsame & Htrue & _).
  destruct (UpdateTensorsOffset (j_tensors j) (tensors_list_ st)) as [log' [tl' ret']] eqn:Eu.
  simpl in *. intros [= <- ->].
  apply UpdateTensorsOffset_success in Eu as (_ & Hframe & Hoff).
  split; [by apply Hv|]. split; [by apply Htrue|]. done.
Qed.
End cache_hit.

(** X11.  When [LoadSomasResult] returns success, the file (read at the
    first attempt, or at the retry after a parse failure) agrees with the
    planner in all eight counts, and every entry of its tensor array names a
    registered tensor with the recorded sizes, lifelong value and lifetime.
    The planner then differs from the one before in [mem_offset_], which is
    the recorded one, and in offsets of tensors only: a tensor that no entry
    names keeps its offset, and when no id is recorded twice every recorded
    tensor has its recorded offset.  The array is not required to name every
    tensor. *)
Theorem X11_cache_hit_adopts_recorded_offsets (env : Environment) (st st' : Somas) :
  (LoadSomasResult env st).2 = Done (st', true) →
  ∃ j,
    (first_read env = Parsed j ∨ (first_read env = ParseFailed ∧ retry_read env = Parsed j))
    ∧ counts_agree (graph_id env) st j
    ∧ (∀ entry, entry ∈ j_tensors j →
         ∃ t, tensors_list_ st !! j_tensor_id entry = Some t ∧ fields_agree entry t)
    ∧ st' = with_tensors (tensors_list_ st') (with_mem_offset (j_mem_offset j) st)
    ∧ same_but_offsets (tensors_list_ st) (tensors_list_ st')
    ∧ (∀ k, k ∉ j_tensor_id <$> j_tensors j → tensors_list_ st' !! k = tensors_list_ st !! k)
    ∧ (NoDup (j_tensor_id <$> j_tensors j) →
       ∀ entry, entry ∈ j_tensors j →
         offset_of (tensors_list_ st') (j_tensor_id entry) = j_offset entry).
Proof.
  unfold LoadSomasResult. destruct (first_read env) as [| |j] eqn:Ef; simpl.
  - done.
  - destruct (retry_read env) as [| |j] eqn:Er; simpl; try done.
    destruct (adopt_somas_json env st j) as [log res] eqn:Ea. simpl. intros ->.
    exists j. split; [by right|]. apply adopt_somas_json_success. by rewrite Ea.
  - destruct (adopt_somas_json env st j) as [log res] eqn:Ea. simpl. intros ->.
    exists j. split; [by left|]. apply adopt_somas_json_success. by rewrite Ea.
Qed.

Lemma X11_witness : same_but_offsets (tensors_list_ mixed_reset) (tensors_list_ mixed_loaded).
Proof.
  destruct (X11_cache_hit_adopts_recorded_offsets cache_of_mixed mixed_reset mixed_loaded
              eq_refl) as (j & _ & _ & _ & _ & Hsame & _).
  exact Hsame.
Defined.

(** ** [Allocate]: when the cache is used *)

Section cache_threshold.
Implicit Types (st : Somas) (tl : list SomasTensor) (env : Environment).

Lemma lookup_fmap_length tl tl' (f : nat → SomasTensor → SomasTensor) :
  (∀ k, tl' !! k = f k <$> tl !! k) → length tl' = length tl.
Proof.
  intros H. destruct (decide (length tl' = length tl)) as [|Hne]; [done|]. exfalso.
  destruct (decide (length tl' < length tl)).
  - pose proof (H (length tl')) as Hk. rewrite (lookup_ge_None_2 tl') in Hk by lia.
    destruct (lookup_lt_is_Some_2 tl (length tl')) as [t Ht]; [lia|]. by rewrite Ht in Hk.
  - pose proof (H (length tl)) as Hk. rewrite (lookup_ge_None_2 tl (length tl)) in Hk by lia.
    destruct (lookup_lt_is_Some_2 tl' (length tl)) as [t Ht]; [lia|]. by rewrite Ht in Hk.
Qed.

Lemma ComputeConflictPairs_length (shuffle : list SomasTensor → list SomasTensor) st st1 :
  ComputeConflictPairs shuffle st = Done st1 →
  length (tensors_list_ st1) = length (tensors_list_ st).
Proof.
  unfold ComputeConflictPairs. case_bool_decide; [by intros [= <-]|].
  destruct (UpdateTensorDestinations _) as [st0| |] eqn:Hupd; simpl; try done.
  destruct (BuildCandidateLists (tensors_list_ st0)) as [[c i] d]. intros [= <-]. simpl.
  apply UpdateTensorDestinations_unfold in Hupd as (nl1 & _ & _ & Hall & _).
  symmetry. exact (Forall2_length _ _ _ Hall).
Qed.

Lemma Assign_length (Solving : Solver) st st' :
  Assign Solving st = Done st' → length (tensors_list_ st') = length (tensors_list_ st).
Proof.
  unfold Assign. case_bool_decide; [by intros [= <-]|].
  destruct (UpdateRefTensorsConflict _ _ _) as [[tl1 m1]| |] eqn:E1; simpl; try done.
  destruct (GetContiguousListContainRefTensor _ _ tl1) as [map| |] eqn:E2; simpl; try done.
  destruct (contiguous_lists_to_remove map _ tl1) as [to_remove| |] eqn:E3; simpl; try done.
  apply UpdateRefTensorsConflict_spec in E1 as (_ & Hl1 & _ & _).
  apply lookup_fmap_length in Hl1.
  case_bool_decide; [by intros [= <-]|].
  destruct (Solving _ _ _) as [[solution max_offset]|]; [|done]. simpl.
  destruct (UpdateRefTensorsOffset _ _) as [tl3| |] eqn:E4; simpl; try done.
  destruct (UpdateContiguousTensorsOffset map _ tl3) as [tl4| |] eqn:E5; simpl; try done.
  intros [= <-]. simpl.
  apply UpdateRefTensorsOffset_frame in E4 as [H4 _].
  apply UpdateContiguousTensorsOffset_frame in E5 as [H5 _].
  apply same_but_offsets_length in H4, H5. rewrite length_fmap in H4. congruence.
Qed.

Lemma fresh_plan_trace env st :
  (fresh_plan env st).1 = []
  ∨ (fresh_plan env st).1
    = (if bool_decide (length (tensors_list_ st) < kCachedResultThreshold)
       then [Log DEBUG "Tensors size less than the threshold, no need to save result"]
       else [WriteCache])
      ∧ ∃ st2, (fresh_plan env st).2 = Done (st2, true).
Proof.
  unfold fresh_plan.
  destruct (ComputeConflictPairs (shuffle env) st) as [st1| |] eqn:E1; [|by left..].
  destruct (Assign (Solving env) st1) as [st2| |] eqn:E2; [|by left..].
  right. simpl. split; [|by eexists]. unfold SaveSomasResult.
  by rewrite (Assign_length _ _ _ E2), (ComputeConflictPairs_length _ _ _ E1).
Qed.
End cache_threshold.

(** X12.  With fewer tensors than the threshold of 2000, [Allocate] neither
    opens nor writes the cache file and never sleeps: its trace holds log
    lines only, and its outcome is that of the fresh computation.  With at
    least 2000 tensors, a fresh computation that succeeds ends by writing
    the cache file. *)
Theorem X12_cache_only_for_large_graphs (env : Environment) (st : Somas) :
  (length (tensors_list_ st) < kCachedResultThreshold →
     forallb is_log (Allocate env st).1 = true
     ∧ (tensors_list_ st ≠ [] → (Allocate env st).2 = (fresh_plan env st).2))
  ∧ (kCachedResultThreshold ≤ length (tensors_list_ st) →
     ∀ st1 st2, (LoadSomasCache env st).2 = Done (st1, false) →
                (fresh_plan env st1).2 = Done (st2, true) →
                last (Allocate env st).1 = Some WriteCache).
Proof.
  split.
  - intros Hlt. unfold Allocate. case_bool_decide as Hempty; [done|].
    unfold LoadSomasCache. rewrite bool_decide_eq_true_2 by done.
    destruct (fresh_plan_trace env st) as [Ht|[Ht _]];
      destruct (fresh_plan env st) as [log res]; simpl in *; subst log; [done|].
    by rewrite bool_decide_eq_true_2 by done.
  - intros Hge st1 st2 Hload Hfresh. unfold Allocate.
    assert (tensors_list_ st ≠ []) as Hne.
    { intros Hnil. rewrite Hnil in Hge. unfold kCachedResultThreshold in Hge. simpl in Hge. lia. }
    rewrite bool_decide_eq_false_2 by done.
    assert (length (tensors_list_ st1) = length (tensors_list_ st)) as Hlen.
    { revert Hload. unfold LoadSomasCache. rewrite bool_decide_eq_false_2 by lia.
      destruct (info_file_saved env); [|by intros [= <-]].
      destruct (LoadSomasResult env _) as [log res] eqn:El. intros Hres.
      assert (res = Done (st1, false)) as -> by (by destruct res as [[? []]| |]).
      clear Hres.
      unfold LoadSomasResult in El.
      assert (∀ j log, adopt_somas_json env (with_hash_id (model_hash env st) st) j
                       = (log, Done (st1, false)) →
                length (tensors_list_ st1) = length (tensors_list_ st)) as Hadopt.
      { intros j log' Ha. unfold adopt_somas_json in Ha.
        destruct (VerifySomasResult _ _ j) as [l1 r1]. destruct r1; simpl in Ha.
        - pose proof (UpdateTensorsOffset_spec (j_tensors j)
                        (tensors_list_ (with_hash_id (model_hash env st) st))) as (Hs & _).
          destruct (UpdateTensorsOffset _ _) as [l2 [tl2 r2]]. injection Ha as _ <- _.
          simpl in *. by apply same_but_offsets_length in Hs.
        - by injection Ha as _ <-. }
      destruct (first_read env) as [| |j].
      - by injection El as _ <-.
      - destruct (retry_read env) as [| |j]; [by injection El as _ <- | done |].
        destruct (adopt_somas_json _ _ j) as [l r] eqn:Ea. injection El as _ ->.
        by eapply Hadopt.
      - destruct (adopt_somas_json _ _ j) as [l r] eqn:Ea. injection El as _ ->.
        by eapply Hadopt. }
    destruct (LoadSomasCache env st) as [log res]. simpl in Hload. subst res.
    destruct (fresh_plan_trace env st1) as [Ht|[Ht _]].
    + exfalso. unfold fresh_plan in Hfresh, Ht.
      destruct (ComputeConflictPairs (shuffle env) st1) as [sa| |] eqn:Ea; try done.
      destruct (Assign (Solving env) sa) as [sb| |] eqn:Eb; try done.
      simpl in Ht. unfold SaveSomasResult in Ht.
      by case_bool_decide.
    + destruct (fresh_plan env st1) as [log' res']. simpl in *. subst log'.
      rewrite bool_decide_eq_false_2 by lia. by rewrite last_snoc.
Qed.

Lemma X12_witness :
  forallb is_log (Allocate cache_missing chain_state).1 = true
  ∧ (tensors_list_ chain_state ≠ [] →
     (Allocate cache_missing chain_state).2 = (fresh_plan cache_missing chain_state).2).
Proof.
  apply (proj1 (X12_cache_only_for_large_graphs cache_missing chain_state)).
  unfold kCachedResultThreshold. simpl. lia.
Defined.

(** ** Names: [GetSplitName] *)

Section names.

Lemma string_app_nil_l (s : string) : EmptyString +:+ s = s.
Proof. reflexivity. Qed.

Lemma string_app_cons a (s1 s2 : string) : String a s1 +:+ s2 = String a (s1 +:+ s2).
Proof. reflexivity. Qed.

Lemma rfind_None c s : rfind c s = None ↔ without_char c s.
Proof.
  induction s as [|a rest IH]; cbn [rfind without_char]; [done|].
  destruct (rfind c rest) as [i|].
  - split; [done|]. intros [_ H]. apply IH in H. done.
  - destruct (Ascii.eqb a c) eqn:E.
    + apply Ascii.eqb_eq in E. split; [done|]. by intros [H _].
    + apply Ascii.eqb_neq in E. split; [|done]. intros _. split; [done|]. by apply IH.
Qed.

Lemma rfind_app c pre name :
  without_char c name → rfind c (pre +:+ String c name) = Some (String.length pre).
Proof.
  intros Hname. induction pre as [|a pre IH]; rewrite ?string_app_nil_l, ?string_app_cons; cbn.
  - apply rfind_None in Hname. rewrite Hname. by rewrite Ascii.eqb_refl.
  - by rewrite IH.
Qed.

Lemma rfind_Some c s index :
  rfind c s = Some index →
  ∃ pre name, s = pre +:+ String c name ∧ String.length pre = index ∧ without_char c name.
Proof.
  revert index. induction s as [|a rest IH]; intros index; cbn [rfind]; [done|].
  destruct (rfind c rest) as [i|] eqn:E.
  - intros [= <-]. destruct (IH i eq_refl) as (pre & name & -> & <- & Hn).
    by exists (String a pre), name.
  - destruct (Ascii.eqb a c) eqn:Ea; [|done]. intros [= <-].
    apply Ascii.eqb_eq in Ea as ->. exists EmptyString, rest. split_and!; [done..|].
    by apply rfind_None.
Qed.

Lemma substr_app pre s : substr (String.length pre) (pre +:+ s) = Some s.
Proof. induction pre as [|a pre IH]; rewrite ?string_app_nil_l, ?string_app_cons; cbn; [by destruct s|done]. Qed.

Lemma length_append (s1 s2 : string) :
  String.length (s1 +:+ s2) = String.length s1 + String.length s2.
Proof. induction s1 as [|a s1 IH]; rewrite ?string_app_nil_l, ?string_app_cons; cbn; [done|]. by rewrite IH. Qed.

Lemma GetSplitName_app pre name :
  without_char slash name →
  GetSplitName (pre +:+ String slash name)
  = Done (if bool_decide (name = EmptyString) then pre +:+ String slash name else name).
Proof.
  intros Hname. unfold GetSplitName. rewrite rfind_app by done.
  rewrite length_append. cbn [String.length].
  destruct name as [|a name].
  - rewrite bool_decide_eq_false_2 by (cbn [String.length]; lia). done.
  - rewrite bool_decide_eq_true_2 by (cbn [String.length]; lia).
    replace (String.length pre + 1) with (String.length (pre +:+ String slash EmptyString))
      by (rewrite length_append; cbn [String.length]; lia).
    replace (pre +:+ String slash (String a name))
      with ((pre +:+ String slash EmptyString) +:+ String a name).
    + by rewrite substr_app.
    + clear. induction pre as [|b pre IH]; rewrite ?string_app_nil_l, ?string_app_cons; [done|]. by rewrite IH.
Qed.

End names.

(** X13. [GetSplitName] never raises and returns a suffix of the name: the
    part behind the last slash when that part is not empty, and the whole
    name when it holds no slash or ends in one. *)
Theorem X13_GetSplitName_last_component :
  (∀ scope_name, ∃ front split_name,
      GetSplitName scope_name = Done split_name ∧ scope_name = front +:+ split_name)
  ∧ (∀ pre name, without_char slash name → name ≠ EmptyString →
       GetSplitName (pre +:+ String slash name) = Done name)
  ∧ (∀ pre, GetSplitName (pre +:+ String slash EmptyString)
            = Done (pre +:+ String slash EmptyString))
  ∧ (∀ name, without_char slash name → GetSplitName name = Done name).
Proof.
  assert (∀ name, without_char slash name → GetSplitName name = Done name) as Hnone.
  { intros name H. unfold GetSplitName. apply rfind_None in H. by rewrite H. }
  split_and!; [|..|done].
  - intros scope_name. destruct (rfind slash scope_name) as [index|] eqn:E.
    + destruct (rfind_Some _ _ _ E) as (pre & name & -> & _ & Hname).
      rewrite GetSplitName_app by done. case_bool_decide.
      * by exists EmptyString, (pre +:+ String slash name).
      * exists (pre +:+ String slash EmptyString), name. split; [done|].
        clear. induction pre as [|b pre IH]; rewrite ?string_app_nil_l, ?string_app_cons; [done|]. by rewrite <- IH.
    + exists EmptyString, scope_name. split; [|done]. apply Hnone. by apply rfind_None.
  - intros pre name Hname Hne. rewrite GetSplitName_app by done.
    by rewrite bool_decide_eq_false_2.
  - intros pre. by rewrite GetSplitName_app.
Qed.

(** ** Graph statistics: [CalcLowerBound] and [GenGraphStatisticInfo] *)

Section statistics.

Lemma size_t_of_int_small (n : nat) : (N.of_nat n < 2 ^ 31)%N → size_t_of_int (Z.of_nat n) = N.of_nat n.
Proof.
  intros H. unfold size_t_of_int. rewrite Z.mod_small by lia. lia.
Qed.

Lemma int_of_size_t_small (n : nat) : (N.of_nat n < 2 ^ 31)%N → int_of_size_t (N.of_nat n) = Z.of_nat n.
Proof.
  intros H. unfold int_of_size_t. cbv zeta. rewrite Z.mod_small by lia.
  destruct (Z.ltb_spec (Z.of_N (N.of_nat n)) (2 ^ 31)); lia.
Qed.

Lemma max_node_id_fold (tl : list SomasTensor) (m : nat) :
  (N.of_nat m < 2 ^ 31)%N →
  (∀ t, t ∈ tl → (N.of_nat (lifetime_end_ t) < 2 ^ 31)%N) →
  foldl (fun (max_id : Z) tensor =>
           int_of_size_t (N.max (size_t_of_int max_id) (N.of_nat (lifetime_end_ tensor))))
        (Z.of_nat m) tl
  = Z.of_nat (m `max` last_node_time tl).
Proof.
  revert m. induction tl as [|t tl IH]; intros m Hm Hend; cbn [foldl].
  - unfold last_node_time. cbn. f_equal. lia.
  - rewrite size_t_of_int_small by done.
    pose proof (Hend t (list_elem_of_here _ _)) as Ht.
    replace (N.max (N.of_nat m) (N.of_nat (lifetime_end_ t)))
      with (N.of_nat (m `max` lifetime_end_ t)) by lia.
    rewrite int_of_size_t_small by lia.
    rewrite IH; [|lia|intros; apply Hend; by apply list_elem_of_further].
    unfold last_node_time. csimpl. f_equal. lia.
Qed.

Lemma CalcLowerBound_max_node_id_spec (tl : list SomasTensor) :
  (∀ t, t ∈ tl → (N.of_nat (lifetime_end_ t) < 2 ^ 31)%N) →
  CalcLowerBound_max_node_id tl = last_node_time tl.
Proof.
  intros Hend. unfold CalcLowerBound_max_node_id.
  change 0%Z with (Z.of_nat 0). rewrite (max_node_id_fold tl 0) by (done || lia).
  assert (N.of_nat (last_node_time tl) < 2 ^ 31)%N as Hlast.
  { clear -Hend. unfold last_node_time. induction tl as [|t tl IH]; csimpl; [lia|].
    pose proof (Hend t (list_elem_of_here _ _)).
    assert (N.of_nat (max_list (lifetime_end_ <$> tl)) < 2 ^ 31)%N
      by (apply IH; intros; apply Hend; by apply list_elem_of_further).
    lia. }
  rewrite Nat.max_0_l, size_t_of_int_small by done. lia.
Qed.

Lemma lifetime_lb_range (size : N) (lb : nat → N) (lower len time : nat) :
  foldl (lifetime_lb_add size) lb (seq lower len) time
  = if bool_decide (lower ≤ time < lower + len) then size_t_add (lb time) size else lb time.
Proof.
  revert lb lower. induction len as [|len IH]; intros lb lower; cbn [seq foldl].
  - rewrite bool_decide_eq_false_2 by lia. done.
  - rewrite IH. unfold lifetime_lb_add, lifetime_lb_set.
    repeat case_bool_decide; subst; (done || lia).
Qed.

Lemma lifetime_lb_tensor_spec (max_node_id : nat) (lb : nat → N) (t : SomasTensor) (time : nat) :
  time ≤ max_node_id →
  lifetime_lb_tensor max_node_id lb t time
  = if live_at time t then size_t_add (lb time) (aligned_size_ t) else lb time.
Proof.
  intros Htime. unfold lifetime_lb_tensor. cbv zeta. rewrite lifetime_lb_range.
  unfold live_at. repeat case_bool_decide; cbn [orb]; (done || lia).
Qed.

Lemma total_aligned_size_cons t tl :
  total_aligned_size (t :: tl) = (aligned_size_ t + total_aligned_size tl)%N.
Proof. done. Qed.

Lemma live_size_cons t tl time :
  live_size (t :: tl) time
  = ((if live_at time t then aligned_size_ t else 0) + live_size tl time)%N.
Proof.
  unfold live_size. rewrite filter_cons. destruct (live_at time t) eqn:E.
  - rewrite decide_True by done. by rewrite total_aligned_size_cons.
  - rewrite decide_False by done. done.
Qed.

Lemma live_size_le_total tl time : (live_size tl time ≤ total_aligned_size tl)%N.
Proof.
  induction tl as [|t tl IH]; [done|].
  rewrite live_size_cons, total_aligned_size_cons. destruct (live_at time t); lia.
Qed.

Lemma lifetime_lb_fold (max_node_id : nat) (tl : list SomasTensor) (lb : nat → N) (time : nat) :
  time ≤ max_node_id →
  (lb time + total_aligned_size tl < size_t_modulus)%N →
  foldl (lifetime_lb_tensor max_node_id) lb tl time = (lb time + live_size tl time)%N.
Proof.
  intros Htime. revert lb. induction tl as [|t tl IH]; intros lb Hsum; cbn [foldl].
  - unfold live_size. rewrite filter_nil. cbn. lia.
  - rewrite total_aligned_size_cons in Hsum.
    assert (lifetime_lb_tensor max_node_id lb t time
            = (lb time + (if live_at time t then aligned_size_ t else 0))%N) as Hstep.
    { rewrite lifetime_lb_tensor_spec by done. destruct (live_at time t); [|lia].
      unfold size_t_add. apply N.mod_small. lia. }
    rewrite IH, Hstep, live_size_cons; [lia|].
    rewrite Hstep. destruct (live_at time t); lia.
Qed.

Lemma lifetime_lb_init (times : list nat) (lb : nat → N) (time : nat) :
  lb time = 0%N → foldl (fun lb time => lifetime_lb_set time 0%N lb) lb times time = 0%N.
Proof.
  revert lb. induction times as [|t times IH]; intros lb Hlb; cbn [foldl]; [done|].
  apply IH. unfold lifetime_lb_set. by case_bool_decide.
Qed.

Lemma peak_fold (f : nat → N) (times : list nat) (m0 : N) :
  let r := foldl (fun max_lifetime time =>
                    if (max_lifetime <? f time)%N then f time else max_lifetime) m0 times in
  (m0 ≤ r)%N ∧ (∀ time, time ∈ times → (f time ≤ r)%N)
  ∧ (r = m0 ∨ ∃ time, time ∈ times ∧ r = f time).
Proof.
  revert m0. induction times as [|t times IH]; intros m0; cbn [foldl].
  - split_and!; [lia| |by left]. intros time H. by apply elem_of_nil in H.
  - destruct (IH (if (m0 <? f t)%N then f t else m0)) as (H1 & H2 & H3).
    destruct (N.ltb_spec m0 (f t)) as [Hlt|Hge].
    + split_and!; [lia| |].
      * intros time [->|H]%elem_of_cons; [done|by apply H2].
      * right. destruct H3 as [->|(time & Hin & ->)].
        -- exists t. split; [apply list_elem_of_here|done].
        -- exists time. split; [by apply list_elem_of_further|done].
    + split_and!; [lia| |].
      * intros time [->|H]%elem_of_cons; [lia|by apply H2].
      * destruct H3 as [->|(time & Hin & ->)]; [by left|].
        right. exists time. split; [by apply list_elem_of_further|done].
Qed.

Lemma peak_fold_ext (f g : nat → N) (times : list nat) (m0 : N) :
  (∀ time, time ∈ times → f time = g time) →
  foldl (fun max_lifetime time =>
           if (max_lifetime <? f time)%N then f time else max_lifetime) m0 times
  = foldl (fun max_lifetime time =>
           if (max_lifetime <? g time)%N then g time else max_lifetime) m0 times.
Proof.
  revert m0. induction times as [|t times IH]; intros m0 Hfg; cbn [foldl]; [done|].
  rewrite (Hfg t) by apply list_elem_of_here.
  apply IH. intros. apply Hfg. by apply list_elem_of_further.
Qed.

(** The closed form of [CalcLowerBound]: the peak of [live_size] over the
    node times up to the last one. *)
Lemma CalcLowerBound_peak (tl : list SomasTensor) :
  (∀ t, t ∈ tl → (N.of_nat (lifetime_end_ t) < 2 ^ 31)%N) →
  (total_aligned_size tl < size_t_modulus)%N →
  CalcLowerBound tl
  = foldl (fun max_lifetime time =>
             if (max_lifetime <? live_size tl time)%N then live_size tl time else max_lifetime)
          0%N (seq 0 (S (last_node_time tl))).
Proof.
  intros Hend Hsum. unfold CalcLowerBound. cbv zeta.
  rewrite CalcLowerBound_max_node_id_spec by done.
  apply peak_fold_ext. intros time Htime. apply elem_of_seq in Htime.
  rewrite lifetime_lb_fold; [|lia|]; rewrite lifetime_lb_init by done; [lia|].
  lia.
Qed.

Lemma last_node_time_ge (tl : list SomasTensor) (t : SomasTensor) :
  t ∈ tl → lifetime_end_ t ≤ last_node_time tl.
Proof.
  intros Hin. unfold last_node_time. apply max_list_elem_of_le.
  apply list_elem_of_fmap. by exists t.
Qed.

Lemma live_size_ge (tl : list SomasTensor) (t : SomasTensor) (time : nat) :
  t ∈ tl → live_at time t = true → (aligned_size_ t ≤ live_size tl time)%N.
Proof.
  intros Hin Hlive. induction tl as [|t' tl IH]; [by apply elem_of_nil in Hin|].
  rewrite live_size_cons. apply elem_of_cons in Hin as [<-|Hin].
  - rewrite Hlive. lia.
  - specialize (IH Hin). lia.
Qed.

Lemma CalcLowerBound_bounds (tl : list SomasTensor) :
  (∀ t, t ∈ tl → (N.of_nat (lifetime_end_ t) < 2 ^ 31)%N) →
  (total_aligned_size tl < size_t_modulus)%N →
  (∃ time, time ≤ last_node_time tl ∧ CalcLowerBound tl = live_size tl time)
  ∧ (∀ time, time ≤ last_node_time tl → (live_size tl time ≤ CalcLowerBound tl)%N).
Proof.
  intros Hend Hsum. rewrite CalcLowerBound_peak by done.
  destruct (peak_fold (live_size tl) (seq 0 (S (last_node_time tl))) 0%N) as (_ & Hge & Hex).
  split.
  - destruct Hex as [H0|(time & Hin & Heq)].
    + exists 0. split; [lia|]. rewrite H0.
      assert (live_size tl 0 ≤ 0)%N; [|lia].
      rewrite <- H0. apply Hge. apply elem_of_seq. lia.
    + exists time. apply elem_of_seq in Hin. split; [lia|done].
  - intros time Htime. apply Hge. apply elem_of_seq. lia.
Qed.

Lemma CalcLowerBound_le_total (tl : list SomasTensor) :
  (∀ t, t ∈ tl → (N.of_nat (lifetime_end_ t) < 2 ^ 31)%N) →
  (total_aligned_size tl < size_t_modulus)%N →
  (CalcLowerBound tl ≤ total_aligned_size tl)%N.
Proof.
  intros Hend Hsum. destruct (CalcLowerBound_bounds tl Hend Hsum) as [(time & _ & ->) _].
  apply live_size_le_total.
Qed.

Lemma class_size_le (p : SomasTensor → bool) (tl : list SomasTensor) :
  (class_size p tl ≤ total_aligned_size tl)%N.
Proof.
  unfold class_size. induction tl as [|t tl IH]; [done|].
  rewrite filter_cons, total_aligned_size_cons. destruct (decide (p t = true)).
  - rewrite total_aligned_size_cons. lia.
  - lia.
Qed.

Lemma class_size_cons (p : SomasTensor → bool) t tl :
  class_size p (t :: tl) = ((if p t then aligned_size_ t else 0) + class_size p tl)%N.
Proof.
  unfold class_size. rewrite filter_cons. destruct (p t) eqn:E.
  - rewrite decide_True by done. by rewrite total_aligned_size_cons.
  - rewrite decide_False by done. done.
Qed.

(** The totals after the tensor loop, as long as no counter wraps. *)
Lemma statistic_fold (tl : list SomasTensor) (s : Statistics) :
  (upper_bound_ s + total_aligned_size tl < size_t_modulus)%N →
  (workspace_total_size_ s + total_aligned_size tl < size_t_modulus)%N →
  (lifelong_all_total_size_ s + total_aligned_size tl < size_t_modulus)%N →
  (lifelong_start_total_size_ s + total_aligned_size tl < size_t_modulus)%N →
  (lifelong_end_total_size_ s + total_aligned_size tl < size_t_modulus)%N →
  let s' := foldl statistic_step s tl in
  lower_bound_ s' = lower_bound_ s
  ∧ upper_bound_ s' = (upper_bound_ s + total_aligned_size tl)%N
  ∧ workspace_total_size_ s'
    = (workspace_total_size_ s + class_size (has_type kWorkspace) tl)%N
  ∧ lifelong_all_total_size_ s'
    = (lifelong_all_total_size_ s + class_size (has_lifelong kLifeLongGraphAll) tl)%N
  ∧ lifelong_start_total_size_ s'
    = (lifelong_start_total_size_ s + class_size (has_lifelong kLifeLongGraphStart) tl)%N
  ∧ lifelong_end_total_size_ s'
    = (lifelong_end_total_size_ s + class_size (has_lifelong kLifeLongGraphEnd) tl)%N.
Proof.
  revert s. induction tl as [|t tl IH]; intros s; cbn [foldl].
  - intros _ _ _ _ _. cbv zeta. unfold class_size. rewrite !filter_nil. cbn. split_and!; (done || lia).
  - rewrite total_aligned_size_cons. intros H1 H2 H3 H4 H5. cbv zeta.
    assert (∀ c, (c + (aligned_size_ t + total_aligned_size tl) < size_t_modulus)%N →
                 size_t_add c (aligned_size_ t) = (c + aligned_size_ t)%N) as Hadd.
    { intros c Hc. unfold size_t_add. apply N.mod_small. lia. }
    destruct (IH (statistic_step s t)) as (E0 & E1 & E2 & E3 & E4 & E5).
    + cbn. rewrite Hadd by done. lia.
    + cbn. case_bool_decide; [rewrite Hadd by done|]; lia.
    + cbn. case_bool_decide; [rewrite Hadd by done|]; lia.
    + cbn. case_bool_decide; [rewrite Hadd by done|]; lia.
    + cbn. case_bool_decide; [rewrite Hadd by done|]; lia.
    + rewrite E0, E1, E2, E3, E4, E5, !class_size_cons.
      unfold has_type, has_lifelong. cbn.
      split_and!; [done|rewrite Hadd by done; lia|..];
        case_bool_decide; rewrite ?Hadd by done; lia.
Qed.

End statistics.

(** X14. As long as lifetime ends fit the [int] accumulator and the aligned
    sizes do not sum up to 2^64, [CalcLowerBound] is the peak, over the node
    times up to the last lifetime end, of the memory that the tensors live at
    that time occupy together.  It is at least the size of every tensor that
    is lifelong or has a non-empty lifetime, and at most the sum of all
    sizes. *)
Theorem X14_lower_bound_is_peak_live_size (tl : list SomasTensor) :
  (∀ t, t ∈ tl → (N.of_nat (lifetime_end_ t) < 2 ^ 31)%N) →
  (total_aligned_size tl < size_t_modulus)%N →
  (∃ time, time ≤ last_node_time tl ∧ CalcLowerBound tl = live_size tl time)
  ∧ (∀ time, time ≤ last_node_time tl → (live_size tl time ≤ CalcLowerBound tl)%N)
  ∧ (∀ t, t ∈ tl →
       lifelong_value_ t = kLifeLongGraphAll ∨ lifetime_start_ t ≤ lifetime_end_ t →
       (aligned_size_ t ≤ CalcLowerBound tl)%N)
  ∧ (CalcLowerBound tl ≤ total_aligned_size tl)%N.
Proof.
  intros Hend Hsum. destruct (CalcLowerBound_bounds tl Hend Hsum) as [Hex Hge].
  split_and!; [done|done| |by apply CalcLowerBound_le_total].
  intros t Hin Hlive.
  pose proof (last_node_time_ge tl t Hin) as Hlast.
  destruct (decide (lifelong_value_ t = kLifeLongGraphAll)) as [Hall|Hnot].
  - etrans; [|apply (Hge 0); lia]. apply live_size_ge; [done|].
    unfold live_at. by rewrite bool_decide_eq_true_2.
  - destruct Hlive as [?|Hle]; [done|].
    etrans; [|apply (Hge (lifetime_start_ t)); lia]. apply live_size_ge; [done|].
    unfold live_at. rewrite (bool_decide_eq_true_2 (_ ≤ _ ≤ _)) by lia. apply orb_true_r.
Qed.

Lemma X14_witness :
  CalcLowerBound chain_tensors = 1536%N
  ∧ (∃ time, time ≤ last_node_time chain_tensors
             ∧ CalcLowerBound chain_tensors = live_size chain_tensors time)
  ∧ (CalcLowerBound chain_tensors ≤ total_aligned_size chain_tensors)%N.
Proof.
  assert (∀ t, t ∈ chain_tensors → (N.of_nat (lifetime_end_ t) < 2 ^ 31)%N) as Hend.
  { apply Forall_forall. unfold chain_tensors. repeat constructor. }
  assert (total_aligned_size chain_tensors < size_t_modulus)%N as Hsum by (vm_compute; done).
  destruct (X14_lower_bound_is_peak_live_size chain_tensors Hend Hsum)
    as (Hpeak & _ & _ & Htotal).
  split_and!; [reflexivity|exact Hpeak|exact Htotal].
Defined.

(** X15. On counters that are zero, and as long as the aligned sizes do not
    sum up to 2^64 (and lifetime ends fit the [int] accumulator),
    [GenGraphStatisticInfo] leaves a lower bound that does not exceed the
    upper bound; the upper bound is the sum of all aligned sizes, and the
    workspace total and the three lifelong totals together stay below it.
    On counters that are not zero the totals are added to the old values
    while the lower bound is computed anew. *)
Theorem X15_statistics_bounds (tl : list SomasTensor) :
  (∀ t, t ∈ tl → (N.of_nat (lifetime_end_ t) < 2 ^ 31)%N) →
  (total_aligned_size tl < size_t_modulus)%N →
  let s := GenGraphStatisticInfo tl zero_statistics in
  (lower_bound_ s ≤ upper_bound_ s)%N
  ∧ upper_bound_ s = total_aligned_size tl
  ∧ (workspace_total_size_ s ≤ upper_bound_ s)%N
  ∧ (lifelong_all_total_size_ s + lifelong_start_total_size_ s + lifelong_end_total_size_ s
     ≤ upper_bound_ s)%N
  ∧ (∀ s0, (upper_bound_ s0 + total_aligned_size tl < size_t_modulus)%N →
       upper_bound_ (GenGraphStatisticInfo tl s0) = (upper_bound_ s0 + total_aligned_size tl)%N
       ∧ lower_bound_ (GenGraphStatisticInfo tl s0) = lower_bound_ s).
Proof.
  intros Hend Hsum s.
  assert (∀ s0, lower_bound_ (GenGraphStatisticInfo tl s0) = CalcLowerBound tl) as Hlower.
  { intros s0. unfold GenGraphStatisticInfo. generalize (CalcLowerBound tl). intros lb.
    generalize (upper_bound_ s0), (workspace_total_size_ s0), (lifelong_all_total_size_ s0),
      (lifelong_start_total_size_ s0), (lifelong_end_total_size_ s0).
    induction tl as [|t tl IH]; intros u w a b e; cbn [foldl]; [done|].
    unfold statistic_step at 2. cbn [lower_bound_ upper_bound_ workspace_total_size_
      lifelong_all_total_size_ lifelong_start_total_size_ lifelong_end_total_size_].
    apply IH.
    - intros; apply Hend; by apply list_elem_of_further.
    - rewrite total_aligned_size_cons in Hsum. lia. }
  assert (∀ s0, (upper_bound_ s0 + total_aligned_size tl < size_t_modulus)%N →
            upper_bound_ (GenGraphStatisticInfo tl s0)
            = (upper_bound_ s0 + total_aligned_size tl)%N) as Hupper.
  { intros s0. unfold GenGraphStatisticInfo. generalize (CalcLowerBound tl). intros lb.
    generalize (upper_bound_ s0), (workspace_total_size_ s0), (lifelong_all_total_size_ s0),
      (lifelong_start_total_size_ s0), (lifelong_end_total_size_ s0).
    clear. induction tl as [|t tl IH]; intros u w a b e; cbn [foldl].
    - cbn. lia.
    - rewrite total_aligned_size_cons. intros Hu.
      unfold statistic_step at 2. cbn [lower_bound_ upper_bound_ workspace_total_size_
        lifelong_all_total_size_ lifelong_start_total_size_ lifelong_end_total_size_].
      rewrite IH; unfold size_t_add; rewrite N.mod_small by lia; lia. }
  destruct (statistic_fold tl (mkStatistics (CalcLowerBound tl) 0 0 0 0 0))
    as (E0 & E1 & E2 & E3 & E4 & E5);
    cbn [lower_bound_ upper_bound_ workspace_total_size_ lifelong_all_total_size_ lifelong_start_total_size_ lifelong_end_total_size_]; try lia.
  cbn [lower_bound_ upper_bound_ workspace_total_size_ lifelong_all_total_size_ lifelong_start_total_size_ lifelong_end_total_size_] in E0, E1, E2, E3, E4, E5.
  change (foldl statistic_step (mkStatistics (CalcLowerBound tl) 0 0 0 0 0) tl) with s
    in E0, E1, E2, E3, E4, E5.
  pose proof (CalcLowerBound_le_total tl Hend Hsum) as Hle.
  split_and!.
  - rewrite E0, E1. lia.
  - rewrite E1. lia.
  - rewrite E2, E1. pose proof (class_size_le (has_type kWorkspace) tl). lia.
  - rewrite E3, E4, E5, E1. clear. induction tl as [|t tl IH]; [done|].
    rewrite !class_size_cons, total_aligned_size_cons. unfold has_lifelong at 1 3 5.
    repeat case_bool_decide; try congruence; lia.
  - intros s0 Hs0. split; [by apply Hupper|]. by rewrite E0, Hlower.
Qed.

Lemma X15_witness :
  upper_bound_ (GenGraphStatisticInfo chain_tensors zero_statistics) = 2048%N
  ∧ lower_bound_ (GenGraphStatisticInfo chain_tensors zero_statistics) = 1536%N
  ∧ (lower_bound_ (GenGraphStatisticInfo chain_tensors zero_statistics)
     ≤ upper_bound_ (GenGraphStatisticInfo chain_tensors zero_statistics))%N
  ∧ upper_bound_ (GenGraphStatisticInfo chain_tensors zero_statistics)
    = total_aligned_size chain_tensors.
Proof.
  assert (∀ t, t ∈ chain_tensors → (N.of_nat (lifetime_end_ t) < 2 ^ 31)%N) as Hend.
  { apply Forall_forall. unfold chain_tensors. repeat constructor. }
  assert (total_aligned_size chain_tensors < size_t_modulus)%N as Hsum by (vm_compute; done).
  destruct (X15_statistics_bounds chain_tensors Hend Hsum) as (Hle & Hupper & _).
  split_and!; [reflexivity|reflexivity|exact Hle|exact Hupper].
Defined.

(** ** Making streams and nodes: [InitSomasStreamAndNode] *)

Section init_nodes.
Context (graph : KernelGraph).

Lemma filter_ext_elem {A : Type} (P Q : A → Prop) `{!∀ x, Decision (P x)} `{!∀ x, Decision (Q x)}
    (l : list A) :
  (∀ x, x ∈ l → (P x ↔ Q x)) → filter P l = filter Q l.
Proof.
  induction l as [|x l IH]; intros Hext; [done|].
  rewrite !filter_cons. rewrite IH by (intros; apply Hext; by apply list_elem_of_further).
  destruct (decide (P x)) as [HP|HP], (decide (Q x)) as [HQ|HQ]; try done.
  - apply (Hext x (list_elem_of_here _ _)) in HP. done.
  - apply (Hext x (list_elem_of_here _ _)) in HQ. done.
Qed.

Lemma filter_none {A : Type} (P : A → Prop) `{!∀ x, Decision (P x)} (l : list A) :
  (∀ x, x ∈ l → ¬ P x) → filter P l = [].
Proof.
  induction l as [|x l IH]; intros Hnone; [done|].
  rewrite filter_cons, decide_False by (apply Hnone, list_elem_of_here).
  apply IH. intros. by apply Hnone, list_elem_of_further.
Qed.

Lemma occurrences_snoc (k kernel : nat) (pre : list nat) :
  occurrences k (pre ++ [kernel])
  = occurrences k pre ++ (if bool_decide (k = kernel) then [length pre] else []).
Proof.
  unfold occurrences. rewrite length_app. cbn [length]. rewrite Nat.add_1_r, seq_S, filter_app.
  f_equal.
  - apply filter_ext_elem. intros i Hi%elem_of_seq. by rewrite lookup_app_l by lia.
  - cbn [Nat.add]. rewrite filter_cons, filter_nil.
    rewrite list_lookup_middle by done. case_bool_decide as Hk.
    + subst. by rewrite decide_True.
    + rewrite decide_False; [done|]. intros [= Heq]. by apply Hk.
Qed.

Lemma stream_positions_snoc (sid kernel : nat) (pre : list nat) :
  stream_positions graph sid (pre ++ [kernel])
  = stream_positions graph sid pre
    ++ (if bool_decide (GetStreamId graph kernel = sid) then [length pre] else []).
Proof.
  unfold stream_positions. rewrite length_app. cbn [length]. rewrite Nat.add_1_r, seq_S, filter_app.
  f_equal.
  - apply filter_ext_elem. intros i Hi%elem_of_seq. by rewrite lookup_app_l by lia.
  - cbn [Nat.add]. rewrite filter_cons, filter_nil.
    rewrite list_lookup_middle by done. csimpl. case_bool_decide as Hk.
    + subst. by rewrite decide_True.
    + rewrite decide_False; [done|]. intros [= Heq]. by apply Hk.
Qed.

Lemma stream_push_spec (sid node : nat) (streams : list SomasStream) :
  NoDup (stream_id <$> streams) →
  stream_id <$> stream_push sid node streams
  = (stream_id <$> streams) ++ (if bool_decide (sid ∈ stream_id <$> streams) then [] else [sid])
  ∧ (∀ s', s' ∈ stream_push sid node streams →
       (∃ s, s ∈ streams ∧ stream_id s' = stream_id s
             ∧ nodes_ s' = nodes_ s ++ (if bool_decide (stream_id s = sid) then [node] else []))
       ∨ ((sid ∉ stream_id <$> streams) ∧ s' = mkStream sid [node])).
Proof.
  intros Hnd. unfold stream_push.
  destruct (list_find (fun s => stream_id s = sid) streams) as [[i stream]|] eqn:E.
  - apply list_find_Some in E as (Hi & Hsid & _).
    assert (sid ∈ stream_id <$> streams) as Hin.
    { apply list_elem_of_fmap. exists stream. split; [done|]. by eapply list_elem_of_lookup_2. }
    rewrite bool_decide_eq_true_2, app_nil_r by done. split.
    + rewrite list_fmap_insert. cbn [stream_id]. apply list_insert_id.
      by rewrite list_lookup_fmap, Hi.
    + intros s' [j Hj]%list_elem_of_lookup. left.
      destruct (decide (j = i)) as [->|Hne].
      * rewrite list_lookup_insert_eq in Hj by (by eapply lookup_lt_Some).
        injection Hj as <-. exists stream. split_and!; [by eapply list_elem_of_lookup_2|done|].
        cbn [nodes_]. by rewrite bool_decide_eq_true_2.
      * rewrite list_lookup_insert_ne in Hj by done.
        exists s'. split_and!; [by eapply list_elem_of_lookup_2|done|].
        rewrite bool_decide_eq_false_2, app_nil_r; [done|]. intros Heq.
        apply Hne. eapply (NoDup_lookup _ _ _ _ Hnd).
        -- by rewrite list_lookup_fmap, Hj.
        -- rewrite list_lookup_fmap, Hi. csimpl. congruence.
  - apply list_find_None in E.
    assert (sid ∉ stream_id <$> streams) as Hnot.
    { intros (s & Hs & Hin)%list_elem_of_fmap. rewrite Forall_forall in E.
      by apply (E s Hin). }
    rewrite bool_decide_eq_false_2 by done. split.
    + by rewrite fmap_app.
    + intros s' [Hin|Hin%list_elem_of_singleton]%elem_of_app.
      * left. exists s'. split_and!; [done..|].
        rewrite bool_decide_eq_false_2, app_nil_r; [done|]. intros Heq.
        apply Hnot. apply list_elem_of_fmap. by exists s'.
      * by right.
Qed.

(** The state of the kernel loop after the kernels [kernels]. *)
Lemma init_node_fold (kernels : list nat) :
  ∃ streams_list nodes_map,
    foldl (init_node_step graph) ([], [], fun _ => None, 0) kernels
    = (streams_list, imap (fresh_node graph) kernels, nodes_map, length kernels)
    ∧ (∀ k, nodes_map k
            = if bool_decide (k ∈ kernels) then Some (occurrences k kernels) else None)
    ∧ NoDup (stream_id <$> streams_list)
    ∧ (∀ sid, sid ∈ stream_id <$> streams_list ↔ sid ∈ GetStreamId graph <$> kernels)
    ∧ (∀ s, s ∈ streams_list → nodes_ s = stream_positions graph (stream_id s) kernels).
Proof.
  induction kernels as [|kernel pre IH] using rev_ind.
  - exists [], (fun _ => None). cbn [foldl]. split_and!; [done| |constructor| |].
    + intros k. rewrite bool_decide_eq_false_2; [done|]. apply not_elem_of_nil.
    + intros sid. csimpl. split; intros H; by apply elem_of_nil in H.
    + intros s H. by apply elem_of_nil in H.
  - destruct IH as (streams_list & nodes_map & Hfold & Hmap & Hnd & Hids & Hnodes).
    rewrite foldl_app, Hfold. cbn [foldl init_node_step].
    destruct (stream_push_spec (GetStreamId graph kernel) (length pre) streams_list Hnd)
      as [Hids' Hnodes'].
    eexists _, _. split_and!.
    + rewrite imap_app, length_app. cbn [imap length]. rewrite Nat.add_0_r, Nat.add_1_r. done.
    + intros k. unfold nodes_map_push. rewrite occurrences_snoc, !Hmap.
      assert (∀ k', k' ∉ pre → occurrences k' pre = []) as Hnone.
      { intros k' Hk'. unfold occurrences. apply filter_none.
        intros i _ Hi. apply Hk'. by eapply list_elem_of_lookup_2. }
      destruct (decide (k = kernel)) as [->|Hne].
      * rewrite !(bool_decide_eq_true_2 (kernel = kernel)) by done.
        rewrite (bool_decide_eq_true_2 (kernel ∈ pre ++ [kernel]))
          by (apply elem_of_app; right; apply list_elem_of_here).
        destruct (decide (kernel ∈ pre)) as [Hin|Hin].
        -- by rewrite bool_decide_eq_true_2.
        -- rewrite bool_decide_eq_false_2, Hnone by done. reflexivity.
      * rewrite !(bool_decide_eq_false_2 (k = kernel)) by done. rewrite app_nil_r.
        destruct (decide (k ∈ pre)) as [Hin|Hin].
        -- rewrite !bool_decide_eq_true_2; [done|by apply elem_of_app; left|done].
        -- rewrite !bool_decide_eq_false_2; [done| |done].
           rewrite elem_of_app, list_elem_of_singleton. tauto.
    + rewrite Hids'. clear Hids' Hnodes'.
      case_bool_decide; [by rewrite app_nil_r|].
      apply NoDup_app. split_and!; [done| |apply NoDup_singleton].
      intros x Hx Hx'. apply list_elem_of_singleton in Hx'. by subst.
    + intros sid. rewrite Hids', fmap_app, !elem_of_app, Hids. csimpl.
      rewrite list_elem_of_singleton. clear Hids' Hnodes'. case_bool_decide as Hin.
      * rewrite Hids in Hin. split.
        -- intros [?|Hnil]; [by left|]. by apply elem_of_nil in Hnil.
        -- intros [?| ->]; by left.
      * rewrite list_elem_of_singleton. done.
    + intros s' Hs'. rewrite stream_positions_snoc.
      destruct (Hnodes' s' Hs') as [(s0 & Hs0 & Hid & Hn)|[Hnot ->]].
      * rewrite Hn, Hid, (Hnodes s0 Hs0). clear.
        f_equal. repeat case_bool_decide; congruence.
      * cbn [nodes_ stream_id]. rewrite bool_decide_eq_true_2 by done.
        assert (stream_positions graph (GetStreamId graph kernel) pre = []) as ->; [|done].
        unfold stream_positions. apply filter_none.
        intros i _ Hi. apply Hnot, Hids.
        destruct (pre !! i) as [k|] eqn:Hk; [|done]. injection Hi as Hi.
        apply list_elem_of_fmap. exists k. split; [done|]. by eapply list_elem_of_lookup_2.
Qed.

Lemma nodes_id_map_fold (nodes : list SomasNode) :
  NoDup (node_id_ <$> nodes) →
  foldl nodes_id_map_step (Done []) nodes = Done (node_id_ <$> nodes).
Proof.
  induction nodes as [|node pre IH] using rev_ind; intros Hnd; [done|].
  rewrite fmap_app in Hnd. apply NoDup_app in Hnd as (Hpre & Hnot & _).
  rewrite foldl_app, IH by done. cbn [foldl]. unfold nodes_id_map_step. csimpl.
  rewrite bool_decide_eq_false_2; [by rewrite fmap_app|].
  intros Hin. apply (Hnot _ Hin). csimpl. apply list_elem_of_here.
Qed.

Lemma fresh_nodes_ids (kernels : list nat) :
  node_id_ <$> imap (fresh_node graph) kernels = seq 0 (length kernels).
Proof.
  induction kernels as [|kernel pre IH] using rev_ind; [done|].
  rewrite imap_app, fmap_app, IH, length_app. cbn [imap length]. csimpl.
  by rewrite Nat.add_0_r, Nat.add_1_r, seq_S.
Qed.

End init_nodes.

(** X16. On a newly made planner [InitSomasStreamAndNode] never raises (the
    duplicate check cannot fire).  It makes one node per entry of the kernel
    list, in order, whose id is the position of the entry and which has no
    tensors and no ancestors yet; the keys of [nodes_id_map_] are those ids.
    [nodes_map_] holds, for every kernel of the list and no other, the
    positions at which the kernel occurs, ascending.  There is exactly one
    stream per stream id of the kernels, and it holds the positions of the
    kernels of that stream, ascending. *)
Theorem X16_nodes_follow_execution_order (graph : KernelGraph) :
  ∃ streams_list nodes_map,
    InitSomasStreamAndNode graph
    = Done (streams_list, imap (fresh_node graph) (node_kernels graph), nodes_map,
            seq 0 (length (node_kernels graph)))
    ∧ dense_node_ids (imap (fresh_node graph) (node_kernels graph))
    ∧ (∀ kernel, nodes_map kernel
                 = if bool_decide (kernel ∈ node_kernels graph)
                   then Some (occurrences kernel (node_kernels graph)) else None)
    ∧ NoDup (stream_id <$> streams_list)
    ∧ (∀ sid, sid ∈ stream_id <$> streams_list
              ↔ sid ∈ GetStreamId graph <$> node_kernels graph)
    ∧ (∀ s, s ∈ streams_list →
            nodes_ s = stream_positions graph (stream_id s) (node_kernels graph)).
Proof.
  destruct (init_node_fold graph (node_kernels graph))
    as (streams_list & nodes_map & Hfold & Hmap & Hnd & Hids & Hnodes).
  exists streams_list, nodes_map.
  pose proof (fresh_nodes_ids graph (node_kernels graph)) as Hdense.
  split_and!; try done.
  - unfold InitSomasStreamAndNode. fold (node_kernels graph). rewrite Hfold.
    rewrite nodes_id_map_fold by (rewrite Hdense; apply NoDup_seq).
    csimpl. by rewrite Hdense.
  - unfold dense_node_ids. by rewrite Hdense, length_imap.
Qed.

(** ** Making tensors: [InitSomasOutputAndWorkspaceTensors] *)

Section registry_tools.

Lemma dense_node_ids_lookup (nl : list SomasNode) (i : nat) (node : SomasNode) :
  dense_node_ids nl → nl !! i = Some node → node_id_ node = i.
Proof.
  unfold dense_node_ids. intros Hd Hi.
  assert ((node_id_ <$> nl) !! i = Some (node_id_ node)) as H by (by rewrite list_lookup_fmap, Hi).
  rewrite Hd in H. apply lookup_seq in H. lia.
Qed.

Context (R : SomasNode → SomasNode → Prop).
Hypothesis R_refl : ∀ node, R node node.
Hypothesis R_trans : ∀ a b c, R a b → R b c → R a c.
Hypothesis R_id : ∀ a b, R a b → node_id_ b = node_id_ a.

Lemma Forall2_rel_refl (nl : list SomasNode) : Forall2 R nl nl.
Proof. apply Forall2_lookup. intros i. destruct (nl !! i); constructor. apply R_refl. Qed.

Lemma Forall2_rel_trans (nl1 nl2 nl3 : list SomasNode) :
  Forall2 R nl1 nl2 → Forall2 R nl2 nl3 → Forall2 R nl1 nl3.
Proof.
  rewrite !Forall2_lookup. intros H12 H23 i. specialize (H12 i). specialize (H23 i).
  destruct H12 as [x y Hxy|]; inversion H23; subst; constructor.
  by eapply R_trans.
Qed.

Lemma Forall2_rel_insert (nl : list SomasNode) (i : nat) (node node' : SomasNode) :
  nl !! i = Some node → R node node' → Forall2 R nl (<[i := node']> nl).
Proof.
  intros Hi HR. apply Forall2_lookup. intros j. destruct (decide (j = i)) as [->|Hne].
  - rewrite list_lookup_insert_eq by (by eapply lookup_lt_Some). rewrite Hi. by constructor.
  - rewrite list_lookup_insert_ne by done. destruct (nl !! j); constructor. apply R_refl.
Qed.

Lemma Forall2_rel_lookup (nl nl' : list SomasNode) (i : nat) (node : SomasNode) :
  Forall2 R nl nl' → nl !! i = Some node → ∃ node', nl' !! i = Some node' ∧ R node node'.
Proof.
  intros H Hi. rewrite Forall2_lookup in H. specialize (H i). rewrite Hi in H.
  inversion H as [x node' Hxy Hx Hy|]; subst. by exists node'.
Qed.

Lemma Forall2_rel_lookup_r (nl nl' : list SomasNode) (i : nat) (node' : SomasNode) :
  Forall2 R nl nl' → nl' !! i = Some node' → ∃ node, nl !! i = Some node ∧ R node node'.
Proof.
  intros H Hi. rewrite Forall2_lookup in H. specialize (H i). rewrite Hi in H.
  inversion H as [node y Hxy Hx Hy|]; subst. by exists node.
Qed.

Lemma dense_node_ids_rel (nl nl' : list SomasNode) :
  Forall2 R nl nl' → dense_node_ids nl → dense_node_ids nl'.
Proof.
  unfold dense_node_ids. intros H Hd. rewrite <- (Forall2_length _ _ _ H), <- Hd.
  apply list_eq. intros i. rewrite !list_lookup_fmap. rewrite Forall2_lookup in H.
  specialize (H i). destruct H as [x y Hxy|]; [|done]. csimpl. f_equal. by apply R_id.
Qed.

(** [update_nodes] with a function that extends the nodes [nodes] along [R]
    and establishes [Q], which [R] keeps. *)
Lemma update_nodes_rel (Q : SomasNode → Prop) (f : SomasNode → SomasNode)
    (nodes : list nat) (nl : list SomasNode) :
  (∀ node, node_id_ node ∈ nodes → R node (f node) ∧ Q (f node)) →
  (∀ a b, R a b → Q a → Q b) →
  dense_node_ids nl →
  (∀ n, n ∈ nodes → n < length nl) →
  ∃ nl', update_nodes f nodes nl = Done nl'
         ∧ Forall2 R nl nl'
         ∧ ∀ n, n ∈ nodes → ∃ node', nl' !! n = Some node' ∧ Q node'.
Proof.
  intros Hf Hmono. unfold update_nodes.
  assert (∀ todo nl,
            (∀ n, n ∈ todo → n ∈ nodes) →
            dense_node_ids nl → (∀ n, n ∈ todo → n < length nl) →
            ∃ nl', foldl (fun acc nid => nl ← acc; node ← get_node nl nid;
                                         Done (<[nid := f node]> nl)) (Done nl) todo = Done nl'
                   ∧ Forall2 R nl nl'
                   ∧ ∀ n, n ∈ todo → ∃ node', nl' !! n = Some node' ∧ Q node') as Hgen.
  { intros todo. induction todo as [|n rest IH]; intros nl0 Hsub Hdense Hlen; cbn [foldl].
    - exists nl0. split_and!; [done|apply Forall2_rel_refl|].
      intros n H. by apply elem_of_nil in H.
    - destruct (lookup_lt_is_Some_2 nl0 n (Hlen n (list_elem_of_here _ _))) as [node Hnode].
      cbn [mbind Outcome_bind]. unfold get_node at 2. rewrite Hnode. cbn [mbind Outcome_bind].
      destruct (Hf node) as [HR HQ].
      { rewrite (dense_node_ids_lookup nl0 n node) by done. apply Hsub, list_elem_of_here. }
      pose proof (Forall2_rel_insert nl0 n node (f node) Hnode HR) as Hstep.
      destruct (IH (<[n := f node]> nl0)) as (nl' & Hrun & Hgrown & Hin).
      { intros m Hm. by apply Hsub, list_elem_of_further. }
      { by eapply dense_node_ids_rel. }
      { intros m Hm. rewrite length_insert. apply Hlen. by apply list_elem_of_further. }
      exists nl'. split_and!; [done|by eapply Forall2_rel_trans|].
      intros m [->|Hm]%elem_of_cons; [|by apply Hin].
      destruct (Forall2_rel_lookup (<[n := f node]> nl0) nl' n (f node) Hgrown)
        as (node' & Hnode' & HR').
      { by rewrite list_lookup_insert_eq by (by eapply lookup_lt_Some). }
      exists node'. split; [done|]. by eapply Hmono. }
  intros Hdense Hlen. by apply (Hgen nodes nl).
Qed.

(** When [update_nodes] returns, the nodes were registered. *)
Lemma update_nodes_Done_range (f : SomasNode → SomasNode) (nodes : list nat)
    (nl nl' : list SomasNode) :
  update_nodes f nodes nl = Done nl' → ∀ n, n ∈ nodes → n < length nl.
Proof.
  unfold update_nodes. revert nl. induction nodes as [|n rest IH]; intros nl Hrun m Hm.
  - by apply elem_of_nil in Hm.
  - cbn [foldl mbind Outcome_bind] in Hrun. unfold get_node at 2 in Hrun.
    destruct (nl !! n) as [node|] eqn:Hnode.
    + cbn [mbind Outcome_bind] in Hrun. apply elem_of_cons in Hm as [->|Hm].
      * by eapply lookup_lt_Some.
      * specialize (IH _ Hrun m Hm). by rewrite length_insert in IH.
    + cbn [mbind Outcome_bind] in Hrun. rewrite foldl_Undefined in Hrun; done.
Qed.

End registry_tools.

Section init_tensors.
Context (aligned : N → N) (graph : KernelGraph) (nodes_map : NodesMap).

Lemma tensor_listed_app tl tl' ty i tid :
  tensor_listed nodes_map tl ty i tid → tensor_listed nodes_map (tl ++ tl') ty i tid.
Proof. intros (t & Ht & Hty). exists t. split; [|done]. by apply lookup_app_l_Some. Qed.

Lemma node_grown_refl tl node : node_grown nodes_map tl node node.
Proof.
  unfold node_grown. split_and!; try done; exists []; by rewrite app_nil_r.
Qed.

Lemma node_grown_trans tl n1 n2 n3 :
  node_grown nodes_map tl n1 n2 → node_grown nodes_map tl n2 n3 → node_grown nodes_map tl n1 n3.
Proof.
  intros (A1 & A2 & A3 & A4 & A5 & (o1 & Ho1 & Fo1) & (w1 & Hw1 & Fw1))
         (B1 & B2 & B3 & B4 & B5 & (o2 & Ho2 & Fo2) & (w2 & Hw2 & Fw2)).
  rewrite A1 in Fo2, Fw2.
  unfold node_grown. split_and!; try congruence.
  - exists (o1 ++ o2). split; [|by apply Forall_app]. by rewrite Ho2, Ho1, <- (assoc_L (++)).
  - exists (w1 ++ w2). split; [|by apply Forall_app]. by rewrite Hw2, Hw1, <- (assoc_L (++)).
Qed.

Lemma node_grown_id tl n1 n2 : node_grown nodes_map tl n1 n2 → node_id_ n2 = node_id_ n1.
Proof. by intros (? & _). Qed.

Lemma node_grown_app tl tl' n1 n2 :
  node_grown nodes_map tl n1 n2 → node_grown nodes_map (tl ++ tl') n1 n2.
Proof.
  intros (A1 & A2 & A3 & A4 & A5 & (o1 & Ho1 & Fo1) & (w1 & Hw1 & Fw1)).
  unfold node_grown. split_and!; try done.
  - exists o1. split; [done|]. eapply Forall_impl; [done|]. intros. by apply tensor_listed_app.
  - exists w1. split; [done|]. eapply Forall_impl; [done|]. intros. by apply tensor_listed_app.
Qed.

Lemma Forall2_node_grown_app tl tl' nl1 nl2 :
  Forall2 (node_grown nodes_map tl) nl1 nl2 → Forall2 (node_grown nodes_map (tl ++ tl')) nl1 nl2.
Proof. intros H. eapply Forall2_impl; [done|]. intros. by apply node_grown_app. Qed.

Lemma node_grown_lists tl ty tid node node' :
  node_grown nodes_map tl node node' → lists_tensor ty tid node → lists_tensor ty tid node'.
Proof.
  intros (_ & _ & _ & _ & _ & (outs & Ho & _) & (ws & Hw & _)) [Q1 Q2].
  split; intros Hty.
  - rewrite Ho. apply elem_of_app. left. by apply Q1.
  - rewrite Hw. apply elem_of_app. left. by apply Q2.
Qed.

Lemma listed_by_source_grown tl1 tl nl nl' :
  Forall2 (node_grown nodes_map tl1) nl nl' → listed_by_source nl tl → listed_by_source nl' tl.
Proof.
  intros Hgrown Hlisted tid t Ht. destruct (Hlisted tid t Ht) as (node & Hnode & Hq).
  rewrite Forall2_lookup in Hgrown. specialize (Hgrown (source_node_id_ t)).
  rewrite Hnode in Hgrown. inversion Hgrown as [x node' Hxy Hx Hy|]; subst.
  exists node'. split; [done|]. by apply (node_grown_lists tl1 (type_ t) tid node node').
Qed.

Section one_kernel.
Context (nl0 : list SomasNode) (kernel n0 : nat) (rest : list nat) (node0 node : SomasNode).
Context (type : TensorType) (addr_exist : nat → bool) (push : nat → SomasNode → SomasNode).
Hypothesis Hdense : dense_node_ids nl0.
Hypothesis Hkernel : kernel ∈ execution_order graph.
Hypothesis Hmap : nodes_map kernel = Some (n0 :: rest).
Hypothesis Hrange : ∀ n, n ∈ n0 :: rest → n < length nl0.
Hypothesis Hnode0 : nl0 !! n0 = Some node0.
Hypothesis Hnode : node_id_ node = n0 ∧ stream_id_ node = stream_id_ node0.
Hypothesis Htype : type = kOutputOnly ∨ type = kWorkspace.
Hypothesis Hpush_grown :
  ∀ tl tid nd, tensor_listed nodes_map tl type (node_id_ nd) tid →
               node_grown nodes_map tl nd (push tid nd).
Hypothesis Hpush_lists : ∀ tid nd, lists_tensor type tid (push tid nd).

Lemma make_tensor_step_spec (nl : list SomasNode) (tl : list SomasTensor) (index : nat) (size : N) :
  tensors_made aligned graph nodes_map nl0 nl tl →
  ∃ nl' t,
    make_tensor_step aligned (n0 :: rest) node type addr_exist push
      (Done (nl, tl, length tl, index)) size
    = Done (nl', tl ++ [t], S (length tl), S index)
    ∧ tensors_made aligned graph nodes_map nl0 nl' (tl ++ [t]).
Proof.
  intros (Hids & Hfresh & Hgrown & Hlisted).
  destruct Hnode as [Hnid Hnstream].
  pose proof (Forall2_length _ _ _ Hgrown) as Hlen.
  pose proof (dense_node_ids_rel _ (node_grown_id tl) nl0 nl Hgrown Hdense) as Hdense'.
  destruct (proj2 (last_is_Some (n0 :: rest))) as [l Hlast]; [done|].
  assert (l ∈ n0 :: rest) as Hl by (apply last_Some_elem_of; done).
  unfold make_tensor_step. cbn [mbind Outcome_bind].
  assert ((if bool_decide (1 < length (n0 :: rest))
           then back ← get_node nl (default 0 (last (n0 :: rest))); Done (node_id_ back)
           else Done (node_id_ node)) = Done l) as ->.
  { case_bool_decide as Hsize.
    - rewrite Hlast. cbn [default from_option id].
      destruct (lookup_lt_is_Some_2 nl l) as [back Hback]; [rewrite <- Hlen; by apply Hrange|].
      unfold get_node. rewrite Hback. cbn [mbind Outcome_bind]. f_equal.
      by apply (dense_node_ids_lookup nl).
    - destruct rest; [|cbn [length] in Hsize; lia]. cbn in Hlast. congruence. }
  cbn [mbind Outcome_bind]. rewrite Hnid, Hnstream.
  set (t := if addr_exist index
            then with_aligned_size 0 (new_tensor aligned (length tl) n0 (stream_id_ node0) size
                                        type n0 l)
            else new_tensor aligned (length tl) n0 (stream_id_ node0) size type n0 l).
  assert (id_ t = length tl ∧ type_ t = type ∧ source_node_id_ t = n0 ∧ lifetime_end_ t = l
          ∧ source_stream_id_ t = stream_id_ node0 ∧ fresh_tensor aligned t) as Ht.
  { unfold t, fresh_tensor. destruct (addr_exist index); cbn; split_and!; auto. }
  destruct Ht as (Hid & Hty & Hsrc & Hend & Hstream & Hft).
  destruct (update_nodes_rel (node_grown nodes_map (tl ++ [t])) (node_grown_refl _)
              (node_grown_trans _) (node_grown_id _)
              (lists_tensor type (length tl)) (push (length tl)) (n0 :: rest) nl)
    as (nl' & Hrun & Hgrown' & Hin).
  { intros nd Hnd. split; [|apply Hpush_lists]. apply Hpush_grown.
    exists t. split_and!; [by rewrite list_lookup_middle|done|].
    exists kernel, (n0 :: rest). by rewrite Hsrc. }
  { intros nd nd' Hg Hq. by eapply node_grown_lists. }
  { done. }
  { intros n Hn. rewrite <- Hlen. by apply Hrange. }
  rewrite Hrun. cbn [mbind Outcome_bind]. exists nl', t. split; [done|].
  unfold tensors_made. split_and!.
  - unfold dense_ids in *. rewrite fmap_app, length_app, Hids. cbn [length].
    rewrite Nat.add_1_r, seq_S. csimpl. by rewrite Hid.
  - apply Forall_app. split; [done|]. apply Forall_singleton. split; [done|].
    exists kernel, (n0 :: rest), node0. rewrite Hsrc, Hend. split_and!; done.
  - eapply (Forall2_rel_trans _ (node_grown_trans _)); [|done].
    by apply Forall2_node_grown_app.
  - intros tid t' Htid. apply lookup_app_Some in Htid as [Htid|[Hge Htid]].
    + by apply (listed_by_source_grown (tl ++ [t]) tl nl nl' Hgrown' Hlisted).
    + apply list_lookup_singleton_Some in Htid as [Heq ->].
      assert (tid = length tl) as -> by lia. rewrite Hsrc.
      destruct (Hin n0 (list_elem_of_here _ _)) as (node' & Hnode' & Hq).
      exists node'. split; [done|]. by rewrite Hty.
Qed.

Lemma make_tensors_spec (sizes : list N) (nl : list SomasNode) (tl : list SomasTensor)
    (index : nat) :
  tensors_made aligned graph nodes_map nl0 nl tl →
  ∃ nl' tl' index',
    foldl (make_tensor_step aligned (n0 :: rest) node type addr_exist push)
      (Done (nl, tl, length tl, index)) sizes
    = Done (nl', tl', length tl', index')
    ∧ tensors_made aligned graph nodes_map nl0 nl' tl'
    ∧ length tl' = length tl + length sizes.
Proof.
  revert nl tl index. induction sizes as [|size sizes IH]; intros nl tl index Hmade; cbn [foldl].
  - exists nl, tl, index. split_and!; [done..|]. cbn [length]. lia.
  - destruct (make_tensor_step_spec nl tl index size Hmade) as (nl1 & t & -> & Hmade1).
    replace (S (length tl)) with (length (tl ++ [t])) by (rewrite length_app; cbn; lia).
    destruct (IH nl1 (tl ++ [t]) (S index) Hmade1) as (nl' & tl' & index' & Hrun & Hmade' & Hlen).
    exists nl', tl', index'. split_and!; [done..|].
    rewrite Hlen, length_app. cbn [length]. lia.
Qed.

End one_kernel.

Lemma push_output_grown tl tid nd :
  tensor_listed nodes_map tl kOutputOnly (node_id_ nd) tid →
  node_grown nodes_map tl nd (push_output tid nd).
Proof.
  intros H. unfold node_grown, push_output. cbn. split_and!; try done.
  - exists [tid]. split; [done|]. by apply Forall_singleton.
  - exists []. by rewrite app_nil_r.
Qed.

Lemma push_workspace_grown tl tid nd :
  tensor_listed nodes_map tl kWorkspace (node_id_ nd) tid →
  node_grown nodes_map tl nd (push_workspace tid nd).
Proof.
  intros H. unfold node_grown, push_workspace. cbn. split_and!; try done.
  - exists []. by rewrite app_nil_r.
  - exists [tid]. split; [done|]. by apply Forall_singleton.
Qed.

Lemma push_output_lists tid nd : lists_tensor kOutputOnly tid (push_output tid nd).
Proof.
  split; [|done]. intros _. cbn. apply elem_of_app. right. apply list_elem_of_here.
Qed.

Lemma push_workspace_lists tid nd : lists_tensor kWorkspace tid (push_workspace tid nd).
Proof.
  split; [done|]. intros _. cbn. apply elem_of_app. right. apply list_elem_of_here.
Qed.

Lemma init_kernel_tensors_spec (nl0 nl : list SomasNode) (tl : list SomasTensor) (kernel : nat) :
  dense_node_ids nl0 →
  kernel ∈ execution_order graph →
  is_Some (GetKernelMod graph kernel) →
  (∃ nodes, nodes_map kernel = Some nodes ∧ nodes ≠ [] ∧ ∀ n, n ∈ nodes → n < length nl0) →
  tensors_made aligned graph nodes_map nl0 nl tl →
  ∃ nl' tl',
    init_kernel_tensors aligned graph nodes_map (Done (nl, tl, length tl)) kernel
    = Done (nl', tl', length tl')
    ∧ tensors_made aligned graph nodes_map nl0 nl' tl'
    ∧ length tl' = length tl + tensor_count graph kernel.
Proof.
  intros Hdense Hkernel [kernel_mod Hmod] (nodes & Hmap & Hne & Hrange) Hmade.
  destruct nodes as [|n0 rest]; [done|].
  unfold init_kernel_tensors. cbn [mbind Outcome_bind]. rewrite Hmap, Hmod.
  pose proof Hmade as (_ & _ & Hgrown & _).
  destruct (lookup_lt_is_Some_2 nl0 n0 (Hrange n0 (list_elem_of_here _ _))) as [node0 Hnode0].
  pose proof Hgrown as Hg. rewrite Forall2_lookup in Hg. specialize (Hg n0). rewrite Hnode0 in Hg.
  inversion Hg as [x node Hxy Hx Hnode|]; subst x. symmetry in Hnode.
  unfold get_node. rewrite Hnode. cbn [mbind Outcome_bind].
  assert (node_id_ node = n0 ∧ stream_id_ node = stream_id_ node0) as Hnode'.
  { destruct Hxy as (-> & -> & _). split; [|done]. by apply (dense_node_ids_lookup nl0). }
  destruct (make_tensors_spec nl0 kernel n0 rest node0 node kOutputOnly
              (OutputAddrExist graph kernel) push_output Hdense Hkernel Hmap Hrange Hnode0 Hnode'
              (or_introl eq_refl) push_output_grown push_output_lists
              (GetOutputSizeList kernel_mod) nl tl 0 Hmade)
    as (nl1 & tl1 & i1 & -> & Hmade1 & Hlen1).
  cbn [mbind Outcome_bind].
  destruct (make_tensors_spec nl0 kernel n0 rest node0 node kWorkspace
              (WorkspaceAddrExist graph kernel) push_workspace Hdense Hkernel Hmap Hrange Hnode0
              Hnode' (or_intror eq_refl) push_workspace_grown push_workspace_lists
              (GetWorkspaceSizeList kernel_mod) nl1 tl1 0 Hmade1)
    as (nl2 & tl2 & i2 & -> & Hmade2 & Hlen2).
  cbn [mbind Outcome_bind]. exists nl2, tl2. split_and!; [done..|].
  unfold tensor_count. rewrite Hmod. lia.
Qed.

Lemma init_kernels_fold (nl0 : list SomasNode) (kernels : list nat) (nl : list SomasNode)
    (tl : list SomasTensor) :
  dense_node_ids nl0 →
  (∀ kernel, kernel ∈ kernels →
     kernel ∈ execution_order graph ∧ is_Some (GetKernelMod graph kernel)
     ∧ ∃ nodes, nodes_map kernel = Some nodes ∧ nodes ≠ [] ∧ ∀ n, n ∈ nodes → n < length nl0) →
  tensors_made aligned graph nodes_map nl0 nl tl →
  ∃ nl' tl',
    foldl (init_kernel_tensors aligned graph nodes_map) (Done (nl, tl, length tl)) kernels
    = Done (nl', tl', length tl')
    ∧ tensors_made aligned graph nodes_map nl0 nl' tl'
    ∧ length tl' = length tl + sum_list (tensor_count graph <$> kernels).
Proof.
  intros Hdense. revert nl tl.
  induction kernels as [|kernel kernels IH]; intros nl tl Hpre Hmade; cbn [foldl].
  - exists nl, tl. split_and!; [done..|]. csimpl. lia.
  - destruct (Hpre kernel (list_elem_of_here _ _)) as (Hk & Hmod & Hnodes).
    destruct (init_kernel_tensors_spec nl0 nl tl kernel Hdense Hk Hmod Hnodes Hmade)
      as (nl1 & tl1 & -> & Hmade1 & Hlen1).
    destruct (IH nl1 tl1) as (nl' & tl' & Hrun & Hmade' & Hlen'); [|done|].
    { intros k Hin. apply Hpre. by apply list_elem_of_further. }
    exists nl', tl'. split_and!; [done..|]. csimpl. lia.
Qed.

End init_tensors.

(** X17. On nodes whose ids are dense, and when every kernel of the
    execution order has a kernel mod and a non-empty list of registered nodes
    in [nodes_map_], [InitSomasOutputAndWorkspaceTensors] does not fail.  It
    makes one tensor per entry of the size lists, with dense ids; every
    tensor is not lifelong, of type OutputOnly or Workspace, sourced at the
    first node of its kernel and live from there to the last node of the
    kernel, with aligned size 0 or the rounded size.  The nodes change only
    in that registered tensors are appended to their output and workspace
    lists, and every tensor is in the list that its type says of its source
    node. *)
Theorem X17_tensors_made_in_execution_order (aligned : N → N) (graph : KernelGraph)
    (nodes_map : NodesMap) (nodes_list : list SomasNode) :
  dense_node_ids nodes_list →
  (∀ kernel, kernel ∈ execution_order graph →
     is_Some (GetKernelMod graph kernel)
     ∧ ∃ nodes, nodes_map kernel = Some nodes ∧ nodes ≠ []
                ∧ ∀ n, n ∈ nodes → n < length nodes_list) →
  ∃ nodes_list' tensors_list,
    InitSomasOutputAndWorkspaceTensors aligned graph nodes_map nodes_list
    = Done (nodes_list', tensors_list)
    ∧ tensors_made aligned graph nodes_map nodes_list nodes_list' tensors_list
    ∧ length tensors_list = sum_list (tensor_count graph <$> execution_order graph).
Proof.
  intros Hdense Hpre.
  destruct (init_kernels_fold aligned graph nodes_map nodes_list (execution_order graph)
              nodes_list [] Hdense) as (nl' & tl' & Hrun & Hmade & Hlen).
  - intros kernel Hin. split; [done|]. by apply Hpre.
  - unfold tensors_made. split_and!; [done|constructor| |].
    { apply Forall2_rel_refl. apply node_grown_refl. }
    intros tid t Ht. by rewrite lookup_nil in Ht.
  - exists nl', tl'. unfold InitSomasOutputAndWorkspaceTensors.
    cbn [length] in Hrun. rewrite Hrun. cbn [mbind Outcome_bind]. split_and!; done.
Qed.

Lemma X17_witness :
  ∃ nodes_list tensors_list,
    InitSomasOutputAndWorkspaceTensors round_up_512 two_kernel_graph two_kernel_nodes_map
      (imap (fresh_node two_kernel_graph) [10; 11])
    = Done (nodes_list, tensors_list)
    ∧ dense_ids tensors_list ∧ length tensors_list = 4.
Proof.
  destruct (X17_tensors_made_in_execution_order round_up_512 two_kernel_graph
              two_kernel_nodes_map (imap (fresh_node two_kernel_graph) [10; 11]))
    as (nl & tl & Hrun & (Hdense & _) & Hlen).
  - reflexivity.
  - intros kernel Hin. apply list_elem_of_In in Hin. cbn in Hin.
    destruct Hin as [<-|[<-|[]]].
    + split; [by eexists|]. exists [0]. split_and!; [done..|].
      intros n Hn. apply list_elem_of_singleton in Hn as ->. cbn. lia.
    + split; [by eexists|]. exists [1]. split_and!; [done..|].
      intros n Hn. apply list_elem_of_singleton in Hn as ->. cbn. lia.
  - exists nl, tl. split_and!; done.
Defined.

(** ** Linking inputs: [InitSomasInputTensors] *)

Section forall2_tools.
Context {A : Type} (R : A → A → Prop).
Hypothesis R_refl : ∀ a, R a a.
Hypothesis R_trans : ∀ a b c, R a b → R b c → R a c.

Lemma Forall2_refl_all (l : list A) : Forall2 R l l.
Proof. apply Forall2_lookup. intros i. destruct (l !! i); constructor. apply R_refl. Qed.

Lemma Forall2_trans_all (l1 l2 l3 : list A) : Forall2 R l1 l2 → Forall2 R l2 l3 → Forall2 R l1 l3.
Proof.
  rewrite !Forall2_lookup. intros H12 H23 i. specialize (H12 i). specialize (H23 i).
  destruct H12 as [x y Hxy|]; inversion H23; subst; constructor.
  by eapply R_trans.
Qed.

Lemma Forall2_insert_r (l : list A) (i : nat) (a a' : A) :
  l !! i = Some a → R a a' → Forall2 R l (<[i := a']> l).
Proof.
  intros Hi HR. apply Forall2_lookup. intros j. destruct (decide (j = i)) as [->|Hne].
  - rewrite list_lookup_insert_eq by (by eapply lookup_lt_Some). rewrite Hi. by constructor.
  - rewrite list_lookup_insert_ne by done. destruct (l !! j); constructor. apply R_refl.
Qed.

Lemma Forall2_lookup_l_rel (l l' : list A) (i : nat) (a : A) :
  Forall2 R l l' → l !! i = Some a → ∃ a', l' !! i = Some a' ∧ R a a'.
Proof.
  intros H Hi. rewrite Forall2_lookup in H. specialize (H i). rewrite Hi in H.
  inversion H as [x a' Hxy Hx Hy|]; subst. by exists a'.
Qed.

Lemma Forall2_lookup_r_rel (l l' : list A) (i : nat) (a' : A) :
  Forall2 R l l' → l' !! i = Some a' → ∃ a, l !! i = Some a ∧ R a a'.
Proof.
  intros H Hi. rewrite Forall2_lookup in H. specialize (H i). rewrite Hi in H.
  inversion H as [a y Hxy Hx Hy|]; subst. by exists a.
Qed.

End forall2_tools.

Section linking.
Context (nodes_map : NodesMap).

Lemma set_insert_elem (x y : nat) (l : list nat) : y ∈ set_insert x l ↔ y = x ∨ y ∈ l.
Proof.
  induction l as [|z l IH]; cbn [set_insert].
  - rewrite list_elem_of_singleton. split; [by left|]. intros [?|H]; [done|].
    by apply elem_of_nil in H.
  - destruct (x <? z) eqn:E1; [by rewrite elem_of_cons|].
    destruct (x =? z) eqn:E2.
    + apply Nat.eqb_eq in E2 as ->. rewrite elem_of_cons. tauto.
    + rewrite !elem_of_cons, IH. tauto.
Qed.

Lemma node_linked_refl bound node : node_linked bound node node.
Proof. unfold node_linked. split_and!; try done; exists []; by rewrite app_nil_r. Qed.

Lemma node_linked_trans bound n1 n2 n3 :
  node_linked bound n1 n2 → node_linked bound n2 n3 → node_linked bound n1 n3.
Proof.
  intros (A1 & A2 & A3 & A4 & (o1 & Ho1 & Fo1) & (i1 & Hi1 & Fi1) & A5)
         (B1 & B2 & B3 & B4 & (o2 & Ho2 & Fo2) & (i2 & Hi2 & Fi2) & B5).
  unfold node_linked. split_and!; try congruence.
  - exists (o1 ++ o2). split; [|by apply Forall_app]. by rewrite Ho2, Ho1, <- (assoc_L (++)).
  - exists (i1 ++ i2). split; [|by apply Forall_app]. by rewrite Hi2, Hi1, <- (assoc_L (++)).
  - intros a Ha. by apply B5, A5.
Qed.

Lemma node_inputs_grown_refl bound node : node_inputs_grown bound node node.
Proof. split; [apply node_linked_refl|done]. Qed.

Lemma node_inputs_grown_trans bound n1 n2 n3 :
  node_inputs_grown bound n1 n2 → node_inputs_grown bound n2 n3 → node_inputs_grown bound n1 n3.
Proof.
  intros [H1 E1] [H2 E2]. split; [by eapply node_linked_trans|congruence].
Qed.

Lemma node_inputs_grown_id bound n1 n2 : node_inputs_grown bound n1 n2 → node_id_ n2 = node_id_ n1.
Proof. by intros [(? & _) _]. Qed.

Lemma tensor_linked_refl t : tensor_linked t t.
Proof. unfold tensor_linked. split_and!; done. Qed.

Lemma tensor_linked_trans t1 t2 t3 : tensor_linked t1 t2 → tensor_linked t2 t3 → tensor_linked t1 t3.
Proof.
  intros (A1 & A2 & A3 & A4 & A5 & A6 & A7 & A8 & A9 & A10 & A11)
         (B1 & B2 & B3 & B4 & B5 & B6 & B7 & B8 & B9 & B10 & B11).
  unfold tensor_linked. split_and!; try congruence; [lia|].
  intros d Hd. by apply B11, A11.
Qed.

Lemma dense_ids_linked (tl tl' : list SomasTensor) :
  Forall2 tensor_linked tl tl' → dense_ids tl → dense_ids tl'.
Proof.
  unfold dense_ids. intros H Hd. rewrite <- (Forall2_length _ _ _ H), <- Hd.
  apply list_eq. intros i. rewrite !list_lookup_fmap. rewrite Forall2_lookup in H.
  specialize (H i). destruct H as [x y Hxy|]; [|done]. csimpl. f_equal. by destruct Hxy.
Qed.

Lemma first_node_of_functional (nl : list SomasNode) (i n0 n0' : nat) :
  nodes_map_ok nodes_map nl →
  first_node_of nodes_map i n0 → first_node_of nodes_map i n0' → n0 = n0'.
Proof.
  intros [_ Hdisj] (k1 & ns1 & Hk1 & Hin1 & Hh1) (k2 & ns2 & Hk2 & Hin2 & Hh2).
  assert (k1 = k2) as -> by (by eapply Hdisj). congruence.
Qed.

Lemma consumed_at_mono bound (nl nl' : list SomasNode) (tid : nat) (t t' : SomasTensor) (d : nat) :
  Forall2 (node_linked bound) nl nl' → tensor_linked t t' →
  consumed_at nodes_map nl tid t d → consumed_at nodes_map nl' tid t' d.
Proof.
  intros Hnl Ht (Hle & (node & Hnode & Hin) & (n0 & node0 & Hfirst & Hnode0 & Hsrc)).
  destruct Ht as (_ & Hs & _ & _ & _ & _ & _ & _ & _ & Hend & _).
  destruct (Forall2_lookup_l_rel _ nl nl' d node Hnl Hnode)
    as (node' & Hnode' & (_ & _ & _ & _ & _ & (ins & Hins & _) & _)).
  destruct (Forall2_lookup_l_rel _ nl nl' n0 node0 Hnl Hnode0)
    as (node0' & Hnode0' & (_ & _ & _ & _ & _ & _ & Hanc)).
  unfold consumed_at. split_and!.
  - lia.
  - exists node'. split; [done|]. rewrite Hins. apply elem_of_app. by left.
  - exists n0, node0'. rewrite Hs. split_and!; [done..|].
    destruct Hsrc as [?|?]; [by left|right; by apply Hanc].
Qed.

(** A step that links the registry further keeps it linked up, when the new
    outputs and the new destinations are sound. *)
Lemma registry_ok_step (nl nl' : list SomasNode) (tl tl' : list SomasTensor) :
  nodes_map_ok nodes_map nl →
  registry_ok nodes_map nl tl →
  Forall2 (node_linked (length tl')) nl nl' →
  dense_ids tl' →
  (∀ tid t, tl !! tid = Some t → ∃ t', tl' !! tid = Some t' ∧ tensor_linked t t') →
  (∀ i node node' tid t',
     nl !! i = Some node → nl' !! i = Some node' →
     tid ∈ output_tensors_ node' → tid ∉ output_tensors_ node → tl' !! tid = Some t' →
     first_node_of nodes_map i (source_node_id_ t')) →
  (∀ tid t' d,
     tl' !! tid = Some t' → d ∈ destination_nodes_ t' →
     (∃ t, tl !! tid = Some t ∧ d ∈ destination_nodes_ t)
     ∨ consumed_at nodes_map nl' tid t' d) →
  registry_ok nodes_map nl' tl'.
Proof.
  intros Hmap (R1 & R2 & R3 & R4 & R5) Hnl Hdense Hold Hout Hdest.
  assert (length tl ≤ length tl') as Hlen.
  { destruct (decide (length tl = 0)) as [->|Hne]; [lia|].
    destruct (lookup_lt_is_Some_2 tl (length tl - 1)) as [t Ht]; [lia|].
    destruct (Hold _ _ Ht) as (t' & Ht' & _). apply lookup_lt_Some in Ht'. lia. }
  unfold registry_ok. split_and!.
  - eapply (dense_node_ids_rel (node_linked (length tl'))); [|done..].
    by intros a b (? & _).
  - done.
  - intros i node' tid Hnode' Hin.
    destruct (Forall2_lookup_r_rel _ nl nl' i node' Hnl Hnode')
      as (node & Hnode & (_ & _ & _ & Hws & (outs & Houts & Fo) & (ins & Hins & Fi) & _)).
    rewrite Hws, Houts, Hins, !elem_of_app in Hin. rewrite Forall_forall in Fo, Fi.
    destruct Hin as [[Hin|Hin]|[[Hin|Hin]|Hin]]; try (by apply Fo); try (by apply Fi);
      (eapply Nat.lt_le_trans; [eapply (R3 i node tid Hnode); eauto|done]).
  - intros i node' tid t' Hnode' Hin Ht'.
    destruct (Forall2_lookup_r_rel _ nl nl' i node' Hnl Hnode') as (node & Hnode & Hlink).
    destruct (decide (tid ∈ output_tensors_ node)) as [Hold_out|Hnew]; [|by eapply Hout].
    destruct (lookup_lt_is_Some_2 tl tid) as [t Ht]; [eapply R3; eauto|].
    destruct (Hold _ _ Ht) as (t'' & Ht'' & Hlinked). rewrite Ht' in Ht''. injection Ht'' as <-.
    destruct Hlinked as (_ & -> & _). by eapply R4.
  - intros tid t' d Ht' Hd. destruct (Hdest tid t' d Ht' Hd) as [(t & Ht & Hdt)|Hnew]; [|done].
    destruct (Hold _ _ Ht) as (t'' & Ht'' & Hlinked). rewrite Ht' in Ht''. injection Ht'' as <-.
    eapply consumed_at_mono; [done..|]. by eapply R5.
Qed.

Lemma nodes_map_ok_linked bound (nl nl' : list SomasNode) :
  Forall2 (node_linked bound) nl nl' → nodes_map_ok nodes_map nl → nodes_map_ok nodes_map nl'.
Proof.
  intros H [H1 H2]. split; [|done]. intros kernel nodes Hk.
  rewrite <- (Forall2_length _ _ _ H). by apply (H1 kernel).
Qed.

Lemma input_frame_refl t : input_frame t t.
Proof. split_and!; [apply tensor_linked_refl|by left..]. Qed.

Lemma input_frame_trans t1 t2 t3 : input_frame t1 t2 → input_frame t2 t3 → input_frame t1 t3.
Proof.
  intros (A1 & A2 & A3) (B1 & B2 & B3). split_and!.
  - by eapply tensor_linked_trans.
  - destruct A2 as [A2|[A2 A2']], B2 as [B2|[B2 B2']]; try (left; congruence);
      try (right; split; congruence).
  - destruct A3 as [A3|A3], B3 as [B3|B3]; try (left; congruence); right; congruence.
Qed.

Lemma input_frame_linked tl tl' : Forall2 input_frame tl tl' → Forall2 tensor_linked tl tl'.
Proof. intros H. eapply Forall2_impl; [done|]. by intros t t' [? _]. Qed.

Lemma add_destinations_spec (nodes : list nat) (nl : list SomasNode) (t t' : SomasTensor) :
  dense_node_ids nl →
  add_destinations nodes nl t = Done t' →
  tensor_linked t t' ∧ type_ t' = type_ t ∧ lifelong_value_ t' = lifelong_value_ t
  ∧ (∀ n, n ∈ nodes → n < length nl ∧ n ∈ destination_nodes_ t' ∧ n ≤ lifetime_end_ t')
  ∧ (∀ d, d ∈ destination_nodes_ t' → d ∈ destination_nodes_ t ∨ d ∈ nodes).
Proof.
  intros Hdense. unfold add_destinations. revert t.
  induction nodes as [|n rest IH]; intros t Hrun; cbn [foldl] in Hrun.
  - injection Hrun as <-. split_and!; [apply tensor_linked_refl|done..| |by left].
    intros n Hn. by apply elem_of_nil in Hn.
  - cbn [mbind Outcome_bind] in Hrun. unfold get_node at 2 in Hrun.
    destruct (nl !! n) as [node|] eqn:Hnode; cbn [mbind Outcome_bind] in Hrun;
      [|by rewrite foldl_Undefined in Hrun].
    rewrite (dense_node_ids_lookup nl n node) in Hrun by done.
    apply IH in Hrun as (Hlinked & Hty & Hll & Hnew & Hold).
    set (t1 := with_destination_nodes (set_insert n (destination_nodes_ t)) t) in *.
    set (t2 := if bool_decide (lifetime_end_ t1 < n) then with_lifetime_end n t1 else t1) in *.
    assert (tensor_linked t t2 ∧ type_ t2 = type_ t ∧ lifelong_value_ t2 = lifelong_value_ t
            ∧ n ≤ lifetime_end_ t2
            ∧ ∀ d, d ∈ destination_nodes_ t2 ↔ d = n ∨ d ∈ destination_nodes_ t) as Ht2.
    { unfold t2, t1, tensor_linked. case_bool_decide; cbn in *; split_and!;
        try done; try lia; try (intros d; rewrite set_insert_elem; tauto); intros d;
        apply set_insert_elem. }
    destruct Ht2 as (Hl2 & Hty2 & Hll2 & Hend2 & Hd2).
    split_and!.
    + by eapply tensor_linked_trans.
    + congruence.
    + congruence.
    + intros m [->|Hm]%elem_of_cons; [|by apply Hnew].
      destruct Hlinked as (_ & _ & _ & _ & _ & _ & _ & _ & _ & Hend & Hdest).
      split_and!; [by eapply lookup_lt_Some| |lia]. apply Hdest, Hd2. by left.
    + intros d Hd. destruct (Hold d Hd) as [Hd'|Hd'].
      * apply Hd2 in Hd' as [->|?]; [right; apply list_elem_of_here|by left].
      * right. by apply list_elem_of_further.
Qed.

Lemma ancestors_grown_inputs_grown bound (nl nl' : list SomasNode) :
  ancestors_grown nl nl' → Forall2 (node_inputs_grown bound) nl nl'.
Proof.
  intros H. apply Forall2_lookup. intros i. destruct (H i) as [extra Hi]. rewrite Hi.
  destruct (nl !! i) as [node|]; constructor.
  split; [|done]. unfold node_linked. cbn. split_and!; try done.
  - exists []. by rewrite app_nil_r.
  - exists []. by rewrite app_nil_r.
  - intros a Ha. apply elem_of_app. by left.
Qed.

Lemma inputs_grown_linked bound (nl nl' : list SomasNode) :
  Forall2 (node_inputs_grown bound) nl nl' → Forall2 (node_linked bound) nl nl'.
Proof. intros H. eapply Forall2_impl; [done|]. by intros a b [? _]. Qed.

Lemma push_input_grown bound tid node :
  tid < bound → node_inputs_grown bound node (push_input tid node).
Proof.
  intros Hlt. split; [|done]. unfold node_linked, push_input. cbn. split_and!; try done.
  - exists []. by rewrite app_nil_r.
  - exists [tid]. split; [done|]. by apply Forall_singleton.
Qed.

Lemma dense_ids_insert (tl : list SomasTensor) (tid : nat) (t t' : SomasTensor) :
  dense_ids tl → tl !! tid = Some t → id_ t' = id_ t → dense_ids (<[tid := t']> tl).
Proof.
  unfold dense_ids. intros Hd Ht Hid. rewrite list_fmap_insert, length_insert, Hid.
  rewrite list_insert_id; [done|]. by rewrite list_lookup_fmap, Ht.
Qed.

(** The input loop of [InitCommonNodeInputs] keeps the registry linked
    up. *)
Lemma common_input_step_ok (graph : KernelGraph) (kernel n0 : nat) (rest : list nat)
    (nl : list SomasNode) (tl : list SomasTensor) (params : Parameters) (r i : nat)
    (nl' : list SomasNode) (tl' : list SomasTensor) (params' : Parameters) (r' : nat) :
  nodes_map_ok nodes_map nl → registry_ok nodes_map nl tl →
  nodes_map kernel = Some (n0 :: rest) →
  common_input_step graph nodes_map kernel n0 rest (Done (nl, tl, params, r)) i
  = Done (nl', tl', params', r') →
  registry_ok nodes_map nl' tl'
  ∧ Forall2 (node_inputs_grown (length tl)) nl nl' ∧ Forall2 input_frame tl tl'.
Proof.
  intros Hmap Hok Hkernel Hrun.
  assert (registry_ok nodes_map nl tl
          ∧ Forall2 (node_inputs_grown (length tl)) nl nl ∧ Forall2 input_frame tl tl) as Hsame.
  { split_and!; [done|apply Forall2_refl_all, node_inputs_grown_refl
                |apply Forall2_refl_all, input_frame_refl]. }
  unfold common_input_step in Hrun. cbn [mbind Outcome_bind] in Hrun.
  destruct (VisitInput graph kernel i (negb (IsAllNopNode graph))) as [[| |prenode_index]|];
    try discriminate Hrun.
  destruct (IsRealCNodeKernel prenode_index); cbn [negb] in Hrun.
  2:{ destruct (IsNoneInputOfDynamicRnn graph kernel i); [by injection Hrun as <- <- <- <-|].
      destruct (GetSomasParameter _ _ _ _) as [[params1 parameter]| |];
        cbn [mbind Outcome_bind] in Hrun; try discriminate Hrun.
      by injection Hrun as <- <- <- <-. }
  destruct (nodes_map (kernel_of prenode_index)) as [[|p0 ps]|] eqn:Hpre; try discriminate Hrun.
  unfold get_node at 1 in Hrun.
  destruct (nl !! p0) as [pre_somas_node|] eqn:Hp0; cbn [mbind Outcome_bind] in Hrun;
    [|discriminate Hrun].
  case_bool_decide as Hbound; [discriminate Hrun|].
  destruct (output_tensors_ pre_somas_node !! index_of prenode_index) as [tid|] eqn:Htid;
    [|discriminate Hrun].
  destruct (update_nodes (push_input tid) (n0 :: rest) nl) as [nl1| |] eqn:Hupd;
    cbn [mbind Outcome_bind] in Hrun; try discriminate Hrun.
  destruct (get_tensor tl tid) as [t| |] eqn:Ht; cbn [mbind Outcome_bind] in Hrun;
    try discriminate Hrun.
  apply get_tensor_Done in Ht.
  set (t1 := if bool_decide (type_ t = kOutputOnly) then with_type kCommon t else t) in *.
  destruct (add_destinations (n0 :: rest) nl1 t1) as [t2| |] eqn:Hadd;
    cbn [mbind Outcome_bind] in Hrun; try discriminate Hrun.
  destruct (if bool_decide (n0 ≠ p0) then insert_ancestor n0 p0 nl1 else Done nl1)
    as [nl2| |] eqn:Hanc; cbn [mbind Outcome_bind] in Hrun; try discriminate Hrun.
  injection Hrun as <- <- <- <-.
  pose proof Hok as (R1 & R2 & R3 & R4 & R5).
  assert (tid < length tl) as Htid_lt by (by eapply lookup_lt_Some).
  (* the nodes after the pushes *)
  pose proof (update_nodes_Done_range _ _ _ _ Hupd) as Hrange.
  destruct (update_nodes_rel (node_inputs_grown (length tl)) (node_inputs_grown_refl _)
              (node_inputs_grown_trans _) (node_inputs_grown_id _)
              (fun node => tid ∈ input_tensors_ node) (push_input tid) (n0 :: rest) nl)
    as (nl1' & Hupd' & Hgrown1 & Hin1); [| |done|done|].
  { intros node _. split; [by apply push_input_grown|].
    cbn. apply elem_of_app. right. apply list_elem_of_here. }
  { intros a b [(_ & _ & _ & _ & _ & (ins & -> & _) & _) _] Ha. apply elem_of_app. by left. }
  rewrite Hupd in Hupd'. injection Hupd' as <-.
  pose proof (dense_node_ids_rel _ (node_inputs_grown_id _) nl nl1 Hgrown1 R1) as Hdense1.
  (* the tensor *)
  apply add_destinations_spec in Hadd as (Hlinked & Hty2 & Hll2 & Hnew & Hold); [|done].
  assert (input_frame t t2) as Hframe.
  { assert (input_frame t t1) as H1.
    { unfold t1. destruct (decide (type_ t = kOutputOnly)) as [Hty|Hty].
      - rewrite bool_decide_eq_true_2 by done.
        split_and!; [unfold tensor_linked; cbn; split_and!; done|by right|by left].
      - rewrite bool_decide_eq_false_2 by done. apply input_frame_refl. }
    eapply input_frame_trans; [exact H1|]. split_and!; [done|by left|by left]. }
  assert (source_node_id_ t = p0) as Hsrc.
  { eapply (first_node_of_functional nl p0); [done| |].
    - eapply (R4 p0 pre_somas_node tid t); [done| |done]. by eapply list_elem_of_lookup_2.
    - exists (kernel_of prenode_index), (p0 :: ps). split_and!; [done|apply list_elem_of_here|done]. }
  (* the ancestor *)
  assert (Forall2 (node_inputs_grown (length tl)) nl1 nl2
          ∧ (n0 ≠ p0 → ∃ node, nl2 !! n0 = Some node ∧ p0 ∈ ancestor_nodes_ node)) as [Hgrown2 Hp0'].
  { destruct (decide (n0 ≠ p0)) as [Hne|Hne].
    - rewrite bool_decide_eq_true_2 in Hanc by done.
      apply insert_ancestor_spec in Hanc as [Hg Hex].
      split; [by apply ancestors_grown_inputs_grown|done].
    - rewrite bool_decide_eq_false_2 in Hanc by done.
      injection Hanc as <-. split; [apply Forall2_refl_all, node_inputs_grown_refl|done]. }
  assert (Forall2 (node_inputs_grown (length tl)) nl nl2) as Hgrown
    by (by apply (Forall2_trans_all _ (node_inputs_grown_trans _) nl nl1 nl2)).
  assert (Forall2 input_frame tl (<[tid := t2]> tl)) as Hframes
    by (apply (Forall2_insert_r _ input_frame_refl tl tid t t2 Ht Hframe)).
  split_and!; [|done|done].
  eapply (registry_ok_step nl nl2 tl (<[tid := t2]> tl)); try done.
  - rewrite length_insert. by apply inputs_grown_linked.
  - eapply dense_ids_insert; [done..|]. by destruct Hframe as [(? & _) _].
  - intros tid' t' Ht'. by apply (Forall2_lookup_l_rel _ _ _ _ _ (input_frame_linked _ _ Hframes)).
  - intros j node node' tid' t' Hnode Hnode' Hin Hnot.
    destruct (Forall2_lookup_l_rel _ _ _ _ _ Hgrown Hnode) as (node'' & Hnode'' & [_ Hout]).
    rewrite Hnode' in Hnode''. injection Hnode'' as <-. by rewrite Hout in Hin.
  - intros tid' t' d Ht' Hd. destruct (decide (tid' = tid)) as [->|Hne].
    + rewrite list_lookup_insert_eq in Ht' by done. injection Ht' as <-.
      destruct (Hold d Hd) as [Hd1|Hd2].
      * left. exists t. split; [done|]. unfold t1 in Hd1.
        by destruct (bool_decide (type_ t = kOutputOnly)).
      * right. destruct (Hnew d Hd2) as (Hlt & _ & Hend).
        destruct (Hin1 d Hd2) as (node1 & Hnode1 & Hin).
        destruct (Forall2_lookup_l_rel _ _ _ _ _ Hgrown2 Hnode1)
          as (node2 & Hnode2 & [(_ & _ & _ & _ & _ & (ins & Hins & _) & _) _]).
        unfold consumed_at. split_and!; [done| |].
        -- exists node2. split; [done|]. rewrite Hins. apply elem_of_app. by left.
        -- destruct Hframe as [(_ & Hs & _) _]. rewrite Hs, Hsrc.
           destruct (lookup_lt_is_Some_2 nl2 n0) as [node0 Hnode0].
           { rewrite <- (Forall2_length _ _ _ Hgrown). apply Hrange, list_elem_of_here. }
           exists n0, node0. split_and!; [|done|].
           ++ exists kernel, (n0 :: rest). done.
           ++ destruct (decide (n0 = p0)) as [?|Hne]; [by left|right].
              destruct (Hp0' Hne) as (node0' & Hnode0' & Hanc0). congruence.
    + rewrite list_lookup_insert_ne in Ht' by done. left. by exists t'.
Qed.

Lemma inputs_linked_from_refl nl tl :
  registry_ok nodes_map nl tl → inputs_linked_from nodes_map nl tl nl tl.
Proof.
  intros H. split_and!; [done|apply Forall2_refl_all, node_inputs_grown_refl
                        |apply Forall2_refl_all, input_frame_refl].
Qed.

Lemma inputs_linked_from_step nl0 tl0 nl tl nl' tl' :
  inputs_linked_from nodes_map nl0 tl0 nl tl →
  registry_ok nodes_map nl' tl'
  ∧ Forall2 (node_inputs_grown (length tl)) nl nl' ∧ Forall2 input_frame tl tl' →
  inputs_linked_from nodes_map nl0 tl0 nl' tl'.
Proof.
  intros (_ & Hn & Ht) (Hok & Hn' & Ht'). rewrite <- (Forall2_length _ _ _ Ht) in Hn'.
  split_and!; [done| |].
  - by apply (Forall2_trans_all _ (node_inputs_grown_trans _) nl0 nl nl').
  - by apply (Forall2_trans_all _ input_frame_trans tl0 tl tl').
Qed.

Lemma inputs_linked_from_map_ok nl0 tl0 nl tl :
  nodes_map_ok nodes_map nl0 → inputs_linked_from nodes_map nl0 tl0 nl tl →
  nodes_map_ok nodes_map nl.
Proof.
  intros Hmap (_ & Hn & _). eapply nodes_map_ok_linked; [|done]. by eapply inputs_grown_linked.
Qed.

Lemma InitCommonNodeInputs_ok (graph : KernelGraph) (kernel : nat) (nl : list SomasNode)
    (tl : list SomasTensor) (params : Parameters) (nl' : list SomasNode)
    (tl' : list SomasTensor) (params' : Parameters) :
  nodes_map_ok nodes_map nl → registry_ok nodes_map nl tl →
  InitCommonNodeInputs graph nodes_map (nl, tl, params) kernel = Done (nl', tl', params') →
  inputs_linked_from nodes_map nl tl nl' tl'.
Proof.
  intros Hmap Hok Hrun. unfold InitCommonNodeInputs in Hrun.
  destruct (nodes_map kernel) as [[|n0 rest]|] eqn:Hkernel; try discriminate Hrun.
  destruct (get_node _ n0) as [node| |]; cbn [mbind Outcome_bind] in Hrun; try discriminate Hrun.
  destruct (foldl _ _ _) as [[[[nl1 tl1] params1] r1]| |] eqn:Hfold;
    cbn [mbind Outcome_bind] in Hrun; try discriminate Hrun.
  injection Hrun as <- <- <-.
  refine (foldl_Done_ind (common_input_step graph nodes_map kernel n0 rest)
            (fun _ acc => inputs_linked_from nodes_map nl tl acc.1.1.1 acc.1.1.2)
            _ (nl, tl, params, 0) (nl1, tl1, params1, r1) _ _ _ _ Hfold); [done..| |].
  - by apply inputs_linked_from_refl.
  - intros pre i [[[nla tla] pa] ra] [[[nlb tlb] pb] rb] Hinv Hstep. cbn [fst snd] in *.
    eapply inputs_linked_from_step; [done|].
    eapply common_input_step_ok; [| |done|done].
    + by eapply inputs_linked_from_map_ok.
    + by destruct Hinv.
Qed.

Lemma clean_index_step_ok (enable_fusion_clear : bool) (n0 p0 : nat)
    (tensors : SomasNode → list nat) (what : string) (nl : list SomasNode)
    (tl : list SomasTensor) (index : nat) (nl' : list SomasNode) (tl' : list SomasTensor) :
  tensors = output_tensors_ ∨ tensors = workspace_tensors_ →
  nodes_map_ok nodes_map nl → registry_ok nodes_map nl tl →
  clean_index_step enable_fusion_clear n0 p0 tensors what (Done (nl, tl)) index
  = Done (nl', tl') →
  registry_ok nodes_map nl' tl'
  ∧ Forall2 (node_inputs_grown (length tl)) nl nl' ∧ Forall2 input_frame tl tl'.
Proof.
  intros Htensors Hmap Hok Hrun. unfold clean_index_step in Hrun.
  cbn [mbind Outcome_bind] in Hrun. unfold get_node in Hrun.
  destruct (nl !! p0) as [pre_somas_node|] eqn:Hp0; cbn [mbind Outcome_bind] in Hrun;
    [|discriminate Hrun].
  case_bool_decide as Hbound; [discriminate Hrun|].
  destruct (tensors pre_somas_node !! index) as [tid|] eqn:Htid; [|discriminate Hrun].
  destruct (nl !! n0) as [node|] eqn:Hn0; cbn [mbind Outcome_bind] in Hrun;
    [|discriminate Hrun].
  pose proof Hok as (R1 & R2 & R3 & R4 & R5).
  assert (tid < length tl) as Htid_lt.
  { apply (R3 p0 pre_somas_node tid Hp0). apply list_elem_of_lookup_2 in Htid.
    destruct Htensors as [-> | ->]; auto. }
  destruct (lookup_lt_is_Some_2 tl tid Htid_lt) as [t Ht].
  assert (Forall2 (node_inputs_grown (length tl)) nl (<[n0 := push_input tid node]> nl))
    as Hgrown.
  { apply (Forall2_insert_r _ (node_inputs_grown_refl _) nl n0 node _ Hn0).
    by apply push_input_grown. }
  assert (∃ t', tl' = <[tid := t']> tl ∧ input_frame t t' ∧ nl' = <[n0 := push_input tid node]> nl
                ∧ destination_nodes_ t' = destination_nodes_ t) as (t' & -> & Hframe & -> & Hdest).
  { destruct enable_fusion_clear.
    - unfold update_tensor in Hrun. rewrite (proj2 (get_tensor_Done tl tid t) Ht) in Hrun.
      cbn [mbind Outcome_bind] in Hrun. injection Hrun as <- <-.
      eexists. split_and!; [done| |done|done].
      split_and!; [unfold tensor_linked; cbn; split_and!; done|by left|by right].
    - injection Hrun as <- <-. exists t. split_and!; [|apply input_frame_refl|done|done].
      by rewrite list_insert_id. }
  assert (Forall2 input_frame tl (<[tid := t']> tl)) as Hframes
    by (apply (Forall2_insert_r _ input_frame_refl tl tid t t' Ht Hframe)).
  split_and!; [|done|done].
  eapply (registry_ok_step nl _ tl (<[tid := t']> tl)); try done.
  - rewrite length_insert. by apply inputs_grown_linked.
  - eapply dense_ids_insert; [done..|]. by destruct Hframe as [(? & _) _].
  - intros tid' t'' Ht''.
    by apply (Forall2_lookup_l_rel _ _ _ _ _ (input_frame_linked _ _ Hframes)).
  - intros j nd nd' tid' t'' Hnd Hnd' Hin Hnot.
    destruct (Forall2_lookup_l_rel _ _ _ _ _ Hgrown Hnd) as (nd'' & Hnd'' & [_ Hout]).
    rewrite Hnd' in Hnd''. injection Hnd'' as <-. by rewrite Hout in Hin.
  - intros tid' t'' d Ht'' Hd. left. destruct (decide (tid' = tid)) as [->|Hne].
    + rewrite list_lookup_insert_eq in Ht'' by done. injection Ht'' as <-.
      exists t. split; [done|]. by rewrite <- Hdest.
    + rewrite list_lookup_insert_ne in Ht'' by done. by exists t''.
Qed.

Lemma clean_indexes_ok (enable_fusion_clear : bool) (n0 p0 : nat)
    (tensors : SomasNode → list nat) (what : string) (indexes : list nat)
    (nl0 : list SomasNode) (tl0 : list SomasTensor) (nl : list SomasNode)
    (tl : list SomasTensor) (nl' : list SomasNode) (tl' : list SomasTensor) :
  tensors = output_tensors_ ∨ tensors = workspace_tensors_ →
  nodes_map_ok nodes_map nl0 → inputs_linked_from nodes_map nl0 tl0 nl tl →
  foldl (clean_index_step enable_fusion_clear n0 p0 tensors what) (Done (nl, tl)) indexes
  = Done (nl', tl') →
  inputs_linked_from nodes_map nl0 tl0 nl' tl'.
Proof.
  intros Htensors Hmap Hinv Hrun.
  refine (foldl_Done_ind (clean_index_step enable_fusion_clear n0 p0 tensors what)
            (fun _ acc => inputs_linked_from nodes_map nl0 tl0 acc.1 acc.2)
            _ (nl, tl) (nl', tl') _ _ _ _ Hrun); [done..|].
  intros pre index [nla tla] [nlb tlb] Hinv' Hstep. cbn [fst snd] in *.
  eapply inputs_linked_from_step; [done|].
  eapply clean_index_step_ok; [done| | |done].
  - by eapply inputs_linked_from_map_ok.
  - by destruct Hinv'.
Qed.

Lemma InitAtomicCleanInputs_ok (enable_fusion_clear : bool) (graph : KernelGraph) (kernel : nat)
    (nl : list SomasNode) (tl : list SomasTensor) (params : Parameters)
    (nl' : list SomasNode) (tl' : list SomasTensor) (params' : Parameters) :
  nodes_map_ok nodes_map nl → registry_ok nodes_map nl tl →
  InitAtomicCleanInputs enable_fusion_clear graph nodes_map (nl, tl, params) kernel
  = Done (nl', tl', params') →
  inputs_linked_from nodes_map nl tl nl' tl'.
Proof.
  intros Hmap Hok Hrun. unfold InitAtomicCleanInputs in Hrun.
  destruct (nodes_map kernel) as [[|n0 rest]|] eqn:Hkernel; try discriminate Hrun.
  destruct (foldl _ _ _) as [[nl1 tl1]| |] eqn:Hfold;
    cbn [mbind Outcome_bind] in Hrun; try discriminate Hrun.
  injection Hrun as <- <- <-.
  refine (foldl_Done_ind (clean_input_step enable_fusion_clear graph nodes_map kernel n0)
            (fun _ acc => inputs_linked_from nodes_map nl tl acc.1 acc.2)
            _ (nl, tl) (nl1, tl1) _ _ _ _ Hfold); [done..| |].
  - by apply inputs_linked_from_refl.
  - intros pre i [nla tla] [nlb tlb] Hinv Hstep. cbn [fst snd] in *.
    unfold clean_input_step in Hstep. cbn [mbind Outcome_bind] in Hstep.
    destruct (AtomicCleanInput graph kernel i) as [[pre_node|]|]; try discriminate Hstep.
    destruct (nodes_map pre_node) as [[|p0 ps]|]; try discriminate Hstep.
    destruct (match AtomicOutputIndexs graph pre_node with
              | Some clean_output_indexs => _ | None => _ end) as [[nlc tlc]| |] eqn:Hout;
      cbn [mbind Outcome_bind] in Hstep; try discriminate Hstep.
    assert (inputs_linked_from nodes_map nl tl nlc tlc) as Hinv1.
    { destruct (AtomicOutputIndexs graph pre_node) as [indexes|].
      - eapply clean_indexes_ok; [by left|done|exact Hinv|exact Hout].
      - by injection Hout as <- <-. }
    destruct (AtomicWorkspaceIndexs graph pre_node) as [indexes|].
    + eapply clean_indexes_ok; [by right|done|exact Hinv1|exact Hstep].
    + by injection Hstep as <- <-.
Qed.

Lemma InitSomasInputTensors_ok (enable_fusion_clear : bool) (graph : KernelGraph)
    (nl : list SomasNode) (tl : list SomasTensor) (params : Parameters)
    (nl' : list SomasNode) (tl' : list SomasTensor) (params' : Parameters) :
  nodes_map_ok nodes_map nl → registry_ok nodes_map nl tl →
  InitSomasInputTensors enable_fusion_clear graph nodes_map (nl, tl, params)
  = Done (nl', tl', params') →
  inputs_linked_from nodes_map nl tl nl' tl'.
Proof.
  intros Hmap Hok Hrun. unfold InitSomasInputTensors in Hrun.
  refine (foldl_Done_ind _
            (fun _ (acc : InputState) => inputs_linked_from nodes_map nl tl acc.1.1 acc.1.2)
            _ (nl, tl, params) (nl', tl', params') _ _ _ _ Hrun); [done..| |].
  - by apply inputs_linked_from_refl.
  - intros pre kernel [[nla tla] pa] [[nlb tlb] pb] Hinv Hstep. cbn [fst snd] in *.
    cbn [mbind Outcome_bind] in Hstep.
    eapply inputs_linked_from_step; [done|].
    assert (inputs_linked_from nodes_map nla tla nlb tlb) as Hnew; [|exact Hnew].
    destruct (negb (IsAtomicAddrCleanOp graph kernel)).
    + eapply InitCommonNodeInputs_ok; [| |done].
      * by eapply inputs_linked_from_map_ok.
      * by destruct Hinv.
    + eapply InitAtomicCleanInputs_ok; [| |done].
      * by eapply inputs_linked_from_map_ok.
      * by destruct Hinv.
Qed.

(** The registry that [InitSomasOutputAndWorkspaceTensors] makes on fresh
    nodes is linked up. *)
Lemma tensors_made_registry_ok (aligned : N → N) (graph : KernelGraph)
    (nl0 nl : list SomasNode) (tl : list SomasTensor) :
  dense_node_ids nl0 → fresh_nodes nl0 →
  tensors_made aligned graph nodes_map nl0 nl tl → registry_ok nodes_map nl tl.
Proof.
  intros Hdense Hfresh (Hids & Hts & Hgrown & Hlisted).
  assert (∀ i node', nl !! i = Some node' →
            node_id_ node' = i ∧ input_tensors_ node' = []
            ∧ Forall (tensor_listed nodes_map tl kOutputOnly i) (output_tensors_ node')
            ∧ Forall (tensor_listed nodes_map tl kWorkspace i) (workspace_tensors_ node')) as Hnode.
  { intros i node' Hi.
    destruct (Forall2_lookup_r_rel _ _ _ _ _ Hgrown Hi)
      as (node & Hnode & (E1 & _ & _ & E4 & _ & (outs & Ho & Fo) & (ws & Hw & Fw))).
    unfold fresh_nodes in Hfresh. rewrite Forall_forall in Hfresh.
    destruct (Hfresh node (list_elem_of_lookup_2 _ _ _ Hnode)) as (F1 & F2 & F3 & _).
    rewrite (dense_node_ids_lookup nl0 i node) in * by done.
    rewrite E4, F1, Ho, F2, Hw, F3. done. }
  unfold registry_ok. split_and!.
  - eapply (dense_node_ids_rel (node_grown nodes_map tl)); [|done..].
    by intros a b (? & _).
  - done.
  - intros i node' tid Hi Hin. destruct (Hnode i node' Hi) as (_ & Hins & Fo & Fw).
    rewrite Hins in Hin. rewrite Forall_forall in Fo, Fw.
    destruct Hin as [Hin|[Hin|Hin]]; [by apply elem_of_nil in Hin| |].
    + destruct (Fo tid Hin) as (t & Ht & _). by eapply lookup_lt_Some.
    + destruct (Fw tid Hin) as (t & Ht & _). by eapply lookup_lt_Some.
  - intros i node' tid t Hi Hin Ht. destruct (Hnode i node' Hi) as (_ & _ & Fo & _).
    rewrite Forall_forall in Fo. destruct (Fo tid Hin) as (t' & Ht' & _ & Hfirst). congruence.
  - intros tid t d Ht Hd. rewrite Forall_forall in Hts.
    destruct (Hts t (list_elem_of_lookup_2 _ _ _ Ht)) as [(_ & _ & _ & _ & _ & _ & Hdest & _) _].
    rewrite Hdest in Hd. by apply elem_of_nil in Hd.
Qed.

(** Changes of a tensor that leave id, source, lifetime end and
    destinations alone keep the registry linked up. *)
Lemma registry_ok_same_links (nl : list SomasNode) (tl tl' : list SomasTensor) :
  Forall2 same_links tl tl' → registry_ok nodes_map nl tl → registry_ok nodes_map nl tl'.
Proof.
  intros Hsame (R1 & R2 & R3 & R4 & R5).
  pose proof (Forall2_length _ _ _ Hsame) as Hlen.
  unfold registry_ok. split_and!; [done| | | |].
  - unfold dense_ids in *. rewrite <- Hlen, <- R2. apply list_eq. intros i.
    rewrite !list_lookup_fmap. rewrite Forall2_lookup in Hsame. specialize (Hsame i).
    destruct Hsame as [x y (? & _)|]; [|done]. csimpl. by f_equal.
  - intros i node tid Hi Hin. rewrite <- Hlen. by eapply R3.
  - intros i node tid t' Hi Hin Ht'.
    destruct (Forall2_lookup_r_rel _ _ _ _ _ Hsame Ht') as (t & Ht & (_ & -> & _)).
    by eapply R4.
  - intros tid t' d Ht' Hd.
    destruct (Forall2_lookup_r_rel _ _ _ _ _ Hsame Ht') as (t & Ht & (_ & Hs & He & Hdn)).
    rewrite Hdn in Hd. destruct (R5 tid t d Ht Hd) as (C1 & C2 & (n0 & node0 & C3 & C4 & C5)).
    unfold consumed_at. rewrite He, Hs. split_and!; [done..|]. by exists n0, node0.
Qed.

Lemma same_links_refl t : same_links t t.
Proof. by unfold same_links. Qed.

Lemma same_links_trans t1 t2 t3 : same_links t1 t2 → same_links t2 t3 → same_links t1 t3.
Proof. unfold same_links. intros (? & ? & ? & ?) (? & ? & ? & ?). split_and!; congruence. Qed.

End linking.

Section input_completeness.
Context (graph : KernelGraph) (nodes_map : NodesMap).

Lemma input_linked_mono bound (nl nl' : list SomasNode) (tl tl' : list SomasTensor)
    (nodes : list nat) (tid : nat) :
  Forall2 (node_inputs_grown bound) nl nl' → Forall2 input_frame tl tl' →
  input_linked nl tl nodes tid → input_linked nl' tl' nodes tid.
Proof.
  intros Hn Ht (t & Htid & Hty & Hall).
  destruct (Forall2_lookup_l_rel _ _ _ _ _ Ht Htid) as (t' & Htid' & Hlinked & Hty' & _).
  destruct Hlinked as (_ & _ & _ & _ & _ & _ & _ & _ & _ & Hend & Hdest).
  exists t'. split_and!; [done| |].
  - destruct Hty' as [->|[? _]]; done.
  - intros n Hin. destruct (Hall n Hin) as (Hd & Hle & node & Hnode & Hinp).
    destruct (Forall2_lookup_l_rel _ _ _ _ _ Hn Hnode)
      as (node' & Hnode' & [(_ & _ & _ & _ & _ & (ins & Hins & _) & _) _]).
    split_and!; [by apply Hdest|lia|]. exists node'. split; [done|].
    rewrite Hins. apply elem_of_app. by left.
Qed.

Lemma real_input_linked_mono bound (nl nl' : list SomasNode) (tl tl' : list SomasTensor)
    (kernel i : nat) :
  Forall2 (node_inputs_grown bound) nl nl' → Forall2 input_frame tl tl' →
  real_input_linked graph nodes_map nl tl kernel i →
  real_input_linked graph nodes_map nl' tl' kernel i.
Proof.
  intros Hn Ht (v & Hvisit & Hreal). exists v. split; [done|]. intros Hv.
  destruct (Hreal Hv) as (nodes & p0 & ps & producer & tid & H1 & H2 & H3 & H4 & H5 & H6).
  destruct (Forall2_lookup_l_rel _ _ _ _ _ Hn H3) as (producer' & H3' & [_ Hout]).
  exists nodes, p0, ps, producer', tid. rewrite Hout.
  split_and!; [done..|]. by eapply input_linked_mono.
Qed.

(** What a step of the input loop of [InitCommonNodeInputs] that ends [Done]
    has done for its input. *)
Lemma common_input_step_links (kernel n0 : nat) (rest : list nat)
    (nl : list SomasNode) (tl : list SomasTensor) (params : Parameters) (r i : nat)
    (nl' : list SomasNode) (tl' : list SomasTensor) (params' : Parameters) (r' : nat) :
  nodes_map_ok nodes_map nl → registry_ok nodes_map nl tl →
  nodes_map kernel = Some (n0 :: rest) →
  common_input_step graph nodes_map kernel n0 rest (Done (nl, tl, params, r)) i
  = Done (nl', tl', params', r') →
  real_input_linked graph nodes_map nl' tl' kernel i.
Proof.
  intros Hmap Hok Hkernel Hrun.
  destruct (common_input_step_ok nodes_map graph kernel n0 rest nl tl params r i nl' tl'
              params' r' Hmap Hok Hkernel Hrun) as (_ & Hgrown & _).
  unfold common_input_step in Hrun. cbn [mbind Outcome_bind] in Hrun.
  destruct (VisitInput graph kernel i (negb (IsAllNopNode graph))) as [[| |prenode_index]|]
    eqn:Hvisit; try discriminate Hrun.
  exists prenode_index. split; [done|]. intros Hreal. rewrite Hreal in Hrun.
  cbn [negb] in Hrun.
  destruct (nodes_map (kernel_of prenode_index)) as [[|p0 ps]|] eqn:Hpre; try discriminate Hrun.
  unfold get_node at 1 in Hrun.
  destruct (nl !! p0) as [pre_somas_node|] eqn:Hp0; cbn [mbind Outcome_bind] in Hrun;
    [|discriminate Hrun].
  case_bool_decide as Hbound; [discriminate Hrun|].
  destruct (output_tensors_ pre_somas_node !! index_of prenode_index) as [tid|] eqn:Htid;
    [|discriminate Hrun].
  destruct (update_nodes (push_input tid) (n0 :: rest) nl) as [nl1| |] eqn:Hupd;
    cbn [mbind Outcome_bind] in Hrun; try discriminate Hrun.
  destruct (get_tensor tl tid) as [t| |] eqn:Ht; cbn [mbind Outcome_bind] in Hrun;
    try discriminate Hrun.
  apply get_tensor_Done in Ht.
  set (t1 := if bool_decide (type_ t = kOutputOnly) then with_type kCommon t else t) in *.
  destruct (add_destinations (n0 :: rest) nl1 t1) as [t2| |] eqn:Hadd;
    cbn [mbind Outcome_bind] in Hrun; try discriminate Hrun.
  destruct (if bool_decide (n0 ≠ p0) then insert_ancestor n0 p0 nl1 else Done nl1)
    as [nl2| |] eqn:Hanc; cbn [mbind Outcome_bind] in Hrun; try discriminate Hrun.
  injection Hrun as <- <- <- <-.
  pose proof Hok as (R1 & _).
  pose proof (update_nodes_Done_range _ _ _ _ Hupd) as Hrange.
  destruct (update_nodes_rel (node_inputs_grown (length tl)) (node_inputs_grown_refl _)
              (node_inputs_grown_trans _) (node_inputs_grown_id _)
              (fun node => tid ∈ input_tensors_ node) (push_input tid) (n0 :: rest) nl)
    as (nl1' & Hupd' & Hgrown1 & Hin1); [| |done|done|].
  { intros node _. split; [apply push_input_grown; by eapply lookup_lt_Some|].
    cbn. apply elem_of_app. right. apply list_elem_of_here. }
  { intros a b [(_ & _ & _ & _ & _ & (ins & -> & _) & _) _] Ha. apply elem_of_app. by left. }
  rewrite Hupd in Hupd'. injection Hupd' as <-.
  pose proof (dense_node_ids_rel _ (node_inputs_grown_id _) nl nl1 Hgrown1 R1) as Hdense1.
  apply add_destinations_spec in Hadd as (_ & Hty2 & _ & Hnew & _); [|done].
  assert (Forall2 (node_inputs_grown (length tl)) nl1 nl2) as Hgrown2.
  { destruct (decide (n0 ≠ p0)) as [Hne|Hne].
    - rewrite bool_decide_eq_true_2 in Hanc by done.
      apply insert_ancestor_spec in Hanc as [Hg _]. by apply ancestors_grown_inputs_grown.
    - rewrite bool_decide_eq_false_2 in Hanc by done.
      injection Hanc as <-. apply Forall2_refl_all, node_inputs_grown_refl. }
  destruct (Forall2_lookup_l_rel _ _ _ _ _ Hgrown Hp0) as (producer & Hproducer & [_ Hout]).
  exists (n0 :: rest), p0, ps, producer, tid. rewrite Hout.
  split_and!; [done..|by eapply lookup_lt_Some|].
  exists t2. split_and!.
  - apply list_lookup_insert_eq. by eapply lookup_lt_Some.
  - rewrite Hty2. unfold t1. destruct (decide (type_ t = kOutputOnly)) as [Hty|Hty].
    + by rewrite bool_decide_eq_true_2.
    + by rewrite bool_decide_eq_false_2.
  - intros n Hn. destruct (Hnew n Hn) as (_ & Hd & Hle). split_and!; [done..|].
    destruct (Hin1 n Hn) as (node1 & Hnode1 & Hin).
    destruct (Forall2_lookup_l_rel _ _ _ _ _ Hgrown2 Hnode1)
      as (node2 & Hnode2 & [(_ & _ & _ & _ & _ & (ins & Hins & _) & _) _]).
    exists node2. split; [done|]. rewrite Hins. apply elem_of_app. by left.
Qed.

(** When [InitCommonNodeInputs] returns, every input of the kernel is
    linked. *)
Lemma InitCommonNodeInputs_links (kernel : nat) (nl : list SomasNode)
    (tl : list SomasTensor) (params : Parameters) (nl' : list SomasNode)
    (tl' : list SomasTensor) (params' : Parameters) :
  nodes_map_ok nodes_map nl → registry_ok nodes_map nl tl →
  InitCommonNodeInputs graph nodes_map (nl, tl, params) kernel = Done (nl', tl', params') →
  ∀ i, i < GetInputTensorNum graph kernel → real_input_linked graph nodes_map nl' tl' kernel i.
Proof.
  intros Hmap Hok Hrun. unfold InitCommonNodeInputs in Hrun.
  destruct (nodes_map kernel) as [[|n0 rest]|] eqn:Hkernel; try discriminate Hrun.
  destruct (get_node _ n0) as [node| |]; cbn [mbind Outcome_bind] in Hrun; try discriminate Hrun.
  destruct (foldl _ _ _) as [[[[nl1 tl1] params1] r1]| |] eqn:Hfold;
    cbn [mbind Outcome_bind] in Hrun; try discriminate Hrun.
  injection Hrun as <- <- <-.
  intros i Hi.
  refine (proj2 (foldl_Done_ind (common_input_step graph nodes_map kernel n0 rest)
            (fun pre acc =>
               inputs_linked_from nodes_map nl tl acc.1.1.1 acc.1.1.2
               ∧ ∀ j, j ∈ pre → real_input_linked graph nodes_map acc.1.1.1 acc.1.1.2 kernel j)
            _ (nl, tl, params, 0) (nl1, tl1, params1, r1) _ _ _ _ Hfold) i _); [done..| | |].
  - split; [by apply inputs_linked_from_refl|]. intros j Hj. by apply elem_of_nil in Hj.
  - intros pre j [[[nla tla] pa] ra] [[[nlb tlb] pb] rb] [Hinv Hdone] Hstep.
    cbn [fst snd] in *.
    pose proof (inputs_linked_from_map_ok nodes_map _ _ _ _ Hmap Hinv) as Hmapa.
    pose proof Hinv as (Hoka & _).
    pose proof (common_input_step_ok nodes_map graph kernel n0 rest _ _ _ _ _ _ _ _ _
                  Hmapa Hoka Hkernel Hstep) as Hstep_ok.
    split; [by eapply inputs_linked_from_step|].
    intros k Hk. apply elem_of_app in Hk as [Hk|Hk].
    + destruct Hstep_ok as (_ & Hn & Ht). by eapply real_input_linked_mono; [..|apply Hdone].
    + apply list_elem_of_singleton in Hk as ->. by eapply common_input_step_links.
  - apply elem_of_seq. lia.
Qed.

End input_completeness.

Section clean_completeness.
Context (enable_fusion_clear : bool) (graph : KernelGraph) (nodes_map : NodesMap).

Lemma clean_input_linked_mono bound (nl nl' : list SomasNode) (tl tl' : list SomasTensor)
    (n0 tid : nat) :
  Forall2 (node_inputs_grown bound) nl nl' → Forall2 input_frame tl tl' →
  clean_input_linked enable_fusion_clear nl tl n0 tid →
  clean_input_linked enable_fusion_clear nl' tl' n0 tid.
Proof.
  intros Hn Ht [(node & Hnode & Hin) (t & Htid & Hll)].
  destruct (Forall2_lookup_l_rel _ _ _ _ _ Hn Hnode)
    as (node' & Hnode' & [(_ & _ & _ & _ & _ & (ins & Hins & _) & _) _]).
  destruct (Forall2_lookup_l_rel _ _ _ _ _ Ht Htid) as (t' & Htid' & _ & _ & Hll').
  split.
  - exists node'. split; [done|]. rewrite Hins. apply elem_of_app. by left.
  - exists t'. split; [done|]. intros Hefc. destruct Hll' as [->|?]; [by apply Hll|done].
Qed.

Lemma atomic_clean_linked_mono bound (nl nl' : list SomasNode) (tl tl' : list SomasTensor)
    (kernel i : nat) :
  Forall2 (node_inputs_grown bound) nl nl' → Forall2 input_frame tl tl' →
  atomic_clean_linked enable_fusion_clear graph nodes_map nl tl kernel i →
  atomic_clean_linked enable_fusion_clear graph nodes_map nl' tl' kernel i.
Proof.
  intros Hn Ht (pre_node & n0 & rest & p0 & ps & producer & H1 & H2 & H3 & H4 & Hout & Hws).
  destruct (Forall2_lookup_l_rel _ _ _ _ _ Hn H4)
    as (producer' & H4' & [(_ & _ & _ & Hw & _) Ho]).
  exists pre_node, n0, rest, p0, ps, producer'. rewrite Ho, Hw. split_and!; [done..| |].
  - intros indexs index Hi Hin. destruct (Hout indexs index Hi Hin) as (tid & Htid & Hl).
    exists tid. split; [done|]. by eapply clean_input_linked_mono.
  - intros indexs index Hi Hin. destruct (Hws indexs index Hi Hin) as (Hle & tid & Htid & Hl).
    split; [done|]. exists tid. split; [done|]. by eapply clean_input_linked_mono.
Qed.

(** What a step of an index loop of [InitAtomicCleanInputs] that ends [Done]
    has done for its index. *)
Lemma clean_index_step_links (n0 p0 : nat) (tensors : SomasNode → list nat) (what : string)
    (nl : list SomasNode) (tl : list SomasTensor) (index : nat) (producer : SomasNode)
    (nl' : list SomasNode) (tl' : list SomasTensor) :
  tensors = output_tensors_ ∨ tensors = workspace_tensors_ →
  registry_ok nodes_map nl tl → nl !! p0 = Some producer →
  clean_index_step enable_fusion_clear n0 p0 tensors what (Done (nl, tl)) index
  = Done (nl', tl') →
  index ≤ length (output_tensors_ producer)
  ∧ ∃ tid, tensors producer !! index = Some tid
           ∧ clean_input_linked enable_fusion_clear nl' tl' n0 tid.
Proof.
  intros Htensors (_ & _ & R3 & _) Hp0 Hrun. unfold clean_index_step in Hrun.
  cbn [mbind Outcome_bind] in Hrun. unfold get_node in Hrun. rewrite Hp0 in Hrun.
  cbn [mbind Outcome_bind] in Hrun.
  destruct (decide (length (output_tensors_ producer) < index)) as [Hgt|Hle].
  { rewrite bool_decide_eq_true_2 in Hrun by done. discriminate Hrun. }
  rewrite bool_decide_eq_false_2 in Hrun by done.
  destruct (tensors producer !! index) as [tid|] eqn:Htid; [|discriminate Hrun].
  destruct (nl !! n0) as [node|] eqn:Hn0; cbn [mbind Outcome_bind] in Hrun;
    [|discriminate Hrun].
  split; [lia|]. exists tid. split; [done|].
  assert (tid < length tl) as Hlt.
  { apply (R3 p0 producer tid Hp0). apply list_elem_of_lookup_2 in Htid.
    destruct Htensors as [->| ->]; [right; by left|right; by right]. }
  destruct (lookup_lt_is_Some_2 tl tid Hlt) as [t Ht].
  assert (∃ node', <[n0 := push_input tid node]> nl !! n0 = Some node'
                   ∧ tid ∈ input_tensors_ node') as Hnode'.
  { exists (push_input tid node). split.
    - apply list_lookup_insert_eq. by eapply lookup_lt_Some.
    - cbn. apply elem_of_app. right. apply list_elem_of_here. }
  destruct enable_fusion_clear.
  - destruct (update_tensor tid _ tl) as [tl1| |] eqn:Hupd; cbn [mbind Outcome_bind] in Hrun;
      try discriminate Hrun.
    injection Hrun as <- <-. apply update_tensor_Done in Hupd as (t0 & Ht0 & ->).
    split; [done|]. eexists. split; [by apply list_lookup_insert_eq|done].
  - injection Hrun as <- <-. split; [done|]. exists t. split; [done|]. discriminate.
Qed.

(** An index loop of [InitAtomicCleanInputs] that ends [Done] has linked
    every index. *)
Lemma clean_indexes_links (n0 p0 : nat) (tensors : SomasNode → list nat) (what : string)
    (indexes : list nat) (nl : list SomasNode) (tl : list SomasTensor) (producer : SomasNode)
    (nl' : list SomasNode) (tl' : list SomasTensor) :
  tensors = output_tensors_ ∨ tensors = workspace_tensors_ →
  nodes_map_ok nodes_map nl → registry_ok nodes_map nl tl → nl !! p0 = Some producer →
  foldl (clean_index_step enable_fusion_clear n0 p0 tensors what) (Done (nl, tl)) indexes
  = Done (nl', tl') →
  ∀ index, index ∈ indexes →
    index ≤ length (output_tensors_ producer)
    ∧ ∃ tid, tensors producer !! index = Some tid
             ∧ clean_input_linked enable_fusion_clear nl' tl' n0 tid.
Proof.
  intros Htensors Hmap Hok Hp0 Hrun.
  refine (proj2 (foldl_Done_ind (clean_index_step enable_fusion_clear n0 p0 tensors what)
            (fun pre acc =>
               inputs_linked_from nodes_map nl tl acc.1 acc.2
               ∧ ∀ index, index ∈ pre →
                   index ≤ length (output_tensors_ producer)
                   ∧ ∃ tid, tensors producer !! index = Some tid
                            ∧ clean_input_linked enable_fusion_clear acc.1 acc.2 n0 tid)
            _ (nl, tl) (nl', tl') _ _ _ _ Hrun)); [done..| |].
  - split; [by apply inputs_linked_from_refl|]. intros index Hin. by apply elem_of_nil in Hin.
  - intros pre index [nla tla] [nlb tlb] [Hinv Hdone] Hstep. cbn [fst snd] in *.
    pose proof (inputs_linked_from_map_ok nodes_map _ _ _ _ Hmap Hinv) as Hmapa.
    pose proof Hinv as (Hoka & Hna & _).
    pose proof (clean_index_step_ok nodes_map enable_fusion_clear n0 p0 tensors what _ _ _ _ _
                  Htensors Hmapa Hoka Hstep) as Hstep_ok.
    split; [by eapply inputs_linked_from_step|].
    intros k Hk. apply elem_of_app in Hk as [Hk|Hk].
    + destruct (Hdone k Hk) as (Hle & tid & Htid & Hl). split; [done|]. exists tid.
      split; [done|]. destruct Hstep_ok as (_ & Hn & Ht). by eapply clean_input_linked_mono.
    + apply list_elem_of_singleton in Hk as ->.
      destruct (Forall2_lookup_l_rel _ _ _ _ _ Hna Hp0)
        as (producer_a & Hpa & [(_ & _ & _ & Hw & _) Ho]).
      destruct (clean_index_step_links n0 p0 tensors what nla tla index producer_a nlb tlb
                  Htensors Hoka Hpa Hstep) as (Hle & tid & Htid & Hl).
      rewrite Ho in Hle. split; [done|]. exists tid. split; [|done].
      destruct Htensors as [->| ->]; congruence.
Qed.

(** A step of the input loop of [InitAtomicCleanInputs] that ends [Done] has
    linked its input. *)
Lemma clean_input_step_links (kernel n0 : nat) (rest : list nat) (nl : list SomasNode)
    (tl : list SomasTensor) (i : nat) (nl' : list SomasNode) (tl' : list SomasTensor) :
  nodes_map_ok nodes_map nl → registry_ok nodes_map nl tl →
  nodes_map kernel = Some (n0 :: rest) →
  clean_input_step enable_fusion_clear graph nodes_map kernel n0 (Done (nl, tl)) i
  = Done (nl', tl') →
  inputs_linked_from nodes_map nl tl nl' tl'
  ∧ atomic_clean_linked enable_fusion_clear graph nodes_map nl' tl' kernel i.
Proof.
  intros Hmap Hok Hkernel Hrun. unfold clean_input_step in Hrun.
  cbn [mbind Outcome_bind] in Hrun.
  destruct (AtomicCleanInput graph kernel i) as [[pre_node|]|] eqn:Hinput;
    try discriminate Hrun.
  destruct (nodes_map pre_node) as [[|p0 ps]|] eqn:Hpre; try discriminate Hrun.
  destruct (match AtomicOutputIndexs graph pre_node with
            | Some clean_output_indexs => _ | None => _ end) as [[nlc tlc]| |] eqn:Hout;
    cbn [mbind Outcome_bind] in Hrun; try discriminate Hrun.
  assert (p0 < length nl) as Hp0_lt.
  { destruct Hmap as [Hm _]. apply (Hm pre_node (p0 :: ps) Hpre), list_elem_of_here. }
  destruct (lookup_lt_is_Some_2 nl p0 Hp0_lt) as [producer Hp0].
  assert (inputs_linked_from nodes_map nl tl nlc tlc
          ∧ ∀ indexs index,
              AtomicOutputIndexs graph pre_node = Some indexs → index ∈ indexs →
              ∃ tid, output_tensors_ producer !! index = Some tid
                     ∧ clean_input_linked enable_fusion_clear nlc tlc n0 tid) as [Hinv1 Hdone1].
  { destruct (AtomicOutputIndexs graph pre_node) as [indexes|].
    - split.
      + eapply clean_indexes_ok; [by left|done|by apply inputs_linked_from_refl|exact Hout].
      + intros indexs index [= <-] Hin.
        by destruct (clean_indexes_links n0 p0 output_tensors_ _ indexes nl tl producer nlc tlc
                       (or_introl eq_refl) Hmap Hok Hp0 Hout index Hin) as [_ ?].
    - injection Hout as <- <-. split; [by apply inputs_linked_from_refl|done]. }
  pose proof (inputs_linked_from_map_ok nodes_map _ _ _ _ Hmap Hinv1) as Hmapc.
  pose proof Hinv1 as (Hokc & Hnc & _).
  destruct (Forall2_lookup_l_rel _ _ _ _ _ Hnc Hp0)
    as (producer_c & Hpc & [(_ & _ & _ & Hw & _) Ho]).
  assert (inputs_linked_from nodes_map nlc tlc nl' tl'
          ∧ ∀ indexs index,
              AtomicWorkspaceIndexs graph pre_node = Some indexs → index ∈ indexs →
              index ≤ length (output_tensors_ producer)
              ∧ ∃ tid, workspace_tensors_ producer !! index = Some tid
                       ∧ clean_input_linked enable_fusion_clear nl' tl' n0 tid) as [Hinv2 Hdone2].
  { destruct (AtomicWorkspaceIndexs graph pre_node) as [indexes|].
    - split.
      + eapply clean_indexes_ok; [by right|done|by apply inputs_linked_from_refl|exact Hrun].
      + intros indexs index [= <-] Hin.
        destruct (clean_indexes_links n0 p0 workspace_tensors_ _ indexes nlc tlc producer_c
                    nl' tl' (or_intror eq_refl) Hmapc Hokc Hpc Hrun index Hin)
          as (Hle & tid & Htid & Hl).
        rewrite Ho in Hle. rewrite Hw in Htid. split; [done|]. by exists tid.
    - injection Hrun as <- <-. split; [by apply inputs_linked_from_refl|done]. }
  split; [eapply inputs_linked_from_step; [exact Hinv1|]; destruct Hinv2 as (?&?&?); done|].
  destruct Hinv2 as (_ & Hn2 & Ht2).
  destruct (Forall2_lookup_l_rel _ _ _ _ _ Hn2 Hpc)
    as (producer' & Hp' & [(_ & _ & _ & Hw' & _) Ho']).
  exists pre_node, n0, rest, p0, ps, producer'.
  rewrite Ho', Ho, Hw', Hw. split_and!; [done..| |done].
  intros indexs index Hi Hin. destruct (Hdone1 indexs index Hi Hin) as (tid & Htid & Hl).
  exists tid. split; [done|]. by eapply clean_input_linked_mono.
Qed.

(** When [InitAtomicCleanInputs] returns, every input of the kernel is
    linked. *)
Lemma InitAtomicCleanInputs_links (kernel : nat) (nl : list SomasNode)
    (tl : list SomasTensor) (params : Parameters) (nl' : list SomasNode)
    (tl' : list SomasTensor) (params' : Parameters) :
  nodes_map_ok nodes_map nl → registry_ok nodes_map nl tl →
  InitAtomicCleanInputs enable_fusion_clear graph nodes_map (nl, tl, params) kernel
  = Done (nl', tl', params') →
  ∀ i, i < GetInputTensorNum graph kernel →
    atomic_clean_linked enable_fusion_clear graph nodes_map nl' tl' kernel i.
Proof.
  intros Hmap Hok Hrun. unfold InitAtomicCleanInputs in Hrun.
  destruct (nodes_map kernel) as [[|n0 rest]|] eqn:Hkernel; try discriminate Hrun.
  destruct (foldl _ _ _) as [[nl1 tl1]| |] eqn:Hfold;
    cbn [mbind Outcome_bind] in Hrun; try discriminate Hrun.
  injection Hrun as <- <- <-.
  intros i Hi.
  refine (proj2 (foldl_Done_ind
            (clean_input_step enable_fusion_clear graph nodes_map kernel n0)
            (fun pre acc =>
               inputs_linked_from nodes_map nl tl acc.1 acc.2
               ∧ ∀ j, j ∈ pre →
                   atomic_clean_linked enable_fusion_clear graph nodes_map acc.1 acc.2 kernel j)
            _ (nl, tl) (nl1, tl1) _ _ _ _ Hfold) i _); [done..| | |].
  - split; [by apply inputs_linked_from_refl|]. intros j Hj. by apply elem_of_nil in Hj.
  - intros pre j [nla tla] [nlb tlb] [Hinv Hdone] Hstep. cbn [fst snd] in *.
    pose proof (inputs_linked_from_map_ok nodes_map _ _ _ _ Hmap Hinv) as Hmapa.
    pose proof Hinv as (Hoka & _).
    destruct (clean_input_step_links kernel n0 rest nla tla j nlb tlb Hmapa Hoka Hkernel Hstep)
      as [Hstep_ok Hlinked].
    split; [eapply inputs_linked_from_step; [done|]; destruct Hstep_ok as (?&?&?); done|].
    intros k Hk. apply elem_of_app in Hk as [Hk|Hk].
    + destruct Hstep_ok as (_ & Hn & Ht). by eapply atomic_clean_linked_mono; [..|apply Hdone].
    + by apply list_elem_of_singleton in Hk as ->.
  - apply elem_of_seq. lia.
Qed.

End clean_completeness.

Section inputs_complete.
Context (enable_fusion_clear : bool) (graph : KernelGraph) (nodes_map : NodesMap).

(** When [InitSomasInputTensors] returns, every input of every kernel of the
    execution order is linked. *)
Lemma InitSomasInputTensors_links (nl : list SomasNode) (tl : list SomasTensor)
    (params : Parameters) (nl' : list SomasNode) (tl' : list SomasTensor)
    (params' : Parameters) :
  nodes_map_ok nodes_map nl → registry_ok nodes_map nl tl →
  InitSomasInputTensors enable_fusion_clear graph nodes_map (nl, tl, params)
  = Done (nl', tl', params') →
  ∀ kernel i, kernel ∈ execution_order graph → i < GetInputTensorNum graph kernel →
    if IsAtomicAddrCleanOp graph kernel
    then atomic_clean_linked enable_fusion_clear graph nodes_map nl' tl' kernel i
    else real_input_linked graph nodes_map nl' tl' kernel i.
Proof.
  intros Hmap Hok Hrun kernel i Hkernel Hi. unfold InitSomasInputTensors in Hrun.
  refine (proj2 (foldl_Done_ind _
            (fun pre acc =>
               inputs_linked_from nodes_map nl tl acc.1.1 acc.1.2
               ∧ ∀ k j, k ∈ pre → j < GetInputTensorNum graph k →
                   if IsAtomicAddrCleanOp graph k
                   then atomic_clean_linked enable_fusion_clear graph nodes_map
                          acc.1.1 acc.1.2 k j
                   else real_input_linked graph nodes_map acc.1.1 acc.1.2 k j)
            _ (nl, tl, params) (nl', tl', params') _ _ _ _ Hrun) kernel i Hkernel Hi);
    [done..| |].
  - split; [by apply inputs_linked_from_refl|]. intros k j Hk. by apply elem_of_nil in Hk.
  - intros pre k [[nla tla] pa] [[nlb tlb] pb] [Hinv Hdone] Hstep.
    cbn [fst snd mbind Outcome_bind] in *.
    pose proof (inputs_linked_from_map_ok nodes_map _ _ _ _ Hmap Hinv) as Hmapa.
    pose proof Hinv as (Hoka & _).
    assert (inputs_linked_from nodes_map nla tla nlb tlb) as Hstep_ok.
    { destruct (IsAtomicAddrCleanOp graph k); cbn [negb] in Hstep.
      - by eapply InitAtomicCleanInputs_ok.
      - by eapply InitCommonNodeInputs_ok. }
    split; [eapply inputs_linked_from_step; [done|]; destruct Hstep_ok as (? & ? & ?); done|].
    destruct Hstep_ok as (_ & Hn & Ht).
    intros k' j Hk' Hj. apply elem_of_app in Hk' as [Hk'|Hk'].
    + specialize (Hdone k' j Hk' Hj). destruct (IsAtomicAddrCleanOp graph k').
      * by eapply atomic_clean_linked_mono.
      * by eapply real_input_linked_mono.
    + apply list_elem_of_singleton in Hk' as ->.
      destruct (IsAtomicAddrCleanOp graph k); cbn [negb] in Hstep.
      * by eapply InitAtomicCleanInputs_links.
      * by eapply InitCommonNodeInputs_links.
Qed.

End inputs_complete.

Section init_nodes_map.
Context (graph : KernelGraph).

(** The map that [InitSomasStreamAndNode] leaves is well formed. *)
Lemma occurrences_nodes_map_ok (kernels : list nat) (nodes_map : NodesMap)
    (nl : list SomasNode) :
  length nl = length kernels →
  (∀ k, nodes_map k = if bool_decide (k ∈ kernels) then Some (occurrences k kernels) else None) →
  nodes_map_ok nodes_map nl.
Proof.
  intros Hlen Hmap.
  assert (∀ k nodes n, nodes_map k = Some nodes → n ∈ nodes ↔ kernels !! n = Some k) as Hocc.
  { intros k nodes n Hk. rewrite Hmap in Hk. case_bool_decide; [|done]. injection Hk as <-.
    unfold occurrences. rewrite list_elem_of_filter, elem_of_seq. split; [by intros [? _]|].
    intros Hn. split; [done|]. apply lookup_lt_Some in Hn. lia. }
  split.
  - intros k nodes Hk. split.
    + pose proof Hk as Hk'. rewrite Hmap in Hk'. case_bool_decide as Hin; [|done].
      apply list_elem_of_lookup in Hin as [n Hn]. intros ->.
      apply (Hocc k [] n Hk) in Hn. by apply elem_of_nil in Hn.
    + intros n Hn. apply (Hocc k nodes n Hk) in Hn. rewrite Hlen. by eapply lookup_lt_Some.
  - intros k1 k2 nodes1 nodes2 n H1 H2 Hn1 Hn2.
    apply (Hocc k1 nodes1 n H1) in Hn1. apply (Hocc k2 nodes2 n H2) in Hn2. congruence.
Qed.

Lemma fresh_nodes_imap (kernels : list nat) : fresh_nodes (imap (fresh_node graph) kernels).
Proof.
  apply Forall_forall. intros node (i & k & -> & _)%elem_of_lookup_imap. done.
Qed.

End init_nodes_map.

(** ** Events: [InitSomasEventInfos] *)

Section events.
Context (aligned : N → N) (nodes_map : NodesMap).

Lemma update_nodes_singleton (f : SomasNode → SomasNode) (n : nat) (nl nl' : list SomasNode) :
  update_nodes f [n] nl = Done nl' → ∃ node, nl !! n = Some node ∧ nl' = <[n := f node]> nl.
Proof.
  unfold update_nodes. cbn [foldl mbind Outcome_bind]. unfold get_node.
  destruct (nl !! n) as [node|]; cbn [mbind Outcome_bind]; [|done].
  intros [= <-]. by exists node.
Qed.

Lemma push_output_linked bound tid node :
  tid < bound → node_linked bound node (push_output tid node).
Proof.
  intros Hlt. unfold node_linked, push_output. cbn. split_and!; try done.
  - exists [tid]. split; [done|]. by apply Forall_singleton.
  - exists []. by rewrite app_nil_r.
Qed.

Lemma event_step_ok (nl : list SomasNode) (tl : list SomasTensor) (event : nat * (nat * nat))
    (nl' : list SomasNode) (tl' : list SomasTensor) (index' : nat) :
  nodes_map_ok nodes_map nl → registry_ok nodes_map nl tl →
  event_step aligned nodes_map (Done (nl, tl, length tl)) event = Done (nl', tl', index') →
  index' = length tl' ∧ registry_ok nodes_map nl' tl'
  ∧ Forall2 (node_linked (length tl')) nl nl' ∧ events_added aligned tl tl'.
Proof.
  intros Hmap Hok Hrun. unfold event_step in Hrun. cbn [mbind Outcome_bind] in Hrun.
  assert (index' = length tl ∧ nl' = nl ∧ tl' = tl →
          index' = length tl' ∧ registry_ok nodes_map nl' tl'
          ∧ Forall2 (node_linked (length tl')) nl nl' ∧ events_added aligned tl tl') as Hsame.
  { intros (-> & -> & ->). split_and!; [done..|apply Forall2_refl_all, node_linked_refl|].
    exists []. by rewrite app_nil_r. }
  destruct (nodes_map event.2.1) as [send_nodes|] eqn:Hsend;
    [|apply Hsame; by injection Hrun as <- <- <-].
  destruct (nodes_map event.2.2) as [recv_nodes|] eqn:Hrecv;
    [|apply Hsame; by injection Hrun as <- <- <-].
  destruct send_nodes as [|s0 ss]; [discriminate Hrun|].
  destruct recv_nodes as [|r0 rs]; [discriminate Hrun|].
  unfold get_node in Hrun.
  destruct (nl !! s0) as [somas_send|] eqn:Hs0; cbn [mbind Outcome_bind] in Hrun;
    [|discriminate Hrun].
  destruct (nl !! r0) as [somas_recv|] eqn:Hr0; cbn [mbind Outcome_bind] in Hrun;
    [|discriminate Hrun].
  destruct (update_nodes (push_output (length tl)) [s0] nl) as [nl1| |] eqn:Hu1;
    cbn [mbind Outcome_bind] in Hrun; try discriminate Hrun.
  destruct (update_nodes (push_input (length tl)) [r0] nl1) as [nl2| |] eqn:Hu2;
    cbn [mbind Outcome_bind] in Hrun; try discriminate Hrun.
  destruct (insert_ancestor r0 s0 nl2) as [nl3| |] eqn:Hu3;
    cbn [mbind Outcome_bind] in Hrun; try discriminate Hrun.
  injection Hrun as <- <- <-.
  pose proof Hok as (R1 & R2 & R3 & R4 & R5).
  rewrite (dense_node_ids_lookup nl s0 somas_send), (dense_node_ids_lookup nl r0 somas_recv)
    by done.
  set (tensor := with_destination_nodes [r0]
                   (new_tensor aligned (length tl) s0 (stream_id_ somas_send) 0
                      kEventVirtualOutput s0 r0)).
  apply update_nodes_singleton in Hu1 as (node_s & Hnode_s & ->).
  rewrite Hs0 in Hnode_s. injection Hnode_s as <-.
  apply update_nodes_singleton in Hu2 as (node_r & Hnode_r & ->).
  apply insert_ancestor_spec in Hu3 as [Hg3 (node3 & Hnode3 & Hanc3)].
  set (bound := length (tl ++ [tensor])).
  assert (length tl < bound) as Hbound by (unfold bound; rewrite length_app; cbn; lia).
  assert (Forall2 (node_linked bound) nl (<[s0 := push_output (length tl) somas_send]> nl))
    as Hl1.
  { apply (Forall2_insert_r _ (node_linked_refl _) nl s0 somas_send _ Hs0).
    by apply push_output_linked. }
  assert (Forall2 (node_linked bound) (<[s0 := push_output (length tl) somas_send]> nl)
            (<[r0 := push_input (length tl) node_r]>
               (<[s0 := push_output (length tl) somas_send]> nl))) as Hl2.
  { apply (Forall2_insert_r _ (node_linked_refl _) _ r0 node_r _ Hnode_r).
    by apply push_input_grown. }
  assert (Forall2 (node_linked bound)
            (<[r0 := push_input (length tl) node_r]>
               (<[s0 := push_output (length tl) somas_send]> nl)) nl3) as Hl3.
  { by apply (inputs_grown_linked bound), ancestors_grown_inputs_grown. }
  assert (Forall2 (node_linked bound) nl nl3) as Hlinked.
  { eapply (Forall2_trans_all _ (node_linked_trans bound)); [|exact Hl3].
    eapply (Forall2_trans_all _ (node_linked_trans bound)); [exact Hl1|exact Hl2]. }
  split_and!; [unfold bound; rewrite length_app; cbn [length]; lia| |done|].
  2:{ exists [tensor]. split; [done|]. apply Forall_singleton. done. }
  eapply (registry_ok_step nodes_map nl nl3 tl (tl ++ [tensor])); try done.
  - unfold dense_ids in *. rewrite fmap_app, length_app, R2. cbn [length].
    by rewrite Nat.add_1_r, seq_S.
  - intros tid t Ht. exists t. split; [by apply lookup_app_l_Some|apply tensor_linked_refl].
  - intros i node node' tid t' Hi Hi' Hin Hnot Ht'.
    (* the outputs of [nl3] are those of the nodes after the first push *)
    destruct (Forall2_lookup_r_rel _ _ _ _ _ (ancestors_grown_inputs_grown bound _ _ Hg3) Hi')
      as (node2 & Hnode2 & [_ Hout2]).
    rewrite Hout2 in Hin.
    assert (∃ node1, <[s0 := push_output (length tl) somas_send]> nl !! i = Some node1
                     ∧ output_tensors_ node2 = output_tensors_ node1) as (node1 & Hnode1 & Hout1).
    { destruct (decide (i = r0)) as [->|Hne].
      - rewrite list_lookup_insert_eq in Hnode2 by (by eapply lookup_lt_Some).
        injection Hnode2 as <-. by exists node_r.
      - rewrite list_lookup_insert_ne in Hnode2 by done. by exists node2. }
    rewrite Hout1 in Hin. destruct (decide (i = s0)) as [->|Hne].
    + rewrite list_lookup_insert_eq in Hnode1 by (by eapply lookup_lt_Some).
      injection Hnode1 as <-. rewrite Hs0 in Hi. injection Hi as <-.
      cbn in Hin. apply elem_of_app in Hin as [Hin|Hin%list_elem_of_singleton]; [done|].
      subst tid. rewrite list_lookup_middle in Ht' by done. injection Ht' as <-.
      exists event.2.1, (s0 :: ss). split_and!; [done|apply list_elem_of_here|done].
    + rewrite list_lookup_insert_ne in Hnode1 by done. congruence.
  - intros tid t' d Ht' Hd. apply lookup_app_Some in Ht' as [Ht'|[Hge Ht']].
    + left. by exists t'.
    + right. apply list_lookup_singleton_Some in Ht' as [Heq <-].
      assert (tid = length tl) as -> by lia.
      cbn in Hd. apply list_elem_of_singleton in Hd as ->.
      unfold consumed_at. split_and!; [done| |].
      * destruct (Forall2_lookup_l_rel _ _ _ _ _
                    (ancestors_grown_inputs_grown bound _ _ Hg3)
                    (list_lookup_insert_eq _ _ _ (lookup_lt_Some _ _ _ Hnode_r)))
          as (node' & Hnode' & [(_ & _ & _ & _ & _ & (ins & Hins & _) & _) _]).
        exists node'. split; [done|]. rewrite Hins. cbn.
        apply elem_of_app. left. apply elem_of_app. right. apply list_elem_of_here.
      * exists r0, node3. split_and!; [|done|by right].
        exists event.2.2, (r0 :: rs). split_and!; [done|apply list_elem_of_here|done].
Qed.

Lemma node_linked_bound b b' node node' : b ≤ b' → node_linked b node node' → node_linked b' node node'.
Proof.
  intros Hle (A1 & A2 & A3 & A4 & (o & Ho & Fo) & (i & Hi & Fi) & A5).
  unfold node_linked. split_and!; try done.
  - exists o. split; [done|]. eapply Forall_impl; [done|]. intros; cbn in *; lia.
  - exists i. split; [done|]. eapply Forall_impl; [done|]. intros; cbn in *; lia.
Qed.

Lemma events_added_length tl0 tl : events_added aligned tl0 tl → length tl0 ≤ length tl.
Proof. intros (events & -> & _). rewrite length_app. lia. Qed.

Lemma InitSomasEventInfos_ok (graph : KernelGraph) (nl : list SomasNode)
    (tl : list SomasTensor) (nl' : list SomasNode) (tl' : list SomasTensor) :
  nodes_map_ok nodes_map nl → registry_ok nodes_map nl tl →
  InitSomasEventInfos aligned graph nodes_map nl tl = Done (nl', tl') →
  registry_ok nodes_map nl' tl'
  ∧ Forall2 (node_linked (length tl')) nl nl' ∧ events_added aligned tl tl'.
Proof.
  intros Hmap Hok Hrun. unfold InitSomasEventInfos in Hrun.
  destruct (foldl _ _ _) as [[[nl1 tl1] index1]| |] eqn:Hfold;
    cbn [mbind Outcome_bind] in Hrun; try discriminate Hrun.
  injection Hrun as <- <-.
  refine (proj2 (foldl_Done_ind (event_step aligned nodes_map)
            (fun _ acc => acc.2 = length acc.1.2
                          ∧ registry_ok nodes_map acc.1.1 acc.1.2
                          ∧ Forall2 (node_linked (length acc.1.2)) nl acc.1.1
                          ∧ events_added aligned tl acc.1.2)
            _ (nl, tl, length tl) (nl1, tl1, index1) _ _ _ _ Hfold)); [done..| |].
  - cbn [fst snd]. split_and!; [done..|apply Forall2_refl_all, node_linked_refl|].
    exists []. by rewrite app_nil_r.
  - intros pre event [[nla tla] ia] [[nlb tlb] ib] (Hia & Hoka & Hla & Hea) Hstep.
    cbn [fst snd] in *. subst ia.
    apply event_step_ok in Hstep as (Hib & Hokb & Hlb & Heb); [|by eapply nodes_map_ok_linked|done].
    split_and!; [done..| |].
    + eapply (Forall2_trans_all _ (node_linked_trans _)); [|done].
      eapply Forall2_impl; [done|]. intros a b. apply node_linked_bound.
      by apply events_added_length.
    + destruct Hea as (e1 & -> & F1), Heb as (e2 & -> & F2).
      exists (e1 ++ e2). split; [by rewrite (assoc_L (++))|by apply Forall_app].
Qed.

Lemma event_step_total (nl : list SomasNode) (tl : list SomasTensor) (index : nat)
    (event : nat * (nat * nat)) :
  nodes_map_ok nodes_map nl →
  ∃ r, event_step aligned nodes_map (Done (nl, tl, index)) event = Done r.
Proof.
  intros [Hmap _]. unfold event_step. cbn [mbind Outcome_bind].
  destruct (nodes_map event.2.1) as [send_nodes|] eqn:Hsend; [|by eexists].
  destruct (nodes_map event.2.2) as [recv_nodes|] eqn:Hrecv; [|by eexists].
  destruct (Hmap _ _ Hsend) as [Hs Hsr]. destruct (Hmap _ _ Hrecv) as [Hr Hrr].
  destruct send_nodes as [|s0 ss]; [done|]. destruct recv_nodes as [|r0 rs]; [done|].
  destruct (lookup_lt_is_Some_2 nl s0 (Hsr s0 (list_elem_of_here _ _))) as [somas_send Hs0].
  destruct (lookup_lt_is_Some_2 nl r0 (Hrr r0 (list_elem_of_here _ _))) as [somas_recv Hr0].
  unfold get_node. rewrite Hs0, Hr0. cbn [mbind Outcome_bind].
  unfold update_nodes. cbn [foldl mbind Outcome_bind]. unfold get_node.
  rewrite Hs0. cbn [mbind Outcome_bind].
  destruct (lookup_lt_is_Some_2 (<[s0 := push_output index somas_send]> nl) r0)
    as [node_r Hnode_r].
  { rewrite length_insert. by eapply lookup_lt_Some. }
  rewrite Hnode_r. cbn [mbind Outcome_bind]. unfold insert_ancestor.
  rewrite list_lookup_insert_eq by (rewrite length_insert; by eapply lookup_lt_Some).
  case_bool_decide; cbn [mbind Outcome_bind]; by eexists.
Qed.

Lemma InitSomasEventInfos_total (graph : KernelGraph) (nl : list SomasNode)
    (tl : list SomasTensor) :
  nodes_map_ok nodes_map nl → registry_ok nodes_map nl tl →
  ∃ nl' tl', InitSomasEventInfos aligned graph nodes_map nl tl = Done (nl', tl').
Proof.
  intros Hmap Hok. unfold InitSomasEventInfos.
  assert (∀ events nl0 tl0,
            nodes_map_ok nodes_map nl0 → registry_ok nodes_map nl0 tl0 →
            ∃ r, foldl (event_step aligned nodes_map) (Done (nl0, tl0, length tl0)) events
                 = Done r) as Hgen.
  { induction events as [|event events IH]; intros nl0 tl0 Hmap0 Hok0; cbn [foldl].
    - by eexists.
    - destruct (event_step_total nl0 tl0 (length tl0) event Hmap0) as [[[nl1 tl1] index1] Hstep].
      rewrite Hstep.
      destruct (event_step_ok nl0 tl0 event nl1 tl1 index1 Hmap0 Hok0 Hstep)
        as (-> & Hok1 & Hn1 & _).
      apply IH; [by eapply nodes_map_ok_linked|done]. }
  destruct (Hgen (event_map_of graph) nl tl Hmap Hok) as [[[nl' tl'] index'] ->].
  cbn [mbind Outcome_bind]. by exists nl', tl'.
Qed.

End events.

(** ** The initialisation as a whole *)

Section composition.
Context (aligned : N → N) (graph : KernelGraph) (nodes_map : NodesMap).

(** What a run of the kernel loop of [InitSomasOutputAndWorkspaceTensors]
    that ends [Done] says about the kernels. *)
Lemma init_kernels_Done_pre (kernels : list nat)
    (a0 a : list SomasNode * list SomasTensor * nat) :
  foldl (init_kernel_tensors aligned graph nodes_map) (Done a0) kernels = Done a →
  ∀ kernel, kernel ∈ kernels →
    is_Some (GetKernelMod graph kernel)
    ∧ ∃ nodes, nodes_map kernel = Some nodes ∧ nodes ≠ [].
Proof.
  intros Hrun.
  refine (foldl_Done_ind (init_kernel_tensors aligned graph nodes_map)
            (fun pre _ => ∀ kernel, kernel ∈ pre →
               is_Some (GetKernelMod graph kernel)
               ∧ ∃ nodes, nodes_map kernel = Some nodes ∧ nodes ≠ [])
            kernels a0 a _ _ _ _ Hrun).
  - done.
  - done.
  - intros kernel Hin. by apply elem_of_nil in Hin.
  - intros pre x [[nl tl] ti] a2 IH Hstep kernel Hin.
    apply elem_of_app in Hin as [Hin|Hin]; [by apply IH|].
    apply list_elem_of_singleton in Hin as ->.
    unfold init_kernel_tensors in Hstep. cbn [mbind Outcome_bind] in Hstep.
    destruct (nodes_map x) as [[|n0 rest]|] eqn:Hmap; try discriminate Hstep.
    destruct (get_node nl n0) as [node| |]; cbn [mbind Outcome_bind] in Hstep;
      try discriminate Hstep.
    destruct (GetKernelMod graph x) as [kernel_mod|]; [|discriminate Hstep].
    split; [by eexists|]. by exists (n0 :: rest).
Qed.

(** The registry after [InitSomasOutputAndWorkspaceTensors], when it is run
    on what [InitSomasStreamAndNode] leaves and returns. *)
Lemma made_registry_ok (nl : list SomasNode) (tl : list SomasTensor) :
  (∀ kernel, nodes_map kernel
             = if bool_decide (kernel ∈ node_kernels graph)
               then Some (occurrences kernel (node_kernels graph)) else None) →
  InitSomasOutputAndWorkspaceTensors aligned graph nodes_map
    (imap (fresh_node graph) (node_kernels graph)) = Done (nl, tl) →
  nodes_map_ok nodes_map nl ∧ registry_ok nodes_map nl tl
  ∧ tensors_made aligned graph nodes_map (imap (fresh_node graph) (node_kernels graph)) nl tl.
Proof.
  intros Hmap Hrun. unfold InitSomasOutputAndWorkspaceTensors in Hrun.
  set (nl0 := imap (fresh_node graph) (node_kernels graph)) in *.
  destruct (foldl _ _ (execution_order graph)) as [[[nl1 tl1] ti]| |] eqn:Hfold;
    cbn [mbind Outcome_bind] in Hrun; try discriminate Hrun.
  injection Hrun as -> ->.
  assert (dense_node_ids nl0) as Hdense.
  { unfold dense_node_ids, nl0. by rewrite fresh_nodes_ids, length_imap. }
  pose proof (init_kernels_Done_pre _ _ _ Hfold) as Hpre.
  destruct (init_kernels_fold aligned graph nodes_map nl0 (execution_order graph) nl0 []
              Hdense) as (nl' & tl' & Hrun' & Hmade & _).
  - intros kernel Hin. destruct (Hpre kernel Hin) as (Hmod & nodes & Hk & Hne).
    split_and!; [done..|]. exists nodes. split_and!; [done..|].
    intros n Hn. rewrite Hmap in Hk. case_bool_decide; [|done]. injection Hk as <-.
    unfold occurrences in Hn. apply list_elem_of_filter in Hn as [_ Hn].
    apply elem_of_seq in Hn. unfold nl0. rewrite length_imap. lia.
  - unfold tensors_made. split_and!; [done|constructor| |].
    { apply Forall2_rel_refl. apply node_grown_refl. }
    intros tid t Ht. by rewrite lookup_nil in Ht.
  - cbn [length] in Hrun'. rewrite Hfold in Hrun'. injection Hrun' as <- <- _.
    pose proof Hmade as (_ & _ & Hgrown & _). apply Forall2_length in Hgrown.
    split_and!; [|by eapply tensors_made_registry_ok; [|apply fresh_nodes_imap|]|done].
    apply (occurrences_nodes_map_ok (node_kernels graph)); [|done].
    rewrite <- Hgrown. unfold nl0. by rewrite length_imap.
Qed.

End composition.

(** ** The example graphs *)

Section examples.

Lemma pipeline_made_ok :
  nodes_map_ok pipeline_nodes_map pipeline_made.1
  ∧ registry_ok pipeline_nodes_map pipeline_made.1 pipeline_made.2.
Proof.
  destruct (made_registry_ok round_up_512 pipeline_graph pipeline_nodes_map
              pipeline_made.1 pipeline_made.2) as (Hmap & Hok & _); [done| |done].
  vm_compute. reflexivity.
Qed.

Lemma pipeline_linked_run :
  ∃ params,
    InitSomasInputTensors false pipeline_graph pipeline_nodes_map
      (pipeline_made.1, pipeline_made.2, no_parameters)
    = Done (pipeline_linked.1, pipeline_linked.2, params).
Proof.
  assert (match InitSomasInputTensors false pipeline_graph pipeline_nodes_map
                  (pipeline_made.1, pipeline_made.2, no_parameters) with
          | Done r => r.1 = pipeline_linked
          | _ => False
          end) as H by (vm_compute; reflexivity).
  destruct (InitSomasInputTensors _ _ _ _) as [[[nl tl] params]| |]; [|destruct H..].
  exists params. by rewrite <- H.
Qed.

Lemma pipeline_linked_ok :
  nodes_map_ok pipeline_nodes_map pipeline_linked.1
  ∧ registry_ok pipeline_nodes_map pipeline_linked.1 pipeline_linked.2.
Proof.
  destruct pipeline_linked_run as [params Hrun]. destruct pipeline_made_ok as [Hmap Hok].
  apply InitSomasInputTensors_ok in Hrun as (Hok' & Hnodes & _); [|done..].
  split; [|done]. eapply nodes_map_ok_linked; [|done]. by eapply inputs_grown_linked.
Qed.

Lemma pipeline_initial_run :
  InitSomasEventInfos round_up_512 pipeline_graph pipeline_nodes_map
    pipeline_linked.1 pipeline_linked.2
  = Done (pipeline_initial.1, pipeline_initial.2).
Proof. vm_compute. reflexivity. Qed.

Lemma pipeline_initial_ok :
  nodes_map_ok pipeline_nodes_map pipeline_initial.1
  ∧ registry_ok pipeline_nodes_map pipeline_initial.1 pipeline_initial.2.
Proof.
  destruct pipeline_linked_ok as [Hmap Hok].
  destruct (InitSomasEventInfos_ok round_up_512 pipeline_nodes_map pipeline_graph _ _ _ _
              Hmap Hok pipeline_initial_run) as (Hok' & Hnodes & _).
  split; [|done]. by eapply nodes_map_ok_linked.
Qed.

Lemma clean_made_ok :
  nodes_map_ok clean_nodes_map clean_made.1
  ∧ registry_ok clean_nodes_map clean_made.1 clean_made.2.
Proof.
  destruct (made_registry_ok round_up_512 clean_graph clean_nodes_map
              clean_made.1 clean_made.2) as (Hmap & Hok & _); [done| |done].
  vm_compute. reflexivity.
Qed.

Lemma clean_linked_run :
  ∃ params,
    InitSomasInputTensors true clean_graph clean_nodes_map
      (clean_made.1, clean_made.2, no_parameters)
    = Done (clean_linked.1, clean_linked.2, params).
Proof.
  assert (match InitSomasInputTensors true clean_graph clean_nodes_map
                  (clean_made.1, clean_made.2, no_parameters) with
          | Done r => r.1 = clean_linked
          | _ => False
          end) as H by (vm_compute; reflexivity).
  destruct (InitSomasInputTensors _ _ _ _) as [[[nl tl] params]| |]; [|destruct H..].
  exists params. by rewrite <- H.
Qed.

End examples.

(** X18. On a registry that is linked up, and when it returns,
    [InitSomasInputTensors] leaves the registry linked up: every destination
    of a tensor lies within the lifetime of the tensor, the destination node
    holds the tensor among its inputs, and the first node of its kernel is
    the source of the tensor or has it as a direct ancestor.  Nodes change in
    that registered tensors are appended to their inputs and ancestors are
    added; tensors change in that destinations are added, the lifetime is
    stretched, OutputOnly becomes Common and (for the inputs of an atomic
    clean, with fusion clear) the tensor becomes lifelong. *)
Theorem X18_inputs_link_producers_and_consumers (enable_fusion_clear : bool)
    (graph : KernelGraph) (nodes_map : NodesMap) (nl : list SomasNode) (tl : list SomasTensor)
    (params : Parameters) (nl' : list SomasNode) (tl' : list SomasTensor)
    (params' : Parameters) :
  nodes_map_ok nodes_map nl → registry_ok nodes_map nl tl →
  InitSomasInputTensors enable_fusion_clear graph nodes_map (nl, tl, params)
  = Done (nl', tl', params') →
  registry_ok nodes_map nl' tl'
  ∧ Forall2 (node_inputs_grown (length tl)) nl nl'
  ∧ Forall2 input_frame tl tl'.
Proof. intros Hmap Hok Hrun. by eapply InitSomasInputTensors_ok. Qed.

Lemma X18_witness :
  ∃ params,
    InitSomasInputTensors false pipeline_graph pipeline_nodes_map
      (pipeline_made.1, pipeline_made.2, no_parameters)
    = Done (pipeline_linked.1, pipeline_linked.2, params)
    ∧ registry_ok pipeline_nodes_map pipeline_linked.1 pipeline_linked.2
    ∧ Forall2 (node_inputs_grown (length pipeline_made.2)) pipeline_made.1 pipeline_linked.1
    ∧ Forall2 input_frame pipeline_made.2 pipeline_linked.2.
Proof.
  destruct pipeline_linked_run as [params Hrun]. exists params. split; [exact Hrun|].
  apply (X18_inputs_link_producers_and_consumers false pipeline_graph pipeline_nodes_map
           pipeline_made.1 pipeline_made.2 no_parameters pipeline_linked.1 pipeline_linked.2
           params).
  - apply pipeline_made_ok.
  - apply pipeline_made_ok.
  - exact Hrun.
Defined.

(** X19. On a registry that is linked up, and when [InitSomasInputTensors]
    returns, every input of every kernel of the execution order that is not
    an atomic clean has been visited as a node, neither null nor a MakeTuple.
    When the input comes from a real kernel, that kernel has nodes, the
    output index is below the number of outputs of its first node, and the
    tensor at that index is no longer OutputOnly, has every node of the
    consuming kernel as a destination within its lifetime, and is among the
    inputs of each of these nodes. *)
Theorem X19_every_input_of_a_kernel_is_linked (enable_fusion_clear : bool)
    (graph : KernelGraph) (nodes_map : NodesMap) (nl : list SomasNode) (tl : list SomasTensor)
    (params : Parameters) (nl' : list SomasNode) (tl' : list SomasTensor)
    (params' : Parameters) :
  nodes_map_ok nodes_map nl → registry_ok nodes_map nl tl →
  InitSomasInputTensors enable_fusion_clear graph nodes_map (nl, tl, params)
  = Done (nl', tl', params') →
  ∀ kernel i, kernel ∈ execution_order graph → IsAtomicAddrCleanOp graph kernel = false →
    i < GetInputTensorNum graph kernel → real_input_linked graph nodes_map nl' tl' kernel i.
Proof.
  intros Hmap Hok Hrun kernel i Hkernel Hcommon Hi.
  pose proof (InitSomasInputTensors_links enable_fusion_clear graph nodes_map nl tl params
                nl' tl' params' Hmap Hok Hrun kernel i Hkernel Hi) as H.
  by rewrite Hcommon in H.
Qed.

Lemma X19_witness :
  ∃ params,
    InitSomasInputTensors false pipeline_graph pipeline_nodes_map
      (pipeline_made.1, pipeline_made.2, no_parameters)
    = Done (pipeline_linked.1, pipeline_linked.2, params)
    ∧ real_input_linked pipeline_graph pipeline_nodes_map pipeline_linked.1
        pipeline_linked.2 13 1.
Proof.
  destruct pipeline_linked_run as [params Hrun]. exists params. split; [exact Hrun|].
  apply (X19_every_input_of_a_kernel_is_linked false pipeline_graph pipeline_nodes_map
           pipeline_made.1 pipeline_made.2 no_parameters pipeline_linked.1 pipeline_linked.2
           params).
  - apply pipeline_made_ok.
  - apply pipeline_made_ok.
  - exact Hrun.
  - apply (bool_decide_unpack _). vm_compute. exact I.
  - reflexivity.
  - cbn. lia.
Defined.

(** X20. On a registry that is linked up, and when [InitSomasInputTensors]
    returns, every input of every atomic clean of the execution order is a
    kernel that has nodes, and every output and every workspace of its first
    node that the two index attributes of that kernel name is among the
    inputs of the first node of the atomic clean and, with fusion clear, is
    lifelong (GraphAll).  A workspace index is below the number of
    workspaces and not above the number of outputs, against which it is
    checked. *)
Theorem X20_atomic_clean_inputs_are_linked (enable_fusion_clear : bool)
    (graph : KernelGraph) (nodes_map : NodesMap) (nl : list SomasNode) (tl : list SomasTensor)
    (params : Parameters) (nl' : list SomasNode) (tl' : list SomasTensor)
    (params' : Parameters) :
  nodes_map_ok nodes_map nl → registry_ok nodes_map nl tl →
  InitSomasInputTensors enable_fusion_clear graph nodes_map (nl, tl, params)
  = Done (nl', tl', params') →
  ∀ kernel i, kernel ∈ execution_order graph → IsAtomicAddrCleanOp graph kernel = true →
    i < GetInputTensorNum graph kernel →
    atomic_clean_linked enable_fusion_clear graph nodes_map nl' tl' kernel i.
Proof.
  intros Hmap Hok Hrun kernel i Hkernel Hclean Hi.
  pose proof (InitSomasInputTensors_links enable_fusion_clear graph nodes_map nl tl params
                nl' tl' params' Hmap Hok Hrun kernel i Hkernel Hi) as H.
  by rewrite Hclean in H.
Qed.

Lemma X20_witness :
  ∃ params,
    InitSomasInputTensors true clean_graph clean_nodes_map
      (clean_made.1, clean_made.2, no_parameters)
    = Done (clean_linked.1, clean_linked.2, params)
    ∧ atomic_clean_linked true clean_graph clean_nodes_map clean_linked.1 clean_linked.2 30 0.
Proof.
  destruct clean_linked_run as [params Hrun]. exists params. split; [exact Hrun|].
  apply (X20_atomic_clean_inputs_are_linked true clean_graph clean_nodes_map
           clean_made.1 clean_made.2 no_parameters clean_linked.1 clean_linked.2 params).
  - apply clean_made_ok.
  - apply clean_made_ok.
  - exact Hrun.
  - apply (bool_decide_unpack _). vm_compute. exact I.
  - reflexivity.
  - cbn. lia.
Defined.



(** X21. On a registry that is linked up [InitSomasEventInfos] does not
    fail.  It changes no tensor and appends event tensors: virtual outputs of
    size 0 that are not lifelong, live from their source node to their only
    destination and have no consumer yet.  The registry stays linked up, so
    the destination holds the tensor among its inputs and the first node of
    its kernel is the source or has it as a direct ancestor; nodes change
    only in that registered tensors are appended to their outputs and inputs
    and ancestors are added. *)
Theorem X21_events_link_send_and_receive (aligned : N → N) (graph : KernelGraph)
    (nodes_map : NodesMap) (nl : list SomasNode) (tl : list SomasTensor) :
  nodes_map_ok nodes_map nl → registry_ok nodes_map nl tl →
  ∃ nl' tl',
    InitSomasEventInfos aligned graph nodes_map nl tl = Done (nl', tl')
    ∧ registry_ok nodes_map nl' tl'
    ∧ Forall2 (node_linked (length tl')) nl nl'
    ∧ events_added aligned tl tl'.
Proof.
  intros Hmap Hok.
  destruct (InitSomasEventInfos_total aligned nodes_map graph nl tl Hmap Hok)
    as (nl' & tl' & Hrun).
  exists nl', tl'. split; [done|]. by eapply InitSomasEventInfos_ok.
Qed.

Lemma X21_witness :
  ∃ nl' tl',
    InitSomasEventInfos round_up_512 pipeline_graph pipeline_nodes_map
      pipeline_linked.1 pipeline_linked.2 = Done (nl', tl')
    ∧ registry_ok pipeline_nodes_map nl' tl'
    ∧ Forall2 (node_linked (length tl')) pipeline_linked.1 nl'
    ∧ events_added round_up_512 pipeline_linked.2 tl'.
Proof.
  apply (X21_events_link_send_and_receive round_up_512 pipeline_graph pipeline_nodes_map
           pipeline_linked.1 pipeline_linked.2).
  - apply pipeline_linked_ok.
  - apply pipeline_linked_ok.
Defined.


(** ** Parameters: [GetSomasParameter] *)

Section parameters.
Context (graph : KernelGraph).

Lemma find_last_match (Q : nat → bool) (ids : list nat) (id : nat) :
  (∀ x, x ∈ ids → Q x = true → x = id) → Q id = true → find Q (ids ++ [id]) = Some id.
Proof.
  intros Hids Hid. induction ids as [|a ids IH]; cbn [app find].
  - by rewrite Hid.
  - destruct (Q a) eqn:Ha.
    + f_equal. apply Hids; [apply list_elem_of_here|done].
    + apply IH. intros x Hx. apply Hids. by apply list_elem_of_further.
Qed.

Lemma find_no_match (Q : nat → bool) (ids : list nat) :
  find Q ids = None → ∀ x, x ∈ ids → Q x = false.
Proof.
  induction ids as [|a ids IH]; cbn [find]; intros Hnone x Hx.
  - by apply elem_of_nil in Hx.
  - destruct (Q a) eqn:Ha; [done|]. apply elem_of_cons in Hx as [->|Hx]; [done|by apply IH].
Qed.

Lemma find_match (Q : nat → bool) (ids : list nat) (id : nat) :
  find Q ids = Some id → id ∈ ids ∧ Q id = true.
Proof.
  induction ids as [|a ids IH]; cbn [find]; [done|].
  destruct (Q a) eqn:Ha.
  - intros [= <-]. split; [apply list_elem_of_here|done].
  - intros H. destruct (IH H). split; [by apply list_elem_of_further|done].
Qed.

End parameters.

(** X22. When [GetSomasParameter] returns, the parameter it returns is
    registered under the node in [parameters_map_] and has the output index
    asked for, and a second call with the same node and index returns the
    same parameter and changes nothing.  The call has either changed nothing
    or appended one parameter, which has the name of the node and whose id
    is its position in [parameters_list_], to the list and to the parameters
    of the node; the parameters of other nodes are as they were. *)
Theorem X22_GetSomasParameter_remembers (graph : KernelGraph) (params : Parameters)
    (node index : nat) (params' : Parameters) (id : nat) :
  GetSomasParameter graph params node index = Done (params', id) →
  GetSomasParameter graph params' node index = Done (params', id)
  ∧ (∃ ids p, parameters_map_ params' node = Some ids ∧ id ∈ ids
              ∧ parameters_list_ params' !! id = Some p ∧ output_index_ p = index)
  ∧ (params' = params
     ∨ ∃ p, parameters_list_ params' = parameters_list_ params ++ [p]
            ∧ id = length (parameters_list_ params) ∧ param_id_ p = id
            ∧ source_node_name_ p = fullname_with_scope graph node
            ∧ parameters_map_ params' node
              = Some (default [] (parameters_map_ params node) ++ [id]))
  ∧ (∀ key, key ≠ node → parameters_map_ params' key = parameters_map_ params key)
  ∧ input_parameters_map_ params' = input_parameters_map_ params.
Proof.
  unfold GetSomasParameter at 1.
  pose (Q := fun ps (i : nat) =>
               bool_decide (output_index_ <$> parameters_list_ ps !! i = Some index)).
  destruct (match parameters_map_ params node with
            | Some ids => find _ ids
            | None => None
            end) as [found|] eqn:Hfound.
  - intros [= <- <-]. unfold GetSomasParameter. rewrite Hfound.
    split; [done|]. split_and!; [|by left|done|done].
    destruct (parameters_map_ params node) as [ids|]; [|done].
    apply find_match in Hfound as [Hin HQ]. apply bool_decide_eq_true_1 in HQ.
    destruct (parameters_list_ params !! found) as [p|]; [|done].
    exists ids, p. split_and!; [done..|]. by injection HQ.
  - unfold CreateSomasParameter.
    destruct (if OutputAddrExist graph node index then _ else _) as [addr_size| |];
      cbn [mbind Outcome_bind]; try discriminate.
    intros [= <- <-].
    set (list := parameters_list_ params).
    set (p := mkParameter (length list) (fullname_with_scope graph node) index
                addr_size.1 addr_size.2).
    set (ids := default [] (parameters_map_ params node)).
    assert (∀ x, x ∈ ids → Q params x = false) as Hnone.
    { unfold ids. destruct (parameters_map_ params node) as [ids0|].
      - by apply find_no_match.
      - intros x Hx. by apply elem_of_nil in Hx. }
    split_and!.
    + unfold GetSomasParameter. cbn [parameters_map_ parameters_list_].
      rewrite bool_decide_eq_true_2 by done. fold list ids.
      rewrite (find_last_match _ ids (length list)); [done| |].
      * intros x Hx HQ. apply bool_decide_eq_true_1 in HQ.
        destruct (decide (x < length list)) as [Hlt|Hge].
        -- rewrite lookup_app_l in HQ by done. specialize (Hnone x Hx).
           unfold Q in Hnone. by rewrite bool_decide_eq_true_2 in Hnone.
        -- destruct (decide (x = length list)) as [->|Hne]; [done|].
           rewrite lookup_ge_None_2 in HQ; [done|]. rewrite length_app. cbn [length]. lia.
      * apply bool_decide_eq_true_2. by rewrite list_lookup_middle.
    + exists (ids ++ [length list]), p. cbn [parameters_map_ parameters_list_].
      rewrite bool_decide_eq_true_2 by done. fold list ids.
      split_and!; [done| |by rewrite list_lookup_middle|done].
      apply elem_of_app. right. apply list_elem_of_here.
    + right. exists p. cbn [parameters_map_ parameters_list_].
      rewrite bool_decide_eq_true_2 by done. split_and!; done.
    + intros key Hkey. cbn [parameters_map_]. by rewrite bool_decide_eq_false_2.
    + done.
Qed.

Lemma X22_witness :
  ∃ params',
    GetSomasParameter pipeline_graph no_parameters 99 0 = Done (params', 0)
    ∧ GetSomasParameter pipeline_graph params' 99 0 = Done (params', 0)
    ∧ length (parameters_list_ params') = 1.
Proof.
  assert (match GetSomasParameter pipeline_graph no_parameters 99 0 with
          | Done r => r.2 = 0 ∧ length (parameters_list_ r.1) = 1
          | _ => False
          end) as H by (vm_compute; done).
  destruct (GetSomasParameter pipeline_graph no_parameters 99 0) as [[params' id]| |] eqn:Hrun;
    [|destruct H..].
  cbn [fst snd] in H. destruct H as [-> Hlen]. exists params'. split; [reflexivity|].
  split; [|exact Hlen].
  apply (X22_GetSomasParameter_remembers pipeline_graph no_parameters 99 0 params' 0 Hrun).
Defined.

(** ** The special tensors *)

Section special_tensors.
Context (graph : KernelGraph) (nodes_map : NodesMap) (nl : list SomasNode).

Lemma update_all_spec (f : SomasTensor → SomasTensor) (tids : list nat)
    (tl tl' : list SomasTensor) :
  (∀ t, f (f t) = f t) →
  foldl (fun acc tid => tl ← acc; update_tensor tid f tl) (Done tl) tids = Done tl' →
  (∀ tid, tid ∈ tids → tid < length tl)
  ∧ ∀ k, tl' !! k = (if bool_decide (k ∈ tids) then f else id) <$> tl !! k.
Proof.
  intros Hidem. revert tl. induction tids as [|tid tids IH]; intros tl Hrun; cbn [foldl] in Hrun.
  - injection Hrun as <-. split; [intros tid H; by apply elem_of_nil in H|].
    intros k. rewrite bool_decide_eq_false_2 by apply not_elem_of_nil.
    by destruct (tl !! k).
  - cbn [mbind Outcome_bind] in Hrun.
    destruct (update_tensor tid f tl) as [tl1| |] eqn:Hupd;
      [|by rewrite foldl_Exception in Hrun|by rewrite foldl_Undefined in Hrun].
    apply update_tensor_Done in Hupd as (t & Ht & ->).
    apply IH in Hrun as [Hlt Hk]. rewrite length_insert in Hlt. split.
    + intros x [->|Hx]%elem_of_cons; [by eapply lookup_lt_Some|by apply Hlt].
    + intros k. rewrite Hk. destruct (decide (k = tid)) as [->|Hne].
      * rewrite list_lookup_insert_eq by (by eapply lookup_lt_Some). rewrite Ht.
        rewrite (bool_decide_eq_true_2 (tid ∈ tid :: tids)) by apply list_elem_of_here.
        csimpl. case_bool_decide; csimpl; by rewrite ?Hidem.
      * rewrite list_lookup_insert_ne by done.
        destruct (decide (k ∈ tids)) as [Hin|Hin].
        -- rewrite !bool_decide_eq_true_2; [done|by apply list_elem_of_further|done].
        -- rewrite !bool_decide_eq_false_2; [done| |done].
           intros [?|?]%elem_of_cons; done.
Qed.

Lemma update_all_total (f : SomasTensor → SomasTensor) (tids : list nat) (tl : list SomasTensor) :
  (∀ tid, tid ∈ tids → tid < length tl) →
  ∃ tl', foldl (fun acc tid => tl ← acc; update_tensor tid f tl) (Done tl) tids = Done tl'.
Proof.
  revert tl. induction tids as [|tid tids IH]; intros tl Hlt; cbn [foldl]; [by exists tl|].
  destruct (lookup_lt_is_Some_2 tl tid) as [t Ht]; [apply Hlt, list_elem_of_here|].
  cbn [mbind Outcome_bind]. unfold update_tensor at 2.
  rewrite (proj2 (get_tensor_Done tl tid t) Ht). cbn [mbind Outcome_bind].
  apply IH. intros x Hx. rewrite length_insert. by apply Hlt, list_elem_of_further.
Qed.

Lemma changed_where_same_links marked f tl tl' :
  (∀ t, same_links t (f t)) → changed_where marked f tl tl' → Forall2 same_links tl tl'.
Proof.
  intros Hf H. apply Forall2_lookup. intros k. destruct (H k) as [[_ ->]|[_ ->]].
  - destruct (tl !! k); constructor. apply Hf.
  - destruct (tl !! k); constructor. apply same_links_refl.
Qed.

Lemma changed_where_refl (marked : nat → Prop) f tl :
  (∀ tid, ¬ marked tid) → changed_where marked f tl tl.
Proof. intros H tid. right. split; [apply H|done]. Qed.

(** One more batch of tensors is changed. *)
Lemma changed_where_step (marked marked' : nat → Prop) f (tids : list nat) tl tl1 tl2 :
  (∀ t, f (f t) = f t) →
  changed_where marked f tl tl1 →
  (∀ k, tl2 !! k = (if bool_decide (k ∈ tids) then f else id) <$> tl1 !! k) →
  (∀ k, marked' k ↔ marked k ∨ k ∈ tids) →
  changed_where marked' f tl tl2.
Proof.
  intros Hidem H1 H2 Hm k. rewrite H2. destruct (decide (k ∈ tids)) as [Hin|Hin].
  - rewrite bool_decide_eq_true_2 by done. left. split; [apply Hm; by right|].
    destruct (H1 k) as [[_ ->]|[_ ->]]; destruct (tl !! k); csimpl; by rewrite ?Hidem.
  - rewrite bool_decide_eq_false_2 by done.
    destruct (H1 k) as [[Hk ->]|[Hk ->]].
    + left. split; [apply Hm; by left|]. by destruct (tl !! k).
    + right. split; [|by destruct (tl !! k)]. rewrite Hm. tauto.
Qed.

Lemma changed_where_ext (marked marked' : nat → Prop) f tl tl' :
  (∀ k, marked' k ↔ marked k) → changed_where marked f tl tl' → changed_where marked' f tl tl'.
Proof.
  intros Hm H k. destruct (H k) as [[Hk E]|[Hk E]]; [left|right]; (split; [|done]);
    rewrite Hm; done.
Qed.

Lemma changed_where_length marked f tl tl' : changed_where marked f tl tl' → length tl' = length tl.
Proof.
  intros H. apply Nat.le_antisymm.
  - destruct (decide (length tl' ≤ length tl)) as [|Hgt]; [done|].
    destruct (lookup_lt_is_Some_2 tl' (length tl)) as [t Ht]; [lia|].
    assert (tl !! length tl = None) as Hnone by (apply lookup_ge_None_2; lia).
    destruct (H (length tl)) as [[_ E]|[_ E]]; rewrite Ht, Hnone in E; done.
  - destruct (decide (length tl ≤ length tl')) as [|Hgt]; [done|].
    destruct (lookup_lt_is_Some_2 tl (length tl')) as [t Ht]; [lia|].
    assert (tl' !! length tl' = None) as Hnone by (apply lookup_ge_None_2; lia).
    destruct (H (length tl')) as [[_ E]|[_ E]]; rewrite Ht, Hnone in E; done.
Qed.

(** The kernel loop of [mark_outputs], for the kernels [kernels]. *)
Lemma mark_outputs_fold (selected : nat → bool) (f : SomasTensor → SomasTensor)
    (kernels : list nat) (tl tl' : list SomasTensor) :
  (∀ t, f (f t) = f t) →
  foldl (fun acc kernel =>
           tl ← acc;
           if negb (selected kernel) then Done tl
           else
             match nodes_map kernel with
             | None => Done tl
             | Some [] => Exception "out_of_range"
             | Some (n0 :: _) =>
                 node ← get_node nl n0;
                 foldl (fun acc tensor => tl ← acc; update_tensor tensor f tl) (Done tl)
                       (output_tensors_ node)
             end)
        (Done tl) kernels = Done tl' →
  changed_where
    (fun tid => ∃ kernel n0 rest node,
                  kernel ∈ kernels ∧ selected kernel = true
                  ∧ nodes_map kernel = Some (n0 :: rest) ∧ nl !! n0 = Some node
                  ∧ tid ∈ output_tensors_ node) f tl tl'.
Proof.
  intros Hidem Hrun.
  refine (foldl_Done_ind _
            (fun pre acc =>
               changed_where
                 (fun tid => ∃ kernel n0 rest node,
                               kernel ∈ pre ∧ selected kernel = true
                               ∧ nodes_map kernel = Some (n0 :: rest) ∧ nl !! n0 = Some node
                               ∧ tid ∈ output_tensors_ node) f tl acc)
            kernels tl tl' _ _ _ _ Hrun); [done..| |].
  - apply changed_where_refl. intros tid (k & _ & _ & _ & Hk & _). by apply elem_of_nil in Hk.
  - intros pre kernel tl1 tl2 Hinv Hstep. cbn [mbind Outcome_bind] in Hstep.
    assert (∀ (extra : nat → Prop),
              (∀ tid, extra tid ↔ ∃ n0 rest node,
                        selected kernel = true ∧ nodes_map kernel = Some (n0 :: rest)
                        ∧ nl !! n0 = Some node ∧ tid ∈ output_tensors_ node) →
              ∀ tid, (∃ k n0 rest node,
                        k ∈ pre ++ [kernel] ∧ selected k = true
                        ∧ nodes_map k = Some (n0 :: rest) ∧ nl !! n0 = Some node
                        ∧ tid ∈ output_tensors_ node)
                     ↔ (∃ k n0 rest node,
                          k ∈ pre ∧ selected k = true
                          ∧ nodes_map k = Some (n0 :: rest) ∧ nl !! n0 = Some node
                          ∧ tid ∈ output_tensors_ node) ∨ extra tid) as Hsplit.
    { intros extra Hextra tid. rewrite Hextra. split.
      - intros (k & n0 & rest & node & Hk & Hsel & Hmap & Hnode & Hin).
        apply elem_of_app in Hk as [Hk|Hk%list_elem_of_singleton].
        + left. by exists k, n0, rest, node.
        + subst k. right. by exists n0, rest, node.
      - intros [(k & n0 & rest & node & Hk & Hrest)|(n0 & rest & node & Hsel & Hrest)].
        + exists k, n0, rest, node. split; [apply elem_of_app; by left|done].
        + exists kernel, n0, rest, node.
          split; [apply elem_of_app; right; apply list_elem_of_here|done]. }
    destruct (selected kernel) eqn:Hsel; cbn [negb] in Hstep.
    2:{ injection Hstep as <-. eapply changed_where_ext; [|exact Hinv].
        intros tid. rewrite (Hsplit (fun _ => False)); [tauto|].
        intros ?. split; [done|]. by intros (? & ? & ? & ? & _). }
    destruct (nodes_map kernel) as [[|n0 rest]|] eqn:Hmap.
    + discriminate Hstep.
    + unfold get_node in Hstep. destruct (nl !! n0) as [node|] eqn:Hnode;
        cbn [mbind Outcome_bind] in Hstep; [|discriminate Hstep].
      apply update_all_spec in Hstep as [_ Hk]; [|done].
      eapply changed_where_step; [done|exact Hinv|exact Hk|].
      apply Hsplit. intros tid. split.
      * intros Hin. by exists n0, rest, node.
      * intros (n0' & rest' & node' & _ & [= <- <-] & Hnode' & Hin). congruence.
    + injection Hstep as <-. eapply changed_where_ext; [|exact Hinv].
      intros tid. rewrite (Hsplit (fun _ => False)); [tauto|].
      intros ?. split; [done|]. by intros (? & ? & ? & ? & ? & _).
Qed.

Lemma update_all_length (f : SomasTensor → SomasTensor) (tids : list nat)
    (tl tl' : list SomasTensor) :
  foldl (fun acc tid => tl ← acc; update_tensor tid f tl) (Done tl) tids = Done tl' →
  length tl' = length tl.
Proof.
  revert tl. induction tids as [|tid tids IH]; intros tl Hrun; cbn [foldl] in Hrun.
  - by injection Hrun as <-.
  - cbn [mbind Outcome_bind] in Hrun.
    destruct (update_tensor tid f tl) as [tl1| |] eqn:Hupd;
      [|by rewrite foldl_Exception in Hrun|by rewrite foldl_Undefined in Hrun].
    apply update_tensor_Done in Hupd as (t & Ht & ->).
    apply IH in Hrun. by rewrite length_insert in Hrun.
Qed.

Lemma mark_outputs_total (selected : nat → bool) (f : SomasTensor → SomasTensor)
    (tl : list SomasTensor) :
  nodes_map_ok nodes_map nl → registry_ok nodes_map nl tl →
  ∃ tl', mark_outputs selected f graph nodes_map nl tl = Done tl'.
Proof.
  intros [Hmap _] (_ & _ & R3 & _). unfold mark_outputs.
  assert (∀ tl0, length tl0 = length tl →
            ∃ tl', foldl (fun acc kernel =>
                     tl ← acc;
                     if negb (selected kernel) then Done tl
                     else
                       match nodes_map kernel with
                       | None => Done tl
                       | Some [] => Exception "out_of_range"
                       | Some (n0 :: _) =>
                           node ← get_node nl n0;
                           foldl (fun acc tensor => tl ← acc; update_tensor tensor f tl)
                                 (Done tl) (output_tensors_ node)
                       end)
                   (Done tl0) (execution_order graph) = Done tl') as Hgen; [|by apply Hgen].
  induction (execution_order graph) as [|kernel kernels IH]; intros tl0 Hlen; cbn [foldl];
    [by exists tl0|].
  cbn [mbind Outcome_bind]. destruct (negb (selected kernel)); [by apply IH|].
  destruct (nodes_map kernel) as [[|n0 rest]|] eqn:Hk; [|..|by apply IH].
  { by destruct (Hmap kernel [] Hk) as [? _]. }
  destruct (Hmap kernel (n0 :: rest) Hk) as [_ Hrange].
  destruct (lookup_lt_is_Some_2 nl n0 (Hrange n0 (list_elem_of_here _ _))) as [node Hnode].
  unfold get_node. rewrite Hnode. cbn [mbind Outcome_bind].
  destruct (update_all_total f (output_tensors_ node) tl0) as [tl1 Hrun].
  { intros tid Hin. rewrite Hlen. eapply R3; [done|]. by right; left. }
  rewrite Hrun. apply IH. apply update_all_length in Hrun. congruence.
Qed.

Lemma as_getnext_output_idem t : as_getnext_output (as_getnext_output t) = as_getnext_output t.
Proof. done. Qed.

Lemma SummaryInputProcess_spec (tl tl' : list SomasTensor) :
  SummaryInputProcess graph nodes_map nl tl = Done tl' →
  changed_where (summary_input graph nodes_map nl) as_summary_input tl tl'.
Proof.
  unfold SummaryInputProcess, summary_input. intros Hrun.
  destruct (summary_node_exist graph); cbn [negb] in Hrun.
  2:{ injection Hrun as <-. apply changed_where_refl. by intros tid [? _]. }
  eapply changed_where_ext.
  { intros tid. split; [intros [_ H]; exact H|by intros H]. }
  refine (foldl_Done_ind _
            (fun pre acc =>
               changed_where
                 (fun tid => ∃ item n0 rest node,
                               item ∈ pre ∧ nodes_map item.1 = Some (n0 :: rest)
                               ∧ nl !! n0 = Some node
                               ∧ output_tensors_ node !! item.2 = Some tid)
                 as_summary_input tl acc)
            (summary_nodes graph) tl tl' _ _ _ _ Hrun); [done..| |].
  - apply changed_where_refl. intros tid (k & _ & _ & _ & Hk & _). by apply elem_of_nil in Hk.
  - intros pre item tl1 tl2 Hinv Hstep. cbn [mbind Outcome_bind] in Hstep.
    assert (∀ tids : list nat,
              (∀ tid, tid ∈ tids ↔ ∃ n0 rest node,
                        nodes_map item.1 = Some (n0 :: rest) ∧ nl !! n0 = Some node
                        ∧ output_tensors_ node !! item.2 = Some tid) →
              (∀ k, tl2 !! k = (if bool_decide (k ∈ tids) then as_summary_input else id)
                               <$> tl1 !! k) →
              changed_where
                (fun tid => ∃ item0 n0 rest node,
                              item0 ∈ pre ++ [item] ∧ nodes_map item0.1 = Some (n0 :: rest)
                              ∧ nl !! n0 = Some node
                              ∧ output_tensors_ node !! item0.2 = Some tid)
                as_summary_input tl tl2) as Hsplit.
    { intros tids Htids Hk. eapply changed_where_step; [done|exact Hinv|exact Hk|].
      intros tid. rewrite Htids. split.
      - intros (k & n0 & rest & node & Hin & Hrest).
        apply elem_of_app in Hin as [Hin|Hin%list_elem_of_singleton].
        + left. by exists k, n0, rest, node.
        + subst k. right. by exists n0, rest, node.
      - intros [(k & n0 & rest & node & Hin & Hrest)|(n0 & rest & node & Hrest)].
        + exists k, n0, rest, node. split; [apply elem_of_app; by left|done].
        + exists item, n0, rest, node.
          split; [apply elem_of_app; right; apply list_elem_of_here|done]. }
    assert (∀ k, tl1 !! k = (if bool_decide (k ∈ @nil nat) then as_summary_input else id)
                            <$> tl1 !! k) as Hnil.
    { intros k. rewrite bool_decide_eq_false_2 by apply not_elem_of_nil.
      by destruct (tl1 !! k). }
    destruct (nodes_map item.1) as [[|n0 rest]|] eqn:Hmap.
    + discriminate Hstep.
    + unfold get_node in Hstep. destruct (nl !! n0) as [node|] eqn:Hnode;
        cbn [mbind Outcome_bind] in Hstep; [|discriminate Hstep].
      destruct (output_tensors_ node !! item.2) as [tid|] eqn:Htid.
      * apply update_tensor_Done in Hstep as (t & Ht & ->).
        apply (Hsplit [tid]).
        -- intros k. rewrite list_elem_of_singleton. split.
           ++ intros ->. by exists n0, rest, node.
           ++ intros (n0' & rest' & node' & [= <- <-] & Hnode' & Hk). congruence.
        -- intros k. destruct (decide (k = tid)) as [->|Hne].
           ++ rewrite list_lookup_insert_eq by (by eapply lookup_lt_Some).
              rewrite bool_decide_eq_true_2 by apply list_elem_of_here. by rewrite Ht.
           ++ rewrite list_lookup_insert_ne by done.
              rewrite bool_decide_eq_false_2 by (by rewrite list_elem_of_singleton).
              by destruct (tl1 !! k).
      * injection Hstep as <-. apply (Hsplit []); [|exact Hnil].
        intros k. split; [by intros ?%elem_of_nil|].
        intros (n0' & rest' & node' & [= <- <-] & Hnode' & Hk). congruence.
    + injection Hstep as <-. apply (Hsplit []); [|exact Hnil].
      intros k. split; [by intros ?%elem_of_nil|]. by intros (? & ? & ? & ? & _).
Qed.

Lemma SummaryInputProcess_total (tl : list SomasTensor) :
  nodes_map_ok nodes_map nl → registry_ok nodes_map nl tl →
  ∃ tl', SummaryInputProcess graph nodes_map nl tl = Done tl'.
Proof.
  intros [Hmap _] (_ & _ & R3 & _). unfold SummaryInputProcess.
  destruct (negb (summary_node_exist graph)); [by exists tl|].
  assert (∀ tl0, length tl0 = length tl →
            ∃ tl', foldl (fun acc item_with_index =>
                     tl ← acc;
                     match nodes_map item_with_index.1 with
                     | None => Done tl
                     | Some [] => Exception "out_of_range"
                     | Some (n0 :: _) =>
                         input_node ← get_node nl n0;
                         match output_tensors_ input_node !! item_with_index.2 with
                         | Some tensor => update_tensor tensor as_summary_input tl
                         | None => Done tl
                         end
                     end)
                   (Done tl0) (summary_nodes graph) = Done tl') as Hgen; [|by apply Hgen].
  induction (summary_nodes graph) as [|item items IH]; intros tl0 Hlen; cbn [foldl];
    [by exists tl0|].
  cbn [mbind Outcome_bind].
  destruct (nodes_map item.1) as [[|n0 rest]|] eqn:Hk; [|..|by apply IH].
  { by destruct (Hmap item.1 [] Hk) as [? _]. }
  destruct (Hmap item.1 (n0 :: rest) Hk) as [_ Hrange].
  destruct (lookup_lt_is_Some_2 nl n0 (Hrange n0 (list_elem_of_here _ _))) as [node Hnode].
  unfold get_node. rewrite Hnode. cbn [mbind Outcome_bind].
  destruct (output_tensors_ node !! item.2) as [tid|] eqn:Htid; [|by apply IH].
  destruct (lookup_lt_is_Some_2 tl0 tid) as [t Ht].
  { rewrite Hlen. eapply R3; [done|]. right; left. by eapply list_elem_of_lookup_2. }
  unfold update_tensor at 2. rewrite (proj2 (get_tensor_Done tl0 tid t) Ht).
  cbn [mbind Outcome_bind]. apply IH. by rewrite length_insert.
Qed.

End special_tensors.

(** X23. On a registry that is linked up, [GetNextOutputProcess] and
    [IndependentNodeOutputProcess] do not fail.  The first makes the outputs
    of the first node of every GetNext kernel lifelong (GraphAll) and of type
    GetNextOutput, the second gives the outputs of the first node of every
    independent kernel the lifelong value GraphEnd; no other tensor and no
    other member changes. *)
Theorem X23_getnext_and_independent_outputs (graph : KernelGraph) (nodes_map : NodesMap)
    (nl : list SomasNode) (tl : list SomasTensor) :
  nodes_map_ok nodes_map nl → registry_ok nodes_map nl tl →
  (∃ tl', GetNextOutputProcess graph nodes_map nl tl = Done tl'
          ∧ changed_where (output_of_selected (IsGetNextOp graph) graph nodes_map nl)
              as_getnext_output tl tl')
  ∧ (∃ tl', IndependentNodeOutputProcess graph nodes_map nl tl = Done tl'
            ∧ changed_where (output_of_selected (IsIndependentNode graph) graph nodes_map nl)
                (with_lifelong_value kLifeLongGraphEnd) tl tl').
Proof.
  intros Hmap Hok. split.
  - destruct (mark_outputs_total graph nodes_map nl (IsGetNextOp graph) as_getnext_output tl
                Hmap Hok) as [tl' Hrun].
    exists tl'. split; [done|]. by apply (mark_outputs_fold nodes_map nl) in Hrun.
  - destruct (mark_outputs_total graph nodes_map nl (IsIndependentNode graph)
                (with_lifelong_value kLifeLongGraphEnd) tl Hmap Hok) as [tl' Hrun].
    exists tl'. split; [done|]. by apply (mark_outputs_fold nodes_map nl) in Hrun.
Qed.

Lemma X23_witness :
  (∃ tl', GetNextOutputProcess pipeline_graph pipeline_nodes_map pipeline_initial.1
            pipeline_initial.2 = Done tl'
          ∧ changed_where
              (output_of_selected (IsGetNextOp pipeline_graph) pipeline_graph
                 pipeline_nodes_map pipeline_initial.1)
              as_getnext_output pipeline_initial.2 tl')
  ∧ (∃ tl', IndependentNodeOutputProcess pipeline_graph pipeline_nodes_map pipeline_initial.1
              pipeline_initial.2 = Done tl'
            ∧ changed_where
                (output_of_selected (IsIndependentNode pipeline_graph) pipeline_graph
                   pipeline_nodes_map pipeline_initial.1)
                (with_lifelong_value kLifeLongGraphEnd) pipeline_initial.2 tl').
Proof.
  apply (X23_getnext_and_independent_outputs pipeline_graph pipeline_nodes_map
           pipeline_initial.1 pipeline_initial.2).
  - apply pipeline_initial_ok.
  - apply pipeline_initial_ok.
Defined.


(** X24. On a registry that is linked up, [SummaryInputProcess] does not
    fail: a summary input whose node has no entry in [nodes_map_] or whose
    index is beyond the outputs of the node is passed over.  The outputs
    that the summary nodes read become lifelong (GraphAll) and of type
    SummaryInput; no other tensor and no other member changes, and nothing
    changes when the graph has no summary node. *)
Theorem X24_summary_inputs_become_lifelong (graph : KernelGraph) (nodes_map : NodesMap)
    (nl : list SomasNode) (tl : list SomasTensor) :
  nodes_map_ok nodes_map nl → registry_ok nodes_map nl tl →
  ∃ tl', SummaryInputProcess graph nodes_map nl tl = Done tl'
         ∧ changed_where (summary_input graph nodes_map nl) as_summary_input tl tl'
         ∧ (summary_node_exist graph = false → tl' = tl).
Proof.
  intros Hmap Hok.
  destruct (SummaryInputProcess_total graph nodes_map nl tl Hmap Hok) as [tl' Hrun].
  exists tl'. split_and!; [done|by apply SummaryInputProcess_spec|].
  intros Hnone. unfold SummaryInputProcess in Hrun. rewrite Hnone in Hrun.
  by injection Hrun as <-.
Qed.

Lemma X24_witness :
  ∃ tl', SummaryInputProcess pipeline_graph pipeline_nodes_map pipeline_initial.1
           pipeline_initial.2 = Done tl'
         ∧ changed_where (summary_input pipeline_graph pipeline_nodes_map pipeline_initial.1)
             as_summary_input pipeline_initial.2 tl'
         ∧ (summary_node_exist pipeline_graph = false → tl' = pipeline_initial.2).
Proof.
  apply (X24_summary_inputs_become_lifelong pipeline_graph pipeline_nodes_map
           pipeline_initial.1 pipeline_initial.2).
  - apply pipeline_initial_ok.
  - apply pipeline_initial_ok.
Defined.


(** ** Ref-node groups: [RefNodeProcess] and [NonTaskSplitProcess] *)

Section ref_groups.
Context (graph : KernelGraph) (nodes_map : NodesMap) (nl : list SomasNode).

Lemma same_but_type_refl t : same_but_type t t.
Proof. unfold same_but_type. by destruct t. Qed.

Lemma same_but_type_trans t1 t2 t3 : same_but_type t1 t2 → same_but_type t2 t3 → same_but_type t1 t3.
Proof. unfold same_but_type. intros H12 H23. rewrite H23 at 1. rewrite H12. done. Qed.

Lemma same_but_type_with_type ty t : same_but_type t (with_type ty t).
Proof. done. Qed.

Lemma same_but_type_links t t' : same_but_type t t' → same_links t t'.
Proof. unfold same_but_type. intros ->. done. Qed.

Lemma same_but_type_dense tl tl' : Forall2 same_but_type tl tl' → dense_ids tl → dense_ids tl'.
Proof.
  unfold dense_ids. intros H Hd. rewrite <- (Forall2_length _ _ _ H), <- Hd.
  apply list_eq. intros i. rewrite !list_lookup_fmap. rewrite Forall2_lookup in H.
  specialize (H i). destruct H as [x y Hxy|]; [|done]. csimpl. f_equal. by rewrite Hxy.
Qed.

Lemma update_type_same tl tl' tid ty :
  update_tensor tid (with_type ty) tl = Done tl' → Forall2 same_but_type tl tl'.
Proof.
  intros (t & Ht & ->)%update_tensor_Done.
  apply (Forall2_insert_r _ same_but_type_refl tl tid t _ Ht). apply same_but_type_with_type.
Qed.

(** The state of the ref loops: the tensors differ from those at the start
    in types only, and the constraints are those at the start followed by
    groups that satisfy [shape]. *)
Lemma ref_output_step_ok (tl0 : list SomasTensor) (refs0 : list (list nat)) (kernel : nat)
    (kernel_mod : KernelMod) (tl : list SomasTensor) (refs : list (list nat))
    (out_index : nat) (tl' : list SomasTensor) (refs' : list (list nat)) :
  kernel ∈ execution_order graph → GetKernelMod graph kernel = Some kernel_mod →
  out_index < length (GetOutputSizeList kernel_mod) →
  dense_ids tl0 → Forall2 same_but_type tl0 tl →
  (∃ new, refs = refs0 ++ new ∧ Forall (ref_pair graph nodes_map nl) new) →
  ref_output_step graph nodes_map nl kernel (Done (tl, refs)) out_index = Done (tl', refs') →
  Forall2 same_but_type tl0 tl'
  ∧ ∃ new, refs' = refs0 ++ new ∧ Forall (ref_pair graph nodes_map nl) new.
Proof.
  intros Hkernel Hmod Hindex Hdense Hsame (new & -> & Hnew) Hrun.
  unfold ref_output_step in Hrun. cbn [mbind Outcome_bind] in Hrun.
  destruct (GetRefCorrespondOutput graph kernel out_index) as [| |origin_pair] eqn:Href;
    [injection Hrun as <- <-; split; [done|by exists new]|discriminate Hrun|].
  destruct (nodes_map kernel) as [[|n0 rest]|] eqn:Hk; try discriminate Hrun.
  unfold get_node in Hrun.
  destruct (nl !! n0) as [node|] eqn:Hnode; cbn [mbind Outcome_bind] in Hrun;
    [|discriminate Hrun].
  destruct (output_tensors_ node !! out_index) as [output|] eqn:Hout; [|discriminate Hrun].
  destruct (update_tensor output (with_type kRefNodeOutput) tl) as [tl1| |] eqn:Hu1;
    cbn [mbind Outcome_bind] in Hrun; try discriminate Hrun.
  pose proof (update_type_same _ _ _ _ Hu1) as Hs1.
  assert (Forall2 same_but_type tl0 tl1) as Hs01
    by (by apply (Forall2_trans_all _ same_but_type_trans tl0 tl tl1)).
  destruct (IsRealCNodeKernel origin_pair) eqn:Hreal.
  2:{ injection Hrun as <- <-. split; [done|by exists new]. }
  destruct (nodes_map (kernel_of origin_pair)) as [[|r0 rs]|] eqn:Hr; try discriminate Hrun.
  destruct (nl !! r0) as [repeat_node|] eqn:Hrepeat; cbn [mbind Outcome_bind] in Hrun;
    [|discriminate Hrun].
  destruct (output_tensors_ repeat_node !! index_of origin_pair) as [input|] eqn:Hin;
    [|discriminate Hrun].
  destruct (update_tensor input (with_type kRefNodeInput) tl1) as [tl2| |] eqn:Hu2;
    cbn [mbind Outcome_bind] in Hrun; try discriminate Hrun.
  pose proof (update_type_same _ _ _ _ Hu2) as Hs2.
  assert (Forall2 same_but_type tl0 tl2) as Hs02
    by (by apply (Forall2_trans_all _ same_but_type_trans tl0 tl1 tl2)).
  pose proof (same_but_type_dense _ _ Hs02 Hdense) as Hdense2.
  destruct (get_tensor tl2 input) as [input_t| |] eqn:Hti; cbn [mbind Outcome_bind] in Hrun;
    try discriminate Hrun.
  destruct (get_tensor tl2 output) as [output_t| |] eqn:Hto; cbn [mbind Outcome_bind] in Hrun;
    try discriminate Hrun.
  apply get_tensor_Done in Hti, Hto.
  rewrite (dense_ids_lookup tl2 input input_t), (dense_ids_lookup tl2 output output_t) in Hrun
    by done.
  injection Hrun as <- <-. split; [done|].
  exists (new ++ [[input; output]]). split; [by rewrite (assoc_L (++))|].
  apply Forall_app. split; [done|]. apply Forall_singleton.
  exists kernel, kernel_mod, out_index, origin_pair, n0, rest, node, r0, rs, repeat_node,
    input, output. split_and!; done.
Qed.

Lemma RefNodeProcess_ok (tl : list SomasTensor) (refs : list (list nat))
    (tl' : list SomasTensor) (refs' : list (list nat)) :
  dense_ids tl →
  RefNodeProcess graph nodes_map nl tl refs = Done (tl', refs') →
  Forall2 same_but_type tl tl'
  ∧ ∃ new, refs' = refs ++ new ∧ Forall (ref_pair graph nodes_map nl) new.
Proof.
  intros Hdense Hrun. unfold RefNodeProcess in Hrun.
  refine (foldl_Done_ind _
            (fun pre acc =>
               (∀ k, k ∈ pre → k ∈ execution_order graph) →
               Forall2 same_but_type tl acc.1
               ∧ ∃ new, acc.2 = refs ++ new ∧ Forall (ref_pair graph nodes_map nl) new)
            (execution_order graph) (tl, refs) (tl', refs') _ _ _ _ Hrun _).
  - intros kernel what. destruct (GetKernelMod graph kernel); [|done].
    by apply foldl_Exception.
  - intros kernel. destruct (GetKernelMod graph kernel); [|done]. by apply foldl_Undefined.
  - intros _. cbn [fst snd]. split; [apply Forall2_refl_all, same_but_type_refl|].
    exists []. by rewrite app_nil_r.
  - intros pre kernel [tla ra] [tlb rb] Hinv Hstep Hpre. cbn [fst snd] in *.
    destruct Hinv as [Hsa Hra].
    { intros k Hk. apply Hpre, elem_of_app. by left. }
    assert (kernel ∈ execution_order graph) as Hkernel
      by (apply Hpre, elem_of_app; right; apply list_elem_of_here).
    destruct (GetKernelMod graph kernel) as [kernel_mod|] eqn:Hmod;
      [|by injection Hstep as <- <-].
    refine (foldl_Done_ind (ref_output_step graph nodes_map nl kernel)
              (fun pre' acc =>
                 Forall (fun i => i < length (GetOutputSizeList kernel_mod)) pre' →
                 Forall2 same_but_type tl acc.1
                 ∧ ∃ new, acc.2 = refs ++ new ∧ Forall (ref_pair graph nodes_map nl) new)
              _ (tla, ra) (tlb, rb) _ _ _ _ Hstep _); [done..| | |].
    + by intros _.
    + intros pre' out_index [tlc rc] [tld rd] Hinv' Hstep' Hall. cbn [fst snd] in *.
      rewrite Forall_app, Forall_singleton in Hall. destruct Hall as [Hall Hidx].
      destruct (Hinv' Hall) as [Hsc Hrc].
      exact (ref_output_step_ok tl refs kernel kernel_mod tlc rc out_index tld rd Hkernel Hmod
               Hidx Hdense Hsc Hrc Hstep').
    + apply Forall_forall. intros i Hi%elem_of_seq. lia.
  - done.
Qed.

Lemma non_task_outputs_fold (outputs : list nat) (tl : list SomasTensor) (group : list nat)
    (tl' : list SomasTensor) (group' : list nat) :
  dense_ids tl →
  foldl (fun acc output_tensor =>
           '(tl, group) ← acc;
           tl ← update_tensor output_tensor (with_type kRefNodeOutput) tl;
           output ← get_tensor tl output_tensor;
           Done (tl, group ++ [id_ output]))
        (Done (tl, group)) outputs = Done (tl', group') →
  Forall2 same_but_type tl tl' ∧ group' = group ++ outputs.
Proof.
  intros Hdense Hrun.
  refine (foldl_Done_ind _
            (fun pre acc => Forall2 same_but_type tl acc.1 ∧ acc.2 = group ++ pre)
            outputs (tl, group) (tl', group') _ _ _ _ Hrun); [done..| |].
  - cbn [fst snd]. split; [apply Forall2_refl_all, same_but_type_refl|by rewrite app_nil_r].
  - intros pre output [tla ga] [tlb gb] [Hsa Hga] Hstep. cbn [fst snd] in *.
    cbn [mbind Outcome_bind] in Hstep.
    destruct (update_tensor output (with_type kRefNodeOutput) tla) as [tl1| |] eqn:Hu1;
      cbn [mbind Outcome_bind] in Hstep; try discriminate Hstep.
    pose proof (update_type_same _ _ _ _ Hu1) as Hs1.
    assert (Forall2 same_but_type tl tl1) as Hs01
      by (by apply (Forall2_trans_all _ same_but_type_trans tl tla tl1)).
    destruct (get_tensor tl1 output) as [output_t| |] eqn:Hto;
      cbn [mbind Outcome_bind] in Hstep; try discriminate Hstep.
    apply get_tensor_Done in Hto.
    rewrite (dense_ids_lookup tl1 output output_t) in Hstep
      by (done || by eapply same_but_type_dense).
    injection Hstep as <- <-. split; [done|]. by rewrite Hga, (assoc_L (++)).
Qed.

Lemma NonTaskSplitProcess_ok (tl : list SomasTensor) (refs : list (list nat))
    (tl' : list SomasTensor) (refs' : list (list nat)) :
  dense_ids tl →
  NonTaskSplitProcess graph nodes_map nl tl refs = Done (tl', refs') →
  Forall2 same_but_type tl tl'
  ∧ ∃ new, refs' = refs ++ new ∧ Forall (non_task_group graph nodes_map nl) new
           ∧ length new = length (filter (fun kernel => IsNonTaskOp graph kernel = true)
                                    (execution_order graph)).
Proof.
  intros Hdense Hrun. unfold NonTaskSplitProcess in Hrun.
  refine (foldl_Done_ind _
            (fun pre acc =>
               (∀ k, k ∈ pre → k ∈ execution_order graph) →
               Forall2 same_but_type tl acc.1
               ∧ ∃ new, acc.2 = refs ++ new ∧ Forall (non_task_group graph nodes_map nl) new
                        ∧ length new
                          = length (filter (fun kernel => IsNonTaskOp graph kernel = true) pre))
            (execution_order graph) (tl, refs) (tl', refs') _ _ _ _ Hrun _); [done..| | |done].
  - intros _. cbn [fst snd]. split; [apply Forall2_refl_all, same_but_type_refl|].
    exists []. by rewrite app_nil_r.
  - intros pre kernel [tla ra] [tlb rb] Hinv Hstep Hpre. cbn [fst snd] in *.
    destruct Hinv as [Hsa (new & -> & Hnew & Hcount)].
    { intros k Hk. apply Hpre, elem_of_app. by left. }
    assert (kernel ∈ execution_order graph) as Hkernel
      by (apply Hpre, elem_of_app; right; apply list_elem_of_here).
    cbn [mbind Outcome_bind] in Hstep. rewrite filter_app, length_app, filter_cons, filter_nil.
    destruct (IsNonTaskOp graph kernel) eqn:Hnt; cbn [negb] in Hstep.
    2:{ injection Hstep as <- <-. split; [done|]. exists new.
        rewrite decide_False by done. cbn [length]. split_and!; [done..|lia]. }
    rewrite decide_True by done. cbn [length].
    destruct (nodes_map kernel) as [[|n0 rest]|] eqn:Hk; try discriminate Hstep.
    unfold get_node in Hstep.
    destruct (nl !! n0) as [node|] eqn:Hnode; cbn [mbind Outcome_bind] in Hstep;
      [|discriminate Hstep].
    destruct (input_tensors_ node) as [|input inputs] eqn:Hinputs; [discriminate Hstep|].
    destruct (update_tensor input (with_type kRefNodeInput) tla) as [tl1| |] eqn:Hu1;
      cbn [mbind Outcome_bind] in Hstep; try discriminate Hstep.
    pose proof (update_type_same _ _ _ _ Hu1) as Hs1.
    assert (Forall2 same_but_type tl tl1) as Hs01
      by (by apply (Forall2_trans_all _ same_but_type_trans tl tla tl1)).
    pose proof (same_but_type_dense _ _ Hs01 Hdense) as Hdense1.
    destruct (get_tensor tl1 input) as [input_t| |] eqn:Hti; cbn [mbind Outcome_bind] in Hstep;
      try discriminate Hstep.
    apply get_tensor_Done in Hti.
    rewrite (dense_ids_lookup tl1 input input_t) in Hstep by done.
    destruct (foldl _ (Done (tl1, [input])) (output_tensors_ node)) as [[tl2 group]| |] eqn:Hfold;
      cbn [mbind Outcome_bind] in Hstep; try discriminate Hstep.
    injection Hstep as <- <-.
    apply non_task_outputs_fold in Hfold as [Hs2 ->]; [|done].
    split; [by apply (Forall2_trans_all _ same_but_type_trans tl tl1 tl2)|].
    exists (new ++ [[input] ++ output_tensors_ node]).
    split_and!; [by rewrite (assoc_L (++))| |rewrite length_app; cbn [length]; lia].
    apply Forall_app. split; [done|]. apply Forall_singleton.
    exists kernel, n0, rest, node, input, inputs. split_and!; done.
Qed.

End ref_groups.

(** X25. On tensors with dense ids, and when it returns, [RefNodeProcess]
    changes tensors in their types only and only appends groups to the
    ref-node constraints.  Every appended group has exactly two members: an
    output of the first node of the origin of a ref output, a real kernel,
    followed by that ref output, an output of the first node of a kernel of
    the execution order. *)
Theorem X25_ref_groups_are_pairs (graph : KernelGraph) (nodes_map : NodesMap)
    (nl : list SomasNode) (tl : list SomasTensor) (refs : list (list nat))
    (tl' : list SomasTensor) (refs' : list (list nat)) :
  dense_ids tl →
  RefNodeProcess graph nodes_map nl tl refs = Done (tl', refs') →
  Forall2 same_but_type tl tl'
  ∧ ∃ new, refs' = refs ++ new
           ∧ Forall (fun group => ref_pair graph nodes_map nl group
                                  ∧ length group = kRefNodeTensorNum) new.
Proof.
  intros Hdense Hrun.
  destruct (RefNodeProcess_ok graph nodes_map nl tl refs tl' refs' Hdense Hrun)
    as [Hsame (new & -> & Hnew)].
  split; [done|]. exists new. split; [done|]. eapply Forall_impl; [done|].
  intros group Hpair. split; [done|].
  by destruct Hpair as (? & ? & ? & ? & ? & ? & ? & ? & ? & ? & ? & ? & _ & _ & _ & _ & _ & _ & _
                        & _ & _ & _ & _ & ->).
Qed.

Lemma X25_witness :
  pipeline_refs.2 = [[0; 1]]
  ∧ Forall2 same_but_type pipeline_initial.2 pipeline_refs.1
  ∧ ∃ new, pipeline_refs.2 = [] ++ new
           ∧ Forall (fun group => ref_pair pipeline_graph pipeline_nodes_map
                                    pipeline_initial.1 group
                                  ∧ length group = kRefNodeTensorNum) new.
Proof.
  split; [reflexivity|].
  apply (X25_ref_groups_are_pairs pipeline_graph pipeline_nodes_map pipeline_initial.1
           pipeline_initial.2 [] pipeline_refs.1 pipeline_refs.2).
  - reflexivity.
  - vm_compute. reflexivity.
Defined.


(** X26. On tensors with dense ids, and when it returns,
    [NonTaskSplitProcess] changes tensors in their types only and appends to
    the ref-node constraints one group per non-task kernel of the execution
    order: the first input of the first node of the kernel followed by all
    outputs of that node, so a group has one member more than the node has
    outputs. *)
Theorem X26_non_task_groups (graph : KernelGraph) (nodes_map : NodesMap)
    (nl : list SomasNode) (tl : list SomasTensor) (refs : list (list nat))
    (tl' : list SomasTensor) (refs' : list (list nat)) :
  dense_ids tl →
  NonTaskSplitProcess graph nodes_map nl tl refs = Done (tl', refs') →
  Forall2 same_but_type tl tl'
  ∧ ∃ new, refs' = refs ++ new
           ∧ Forall (non_task_group graph nodes_map nl) new
           ∧ length new = length (filter (fun kernel => IsNonTaskOp graph kernel = true)
                                    (execution_order graph)).
Proof. intros Hdense Hrun. by eapply NonTaskSplitProcess_ok. Qed.

Lemma X26_witness :
  pipeline_groups.2 = [[0; 1]; [1; 3; 4; 7]]
  ∧ Forall2 same_but_type pipeline_refs.1 pipeline_groups.1
  ∧ ∃ new, pipeline_groups.2 = pipeline_refs.2 ++ new
           ∧ Forall (non_task_group pipeline_graph pipeline_nodes_map pipeline_initial.1) new
           ∧ length new
             = length (filter (fun kernel => IsNonTaskOp pipeline_graph kernel = true)
                         (execution_order pipeline_graph)).
Proof.
  split; [reflexivity|].
  apply (X26_non_task_groups pipeline_graph pipeline_nodes_map pipeline_initial.1
           pipeline_refs.1 pipeline_refs.2 pipeline_groups.1 pipeline_groups.2).
  - reflexivity.
  - vm_compute. reflexivity.
Defined.



Section marks.

Lemma same_but_marks_refl t : same_but_marks t t.
Proof. unfold same_but_marks. by destruct t. Qed.

Lemma same_but_marks_trans t1 t2 t3 :
  same_but_marks t1 t2 → same_but_marks t2 t3 → same_but_marks t1 t3.
Proof. unfold same_but_marks. intros H12 H23. rewrite H23 at 1. rewrite H12 at 1. done. Qed.

Lemma same_but_marks_links t t' : same_but_marks t t' → same_links t t'.
Proof. unfold same_but_marks. intros ->. done. Qed.

Lemma same_but_marks_consumers t t' : same_but_marks t t' → consumer_list_ t' = consumer_list_ t.
Proof. unfold same_but_marks. intros ->. done. Qed.

Lemma same_but_type_marks t t' : same_but_type t t' → same_but_marks t t'.
Proof. unfold same_but_type, same_but_marks. intros ->. by destruct t. Qed.

Lemma changed_where_marks (marked : nat → Prop) f tl tl' :
  (∀ t, same_but_marks t (f t)) → changed_where marked f tl tl' → Forall2 same_but_marks tl tl'.
Proof.
  intros Hf H. apply Forall2_lookup. intros k. destruct (H k) as [[_ ->]|[_ ->]].
  - destruct (tl !! k); constructor. apply Hf.
  - destruct (tl !! k); constructor. apply same_but_marks_refl.
Qed.

Lemma same_but_sizes_and_flags_marks tl tl' :
  same_but_sizes_and_flags tl tl' → Forall2 same_but_marks tl tl'.
Proof.
  intros H. apply Forall2_lookup. intros k. specialize (H k).
  destruct (tl !! k) as [t|] eqn:Ht; rewrite H; constructor.
  unfold same_but_marks. cbn. unfold aligned_size_of. rewrite H. cbn. by destruct t.
Qed.

End marks.

Section whole_initialisation.
Context (enable_fusion_clear : bool) (aligned : N → N) (graph : KernelGraph).

(** The planner that [InitBasicInfo] leaves. *)
Lemma InitBasicInfo_ok (init : Initialised) :
  InitBasicInfo enable_fusion_clear aligned graph = Done init →
  nodes_map_ok (nodes_map_ init) (nodes_list_ (planner init))
  ∧ registry_ok (nodes_map_ init) (nodes_list_ (planner init)) (tensors_list_ (planner init))
  ∧ (∀ kernel, nodes_map_ init kernel
               = if bool_decide (kernel ∈ node_kernels graph)
                 then Some (occurrences kernel (node_kernels graph)) else None)
  ∧ length (nodes_list_ (planner init)) = length (node_kernels graph)
  ∧ Forall (fun t => consumer_list_ t = []) (tensors_list_ (planner init))
  ∧ ref_node_constraints_ (planner init) = []
  ∧ contiguous_tensors_list_ (planner init) = [].
Proof.
  unfold InitBasicInfo, InitSomasStreamAndNode. fold (node_kernels graph).
  destruct (init_node_fold graph (node_kernels graph))
    as (streams_list & nodes_map & Hfold & Hmap & _).
  rewrite Hfold.
  rewrite nodes_id_map_fold by (rewrite fresh_nodes_ids; apply NoDup_seq).
  cbn [mbind Outcome_bind].
  destruct (InitSomasOutputAndWorkspaceTensors _ _ _ _) as [[nl1 tl1]| |] eqn:Hmade;
    cbn [mbind Outcome_bind]; try discriminate.
  destruct (InitSomasInputTensors _ _ _ _) as [[[nl2 tl2] params]| |] eqn:Hin;
    cbn [mbind Outcome_bind]; try discriminate.
  destruct (InitSomasEventInfos _ _ _ _ _) as [[nl3 tl3]| |] eqn:Hev;
    cbn [mbind Outcome_bind]; try discriminate.
  intros [= <-]. cbn.
  apply made_registry_ok in Hmade as (Hmap1 & Hok1 & Hts & Hfresh & Hgrown & _); [|done].
  apply InitSomasInputTensors_ok in Hin as (Hok2 & Hn2 & Ht2); [|done..].
  apply inputs_grown_linked in Hn2.
  pose proof (nodes_map_ok_linked nodes_map _ _ _ Hn2 Hmap1) as Hmap2.
  apply InitSomasEventInfos_ok in Hev as (Hok3 & Hn3 & events & -> & Hevents); [|done..].
  pose proof (nodes_map_ok_linked nodes_map _ _ _ Hn3 Hmap2) as Hmap3.
  split_and!; [done..| | |done|done].
  - rewrite <- (Forall2_length _ _ _ Hn3), <- (Forall2_length _ _ _ Hn2),
      <- (Forall2_length _ _ _ Hgrown). by rewrite length_imap.
  - apply Forall_app. split.
    + apply Forall_lookup. intros k t2 Hk.
      destruct (Forall2_lookup_r_rel _ _ _ _ _ Ht2 Hk) as (t1 & Hk1 & [Hlinked _]).
      destruct Hlinked as (_ & _ & _ & _ & _ & _ & _ & _ & -> & _).
      rewrite Forall_lookup in Hfresh. by destruct (Hfresh k t1 Hk1) as [(_ & _ & _ & _ & _ & _ & _ & ?) _].
    + eapply Forall_impl; [done|]. by intros t (_ & _ & _ & _ & _ & _ & ?).
Qed.

(** Registries that differ in marks only are linked up together. *)
Lemma registry_ok_marks (nodes_map : NodesMap) (nl : list SomasNode)
    (tl tl' : list SomasTensor) :
  Forall2 same_but_marks tl tl' → registry_ok nodes_map nl tl → registry_ok nodes_map nl tl'.
Proof.
  intros H. apply registry_ok_same_links. eapply Forall2_impl; [done|].
  apply same_but_marks_links.
Qed.

(** The planner that [InitSomasTensors] leaves. *)
Lemma InitSomasTensors_ok (init : Initialised) :
  InitSomasTensors enable_fusion_clear aligned graph = Done init →
  nodes_map_ok (nodes_map_ init) (nodes_list_ (planner init))
  ∧ registry_ok (nodes_map_ init) (nodes_list_ (planner init)) (tensors_list_ (planner init))
  ∧ (∀ kernel, nodes_map_ init kernel
               = if bool_decide (kernel ∈ node_kernels graph)
                 then Some (occurrences kernel (node_kernels graph)) else None)
  ∧ length (nodes_list_ (planner init)) = length (node_kernels graph)
  ∧ Forall (fun t => consumer_list_ t = []) (tensors_list_ (planner init))
  ∧ Forall (ref_group graph (nodes_map_ init) (nodes_list_ (planner init)))
      (ref_node_constraints_ (planner init))
  ∧ contiguous_lists_well_formed
      (mkContiguousState (tensors_list_ (planner init))
         (contiguous_tensors_list_ (planner init)) 0%N).
Proof.
  unfold InitSomasTensors.
  destruct (InitBasicInfo _ _ _) as [init0| |] eqn:Hbasic; cbn [mbind Outcome_bind];
    try discriminate.
  apply InitBasicInfo_ok in Hbasic as (Hmap & Hok & Hocc & Hlen & Hcons & Hrefs & Hcont).
  set (nm := nodes_map_ init0) in *. set (nl := nodes_list_ (planner init0)) in *.
  set (tl0 := tensors_list_ (planner init0)) in *.
  rewrite Hrefs, Hcont.
  destruct (IndependentNodeOutputProcess _ _ _ _) as [tl1| |] eqn:H1;
    cbn [mbind Outcome_bind]; try discriminate.
  apply (mark_outputs_fold nm nl) in H1; [|done].
  apply changed_where_marks in H1; [|done].
  destruct (SummaryInputProcess _ _ _ _) as [tl2| |] eqn:H2;
    cbn [mbind Outcome_bind]; try discriminate.
  apply SummaryInputProcess_spec, changed_where_marks in H2; [|done].
  pose proof (Forall2_trans_all _ same_but_marks_trans _ _ _ H1 H2) as H02.
  destruct (RefNodeProcess _ _ _ _ _) as [[tl3 refs3]| |] eqn:H3;
    cbn [mbind Outcome_bind]; try discriminate.
  apply RefNodeProcess_ok in H3 as [H3 (new3 & -> & Hnew3)];
    [|by apply (registry_ok_marks nm nl tl0 tl2 H02 Hok)].
  assert (Forall2 same_but_marks tl0 tl3) as H03.
  { eapply (Forall2_trans_all _ same_but_marks_trans); [exact H02|].
    eapply Forall2_impl; [exact H3|]. apply same_but_type_marks. }
  destruct (NonTaskSplitProcess _ _ _ _ _) as [[tl4 refs4]| |] eqn:H4;
    cbn [mbind Outcome_bind]; try discriminate.
  apply NonTaskSplitProcess_ok in H4 as [H4 (new4 & -> & Hnew4 & _)];
    [|by apply (registry_ok_marks nm nl tl0 tl3 H03 Hok)].
  assert (Forall2 same_but_marks tl0 tl4) as H04.
  { eapply (Forall2_trans_all _ same_but_marks_trans); [exact H03|].
    eapply Forall2_impl; [exact H4|]. apply same_but_type_marks. }
  destruct (GenContiguousList _ _ _) as [[cs total]| |] eqn:H5;
    cbn [mbind Outcome_bind]; try discriminate.
  apply GenContiguousList_well_formed in H5 as ((C1 & C2 & C3) & H5 & _).
  assert (Forall2 same_but_marks tl0 (cs_tensors_list cs)) as H05.
  { eapply (Forall2_trans_all _ same_but_marks_trans); [exact H04|].
    by apply same_but_sizes_and_flags_marks. }
  destruct (GetNextOutputProcess _ _ _ _) as [tl6| |] eqn:H6;
    cbn [mbind Outcome_bind]; try discriminate.
  apply (mark_outputs_fold nm nl) in H6; [|done].
  pose proof (changed_where_marks _ _ _ _ (fun t => eq_refl) H6) as H56.
  pose proof (Forall2_trans_all _ same_but_marks_trans _ _ _ H05 H56) as H06.
  intros [= <-]. cbn. fold nm nl.
  split_and!; [done|by apply (registry_ok_marks nm nl tl0 tl6 H06 Hok)|done|done| | |].
  - apply Forall_lookup. intros k t6 Hk.
    destruct (Forall2_lookup_r_rel _ _ _ _ _ H06 Hk) as (t0 & Hk0 & Hmarks).
    rewrite (same_but_marks_consumers _ _ Hmarks).
    rewrite Forall_lookup in Hcons. by apply (Hcons k).
  - cbn [app]. apply Forall_app. split.
    + eapply Forall_impl; [exact Hnew3|]. intros group Hg. by left.
    + eapply Forall_impl; [exact Hnew4|]. intros group Hg. by right.
  - unfold contiguous_lists_well_formed. cbn. split_and!; [done| |done].
    intros ls k Hls Hk. destruct (C2 ls k Hls Hk) as (t & Ht & Hflag).
    destruct (H6 k) as [[_ E]|[_ E]]; rewrite Ht in E.
    + eexists. split; [exact E|]. done.
    + by exists t.
Qed.

End whole_initialisation.

(** X27. When [InitSomasTensors] returns, the registry is linked up: the
    node ids and the tensor ids are dense, there is one node per entry of the
    kernel list, every node lists registered tensors only, and every
    destination of a tensor lies within its lifetime, holds the tensor among
    its inputs, and the first node of its kernel is the source of the tensor
    or has it as a direct ancestor.  No tensor has a consumer yet.  Every
    ref-node constraint is the pair of a ref output and its origin or the
    group of a non-task kernel, and the contiguous lists are well formed. *)
Theorem X27_InitSomasTensors_links_registry (enable_fusion_clear : bool) (aligned : N → N)
    (graph : KernelGraph) (init : Initialised) :
  InitSomasTensors enable_fusion_clear aligned graph = Done init →
  nodes_map_ok (nodes_map_ init) (nodes_list_ (planner init))
  ∧ registry_ok (nodes_map_ init) (nodes_list_ (planner init)) (tensors_list_ (planner init))
  ∧ (∀ kernel, nodes_map_ init kernel
               = if bool_decide (kernel ∈ node_kernels graph)
                 then Some (occurrences kernel (node_kernels graph)) else None)
  ∧ length (nodes_list_ (planner init)) = length (node_kernels graph)
  ∧ Forall (fun t => consumer_list_ t = []) (tensors_list_ (planner init))
  ∧ Forall (ref_group graph (nodes_map_ init) (nodes_list_ (planner init)))
      (ref_node_constraints_ (planner init))
  ∧ contiguous_lists_well_formed
      (mkContiguousState (tensors_list_ (planner init))
         (contiguous_tensors_list_ (planner init)) 0%N).
Proof. apply InitSomasTensors_ok. Qed.

Lemma X27_witness :
  ∃ init,
    InitSomasTensors false round_up_512 pipeline_graph = Done init
    ∧ planner init = pipeline_planner
    ∧ registry_ok (nodes_map_ init) (nodes_list_ pipeline_planner)
        (tensors_list_ pipeline_planner)
    ∧ Forall (ref_group pipeline_graph (nodes_map_ init) (nodes_list_ pipeline_planner))
        [[0; 1]; [1; 3; 4; 7]]
    ∧ contiguous_lists_well_formed
        (mkContiguousState (tensors_list_ pipeline_planner) [[3; 4; 7]; [5; 6]] 0%N).
Proof.
  assert (match InitSomasTensors false round_up_512 pipeline_graph with
          | Done init => planner init = pipeline_planner
          | _ => False
          end) as Hplanner by (vm_compute; reflexivity).
  destruct (InitSomasTensors false round_up_512 pipeline_graph) as [init| |] eqn:Hrun;
    [|destruct Hplanner..].
  exists init. split; [reflexivity|]. split; [exact Hplanner|].
  destruct (X27_InitSomasTensors_links_registry false round_up_512 pipeline_graph init Hrun)
    as (_ & Hok & _ & _ & _ & Hrefs & Hlists).
  rewrite Hplanner in Hok, Hrefs, Hlists. split_and!; [exact Hok|exact Hrefs|exact Hlists].
Defined.


Section consumers.

Lemma occurrences_NoDup_first (kernels : list nat) (kernel c n0 : nat) :
  NoDup kernels → c ∈ occurrences kernel kernels →
  head (occurrences kernel kernels) = Some n0 → n0 = c.
Proof.
  intros Hnd Hc Hhead.
  assert (n0 ∈ occurrences kernel kernels) as Hn0.
  { destruct (occurrences kernel kernels); [done|]. injection Hhead as ->. apply list_elem_of_here. }
  unfold occurrences in Hc, Hn0.
  apply list_elem_of_filter in Hc as [Hc _]. apply list_elem_of_filter in Hn0 as [Hn0 _].
  by eapply NoDup_lookup.
Qed.

Lemma ancestors_grown_dense (nl nl' : list SomasNode) :
  ancestors_grown nl nl' → dense_node_ids nl → dense_node_ids nl'.
Proof.
  intros Hg Hd. unfold dense_node_ids in *.
  rewrite (ancestors_grown_length _ _ Hg), <- Hd. apply list_eq. intros i.
  rewrite !list_lookup_fmap. destruct (Hg i) as [extra ->]. by destruct (nl !! i).
Qed.

(** The consumers that [UpdateTensorDestinations] gives the tensors of a
    registry that is linked up, when every kernel has one node. *)
Lemma UpdateTensorDestinations_consumers (kernels : list nat) (nodes_map : NodesMap)
    (st st' : Somas) :
  NoDup kernels →
  (∀ kernel, nodes_map kernel
             = if bool_decide (kernel ∈ kernels) then Some (occurrences kernel kernels)
               else None) →
  registry_ok nodes_map (nodes_list_ st) (tensors_list_ st) →
  Forall (fun t => consumer_list_ t = []) (tensors_list_ st) →
  UpdateTensorDestinations st = Done st' →
  dense_node_ids (nodes_list_ st') ∧ dense_ids (tensors_list_ st')
  ∧ ∀ t, t ∈ tensors_list_ st' →
      consumer_list_ t ≠ []
      ∧ ∀ c, c ∈ consumer_list_ t →
          c = source_node_id_ t ∨ has_ancestor (nodes_list_ st') c (source_node_id_ t).
Proof.
  intros Hnd Hocc (R1 & R2 & _ & _ & R5) Hcons Hrun.
  apply UpdateTensorDestinations_unfold in Hrun as (nl1 & E1 & E2 & Hts & _).
  apply stream_edges_spec in E1 as [Hg1 _]. apply group_edges_spec in E2 as [Hg2 _].
  pose proof (ancestors_grown_trans _ _ _ Hg1 Hg2) as Hg.
  split_and!.
  - by eapply ancestors_grown_dense.
  - unfold dense_ids in *. rewrite <- (Forall2_length _ _ _ Hts), <- R2.
    apply list_eq. intros i. rewrite !list_lookup_fmap. rewrite Forall2_lookup in Hts.
    specialize (Hts i). destruct Hts as [t t' Ht|]; [|done].
    apply tensor_destinations_spec in Ht as (consumers & -> & _). done.
  - intros t' Hin. apply list_elem_of_lookup in Hin as [k Hk].
    destruct (Forall2_lookup_r _ _ _ _ _ Hts Hk) as (t & Ht & Hdest).
    apply tensor_destinations_spec in Hdest as (consumers & -> & Hne & Hlatest & _).
    rewrite Forall_lookup in Hcons. rewrite (Hcons k t Ht) in *. cbn in *.
    split; [done|]. intros c Hc. apply Hlatest in Hc.
    case_bool_decide as Hempty.
    { apply list_elem_of_singleton in Hc. by left. }
    destruct (R5 k t c Ht Hc) as (_ & _ & n0 & node0 & Hfirst & Hnode0 & Hsrc).
    destruct Hfirst as (kernel & nodes & Hkernel & Hcin & Hhead).
    rewrite Hocc in Hkernel. case_bool_decide; [|done]. injection Hkernel as <-.
    assert (n0 = c) as -> by (by eapply occurrences_NoDup_first).
    destruct Hsrc as [->|Hanc]; [by left|]. right.
    eapply has_ancestor_grown; [done|]. by exists node0.
Qed.

End consumers.

(** X28. For a graph in which every kernel occurs once in the kernel list,
    and when [InitSomasTensors] and then [UpdateTensorDestinations] return,
    the node ids and the tensor ids are dense and every tensor has a
    consumer; every consumer of a tensor is its source node or has the source
    node among its direct ancestors, so that the tensor is produced before it
    is consumed. *)
Theorem X28_consumers_follow_the_producer (enable_fusion_clear : bool) (aligned : N → N)
    (graph : KernelGraph) (init : Initialised) (st' : Somas) :
  NoDup (node_kernels graph) →
  InitSomasTensors enable_fusion_clear aligned graph = Done init →
  UpdateTensorDestinations (planner init) = Done st' →
  dense_node_ids (nodes_list_ st') ∧ dense_ids (tensors_list_ st')
  ∧ ∀ t, t ∈ tensors_list_ st' →
      consumer_list_ t ≠ []
      ∧ (∀ c, c ∈ consumer_list_ t →
           c = source_node_id_ t ∨ has_ancestor (nodes_list_ st') c (source_node_id_ t))
      ∧ produced_before_consumed (nodes_list_ st') t.
Proof.
  intros Hnd Hinit Hrun.
  apply InitSomasTensors_ok in Hinit as (_ & Hok & Hocc & _ & Hcons & _).
  destruct (UpdateTensorDestinations_consumers _ _ _ _ Hnd Hocc Hok Hcons Hrun)
    as (Hdn & Hdt & Hall).
  split_and!; [done..|]. intros t Hin. destruct (Hall t Hin) as [Hne Hc].
  split_and!; [done..|]. intros c Hcin. destruct (Hc c Hcin) as [->|(node & Hnode & Ha)]; [by left|].
  right. apply tc_once. exists node. split_and!; [by eapply list_elem_of_lookup_2| |done].
  by apply (dense_node_ids_lookup (nodes_list_ st') c).
Qed.

Lemma X28_witness :
  ∃ init,
    InitSomasTensors false round_up_512 pipeline_graph = Done init
    ∧ UpdateTensorDestinations (planner init) = Done pipeline_destinations
    ∧ consumer_list_ <$> tensors_list_ pipeline_destinations
      = [[1]; [2]; [1]; [3]; [3]; [3]; [3]; [3]]
    ∧ ∀ t, t ∈ tensors_list_ pipeline_destinations →
        produced_before_consumed (nodes_list_ pipeline_destinations) t.
Proof.
  assert (match InitSomasTensors false round_up_512 pipeline_graph with
          | Done init => planner init = pipeline_planner
          | _ => False
          end) as Hplanner by (vm_compute; reflexivity).
  destruct (InitSomasTensors false round_up_512 pipeline_graph) as [init| |] eqn:Hrun;
    [|destruct Hplanner..].
  exists init. split; [reflexivity|].
  assert (UpdateTensorDestinations (planner init) = Done pipeline_destinations) as Hupdate.
  { rewrite Hplanner. vm_compute. reflexivity. }
  split; [exact Hupdate|]. split; [reflexivity|].
  intros t Hin.
  destruct (X28_consumers_follow_the_producer false round_up_512 pipeline_graph init
              pipeline_destinations) as (_ & _ & Hall).
  - apply (bool_decide_unpack _). vm_compute. exact I.
  - exact Hrun.
  - exact Hupdate.
  - apply (Hall t Hin).
Defined.


(** ** The addresses of the tensors of a node *)

Section addresses.
Context (nodes_map : NodesMap) (nl : list SomasNode) (tl : list SomasTensor).

Lemma node_tensor_ptr_spec (tensors : SomasNode → list nat) (what : string) (base : N)
    (n0 : nat) (rest : list nat) (somas_node : SomasNode) (index : nat) :
  tensors = output_tensors_ ∨ tensors = workspace_tensors_ →
  registry_ok nodes_map nl tl → nl !! n0 = Some somas_node →
  match tensors somas_node !! index with
  | Some tid =>
      ∃ t, tl !! tid = Some t
           ∧ node_tensor_ptr tensors what nl tl base (n0 :: rest) index
             = Done (base + offset_ t)%N
  | None => node_tensor_ptr tensors what nl tl base (n0 :: rest) index = Exception what
  end.
Proof.
  intros Htensors (_ & _ & R3 & _) Hn0. unfold node_tensor_ptr, get_node. rewrite Hn0.
  cbn [mbind Outcome_bind].
  destruct (tensors somas_node !! index) as [tid|] eqn:Htid.
  - rewrite bool_decide_eq_false_2 by (apply lookup_lt_Some in Htid; lia).
    assert (tid < length tl) as Hlt.
    { apply (R3 n0 somas_node tid Hn0). apply list_elem_of_lookup_2 in Htid.
      destruct Htensors as [->| ->]; [right; by left|right; by right]. }
    destruct (lookup_lt_is_Some_2 tl tid Hlt) as [t Ht]. exists t. split; [done|].
    unfold get_tensor. by rewrite Ht.
  - by rewrite bool_decide_eq_true_2 by (by apply lookup_ge_None_1).
Qed.

End addresses.

(** X29. On a registry that is linked up, [GetNodeOutputPtr] and
    [GetNodeWorkSpacePtr] of a kernel that has nodes return the base address
    plus the offset of the registered tensor at the index in the output list,
    or in the workspace list, of the first node of the kernel; the source of
    such an output is that first node.  An index that is not below the length
    of the list raises.  For a kernel without nodes [GetNodeOutputPtr] raises
    and [GetNodeWorkSpacePtr] returns the null pointer. *)
Theorem X29_node_pointers_are_tensor_offsets (nodes_map : NodesMap) (nl : list SomasNode)
    (tl : list SomasTensor) (base : N) (node index : nat) :
  nodes_map_ok nodes_map nl → registry_ok nodes_map nl tl →
  match nodes_map node with
  | None =>
      GetNodeOutputPtr nodes_map nl tl base node index = Exception "don't exist in nodes_map"
      ∧ GetNodeWorkSpacePtr nodes_map nl tl base node index = Done 0%N
  | Some nodes =>
      ∃ n0 somas_node,
        head nodes = Some n0 ∧ nl !! n0 = Some somas_node
        ∧ match output_tensors_ somas_node !! index with
          | Some tid =>
              ∃ t, tl !! tid = Some t ∧ source_node_id_ t = n0
                   ∧ GetNodeOutputPtr nodes_map nl tl base node index
                     = Done (base + offset_ t)%N
          | None =>
              GetNodeOutputPtr nodes_map nl tl base node index
              = Exception "is larger than it's output size"
          end
        ∧ match workspace_tensors_ somas_node !! index with
          | Some tid =>
              ∃ t, tl !! tid = Some t
                   ∧ GetNodeWorkSpacePtr nodes_map nl tl base node index
                     = Done (base + offset_ t)%N
          | None =>
              GetNodeWorkSpacePtr nodes_map nl tl base node index
              = Exception "is larger than it's workspace size"
          end
  end.
Proof.
  intros Hmap Hok. unfold GetNodeOutputPtr, GetNodeWorkSpacePtr.
  destruct (nodes_map node) as [nodes|] eqn:Hnode; [|done].
  destruct Hmap as [Hm Hdisj]. destruct (Hm node nodes Hnode) as [Hne Hrange].
  destruct nodes as [|n0 rest]; [done|].
  destruct (lookup_lt_is_Some_2 nl n0 (Hrange n0 (list_elem_of_here _ _))) as [somas_node Hn0].
  exists n0, somas_node. split_and!; [done..| |].
  - pose proof (node_tensor_ptr_spec nodes_map nl tl output_tensors_
                  "is larger than it's output size" base n0 rest somas_node index
                  (or_introl eq_refl) Hok Hn0) as H.
    destruct (output_tensors_ somas_node !! index) as [tid|] eqn:Htid; [|done].
    destruct H as (t & Ht & Hptr). exists t. split_and!; [done| |done].
    destruct Hok as (_ & _ & _ & R4 & _).
    assert (first_node_of nodes_map n0 (source_node_id_ t)) as Hfirst.
    { eapply (R4 n0 somas_node tid t); [done| |done]. by eapply list_elem_of_lookup_2. }
    eapply (first_node_of_functional nodes_map nl n0); [by split|done|].
    exists node, (n0 :: rest). split_and!; [done|apply list_elem_of_here|done].
  - apply (node_tensor_ptr_spec nodes_map nl tl workspace_tensors_
             "is larger than it's workspace size" base n0 rest somas_node index
             (or_intror eq_refl) Hok Hn0).
Qed.

Lemma X29_witness :
  match pipeline_nodes_map 12 with
  | None =>
      GetNodeOutputPtr pipeline_nodes_map pipeline_initial.1 pipeline_initial.2 4096%N 12 1
      = Exception "don't exist in nodes_map"
      ∧ GetNodeWorkSpacePtr pipeline_nodes_map pipeline_initial.1 pipeline_initial.2 4096%N
          12 1 = Done 0%N
  | Some nodes =>
      ∃ n0 somas_node,
        head nodes = Some n0 ∧ pipeline_initial.1 !! n0 = Some somas_node
        ∧ match output_tensors_ somas_node !! 1 with
          | Some tid =>
              ∃ t, pipeline_initial.2 !! tid = Some t ∧ source_node_id_ t = n0
                   ∧ GetNodeOutputPtr pipeline_nodes_map pipeline_initial.1
                       pipeline_initial.2 4096%N 12 1
                     = Done (4096 + offset_ t)%N
          | None =>
              GetNodeOutputPtr pipeline_nodes_map pipeline_initial.1 pipeline_initial.2
                4096%N 12 1
              = Exception "is larger than it's output size"
          end
        ∧ match workspace_tensors_ somas_node !! 1 with
          | Some tid =>
              ∃ t, pipeline_initial.2 !! tid = Some t
                   ∧ GetNodeWorkSpacePtr pipeline_nodes_map pipeline_initial.1
                       pipeline_initial.2 4096%N 12 1
                     = Done (4096 + offset_ t)%N
          | None =>
              GetNodeWorkSpacePtr pipeline_nodes_map pipeline_initial.1 pipeline_initial.2
                4096%N 12 1
              = Exception "is larger than it's workspace size"
          end
  end.
Proof.
  apply (X29_node_pointers_are_tensor_offsets pipeline_nodes_map pipeline_initial.1
           pipeline_initial.2 4096%N 12 1).
  - apply pipeline_initial_ok.
  - apply pipeline_initial_ok.
Defined.

(** ** A cache file whose counts do not fit the graph *)

(** X30.  For a cache file that parses and one of whose eight structural
    values (graph id, hash of the model, number of nodes, of tensors, of
    contiguous lists, of ref-node groups, of streams, of stream groups)
    disagrees with the registry:
    - [LoadSomasResult] returns failure with a warning and leaves the
      registry as it was;
    - [Allocate] ends exactly as it does when the cache file cannot be
      opened. *)
Theorem X30_count_mismatch_plans_afresh (env : Environment) (st : Somas) (j : SomasJson) :
  first_read env = Parsed j →
  (¬ counts_agree (graph_id env) st j →
     (LoadSomasResult env st).2 = Done (st, false) ∧ has_warning (LoadSomasResult env st).1)
  ∧ (¬ counts_agree (graph_id env) (with_hash_id (model_hash env st) st) j →
     (Allocate env st).2 = (Allocate (with_first_read OpenFailed env) st).2).
Proof.
  intros Hf. split.
  - intros Hc. unfold LoadSomasResult. rewrite Hf.
    destruct (adopt_somas_json_counts_disagree env st j Hc) as [Hres [what Hw]].
    destruct (adopt_somas_json env st j) as [log res]. simpl in *.
    split; [done|]. exists what. by apply elem_of_cons; right.
  - intros Hc. unfold Allocate. case_bool_decide; [done|].
    unfold LoadSomasCache. case_bool_decide; [done|].
    change (info_file_saved (with_first_read OpenFailed env)) with (info_file_saved env).
    change (model_hash (with_first_read OpenFailed env) st) with (model_hash env st).
    destruct (info_file_saved env); [|done].
    unfold LoadSomasResult. rewrite Hf.
    change (first_read (with_first_read OpenFailed env)) with OpenFailed.
    destruct (adopt_somas_json_counts_disagree env _ j Hc) as [Hres _].
    destruct (adopt_somas_json env _ j) as [log res]. simpl in Hres. subst res.
    change (fresh_plan (with_first_read OpenFailed env)) with (fresh_plan env).
    by destruct (fresh_plan env _).
Qed.

Lemma X30_witness :
  (Allocate cache_foreign backed_state).2
  = (Allocate (with_first_read OpenFailed cache_foreign) backed_state).2.
Proof.
  apply (proj2 (X30_count_mismatch_plans_afresh cache_foreign backed_state foreign_json
                  eq_refl)).
  intros (_ & _ & _ & Hcount & _). discriminate Hcount.
Defined.
